(** * Bounded-concurrency mapper: [mapWithLimit] / [processBatchWithLimit]

    The three copies of the helper (src/asyncJavaScrpit.js,
    src/unnamed/part_001, src/unnamed/part_002) are embedded over a small
    model of the JavaScript promise machinery they run on: a heap of
    promises, the FIFO microtask queue, and the environment that settles
    the promises returned by the caller's operation.

    Promises are named by their allocation site and the loop iteration
    that creates them; callbacks are defunctionalised into [reaction]s.

    The file has three parts: the definitions (the program, what is
    observed of a run, the invariants and the notions of the
    specification), the facts about them (safety invariant, provenance of
    rejections, equivalence of the copies, liveness), and the properties
    C1 to C10 of the specification.  The functions that stand next to the
    mapper in the three files are defined at the end of the first part, and
    what the code shows of them and of the mapper besides the specification
    closes the file (X1 and following). *)

From Stdlib Require Import List ZArith Lia Bool Arith PeanoNat.
From Stdlib Require String DecimalString.
Import ListNotations.

Set Implicit Arguments.
Set Warnings "-register-all".
Set Default Proof Using "Type".

(** ** Data *)

(** How a call [asyncMapper(item)] behaves: it returns a plain value, throws
    synchronously, or returns a promise that the environment settles later
    (an [async] function always does the latter). *)
Inductive behaviour (R E : Type) : Type :=
| Returns (v : R)
| Throws (e : E)
| AsyncResolves (v : R)
| AsyncRejects (e : E).

Arguments Returns {R E} v.
Arguments Throws {R E} e.
Arguments AsyncResolves {R E} v.
Arguments AsyncRejects {R E} e.

(** The two ways the copies unregister a settled promise. *)
Inductive style : Type :=
| ThenCleanup   (* mapWithLimit: p.then(cleanup, cleanup) *)
| UseFinally.   (* processBatchWithLimit: promise.finally(() => ...) *)

(** Promise objects, named by allocation site. *)
Inductive pid : Type :=
| POp (i : nat)     (* the promise returned by asyncMapper(item_i) *)
| PItem (i : nat)   (* p = Promise.resolve().then(() => asyncMapper(item_i)) *)
| PClean (i : nat)  (* the promise returned by p.then(cleanup, cleanup) / p.finally(..) *)
| PFin (i : nat)    (* inside finally: promise.then(valueThunk | thrower) *)
| PRace (i : nat)   (* Promise.race(executing) of iteration i *)
| PAll              (* Promise.all(results) *)
| PRet.             (* the promise of the async function itself *)

Definition pid_eqb (a b : pid) : bool :=
  match a, b with
  | POp i, POp j | PItem i, PItem j | PClean i, PClean j
  | PFin i, PFin j | PRace i, PRace j => Nat.eqb i j
  | PAll, PAll | PRet, PRet => true
  | _, _ => false
  end.

(** Schedule events: run the microtask at the head of the queue, or let the
    environment settle the promise returned by the i-th operation. *)
Inductive event : Type :=
| Tick
| Settle (i : nat).

Section Mapper.

Variables T R E : Type.

Inductive value : Type :=
| VUndefined
| VBool (b : bool)
| VRes (r : R)
| VArr (l : list value).

Inductive outcome : Type :=
| Fulfilled (v : value)
| Rejected (e : E).

(** Callbacks registered with [then], defunctionalised. *)
Inductive reaction : Type :=
| OnLaunch (i : nat) (item : T)     (* () => asyncMapper(item), resolves PItem i *)
| OnCleanup (i : nat)               (* cleanup, cleanup: resolves PClean i *)
| OnFinally (i : nat)               (* thenFinally / catchFinally of finally *)
| OnFinallyThunk (i : nat) (o : outcome) (* () => value  /  () => { throw reason } *)
| OnSettle (p : pid)                (* the resolving functions of p *)
| OnAwait (rest : list T)           (* the rest of the async function after await *)
| OnAllElement (k : nat).           (* Promise.all: resolve element k / reject *)

Inductive job : Type :=
| JReaction (r : reaction) (o : outcome)  (* PromiseReactionJob *)
| JThenable (p q : pid).                  (* NewPromiseResolveThenableJob: q.then(resolve_p, reject_p) *)

Inductive pstate : Type :=
| Pending (reactions : list reaction)
| Settled (o : outcome).

Record state : Type := mkState {
  heap : pid -> option pstate;
  queue : list job;                (* microtask queue, head first *)
  results : list pid;              (* const results = [] *)
  executing : list pid;            (* new Set(), in insertion order *)
  values : list (option value);    (* the values array of Promise.all *)
  calls : list (nat * T)           (* invocations of asyncMapper so far *)
}.

Variable asyncMapper : T -> behaviour R E.
Variable limit : Z.
Variable sty : style.

(** ** State updates *)

Definition set_heap (p : pid) (ps : pstate) (s : state) : state :=
  mkState (fun q => if pid_eqb p q then Some ps else heap s q)
          (queue s) (results s) (executing s) (values s) (calls s).

Definition enqueue (js : list job) (s : state) : state :=
  mkState (heap s) (queue s ++ js) (results s) (executing s) (values s) (calls s).

Definition set_queue (q : list job) (s : state) : state :=
  mkState (heap s) q (results s) (executing s) (values s) (calls s).

Definition set_results (l : list pid) (s : state) : state :=
  mkState (heap s) (queue s) l (executing s) (values s) (calls s).

Definition set_executing (l : list pid) (s : state) : state :=
  mkState (heap s) (queue s) (results s) l (values s) (calls s).

Definition set_values (l : list (option value)) (s : state) : state :=
  mkState (heap s) (queue s) (results s) (executing s) l (calls s).

Definition set_calls (l : list (nat * T)) (s : state) : state :=
  mkState (heap s) (queue s) (results s) (executing s) (values s) l.

(** ** Promise primitives *)

(** A fresh pending promise. *)
Definition alloc (p : pid) (s : state) : state := set_heap p (Pending []) s.

(** Fulfil or reject [p]; the resolving functions of a promise that is no
    longer pending do nothing. *)
Definition settle (p : pid) (o : outcome) (s : state) : state :=
  match heap s p with
  | Some (Pending rs) =>
      enqueue (map (fun r => JReaction r o) rs) (set_heap p (Settled o) s)
  | _ => s
  end.

(** [p.then(..)] (PerformPromiseThen); the derived promise is allocated by
    the caller where the program keeps it. *)
Definition then_ (p : pid) (r : reaction) (s : state) : state :=
  match heap s p with
  | Some (Pending rs) => set_heap p (Pending (rs ++ [r])) s
  | Some (Settled o) => enqueue [JReaction r o] s
  | None => s
  end.

(** [Set.prototype.add], [delete], [size]. *)
Definition set_add (p : pid) (l : list pid) : list pid :=
  if existsb (pid_eqb p) l then l else l ++ [p].

Definition set_delete (p : pid) (l : list pid) : list pid :=
  filter (fun q => negb (pid_eqb p q)) l.

Definition size (l : list pid) : Z := Z.of_nat (length l).

(** ** The body of the mapper *)

Definition cleanup_reaction (i : nat) : reaction :=
  match sty with
  | ThenCleanup => OnCleanup i
  | UseFinally => OnFinally i
  end.

(** One iteration up to the occupancy check:
      const p = Promise.resolve().then(() => asyncMapper(item));
      results.push(p);
      executing.add(p);
      p.then(cleanup, cleanup);        // or p.finally(...)  *)
Definition launch (item : T) (s : state) : state :=
  let i := length (results s) in
  let s := enqueue [JReaction (OnLaunch i item) (Fulfilled VUndefined)]
                   (alloc (PItem i) s) in
  let s := set_results (results s ++ [PItem i]) s in
  let s := set_executing (set_add (PItem i) (executing s)) s in
  then_ (PItem i) (cleanup_reaction i) (alloc (PClean i) s).

(** [await Promise.race(executing)] in iteration [i]; [rest] is what the
    for-of loop still has to visit when it resumes. *)
Definition await_race (i : nat) (rest : list T) (s : state) : state :=
  let s := alloc (PRace i) s in
  let s := fold_left (fun s e => then_ e (OnSettle (PRace i)) s) (executing s) s in
  then_ (PRace i) (OnAwait rest) s.

Fixpoint subscribe_all (k : nat) (ps : list pid) (s : state) : state :=
  match ps with
  | [] => s
  | p :: ps' => subscribe_all (S k) ps' (then_ p (OnAllElement k) s)
  end.

Definition all_filled (vs : list (option value)) : option (list value) :=
  fold_right (fun ov acc =>
                match ov, acc with
                | Some v, Some l => Some (v :: l)
                | _, _ => None
                end) (Some []) vs.

(** [return Promise.all(results)]: the function's promise is resolved with
    the promise of [Promise.all], which is a thenable. *)
Definition finish (s : state) : state :=
  let s := set_values (repeat None (length (results s))) (alloc PAll s) in
  let s := subscribe_all 0 (results s) s in
  let s := match all_filled (values s) with
           | Some l => settle PAll (Fulfilled (VArr l)) s
           | None => s
           end in
  enqueue [JThenable PRet PAll] s.

(** The for-of loop, from the item it is about to visit up to the next
    suspension or the return. *)
Fixpoint loop (items : list T) (s : state) : state :=
  match items with
  | [] => finish s
  | item :: rest =>
      let s1 := launch item s in
      if (limit <=? size (executing s1))%Z
      then await_race (length (results s)) rest s1
      else loop rest s1
  end.

Definition init : state :=
  mkState (fun p => if pid_eqb PRet p then Some (Pending []) else None)
          [] [] [] [] [].

(** The call itself runs synchronously up to its first await. *)
Definition mapper (inputs : list T) : state := loop inputs init.

(** ** The microtask jobs *)

Fixpoint update_nth {A} (k : nat) (x : A) (l : list A) : list A :=
  match l, k with
  | [], _ => []
  | _ :: l', O => x :: l'
  | y :: l', S k' => y :: update_nth k' x l'
  end.

(** Promise.all's resolve-element function for index [k]. *)
Definition all_resolve (k : nat) (v : value) (s : state) : state :=
  let s := set_values (update_nth k (Some v) (values s)) s in
  match all_filled (values s) with
  | Some l => settle PAll (Fulfilled (VArr l)) s
  | None => s
  end.

Definition op_outcome (b : behaviour R E) : outcome :=
  match b with
  | Returns v | AsyncResolves v => Fulfilled (VRes v)
  | Throws e | AsyncRejects e => Rejected e
  end.

Definition is_async (b : behaviour R E) : bool :=
  match b with
  | AsyncResolves _ | AsyncRejects _ => true
  | _ => false
  end.

Definition run_reaction (r : reaction) (o : outcome) (s : state) : state :=
  match r with
  | OnLaunch i item =>
      let s := set_calls (calls s ++ [(i, item)]) s in
      if is_async (asyncMapper item)
      then enqueue [JThenable (PItem i) (POp i)] (alloc (POp i) s)
      else settle (PItem i) (op_outcome (asyncMapper item)) s
  | OnCleanup i =>
      let b := existsb (pid_eqb (PItem i)) (executing s) in
      let s := set_executing (set_delete (PItem i) (executing s)) s in
      settle (PClean i) (Fulfilled (VBool b)) s
  | OnFinally i =>
      let b := existsb (pid_eqb (PItem i)) (executing s) in
      let s := set_executing (set_delete (PItem i) (executing s)) s in
      enqueue [JReaction (OnFinallyThunk i o) (Fulfilled (VBool b));
               JThenable (PClean i) (PFin i)]
              (alloc (PFin i) s)
  | OnFinallyThunk i o0 => settle (PFin i) o0 s
  | OnSettle p => settle p o s
  | OnAwait rest =>
      match o with
      | Fulfilled _ => loop rest s
      | Rejected e => settle PRet (Rejected e) s
      end
  | OnAllElement k =>
      match o with
      | Fulfilled v => all_resolve k v s
      | Rejected e => settle PAll (Rejected e) s
      end
  end.

Definition run_job (j : job) (s : state) : state :=
  match j with
  | JReaction r o => run_reaction r o s
  | JThenable p q => then_ q (OnSettle p) s
  end.

Definition item_of (i : nat) (s : state) : option T :=
  match find (fun c => Nat.eqb (fst c) i) (calls s) with
  | Some c => Some (snd c)
  | None => None
  end.

Definition step (ev : event) (s : state) : state :=
  match ev with
  | Tick =>
      match queue s with
      | [] => s
      | j :: q => run_job j (set_queue q s)
      end
  | Settle i =>
      match heap s (POp i), item_of i s with
      | Some (Pending _), Some item => settle (POp i) (op_outcome (asyncMapper item)) s
      | _, _ => s
      end
  end.

Definition run (sched : list event) (s : state) : state :=
  fold_left (fun s ev => step ev s) sched s.

End Mapper.

Arguments VUndefined {R}.
Arguments VBool {R} b.
Arguments VRes {R} r.
Arguments VArr {R} l.
Arguments Fulfilled {R E} v.
Arguments Rejected {R E} e.
Arguments OnLaunch {T R E} i item.
Arguments OnCleanup {T R E} i.
Arguments OnFinally {T R E} i.
Arguments OnFinallyThunk {T R E} i o.
Arguments OnSettle {T R E} p.
Arguments OnAwait {T R E} rest.
Arguments OnAllElement {T R E} k.
Arguments JReaction {T R E} r o.
Arguments JThenable {T R E} p q.
Arguments Pending {T R E} reactions.
Arguments Settled {T R E} o.
Arguments init {T R E}.
Arguments mapper {T R E} limit sty inputs.

(** The three copies in the repository. *)
Definition mapWithLimit {T R E} (inputs : list T) (limit : Z) : state T R E :=
  mapper limit ThenCleanup inputs.

Definition processBatchWithLimit {T R E} (items : list T) (limit : Z) : state T R E :=
  mapper limit UseFinally items.

(** ** Observations *)

Definition returned {T R E} (s : state T R E) : option (outcome R E) :=
  match heap s PRet with
  | Some (Settled o) => Some o
  | _ => None
  end.

(** Operation [i] has been invoked and the promise it returned is not
    settled yet. *)
Definition op_pending {T R E} (s : state T R E) (i : nat) : bool :=
  match heap s (POp i) with
  | Some (Pending _) => true
  | _ => false
  end.

Definition in_flight {T R E} (s : state T R E) : list nat :=
  filter (op_pending s) (seq 0 (length (results s))).

(** Iteration [i] has created its promise [p]: the item is launched. *)
Definition launched {T R E} (s : state T R E) (i : nat) : bool :=
  i <? length (results s).

(** The promise [p] of iteration [i] is not settled yet: the item is
    launched and its operation has not completed. *)
Definition item_pending {T R E} (s : state T R E) (i : nat) : bool :=
  match heap s (PItem i) with
  | Some (Pending _) => true
  | _ => false
  end.

Definition unsettled {T R E} (s : state T R E) : list nat :=
  filter (item_pending s) (seq 0 (length (results s))).

Definition invoked {T R E} (s : state T R E) (i : nat) : bool :=
  existsb (fun c => Nat.eqb (fst c) i) (calls s).

(** [Promise.race] was reached in iteration [i], i.e. the loop suspended. *)
Definition suspended_at {T R E} (s : state T R E) (i : nat) : bool :=
  match heap s (PRace i) with
  | Some _ => true
  | None => false
  end.

(** ** The invariant of the promise machine *)

Section Invariant.

Variables T R E : Type.
Variable asyncMapper : T -> behaviour R E.
Variable limit : Z.
Variable sty : style.
Variable inputs : list T.

Local Abbreviation state := (state T R E).
Local Abbreviation job := (job T R E).
Local Abbreviation reaction := (reaction T R E).

(** The peak occupancy: [limit], or 1 when the limit is below 1. *)
Definition bound : Z := Z.max limit 1.

Definition indexed (l : list T) : list (nat * T) := combine (seq 0 (length l)) l.

Definition cleanup_of (r : reaction) : option nat :=
  match r with
  | OnCleanup i | OnFinally i => Some i
  | _ => None
  end.

Definition cleanup_job (j : job) : option nat :=
  match j with
  | JReaction r _ => cleanup_of r
  | JThenable _ _ => None
  end.

Definition launch_of (j : job) : list (nat * T) :=
  match j with
  | JReaction (OnLaunch i item) _ => [(i, item)]
  | _ => []
  end.

Definition launches (q : list job) : list (nat * T) := flat_map launch_of q.

Definition is_await (j : job) : bool :=
  match j with
  | JReaction (OnAwait _) _ => true
  | _ => false
  end.

Definition mem (p : pid) (l : list pid) : bool := existsb (pid_eqb p) l.

(** A cleanup job whose promise is still in the set: running it frees a slot. *)
Definition effective (ex : list pid) (j : job) : bool :=
  match cleanup_job j with
  | Some i => mem (PItem i) ex
  | None => false
  end.

Definition cleans (k : nat) (j : job) : bool :=
  match cleanup_job j with
  | Some i => Nat.eqb i k
  | None => false
  end.

Definition settles (p : pid) (j : job) : bool :=
  match j with
  | JReaction (OnSettle q) _ => pid_eqb p q
  | _ => false
  end.

Definition all_elem (k : nat) (j : job) : bool :=
  match j with
  | JReaction (OnAllElement k') _ => Nat.eqb k k'
  | _ => false
  end.

(** Scanning the queue from its head, a job satisfying [G] comes before
    any job satisfying [P]. *)
Fixpoint guarded (P G : job -> bool) (q : list job) : bool :=
  match q with
  | [] => true
  | j :: q' => if G j then true else if P j then false else guarded P G q'
  end.

(** On which promise a reaction may be registered. *)
Definition hosted (s : state) (p : pid) (r : reaction) : Prop :=
  match r with
  | OnLaunch _ _ => False
  | OnFinallyThunk _ _ => False
  | OnCleanup i | OnFinally i => p = PItem i
  | OnSettle (PItem i) => p = POp i
  | OnSettle (PClean i) => p = PFin i
  | OnSettle (PRace j) => (exists i, p = PItem i) /\ heap s (PRace j) <> None
  | OnSettle PRet => p = PAll
  | OnSettle _ => False
  | OnAwait _ => exists j, p = PRace j
  | OnAllElement k => p = PItem k /\ heap s PAll <> None
  end.

(** What a queued job knows about the heap. *)
Definition job_ok (s : state) (j : job) : Prop :=
  match j with
  | JReaction r o =>
      match r with
      | OnLaunch i item =>
          (exists rs, heap s (PItem i) = Some (Pending rs))
          /\ heap s (POp i) = None
      | OnCleanup i | OnFinally i => heap s (PItem i) = Some (Settled o)
      | OnFinallyThunk _ _ => True
      | OnSettle (PItem i) => heap s (POp i) = Some (Settled o)
      | OnSettle (PClean _) => True
      | OnSettle (PRace j) =>
          (exists i, heap s (PItem i) = Some (Settled o))
          /\ heap s (PRace j) <> None
      | OnSettle PRet => heap s PAll = Some (Settled o)
      | OnSettle _ => False
      | OnAwait _ => exists j, heap s (PRace j) <> None
      | OnAllElement k =>
          heap s (PItem k) = Some (Settled o) /\ heap s PAll <> None
      end
  | JThenable p q =>
      match p, q with
      | PItem i, POp j => i = j
      | PClean i, PFin j => i = j
      | PRet, PAll => True
      | _, _ => False
      end
  end.

Record shape (s : state) : Prop := {
  sh_results : results s = map PItem (seq 0 (length (results s)));
  sh_len : length (results s) <= length inputs;
  sh_exec : forall p, In p (executing s) ->
      exists i, p = PItem i /\ i < length (results s);
  sh_size : (size (executing s) <= bound)%Z;
  sh_fresh_item : forall i, length (results s) <= i -> heap s (PItem i) = None;
  sh_alloc_item : forall i, i < length (results s) -> heap s (PItem i) <> None;
  sh_fresh_race : forall j, length (results s) <= j -> heap s (PRace j) = None;
  sh_host : forall p rs r,
      heap s p = Some (Pending rs) -> In r rs -> hosted s p r;
  sh_first : forall i rs, heap s (PItem i) = Some (Pending rs) ->
      exists c rs', rs = c :: rs' /\ cleanup_of c = Some i;
  sh_jobs : forall j, In j (queue s) -> job_ok s j;
  sh_launches :
      calls s ++ launches (queue s) = firstn (length (results s)) (indexed inputs);
  sh_item_exec : forall i rs,
      heap s (PItem i) = Some (Pending rs) -> In (PItem i) (executing s);
  sh_exec_cleanup : forall i o,
      heap s (PItem i) = Some (Settled o) -> In (PItem i) (executing s) ->
      existsb (cleans i) (queue s) = true;
  sh_item_out : forall i o, heap s (PItem i) = Some (Settled o) ->
      exists item, nth_error inputs i = Some item
                   /\ o = op_outcome (asyncMapper item)
                   /\ In (i, item) (calls s)
                   /\ op_pending s i = false;
  sh_op_out : forall i o, heap s (POp i) = Some (Settled o) ->
      exists item, nth_error inputs i = Some item
                   /\ o = op_outcome (asyncMapper item);
  sh_op_item : forall i, op_pending s i = true ->
      exists rs, heap s (PItem i) = Some (Pending rs);
  sh_op_called : forall i, heap s (POp i) <> None ->
      exists item, In (i, item) (calls s);
  sh_all_none : heap s PAll = None -> values s = [];
  sh_all_some : heap s PAll <> None ->
      length (results s) = length inputs
      /\ length (values s) = length (results s);
  sh_values : forall k v, nth_error (values s) k = Some (Some v) ->
      heap s (PItem k) = Some (Settled (Fulfilled v))
      /\ ~ In (PItem k) (executing s);
  sh_all_ok : forall v, heap s PAll = Some (Settled (Fulfilled v)) ->
      exists l, v = VArr l /\ all_filled (values s) = Some l;
  sh_ret : forall v, heap s PRet = Some (Settled (Fulfilled v)) ->
      heap s PAll = Some (Settled (Fulfilled v));
  sh_all_order : forall k, In (PItem k) (executing s) ->
      guarded (all_elem k) (cleans k) (queue s) = true;
  sh_seq : (limit <= 1)%Z -> forall i, S i < length (results s) ->
      exists o, heap s (PItem i) = Some (Settled o);
  sh_exec_le : (size (executing s) <= Z.of_nat (length (results s)))%Z;
  sh_race_limit : forall j, heap s (PRace j) <> None ->
      (limit <= Z.of_nat (length inputs))%Z
}.

(** Where the async function stands: it has returned or thrown ([Done]),
    it is suspended on a pending race, or the race has settled and its
    continuation sits in the queue. *)
Definition no_await (q : list job) : Prop := existsb is_await q = false.

Definition no_race_pending (s : state) : Prop :=
  forall j rs, heap s (PRace j) <> Some (Pending rs).

Definition suspended_ok (s : state) (rest : list T) : Prop :=
  heap s PAll = None /\ inputs = firstn (length (results s)) inputs ++ rest.

Inductive control (s : state) : Prop :=
| CDone :
    no_await (queue s) -> no_race_pending s -> control s
| CWaiting j rest :
    no_await (queue s) ->
    heap s (PRace j) = Some (Pending [OnAwait rest]) ->
    (forall j' rs, heap s (PRace j') = Some (Pending rs) -> j' = j) ->
    suspended_ok s rest ->
    (size (executing s) < bound)%Z
    \/ guarded (settles (PRace j)) (effective (executing s)) (queue s) = true ->
    control s
| CResuming pre rest o post :
    no_race_pending s ->
    queue s = pre ++ JReaction (OnAwait rest) o :: post ->
    no_await pre -> no_await post ->
    suspended_ok s rest ->
    (size (executing s) < bound)%Z ->
    control s.

Definition inv (s : state) : Prop := shape s /\ control s.

(** Inside the loop, about to visit [items]. *)
Definition running (items : list T) (s : state) : Prop :=
  shape s /\ no_await (queue s) /\ no_race_pending s
  /\ suspended_ok s items /\ (size (executing s) < bound)%Z.

End Invariant.

(* Projections take everything after the invariant itself explicitly. *)
Arguments sh_results : clear implicits.
Arguments sh_results {T R E asyncMapper limit inputs s} _.
Arguments sh_len : clear implicits.
Arguments sh_len {T R E asyncMapper limit inputs s} _.
Arguments sh_exec : clear implicits.
Arguments sh_exec {T R E asyncMapper limit inputs s} _.
Arguments sh_size : clear implicits.
Arguments sh_size {T R E asyncMapper limit inputs s} _.
Arguments sh_fresh_item : clear implicits.
Arguments sh_fresh_item {T R E asyncMapper limit inputs s} _.
Arguments sh_alloc_item : clear implicits.
Arguments sh_alloc_item {T R E asyncMapper limit inputs s} _.
Arguments sh_fresh_race : clear implicits.
Arguments sh_fresh_race {T R E asyncMapper limit inputs s} _.
Arguments sh_host : clear implicits.
Arguments sh_host {T R E asyncMapper limit inputs s} _.
Arguments sh_first : clear implicits.
Arguments sh_first {T R E asyncMapper limit inputs s} _.
Arguments sh_jobs : clear implicits.
Arguments sh_jobs {T R E asyncMapper limit inputs s} _.
Arguments sh_launches : clear implicits.
Arguments sh_launches {T R E asyncMapper limit inputs s} _.
Arguments sh_item_exec : clear implicits.
Arguments sh_item_exec {T R E asyncMapper limit inputs s} _.
Arguments sh_exec_cleanup : clear implicits.
Arguments sh_exec_cleanup {T R E asyncMapper limit inputs s} _.
Arguments sh_item_out : clear implicits.
Arguments sh_item_out {T R E asyncMapper limit inputs s} _.
Arguments sh_op_out : clear implicits.
Arguments sh_op_out {T R E asyncMapper limit inputs s} _.
Arguments sh_op_item : clear implicits.
Arguments sh_op_item {T R E asyncMapper limit inputs s} _.
Arguments sh_op_called : clear implicits.
Arguments sh_op_called {T R E asyncMapper limit inputs s} _.
Arguments sh_all_none : clear implicits.
Arguments sh_all_none {T R E asyncMapper limit inputs s} _.
Arguments sh_all_some : clear implicits.
Arguments sh_all_some {T R E asyncMapper limit inputs s} _.
Arguments sh_values : clear implicits.
Arguments sh_values {T R E asyncMapper limit inputs s} _.
Arguments sh_all_ok : clear implicits.
Arguments sh_all_ok {T R E asyncMapper limit inputs s} _.
Arguments sh_ret : clear implicits.
Arguments sh_ret {T R E asyncMapper limit inputs s} _.
Arguments sh_all_order : clear implicits.
Arguments sh_all_order {T R E asyncMapper limit inputs s} _.
Arguments sh_seq : clear implicits.
Arguments sh_seq {T R E asyncMapper limit inputs s} _.
Arguments sh_exec_le : clear implicits.
Arguments sh_exec_le {T R E asyncMapper limit inputs s} _.
Arguments sh_race_limit : clear implicits.
Arguments sh_race_limit {T R E asyncMapper limit inputs s} _.
Arguments is_await {T R E} j.

Unset Implicit Arguments.

(** ** Auxiliary notions of the proofs *)

Definition essential (q : pid) : bool :=
  match q with
  | PClean _ | PFin _ => false
  | _ => true
  end.

Section PreservationDefs.

Variables T R E : Type.
Variable asyncMapper : T -> behaviour R E.
Variable limit : Z.
Variable sty : style.
Variable inputs : list T.

Local Abbreviation state := (state T R E).
Local Abbreviation job := (job T R E).

Definition settle_ok (s : state) (p : pid) (o : outcome R E) : Prop :=
  match p with
  | POp i =>
      exists item, nth_error inputs i = Some item
                   /\ o = op_outcome (asyncMapper item)
  | PItem i =>
      exists item, nth_error inputs i = Some item
                   /\ o = op_outcome (asyncMapper item)
                   /\ In (i, item) (calls s)
                   /\ op_pending s i = false
                   /\ (forall item', ~ In (i, item') (launches (queue s)))
  | PClean _ | PFin _ | PRace _ => True
  | PAll =>
      match o with
      | Fulfilled v => exists l, v = VArr l /\ all_filled (values s) = Some l
      | Rejected _ => True
      end
  | PRet =>
      match o with
      | Fulfilled v => heap s PAll = Some (Settled (Fulfilled v))
      | Rejected _ => True
      end
  end.

End PreservationDefs.

Section ControlDefs.

Variables T R E : Type.
Variable limit : Z.
Variable inputs : list T.

Local Abbreviation state := (state T R E).
Local Abbreviation job := (job T R E).

(** Changes that leave the control state alone: the races, the sets and
    the results are untouched and the queue only grows by jobs that
    neither resume the function nor settle a race unguarded. *)
Record benign (s s' : state) : Prop := {
  bn_race : forall j, heap s' (PRace j) = heap s (PRace j);
  bn_all : heap s PAll = None -> heap s' PAll = None;
  bn_results : results s' = results s;
  bn_executing : executing s' = executing s;
  bn_queue : exists new, queue s' = queue s ++ new
      /\ existsb is_await new = false
      /\ forall j, guarded (settles (PRace j)) (effective (executing s)) new = true
}.

End ControlDefs.

Arguments benign {T R E} s s'.

Section StepsDefs.

Variables T R E : Type.
Variable asyncMapper : T -> behaviour R E.
Variable limit : Z.
Variable sty : style.
Variable inputs : list T.

Local Abbreviation state := (state T R E).
Local Abbreviation job := (job T R E).

(** The state while [Promise.race] subscribes to the members of the set. *)
Record racing (i : nat) (s0 s : state) : Prop := {
  rc_shape : shape asyncMapper limit inputs s;
  rc_race : heap s (PRace i) = Some (Pending []);
  rc_others : forall j, j <> i -> heap s (PRace j) = heap s0 (PRace j);
  rc_all : heap s PAll = None;
  rc_results : results s = results s0;
  rc_executing : executing s = executing s0;
  rc_await : no_await (queue s);
  rc_guard :
    guarded (settles (PRace i)) (effective (executing s0)) (queue s) = true
}.

End StepsDefs.

(** ** Where rejections come from *)

Section ProvenanceDefs.

Variables T R E : Type.
Variable asyncMapper : T -> behaviour R E.
Variable limit : Z.
Variable sty : style.
Variable inputs : list T.

Local Abbreviation state := (state T R E).
Local Abbreviation job := (job T R E).

(** Some operation on an input item fails with [e]. *)
Definition fails (e : E) : Prop :=
  exists x, In x inputs /\ op_outcome (asyncMapper x) = Rejected e.

Definition ok_outcome (o : outcome R E) : Prop :=
  match o with
  | Rejected e => fails e
  | Fulfilled _ => True
  end.

Definition ok_reaction (r : reaction T R E) : Prop :=
  match r with
  | OnFinallyThunk _ o => ok_outcome o
  | _ => True
  end.

Definition ok_job (j : job) : Prop :=
  match j with
  | JReaction r o => ok_outcome o /\ ok_reaction r
  | JThenable _ _ => True
  end.

Record prov (s : state) : Prop := {
  pv_heap : forall p o, heap s p = Some (Settled o) -> ok_outcome o;
  pv_reactions : forall p rs r,
      heap s p = Some (Pending rs) -> In r rs -> ok_reaction r;
  pv_queue : forall j, In j (queue s) -> ok_job j
}.

End ProvenanceDefs.

Arguments fails {T R E} asyncMapper inputs e.
Arguments prov {T R E} asyncMapper inputs s.

(** ** The two ways of unregistering a settled promise *)

Section StylesDefs.

Variables T R E : Type.
Variable asyncMapper : T -> behaviour R E.
Variable limit : Z.

Local Abbreviation state := (state T R E).
Local Abbreviation job := (job T R E).
Local Abbreviation reaction := (reaction T R E).
Local Abbreviation stepB := (step asyncMapper limit UseFinally).
Local Abbreviation runB := (run asyncMapper limit UseFinally).

(** [finally] spends three more microtasks per promise on the promise it
    returns; these touch nothing else. *)
Definition is_clean (p : pid) : bool :=
  match p with PClean _ => true | _ => false end.

Definition is_fin (p : pid) : bool :=
  match p with PFin _ => true | _ => false end.

Definition extra_reaction (r : reaction) : bool :=
  match r with
  | OnFinallyThunk _ _ => true
  | OnSettle p => is_clean p
  | _ => false
  end.

Definition extra_job (j : job) : bool :=
  match j with
  | JReaction r _ => extra_reaction r
  | JThenable p _ => is_clean p
  end.

(** The reaction of the [then(cleanup, cleanup)] version that stands for a
    reaction of the [finally] version. *)
Definition as_then (r : reaction) : reaction :=
  match r with
  | OnFinally i => OnCleanup i
  | _ => r
  end.

Definition as_then_job (j : job) : job :=
  match j with
  | JReaction r o => JReaction (as_then r) o
  | JThenable p q => JThenable p q
  end.

Definition as_then_state (ps : pstate T R E) : pstate T R E :=
  match ps with
  | Pending rs => Pending (map as_then rs)
  | Settled o => Settled o
  end.

Definition core (q : list job) : list job :=
  map as_then_job (filter (fun j => negb (extra_job j)) q).

(** The other reactions and jobs act on essential promises only. *)
Definition plain_reaction (r : reaction) : bool :=
  match r with
  | OnFinallyThunk _ _ => false
  | OnSettle p => essential p
  | _ => true
  end.

Definition plain_job (j : job) : bool :=
  match j with
  | JThenable p q =>
      if is_clean p then is_fin q else essential p && essential q
  | JReaction r _ => plain_reaction r || extra_reaction r
  end.

Record sim (a b : state) : Prop := {
  sm_heap : forall p, essential p = true ->
      heap a p = option_map as_then_state (heap b p);
  sm_queue : queue a = core (queue b);
  sm_results : results a = results b;
  sm_executing : executing a = executing b;
  sm_values : values a = values b;
  sm_calls : calls a = calls b;
  sm_clean_a : forall i rs, heap a (PClean i) = Some (Pending rs) -> rs = [];
  sm_clean_b : forall i rs, heap b (PClean i) = Some (Pending rs) -> rs = [];
  sm_fin_b : forall i rs r, heap b (PFin i) = Some (Pending rs) -> In r rs ->
      extra_reaction r = true;
  sm_plain_b : forall p rs r, essential p = true ->
      heap b p = Some (Pending rs) -> In r rs -> plain_reaction r = true;
  sm_jobs_b : forall j, In j (queue b) -> plain_job j = true;
  sm_exec_ess : forall p, In p (executing b) -> essential p = true;
  sm_results_ess : forall p, In p (results b) -> essential p = true
}.

Fixpoint then_schedule (sched : list event) (b : state) : list event :=
  match sched with
  | [] => []
  | ev :: rest =>
      let b' := stepB ev b in
      match ev, queue b with
      | Settle i, _ => Settle i :: then_schedule rest b'
      | Tick, j :: _ =>
          if extra_job j then then_schedule rest b'
          else Tick :: then_schedule rest b'
      | Tick, [] => then_schedule rest b'
      end
  end.

(** The extra jobs in front of the first job that both versions have. *)
Fixpoint lead (q : list job) : option nat :=
  match q with
  | [] => None
  | j :: q' =>
      if extra_job j
      then match lead q' with Some k => Some (S k) | None => None end
      else Some 0
  end.

Definition catch_up (b : state) : list event :=
  match lead (queue b) with
  | Some k => repeat Tick (S k)
  | None => []
  end.

Fixpoint finally_schedule (sched : list event) (b : state) : list event :=
  match sched with
  | [] => []
  | Settle i :: rest => Settle i :: finally_schedule rest (stepB (Settle i) b)
  | Tick :: rest => catch_up b ++ finally_schedule rest (runB (catch_up b) b)
  end.

End StylesDefs.

Arguments sim {T R E} a b.
Arguments lead {T R E} q.
Arguments catch_up {T R E} b.
Arguments extra_job {T R E} j.
Arguments then_schedule {T R E} asyncMapper limit sched b.
Arguments finally_schedule {T R E} asyncMapper limit sched b.

(** ** The work that is left *)

Section WorkDefs.

Variables T R E : Type.
Variable n : nat.

Local Abbreviation state := (state T R E).
Local Abbreviation job := (job T R E).
Local Abbreviation reaction := (reaction T R E).

(** The promises that a call on [n] items allocates. *)
Definition domain : list pid :=
  map POp (seq 0 n) ++ map PItem (seq 0 n) ++ map PClean (seq 0 n)
  ++ map PFin (seq 0 n) ++ map PRace (seq 0 n) ++ [PAll; PRet].

(** Resuming the loop with [k] items to visit: each of them is launched
    (a launch job and a cleanup reaction), may await a race that
    subscribes to at most [n] promises, and [Promise.all] subscribes to
    [n] promises at the end. *)
Definition await_weight (k : nat) : nat := k * (n + 8) + n + 4.

(** An upper bound of the jobs that running a reaction brings about, the
    reaction's own job included. *)
Definition reaction_weight (r : reaction) : nat :=
  match r with
  | OnLaunch _ _ => 3
  | OnCleanup _ => 1
  | OnFinally _ => 4
  | OnFinallyThunk _ _ => 1
  | OnSettle _ => 1
  | OnAwait rest => await_weight (length rest)
  | OnAllElement _ => 1
  end.

Definition job_weight (j : job) : nat :=
  match j with
  | JReaction r _ => reaction_weight r
  | JThenable _ _ => 2
  end.

Definition pstate_weight (ps : option (pstate T R E)) : nat :=
  match ps with
  | Some (Pending rs) => list_sum (map reaction_weight rs)
  | _ => 0
  end.

Definition heap_weight (s : state) : nat :=
  list_sum (map (fun p => pstate_weight (heap s p)) domain).

(** The microtask turns that are left at most, however the operations
    settle. *)
Definition work (s : state) : nat :=
  heap_weight s + list_sum (map job_weight (queue s)).

(** The promises inside [finally] belong to items of the input. *)
Definition fin_ok (s : state) : Prop :=
  forall i, heap s (PFin i) <> None -> i < n.

End WorkDefs.

Arguments work {T R E} n s.
Arguments heap_weight {T R E} n s.
Arguments fin_ok {T R E} n s.
Arguments reaction_weight {T R E} n r.
Arguments job_weight {T R E} n j.
Arguments pstate_weight {T R E} n ps.

(** The promises that the loop of the mapper allocates itself. *)
Definition loop_pid (q : pid) : bool :=
  match q with
  | PItem _ | PClean _ | PRace _ | PAll => true
  | _ => false
  end.

Section TrackedDefs.

Variables T R E : Type.
Variable inputs : list T.

Local Abbreviation state := (state T R E).
Local Abbreviation n := (length inputs).

(** Every pending promise that carries reactions is counted. *)
Definition tracked (s : state) : Prop :=
  forall p rs, heap s p = Some (Pending rs) -> rs = [] \/ In p (domain n).

End TrackedDefs.

Arguments tracked {T R E} inputs s.

(** ** What keeps a pending promise alive *)

Section AliveDefs.

Variables T R E : Type.

Local Abbreviation state := (state T R E).
Local Abbreviation job := (job T R E).
Local Abbreviation reaction := (reaction T R E).

(** A job is in the queue, or it is the job [x] that is being run. *)
Definition queued (x : option job) (s : state) (j : job) : Prop :=
  In j (queue s) \/ x = Some j.

(** A reaction will run: it is registered on a pending promise, or its job
    is queued. *)
Definition scheduled (x : option job) (s : state) (r : reaction) : Prop :=
  (exists p rs, essential p = true /\ heap s p = Some (Pending rs) /\ In r rs)
  \/ (exists o, queued x s (JReaction r o)).

Definition item_served (x : option job) (s : state) (i : nat) : Prop :=
  (exists item o, queued x s (JReaction (OnLaunch i item) o))
  \/ queued x s (JThenable (PItem i) (POp i))
  \/ scheduled x s (OnSettle (PItem i)).

Definition all_served (x : option job) (s : state) : Prop :=
  (exists k, nth_error (values s) k = Some None)
  /\ forall k, nth_error (values s) k = Some None ->
               scheduled x s (OnAllElement k).

Definition ret_served (x : option job) (s : state) : Prop :=
  queued x s (JThenable PRet PAll) \/ scheduled x s (OnSettle PRet).

(** Every pending promise of the call is waited for by something that will
    run. *)
Record alive0 (x : option job) (s : state) : Prop := {
  al_ret_alloc : heap s PRet <> None;
  al_ret : returned s = None -> heap s PAll <> None -> ret_served x s;
  al_race : forall j rs, heap s (PRace j) = Some (Pending rs) ->
      scheduled x s (OnSettle (PRace j));
  al_item : forall i rs, heap s (PItem i) = Some (Pending rs) ->
      item_served x s i;
  al_thenable : forall p q, queued x s (JThenable p q) -> heap s q <> None
}.

Definition all_ok (x : option job) (s : state) : Prop :=
  forall rs, heap s PAll = Some (Pending rs) -> all_served x s.

(** Before [Promise.all] is reached the function is suspended on a race or
    about to resume. *)
Definition awaited (x : option job) (s : state) : Prop :=
  returned s = None -> heap s PAll = None ->
  exists rest, scheduled x s (OnAwait rest).

Definition alive (x : option job) (s : state) : Prop :=
  alive0 x s /\ all_ok x s /\ awaited x s.

(** From [s] to [s'] nothing that was scheduled is lost, and what is new
    and pending is waited for. *)
Record advance (s s' : state) : Prop := {
  ad_sched : forall x r, scheduled x s r -> scheduled x s' r;
  ad_queue : forall j, In j (queue s) -> In j (queue s');
  ad_some : forall p, heap s p <> None -> heap s' p <> None;
  ad_item : forall i rs', heap s' (PItem i) = Some (Pending rs') ->
      (exists rs, heap s (PItem i) = Some (Pending rs))
      \/ item_served None s' i;
  ad_race : forall j rs', heap s' (PRace j) = Some (Pending rs') ->
      (exists rs, heap s (PRace j) = Some (Pending rs))
      \/ scheduled None s' (OnSettle (PRace j));
  ad_ret_pending : forall rs', heap s' PRet = Some (Pending rs') ->
      exists rs, heap s PRet = Some (Pending rs);
  ad_ret : heap s PAll = None -> heap s' PAll <> None ->
      returned s' = None -> ret_served None s';
  ad_thenable : forall p q, In (JThenable p q) (queue s') ->
      In (JThenable p q) (queue s) \/ heap s' q <> None
}.

End AliveDefs.

Arguments queued {T R E} x s j.
Arguments scheduled {T R E} x s r.
Arguments item_served {T R E} x s i.
Arguments all_served {T R E} x s.
Arguments ret_served {T R E} x s.
Arguments alive0 {T R E} x s.
Arguments all_ok {T R E} x s.
Arguments awaited {T R E} x s.
Arguments alive {T R E} x s.
Arguments advance {T R E} s s'.

(** The promises whose pending state the liveness invariant speaks about. *)
Definition watched (p : pid) : bool :=
  match p with
  | PItem _ | PRace _ | PRet => true
  | _ => false
  end.

Section SteadyDefs.

Variables T R E : Type.

Local Abbreviation state := (state T R E).

(** An advance that neither touches the values of [Promise.all] nor
    allocates its promise. *)
Definition steady (s s' : state) : Prop :=
  advance s s' /\ values s' = values s
  /\ forall rs', heap s' PAll = Some (Pending rs') ->
                 exists rs, heap s PAll = Some (Pending rs).

End SteadyDefs.

Arguments steady {T R E} s s'.

Section GoodDefs.

Variables T R E : Type.
Variable asyncMapper : T -> behaviour R E.
Variable limit : Z.
Variable inputs : list T.

Local Abbreviation state := (state T R E).
Local Abbreviation n := (length inputs).
Local Abbreviation inv := (inv asyncMapper limit inputs).

(** The invariants that hold along every run. *)
Definition good (s : state) : Prop := inv s /\ fin_ok n s /\ alive None s.

End GoodDefs.

Arguments good {T R E} asyncMapper limit inputs s.

(** ** Runs driven by timers *)

Section TimerDefs.

Variables T R E : Type.
Variable asyncMapper : T -> behaviour R E.
Variable limit : Z.
Variable sty : style.
Variable inputs : list T.

Local Abbreviation state := (state T R E).

(** Run the microtask queue until it is empty; [work] bounds the turns
    this takes. *)
Definition drain (s : state) : state :=
  run asyncMapper limit sty (repeat Tick (work (length inputs) s)) s.

(** A run driven by timers: the operations settle in the given order, each
    in a task of its own, and the microtask queue is drained after every
    task. *)
Definition timer_run (order : list nat) : state :=
  fold_left (fun s i => drain (step asyncMapper limit sty (Settle i) s))
            order (drain (mapper limit sty inputs)).

End TimerDefs.

Arguments drain {T R E} asyncMapper limit sty inputs s.
Arguments timer_run {T R E} asyncMapper limit sty inputs order.

(** ** The promise that the cleanup call derives *)

Section DerivedDefs.

Variables T R E : Type.

Local Abbreviation state := (state T R E).
Local Abbreviation job := (job T R E).
Local Abbreviation reaction := (reaction T R E).

(** The reactions that a copy creates: [then(cleanup, cleanup)] never
    goes through the steps of [finally], and [finally] never registers
    [cleanup] itself. *)
Definition fits (sty : style) (r : reaction) : bool :=
  match sty, r with
  | ThenCleanup, OnFinally _ => false
  | ThenCleanup, OnFinallyThunk _ _ => false
  | ThenCleanup, OnSettle p => negb (is_clean p)
  | UseFinally, OnCleanup _ => false
  | _, _ => true
  end.

Definition fits_job (sty : style) (j : job) : bool :=
  match j with
  | JReaction r _ => fits sty r
  | JThenable p _ =>
      match sty with
      | ThenCleanup => negb (is_clean p)
      | UseFinally => true
      end
  end.

(** The resolving functions of the derived promise are registered on the
    promise inside [finally] only, and the thunks of [finally] are queued
    at once, never registered. *)
Definition placed (p : pid) (r : reaction) : Prop :=
  match r with
  | OnFinallyThunk _ _ => False
  | OnSettle (PClean i) => p = PFin i
  | _ => True
  end.

(** The outcome that a job of [finally] carries is the outcome of the
    item's promise. *)
Definition job_fine (sty : style) (s : state) (j : job) : Prop :=
  fits_job sty j = true
  /\ match j with
     | JReaction (OnFinallyThunk i o0) _ => heap s (PItem i) = Some (Settled o0)
     | JReaction (OnSettle (PClean i)) o => heap s (PItem i) = Some (Settled o)
     | _ => True
     end.

(** What the derived promise of an item can be settled with:
    [then(cleanup, cleanup)] fulfils it with what [cleanup] returns,
    [finally] passes the outcome of the item's promise on. *)
Definition derived_outcome (sty : style) (s : state) (i : nat)
           (o : outcome R E) : Prop :=
  match sty with
  | ThenCleanup => exists b, o = Fulfilled (VBool b)
  | UseFinally => heap s (PItem i) = Some (Settled o)
  end.

Record derived (sty : style) (s : state) : Prop := {
  dv_fresh : forall i, length (results s) <= i ->
      heap s (PItem i) = None /\ heap s (PClean i) = None;
  dv_reactions : forall p rs r, heap s p = Some (Pending rs) -> In r rs ->
      fits sty r = true /\ placed p r;
  dv_jobs : forall j, In j (queue s) -> job_fine sty s j;
  dv_fin : forall i o, heap s (PFin i) = Some (Settled o) ->
      heap s (PItem i) = Some (Settled o);
  dv_clean : forall i o, heap s (PClean i) = Some (Settled o) ->
      derived_outcome sty s i o;
  dv_alloc : forall i, heap s (PItem i) <> None -> heap s (PClean i) <> None
}.

(** With which outcome a promise may be settled. *)
Definition settles_with (sty : style) (s : state) (p : pid)
           (o : outcome R E) : Prop :=
  match p with
  | PFin i => heap s (PItem i) = Some (Settled o)
  | PClean i => derived_outcome sty s i o
  | _ => True
  end.

(** The jobs of [finally] for item [i]. *)
Definition stage_of (j : job) : option nat :=
  match j with
  | JReaction (OnFinally i) _ => Some i
  | JReaction (OnFinallyThunk i _) _ => Some i
  | JReaction (OnSettle (PClean i)) _ => Some i
  | JThenable (PClean i) _ => Some i
  | _ => None
  end.

(** How far [finally] has come for item [i], whose promise is settled with
    [o]: its callback is queued; the thunk is queued and the derived
    promise is about to follow the promise inside [finally]; that promise
    is settled and the derived one about to subscribe; the resolving
    function of the derived promise is queued; the derived promise is
    settled. *)
Definition staged (x : option job) (s : state) (i : nat) (o : outcome R E)
  : Prop :=
  queued x s (JReaction (OnFinally i) o)
  \/ (exists rs, heap s (PFin i) = Some (Pending rs)
       /\ (exists b, queued x s (JReaction (OnFinallyThunk i o) b))
       /\ (queued x s (JThenable (PClean i) (PFin i))
           \/ In (OnSettle (PClean i)) rs))
  \/ (heap s (PFin i) = Some (Settled o)
      /\ queued x s (JThenable (PClean i) (PFin i)))
  \/ queued x s (JReaction (OnSettle (PClean i)) o)
  \/ heap s (PClean i) = Some (Settled o).

Definition pipeline (x : option job) (s : state) : Prop :=
  forall i o, heap s (PItem i) = Some (Settled o) -> staged x s i o.

(** From [s] to [s'] nothing of what [finally] has reached for item [i]
    is lost. *)
Record carries (i : nat) (x : option job) (s : state)
       (x' : option job) (s' : state) : Prop := {
  cr_queue : forall j, stage_of j = Some i -> queued x s j -> queued x' s' j;
  cr_pending : forall rs, heap s (PFin i) = Some (Pending rs) ->
      exists rs', heap s' (PFin i) = Some (Pending rs')
                  /\ forall r, In r rs -> In r rs';
  cr_settled : forall o, heap s (PFin i) = Some (Settled o) ->
      heap s' (PFin i) = Some (Settled o);
  cr_clean : forall o, heap s (PClean i) = Some (Settled o) ->
      heap s' (PClean i) = Some (Settled o)
}.

End DerivedDefs.

Arguments fits {T R E} sty r.
Arguments fits_job {T R E} sty j.
Arguments placed {T R E} p r.
Arguments job_fine {T R E} sty s j.
Arguments derived_outcome {T R E} sty s i o.
Arguments derived {T R E} sty s.
Arguments settles_with {T R E} sty s p o.
Arguments stage_of {T R E} j.
Arguments staged {T R E} x s i o.
Arguments pipeline {T R E} x s.
Arguments carries {T R E} i x s x' s'.
Arguments dv_fresh {T R E sty s} _.
Arguments dv_reactions {T R E sty s} _.
Arguments dv_jobs {T R E sty s} _.
Arguments dv_fin {T R E sty s} _.
Arguments dv_clean {T R E sty s} _.
Arguments dv_alloc {T R E sty s} _.
Arguments cr_queue {T R E i x s x' s'} _.
Arguments cr_pending {T R E i x s x' s'} _.
Arguments cr_settled {T R E i x s x' s'} _.
Arguments cr_clean {T R E i x s x' s'} _.

(** ** Notions of the specification *)

(** The order in which the environment settles the operations. *)
Definition settlements (sched : list event) : list nat :=
  flat_map (fun ev => match ev with Settle i => [i] | Tick => [] end) sched.

(** What a caller and the operation can see of a state: the outcome of the
    returned promise, the invocations of the operation, and the promises
    registered as executing. *)
Definition same_outcome {T R E} (a b : state T R E) : Prop :=
  returned a = returned b /\ calls a = calls b /\
  executing a = executing b /\ results a = results b.

(** The rejections that nothing handles.  Every other promise of a call is
    given a reaction by the code itself (the item's promise by the cleanup
    call, the operation's promise and the promise inside [finally] by the
    promise that follows them, a race by [await], the promise of
    [Promise.all] by the function's own promise) and the function's promise
    is the caller's; the promise that the cleanup call derives is dropped.
    When it is rejected the host reports an unhandled rejection.
    [unhandled s] lists these rejections by item, with their reasons. *)
Definition unhandled {T R E} (s : state T R E) : list (nat * E) :=
  flat_map (fun i => match heap s (PClean i) with
                     | Some (Settled (Rejected e)) => [(i, e)]
                     | _ => []
                     end) (seq 0 (length (results s))).

(** The launched items whose promise is rejected, with the reasons. *)
Definition failed {T R E} (s : state T R E) : list (nat * E) :=
  flat_map (fun i => match heap s (PItem i) with
                     | Some (Settled (Rejected e)) => [(i, e)]
                     | _ => []
                     end) (seq 0 (length (results s))).

(** C9 as the spec states it: after the same run (driven by timers) the
    copies show the same result and the same failure outcome: the returned
    promise, the invocations and the collections are the same, and so are
    the rejections that are left without a handler. *)
Definition same_failure_outcome {T R E} (a b : state T R E) : Prop :=
  same_outcome a b /\ unhandled a = unhandled b.

Definition copies_agree {T R E} (asyncMapper : T -> behaviour R E)
           (inputs : list T) (limit : Z) : Prop :=
  forall order,
    same_failure_outcome (timer_run asyncMapper limit ThenCleanup inputs order)
                         (timer_run asyncMapper limit UseFinally inputs order).

(** The value an operation resolves with, if it succeeds. *)
Definition resolved {R E} (b : behaviour R E) : option R :=
  match b with
  | Returns v | AsyncResolves v => Some v
  | _ => None
  end.

(** A run driven by timers or I/O: the environment settles the promise of
    an operation in a task of its own, that is, when the microtask queue
    is empty. *)
Fixpoint orderly {T R E} (asyncMapper : T -> behaviour R E) (limit : Z)
         (sty : style) (sched : list event) (s : state T R E) : bool :=
  match sched with
  | [] => true
  | Tick :: rest =>
      orderly asyncMapper limit sty rest (step asyncMapper limit sty Tick s)
  | Settle i :: rest =>
      match queue s with
      | [] => orderly asyncMapper limit sty rest
                      (step asyncMapper limit sty (Settle i) s)
      | _ :: _ => false
      end
  end.

(** C3 as the spec states it: whenever the call has completed, no launched
    operation is still unsettled (already in the runs where operations
    settle in tasks of their own). *)
Definition waits_for_all {T R E} (asyncMapper : T -> behaviour R E)
           (sty : style) (inputs : list T) (limit : Z) : Prop :=
  forall sched o,
    orderly asyncMapper limit sty sched (mapper limit sty inputs) = true ->
    returned (run asyncMapper limit sty sched (mapper limit sty inputs)) = Some o ->
    in_flight (run asyncMapper limit sty sched (mapper limit sty inputs)) = [].

(** Nothing can happen any more: the queue is empty and no operation is
    pending. *)
Definition quiescent {T R E} (s : state T R E) : Prop :=
  queue s = [] /\ forall i, op_pending s i = false.

(** C4 as the spec states it: in a run (of that kind) that has come to its
    end, also one that failed, every input item has been passed to the
    operation exactly once. *)
Definition maps_every_item {T R E} (asyncMapper : T -> behaviour R E)
           (sty : style) (inputs : list T) (limit : Z) : Prop :=
  forall sched,
    let s := run asyncMapper limit sty sched (mapper limit sty inputs) in
    orderly asyncMapper limit sty sched (mapper limit sty inputs) = true ->
    returned s <> None -> quiescent s -> map snd (calls s) = inputs.

(** C5 as the spec states it: the set is empty whenever the call has
    completed (in a run of that kind), with a result or with a failure. *)
Definition drained_on_completion {T R E} (asyncMapper : T -> behaviour R E)
           (sty : style) (inputs : list T) (limit : Z) : Prop :=
  forall sched o,
    orderly asyncMapper limit sty sched (mapper limit sty inputs) = true ->
    returned (run asyncMapper limit sty sched (mapper limit sty inputs)) = Some o ->
    executing (run asyncMapper limit sty sched (mapper limit sty inputs)) = [].

(** C7 as the spec states it: a limit that is at least the number of items
    never makes the loop suspend on [Promise.race]. *)
Definition never_throttled {T R E} (asyncMapper : T -> behaviour R E)
           (sty : style) (inputs : list T) (limit : Z) : Prop :=
  (Z.of_nat (length inputs) <= limit)%Z ->
  forall sched j,
    suspended_at (run asyncMapper limit sty sched (mapper limit sty inputs)) j
    = false.

(** Launching everything at once and handing the promises to
    [Promise.all], as the spec words the unthrottled case. *)
Definition launch_all {T R E} (sty : style) (inputs : list T) : state T R E :=
  finish (fold_left (fun s x => launch sty x s) inputs init).

(** ** Example operations and schedules *)

(** The operation of the demos: [async n => n * 2] behind a timer. *)
Definition double (n : nat) : behaviour nat nat := AsyncResolves (2 * n).

(** An operation that rejects on item 1 and doubles the others. *)
Definition fail_on_one (n : nat) : behaviour nat nat :=
  if Nat.eqb n 1 then AsyncRejects 7 else AsyncResolves (2 * n).

(** Run the microtask queue for [n] jobs. *)
Definition ticks (n : nat) : list event := repeat Tick n.

(** Timers fire one after the other, the queue drains in between. *)
Definition timers (order : list nat) : list event :=
  ticks 12 ++ flat_map (fun i => Settle i :: ticks 12) order.

(** * The other code of the three files

    First what is said of the mapper besides the specification, then
    the functions next to it: the two loops that block, and the
    functions that work with timers, promises, abort signals and
    requests, which are written over a small runtime with an event
    loop. *)

(** ** The mapper *)

(** The items that are launched before the call suspends for the first
    time: [limit] of them (one when the limit is below 1), or all if there
    are fewer. *)
Definition burst (limit : Z) (n : nat) : nat :=
  Nat.min (Z.to_nat (Z.max limit 1)) n.

(** What the example usages pass as operation returns [n * 2] behind a
    timer, so this is what they are handed back. *)
Definition doubled (items : list nat) : value nat :=
  VArr (map (fun n => VRes (2 * n)) items).

(** A list that holds the promises of items only. *)
Definition only_items (l : list pid) : Prop :=
  forall p, In p l -> exists i, p = PItem i.

(** Running on undoes nothing: the promise handed to the caller keeps its
    outcome and the record of invocations only grows. *)
Definition keeps {T R E} (s s' : state T R E) : Prop :=
  (forall o, heap s PRet = Some (Settled o) -> heap s' PRet = Some (Settled o))
  /\ exists l, calls s' = calls s ++ l.

(** No continuation of the loop is left: none is queued and none is
    registered on a promise. *)
Definition quiet {T R E} (s : state T R E) : Prop :=
  existsb is_await (queue s) = false
  /\ forall p rs rest, heap s p = Some (Pending rs) -> ~ In (OnAwait rest) rs.

(** A reaction that is no continuation of the loop. *)
Definition plain {T R E} (r : reaction T R E) : Prop :=
  forall rest, r <> OnAwait rest.

(** From a quiet state to a quiet state, with nothing launched. *)
Definition still {T R E} (s s' : state T R E) : Prop :=
  quiet s' /\ results s' = results s.

(** With a limit of 1 or less the loop goes on to the next item only when
    the last one is fulfilled: the race of item [j] is run by item [j]
    alone and passes on its outcome. *)
Record sequential {T R E} (s : state T R E) : Prop := {
  sq_done : forall i, S i < length (results s) ->
      exists v, heap s (PItem i) = Some (Settled (Fulfilled v));
  sq_host : forall i rs j,
      heap s (PItem i) = Some (Pending rs) -> In (OnSettle (PRace j)) rs -> i = j;
  sq_job : forall j o,
      In (JReaction (OnSettle (PRace j)) o) (queue s) ->
      heap s (PItem j) = Some (Settled o);
  sq_race : forall j rs,
      heap s (PRace j) = Some (Pending rs) -> S j = length (results s);
  sq_await : forall rest o,
      In (JReaction (OnAwait rest) o) (queue s) ->
      exists j, S j = length (results s) /\ heap s (PItem j) = Some (Settled o)
}.

(** A reaction that has no part in a race. *)
Definition apart {T R E} (r : reaction T R E) : Prop :=
  match r with
  | OnSettle (PRace _) | OnAwait _ => False
  | _ => True
  end.

Definition apart_job {T R E} (j : job T R E) : Prop :=
  match j with
  | JReaction r _ => apart r
  | JThenable _ _ => True
  end.

(** ** Numbers

    A JavaScript number is a binary64 float.  The programs below only ever
    hold integers, so a number is the integer it denotes and the sum of two
    of them is the exact sum rounded to the nearest float, ties to the even
    significand (no sum below comes near the largest float). *)

Definition round_even (z e : Z) : Z :=
  let q := (z / 2 ^ e)%Z in
  let r := (z mod 2 ^ e)%Z in
  let half := (2 ^ (e - 1))%Z in
  if (r <? half)%Z then (q * 2 ^ e)%Z
  else if (half <? r)%Z then ((q + 1) * 2 ^ e)%Z
  else if Z.even q then (q * 2 ^ e)%Z
  else ((q + 1) * 2 ^ e)%Z.

Definition to_double (z : Z) : Z :=
  if (Z.abs z <? 2 ^ 53)%Z then z
  else round_even z (Z.log2 (Z.abs z) - 52).

Definition number_add (x y : Z) : Z := to_double (x + y).

(** *** asyncJavaScrpit.js, [heavySyncWork] (lines 24-28)

    The count is an integer.  The loop runs as long as [i < iterations];
    [fuel] bounds the number of tests of that condition, and [None] says
    that the loop was not left within them. *)

Fixpoint heavySyncWork_loop (fuel : nat) (iterations s i : Z) : option Z :=
  match fuel with
  | 0 => None
  | S fuel =>
      if (i <? iterations)%Z
      then heavySyncWork_loop fuel iterations (number_add s i) (number_add i 1)
      else Some s
  end.

Definition heavySyncWork (fuel : nat) (iterations : Z) : option Z :=
  heavySyncWork_loop fuel iterations 0 0.

(** *** part_002, [blockingOperation] (lines 52-55)

    The clock is the list of the values that [Date.now()] returns from now
    on; the call uses up the readings it makes and leaves the rest, and
    [None] says that the readings ran out before the loop was left. *)

Fixpoint blockingOperation_loop (start ms : Z) (clock : list Z)
  : option (list Z) :=
  match clock with
  | [] => None
  | t :: clock =>
      if (t - start <? ms)%Z then blockingOperation_loop start ms clock
      else Some clock
  end.

Definition blockingOperation (ms : Z) (clock : list Z) : option (list Z) :=
  match clock with
  | [] => None
  | start :: clock => blockingOperation_loop start ms clock
  end.

(** ** A runtime for timers, promises, abort signals and requests

    The functions of the three files that wait for a timer, a promise, an
    abort or a response are run on a model of what they call: promises and
    the queue of microtasks as ECMAScript lays them down ([then], the
    resolving functions, [await], [Promise.all]), the timers of Node, the
    listeners of an abort signal, [fetch] and [console].

    Time is that of the timers: the clock stands still while code runs and
    moves to a timer's time when the loop picks that timer.  A response
    arrives as a task of the loop, after the delay that the network takes.
    An exception that nothing catches is put on record and the loop goes
    on; a rejection that nobody handles is not reported.  Where a run can
    go on for ever (a listener that aborts, a microtask that queues
    another), [fuel] bounds its depth, and [None] says the fuel ran out or
    the program did what no program does ([await] outside an async
    function). *)

Module Js.

Import String.StringSyntax.
Local Open Scope string_scope.
Local Open Scope list_scope.
Local Abbreviation string := String.string.

(** *** Values *)

(** What a text in JSON stands for. *)
Inductive json : Type :=
| JNull
| JBool (b : bool)
| JNum (n : Z)
| JStr (s : string)
| JArr (items : list json)
| JObj (fields : list (string * json)).

Inductive value : Type :=
| VUndefined
| VNull
| VBool (b : bool)
| VNum (n : Z)
| VNaN
| VStr (s : string)
| VError (name message : string)
| VObject (fields : list (string * value))
| VArray (items : list value)
| VPromise (p : nat)
| VSignal (c : nat)
| VResponse (ok : bool) (status : Z) (body : option json).

Inductive outcome : Type :=
| Fulfilled (v : value)
| Rejected (e : value).

(** [JSON.parse], from what the text stands for. *)
Fixpoint of_json (j : json) : value :=
  match j with
  | JNull => VNull
  | JBool b => VBool b
  | JNum n => VNum n
  | JStr s => VStr s
  | JArr items => VArray (map of_json items)
  | JObj fields => VObject (map (fun f => (fst f, of_json (snd f))) fields)
  end.

Definition truthy (v : value) : bool :=
  match v with
  | VUndefined | VNull | VNaN => false
  | VBool b => b
  | VNum n => negb (n =? 0)%Z
  | VStr s => negb (String.eqb s String.EmptyString)
  | _ => true
  end.

Definition nullish (v : value) : bool :=
  match v with
  | VUndefined | VNull => true
  | _ => false
  end.

(** The decimal digits of an integer. *)
Definition digits (n : Z) : string :=
  DecimalString.NilZero.string_of_int (Z.to_int n).

(** The text of a number is that of [Number::toString] in ECMAScript: the
    fewest digits that are read back as the same float, written out in
    full when the number is below 10^21 and with an exponent from there
    on.  For a size up to 2^53 these are the digits of the integer. *)

(** The number of decimal digits of a positive integer. *)
Definition digit_count (x : Z) : Z := Z.of_nat (String.length (digits x)).

(** Of the two multiples of [10 ^ (m - k)] around [x], which has [m]
    digits, one that is read as the float [x]: the nearer one, and of two
    equally near ones the one with the even last digit. *)
Definition candidate (x m k : Z) : option Z :=
  let unit := (10 ^ (m - k))%Z in
  let lo := (x / unit * unit)%Z in
  let hi := (lo + unit)%Z in
  match (to_double lo =? x)%Z, (to_double hi =? x)%Z with
  | true, true =>
      Some (if (x - lo <? hi - x)%Z then lo
            else if (hi - x <? x - lo)%Z then hi
            else if Z.even (x / unit) then lo else hi)
  | true, false => Some lo
  | false, true => Some hi
  | false, false => None
  end.

(** The number with the fewest significant digits, [k] or more, that is
    read as [x]. *)
Fixpoint shortest (fuel : nat) (x m k : Z) : Z :=
  match fuel with
  | O => x
  | S fuel =>
      match candidate x m k with
      | Some v => v
      | None => shortest fuel x m (k + 1)%Z
      end
  end.

(** A text without the zeros at its end. *)
Fixpoint strip (s : string) : string :=
  match s with
  | String.EmptyString => String.EmptyString
  | String.String c rest =>
      match strip rest with
      | String.EmptyString =>
          if String.eqb (String.String c String.EmptyString) "0"
          then String.EmptyString
          else String.String c String.EmptyString
      | rest' => String.String c rest'
      end
  end.

Definition positive_to_string (x : Z) : string :=
  let m := digit_count x in
  let v := shortest (Z.to_nat m) x m 1 in
  let n := digit_count v in
  if (n <=? 21)%Z then digits v
  else
    match strip (digits v) with
    | String.String c String.EmptyString =>
        String.append (String.String c String.EmptyString)
                      (String.append "e+" (digits (n - 1)))
    | String.String c rest =>
        String.append (String.String c String.EmptyString)
          (String.append "."
             (String.append rest (String.append "e+" (digits (n - 1)))))
    | String.EmptyString => String.EmptyString
    end.

Definition number_to_string (n : Z) : string :=
  if (n =? 0)%Z then "0"
  else if (n <? 0)%Z then String.append "-" (positive_to_string (- n))
  else positive_to_string n.

(** [String(v)], which is also what a template literal and [+] with a text
    make of [v].  For an object this is what the methods that it inherits
    give; an object with a [toString] of its own is not provided for. *)
Fixpoint to_string (v : value) : string :=
  match v with
  | VUndefined => "undefined"
  | VNull => "null"
  | VBool true => "true"
  | VBool false => "false"
  | VNum n => number_to_string n
  | VNaN => "NaN"
  | VStr s => s
  | VError name String.EmptyString => name
  | VError String.EmptyString message => message
  | VError name message => String.append name (String.append ": " message)
  | VObject _ => "[object Object]"
  | VArray items =>
      (fix join (l : list value) : string :=
         match l with
         | [] => String.EmptyString
         | x :: l =>
             let first := if nullish x then String.EmptyString else to_string x in
             match l with
             | [] => first
             | _ => String.append first (String.append "," (join l))
             end
         end) items
  | VPromise _ => "[object Promise]"
  | VSignal _ => "[object AbortSignal]"
  | VResponse _ _ _ => "[object Response]"
  end.

(** The primitive values that the model has: [undefined], [null], the
    booleans, NaN, the texts, and the numbers, a number being an integer
    that is a float (53 significant bits, below 2^1024).  Their conversion
    to a text calls no method and cannot fail. *)
Definition primitive (v : value) : bool :=
  match v with
  | VUndefined | VNull | VBool _ | VNaN | VStr _ => true
  | VNum n => (to_double n =? n)%Z && (Z.abs n <? 2 ^ 1024)%Z
  | _ => false
  end.

(** [Number(v)] of a primitive that is no text; [None] is NaN. *)
Definition to_number (v : value) : option (option Z) :=
  match v with
  | VUndefined | VNaN => Some None
  | VNull | VBool false => Some (Some 0%Z)
  | VBool true => Some (Some 1%Z)
  | VNum n => Some (Some n)
  | _ => None
  end.

(** [a + b]: a sum of numbers, unless a side is text or an object, which
    makes it the two texts joined. *)
Definition js_add (a b : value) : value :=
  match to_number a, to_number b with
  | Some (Some x), Some (Some y) => VNum (number_add x y)
  | Some _, Some _ => VNaN
  | _, _ => VStr (String.append (to_string a) (to_string b))
  end.

Fixpoint field (name : string) (fields : list (string * value)) : value :=
  match fields with
  | [] => VUndefined
  | (n, v) :: fields => if String.eqb n name then v else field name fields
  end.

(** [v.name] for the properties that the programs read. *)
Definition member (v : value) (name : string) : value :=
  match v with
  | VError n m =>
      if String.eqb name "message" then VStr m
      else if String.eqb name "name" then VStr n
      else VUndefined
  | VObject fields => field name fields
  | VResponse ok status _ =>
      if String.eqb name "ok" then VBool ok
      else if String.eqb name "status" then VNum status
      else VUndefined
  | _ => VUndefined
  end.

(** [v[i]], as a destructuring of an array reads it. *)
Definition index (v : value) (i : nat) : value :=
  match v with
  | VArray items => nth i items VUndefined
  | _ => VUndefined
  end.

(** [v === s] for a text [s]. *)
Definition is_text (v : value) (s : string) : bool :=
  match v with
  | VStr t => String.eqb t s
  | _ => false
  end.

(** What the engine throws on a member access that cannot be made. *)
Definition type_error (what : string) : value := VError "TypeError" what.

(** *** Programs

    A function body is a [prog]: a tree of the calls it makes to the
    runtime, each with the rest of the body as its continuation.  A closure
    of the source is a function of Rocq that yields a [prog].

    - [Return v] is [return v], and the end of a body with [undefined];
      [Throw e] is [throw e].
    - [Call body k] calls a function that is not async and goes on with
      what it returned; [Async body k] calls an async function and goes on
      with its promise; [Await v k] is [await v].
    - [NewPromise executor k] is [new Promise((resolve, reject) => ...)]:
      the executor is given the promise, on which [Resolve] and [Reject]
      stand for its two functions.
    - [Then p f g k] is [p.then(f, g)], and [p.catch(g)] when [f] is
      missing; [PromiseResolve] and [PromiseAll] are [Promise.resolve] and
      [Promise.all].
    - [SetTimeout callback ms k] and [ClearTimeout id k] are [setTimeout]
      and [clearTimeout].
    - [NewAbortController k] is [new AbortController()], its signal being
      [VSignal] of what [k] is given; [AddEventListener signal listener k]
      is [signal.addEventListener('abort', listener)];
      [ControllerAbort c k] is [controller.abort()].
    - [TryCatch body handler] is a [try]/[catch] that ends a body, and
      [TryFinally body finalizer] a [try]/[finally] that ends one, with no
      [return] and no [await] in the [finally] block.
    - [Fetch url k] is [fetch(url)] and [Json response k] is
      [response.json()], called once on a response. *)

Inductive prog : Type :=
| Return (v : value)
| Throw (e : value)
| Call (body : prog) (k : value -> prog)
| ConsoleLog (args : list value) (k : prog)
| ConsoleError (args : list value) (k : prog)
| NewPromise (executor : nat -> prog) (k : value -> prog)
| Resolve (p : nat) (v : value) (k : prog)
| Reject (p : nat) (e : value) (k : prog)
| Then (target : value) (onFulfilled onRejected : option (value -> prog))
       (k : value -> prog)
| PromiseResolve (v : value) (k : value -> prog)
| PromiseAll (items : list value) (k : value -> prog)
| SetTimeout (callback : prog) (ms : Z) (k : nat -> prog)
| ClearTimeout (id : nat) (k : prog)
| NewAbortController (k : nat -> prog)
| AddEventListener (signal : value) (listener : prog) (k : prog)
| ControllerAbort (c : nat) (k : prog)
| Async (body : prog) (k : value -> prog)
| Await (v : value) (k : value -> prog)
| TryCatch (body : prog) (handler : value -> prog)
| TryFinally (body : prog) (finalizer : prog)
| Fetch (url : string) (k : value -> prog)
| Json (response : value) (k : value -> prog).

(** *** The runtime *)

(** What is registered on a promise: the two handlers of a [then] or the
    two ways an [await] goes on, with the promise that their result
    settles; the link to a promise that follows this one; the place of
    this promise in a [Promise.all]. *)
Inductive reaction : Type :=
| OnSettled (onFulfilled onRejected : value -> prog) (derived : option nat)
| Forward (p : nat)
| AllElement (a i : nat).

(** A pending promise is locked once it was resolved with another promise:
    its resolving functions then have no effect any more. *)
Inductive pstate : Type :=
| Pending (locked : bool) (reactions : list reaction)
| Settled (o : outcome).

(** A microtask: a body to run for a promise, or for nobody; a promise
    [p] that starts to follow [q]; a reaction of the runtime's own. *)
Inductive job : Type :=
| JRun (body : prog) (derived : option nat)
| JThenable (p q : nat)
| JForward (p : nat) (o : outcome)
| JAllElement (a i : nat) (o : outcome).

Record timer : Type := mkTimer {
  timer_id : nat;
  due : Z;
  callback : prog
}.

Record signal : Type := mkSignal {
  aborted : bool;
  listeners : list prog
}.

(** The bookkeeping of one [Promise.all]. *)
Record gather : Type := mkGather {
  target : nat;
  slots : list (option value)
}.

Inductive stream : Type := Out | Err.

(** What the network answers to a request, and after how long: no
    response at all, or a response with its [ok] flag, its status and its
    body, which is the value it parses to if it parses. *)
Inductive answer : Type :=
| NetworkError (e : value)
| Response (ok : bool) (status : Z) (body : option json).

Record reply : Type := mkReply {
  latency : Z;
  content : answer
}.

(** The status of a response is an integer from 0 to 999 (Fetch, 2.2.3). *)
Definition status_code (a : answer) : bool :=
  match a with
  | NetworkError _ => true
  | Response _ status _ => (0 <=? status)%Z && (status <=? 999)%Z
  end.


(** The state of a run: the clock, the promises by their number, the
    microtasks and the timers that wait, the abort signals and the
    [Promise.all]s by their number, what was printed and when, the
    exceptions that nothing caught, the requests that went out, and what
    the network answers. *)
Record world : Type := mkWorld {
  now : Z;
  promises : list pstate;
  microtasks : list job;
  timers : list timer;
  next_timer : nat;
  signals : list signal;
  gathers : list gather;
  console : list (Z * stream * list value);
  uncaught : list value;
  requests : list string;
  network : string -> reply
}.

Definition init (net : string -> reply) : world :=
  mkWorld 0 [] [] [] 0 [] [] [] [] [] net.

Definition set_now (t : Z) (w : world) : world :=
  mkWorld t (promises w) (microtasks w) (timers w) (next_timer w) (signals w)
          (gathers w) (console w) (uncaught w) (requests w) (network w).

Definition set_promises (ps : list pstate) (w : world) : world :=
  mkWorld (now w) ps (microtasks w) (timers w) (next_timer w) (signals w)
          (gathers w) (console w) (uncaught w) (requests w) (network w).

Definition set_microtasks (js : list job) (w : world) : world :=
  mkWorld (now w) (promises w) js (timers w) (next_timer w) (signals w)
          (gathers w) (console w) (uncaught w) (requests w) (network w).

Definition set_timers (ts : list timer) (n : nat) (w : world) : world :=
  mkWorld (now w) (promises w) (microtasks w) ts n (signals w)
          (gathers w) (console w) (uncaught w) (requests w) (network w).

Definition set_signals (ss : list signal) (w : world) : world :=
  mkWorld (now w) (promises w) (microtasks w) (timers w) (next_timer w) ss
          (gathers w) (console w) (uncaught w) (requests w) (network w).

Definition set_gathers (gs : list gather) (w : world) : world :=
  mkWorld (now w) (promises w) (microtasks w) (timers w) (next_timer w)
          (signals w) gs (console w) (uncaught w) (requests w) (network w).

Definition print (s : stream) (args : list value) (w : world) : world :=
  mkWorld (now w) (promises w) (microtasks w) (timers w) (next_timer w)
          (signals w) (gathers w) (console w ++ [(now w, s, args)]) (uncaught w)
          (requests w) (network w).

(** An exception that nothing catches. *)
Definition report (e : value) (w : world) : world :=
  mkWorld (now w) (promises w) (microtasks w) (timers w) (next_timer w)
          (signals w) (gathers w) (console w) (uncaught w ++ [e]) (requests w)
          (network w).

Fixpoint replace {A} (n : nat) (x : A) (l : list A) : list A :=
  match l, n with
  | [], _ => []
  | _ :: l, 0 => x :: l
  | y :: l, S n => y :: replace n x l
  end.

(** A request that goes out. *)
Definition request (url : string) (w : world) : world :=
  mkWorld (now w) (promises w) (microtasks w) (timers w) (next_timer w)
          (signals w) (gathers w) (console w) (uncaught w) (requests w ++ [url])
          (network w).

(** **** Promises *)

Definition new_promise (st : pstate) (w : world) : world :=
  set_promises (promises w ++ [st]) w.

Definition enqueue (js : list job) (w : world) : world :=
  set_microtasks (microtasks w ++ js) w.

Definition job_of (o : outcome) (r : reaction) : job :=
  match r with
  | OnSettled f g d =>
      JRun (match o with Fulfilled v => f v | Rejected e => g e end) d
  | Forward p => JForward p o
  | AllElement a i => JAllElement a i o
  end.

Definition settle (p : nat) (o : outcome) (w : world) : world :=
  match nth_error (promises w) p with
  | Some (Pending _ rs) =>
      enqueue (map (job_of o) rs)
              (set_promises (replace p (Settled o) (promises w)) w)
  | _ => w
  end.

(** The resolution of a promise with a value: another promise is followed
    (a job later), anything else fulfils it. *)
Definition resolve_promise (p : nat) (v : value) (w : world) : world :=
  match v, nth_error (promises w) p with
  | VPromise q, Some (Pending _ rs) =>
      if q =? p
      then settle p (Rejected (type_error "Chaining cycle detected for promise")) w
      else enqueue [JThenable p q]
                   (set_promises (replace p (Pending true rs) (promises w)) w)
  | _, _ => settle p (Fulfilled v) w
  end.

(** The two functions that an executor is handed act once only. *)
Definition unresolved (p : nat) (w : world) : bool :=
  match nth_error (promises w) p with
  | Some (Pending false _) => true
  | _ => false
  end.

Definition resolve_function (p : nat) (v : value) (w : world) : world :=
  if unresolved p w then resolve_promise p v w else w.

Definition reject_function (p : nat) (e : value) (w : world) : world :=
  if unresolved p w then settle p (Rejected e) w else w.

Definition subscribe (p : nat) (r : reaction) (w : world) : world :=
  match nth_error (promises w) p with
  | Some (Pending l rs) =>
      set_promises (replace p (Pending l (rs ++ [r])) (promises w)) w
  | Some (Settled o) => enqueue [job_of o r] w
  | None => w
  end.

(** [Promise.resolve(v)] followed by a subscription, as [await] and
    [Promise.all] do it. *)
Definition subscribe_value (v : value) (r : reaction) (w : world) : world :=
  match v with
  | VPromise p => subscribe p r w
  | _ => enqueue [job_of (Fulfilled v) r] (new_promise (Settled (Fulfilled v)) w)
  end.

Definition pass (v : value) : prog := Return v.

Definition handler_or (f : option (value -> prog)) (default : value -> prog)
  : value -> prog :=
  match f with
  | Some f => f
  | None => default
  end.

(** **** Promise.all *)

Fixpoint subscribe_all (a i : nat) (items : list value) (w : world) : world :=
  match items with
  | [] => w
  | v :: items => subscribe_all a (S i) items (subscribe_value v (AllElement a i) w)
  end.

Fixpoint all_filled (l : list (option value)) : option (list value) :=
  match l with
  | [] => Some []
  | Some v :: l =>
      match all_filled l with
      | Some vs => Some (v :: vs)
      | None => None
      end
  | None :: _ => None
  end.

Definition all_resolve (a i : nat) (v : value) (w : world) : world :=
  match nth_error (gathers w) a with
  | Some g =>
      let g := mkGather (target g) (replace i (Some v) (slots g)) in
      let w := set_gathers (replace a g (gathers w)) w in
      match all_filled (slots g) with
      | Some vs => resolve_function (target g) (VArray vs) w
      | None => w
      end
  | None => w
  end.

Definition all_reject (a : nat) (e : value) (w : world) : world :=
  match nth_error (gathers w) a with
  | Some g => reject_function (target g) e w
  | None => w
  end.

Definition promise_all (items : list value) (w : world) : nat * world :=
  let t := length (promises w) in
  let a := length (gathers w) in
  let w := new_promise (Pending false []) w in
  let w := set_gathers (gathers w ++ [mkGather t (repeat None (length items))]) w in
  let w := subscribe_all a 0 items w in
  (t, match items with
      | [] => resolve_function t (VArray []) w
      | _ => w
      end).

(** **** Timers

    A delay below 1 ms or above 2^31 - 1 ms is taken as 1 ms. *)

Definition delay (ms : Z) : Z :=
  if ((ms <? 1) || (2147483647 <? ms))%Z then 1%Z else ms.

Definition add_timer (t : Z) (cb : prog) (w : world) : world :=
  set_timers (timers w ++ [mkTimer (next_timer w) t cb]) (S (next_timer w)) w.

Definition clear_timer (id : nat) (w : world) : world :=
  set_timers (filter (fun t => negb (timer_id t =? id)) (timers w))
             (next_timer w) w.

(** The timer to run next: the one that is due first, and of those that
    are due together the one that was set first. *)
Fixpoint earliest (ts : list timer) : option timer :=
  match ts with
  | [] => None
  | t :: ts =>
      match earliest ts with
      | Some u => if (due u <? due t)%Z then Some u else Some t
      | None => Some t
      end
  end.

(** **** Abort signals *)

Definition add_listener (c : nat) (l : prog) (w : world) : world :=
  match nth_error (signals w) c with
  | Some sg =>
      set_signals (replace c (mkSignal (aborted sg) (listeners sg ++ [l]))
                           (signals w)) w
  | None => w
  end.

Definition mark_aborted (c : nat) (w : world) : world :=
  match nth_error (signals w) c with
  | Some sg => set_signals (replace c (mkSignal true (listeners sg)) (signals w)) w
  | None => w
  end.

(** **** Running a body *)

Inductive completion : Type :=
| Normal (v : value)
| Abrupt (e : value)
| Suspended (awaited : value) (resume : outcome -> prog).

Definition resume_with (k : value -> prog) (o : outcome) : prog :=
  match o with
  | Fulfilled v => k v
  | Rejected e => Throw e
  end.

(** What becomes of the completion of a body that ran for the promise
    [derived] (the result of an async call or of a [then]), or for nobody
    (a timer or a listener). *)
Definition conclude (derived : option nat) (c : completion) (w : world)
  : option world :=
  match derived, c with
  | Some d, Normal v => Some (resolve_promise d v w)
  | Some d, Abrupt e => Some (settle d (Rejected e) w)
  | Some d, Suspended a resume =>
      Some (subscribe_value a
              (OnSettled (fun v => resume (Fulfilled v))
                         (fun e => resume (Rejected e)) (Some d)) w)
  | None, Normal _ => Some w
  | None, Abrupt e => Some (report e w)
  | None, Suspended _ _ => None
  end.

Fixpoint exec (fuel : nat) (c : prog) (w : world) : option (completion * world) :=
  match fuel with
  | 0 => None
  | S fuel =>
      match c with
      | Return v => Some (Normal v, w)
      | Throw e => Some (Abrupt e, w)
      | Call body k =>
          match exec fuel body w with
          | Some (Normal v, w) => exec fuel (k v) w
          | Some (Abrupt e, w) => Some (Abrupt e, w)
          | _ => None
          end
      | ConsoleLog args k => exec fuel k (print Out args w)
      | ConsoleError args k => exec fuel k (print Err args w)
      | NewPromise executor k =>
          let p := length (promises w) in
          match exec fuel (executor p) (new_promise (Pending false []) w) with
          | Some (Normal _, w) => exec fuel (k (VPromise p)) w
          | Some (Abrupt e, w) => exec fuel (k (VPromise p)) (reject_function p e w)
          | _ => None
          end
      | Resolve p v k => exec fuel k (resolve_function p v w)
      | Reject p e k => exec fuel k (reject_function p e w)
      | Then (VPromise p) f g k =>
          let d := length (promises w) in
          exec fuel (k (VPromise d))
               (subscribe p (OnSettled (handler_or f Return) (handler_or g Throw)
                                       (Some d))
                          (new_promise (Pending false []) w))
      | Then _ _ _ _ => Some (Abrupt (type_error "then is not a function"), w)
      | PromiseResolve (VPromise p) k => exec fuel (k (VPromise p)) w
      | PromiseResolve v k =>
          exec fuel (k (VPromise (length (promises w))))
               (new_promise (Settled (Fulfilled v)) w)
      | PromiseAll items k =>
          let (t, w) := promise_all items w in
          exec fuel (k (VPromise t)) w
      | SetTimeout cb ms k =>
          exec fuel (k (next_timer w)) (add_timer (now w + delay ms) cb w)
      | ClearTimeout id k => exec fuel k (clear_timer id w)
      | NewAbortController k =>
          exec fuel (k (length (signals w)))
               (set_signals (signals w ++ [mkSignal false []]) w)
      | AddEventListener (VSignal c) l k => exec fuel k (add_listener c l w)
      | AddEventListener _ _ _ =>
          Some (Abrupt (type_error "addEventListener is not a function"), w)
      | ControllerAbort c k =>
          match nth_error (signals w) c with
          | Some sg =>
              if aborted sg then exec fuel k w
              else
                match (fix dispatch (ls : list prog) (w : world) : option world :=
                         match ls with
                         | [] => Some w
                         | l :: ls =>
                             match exec fuel l w with
                             | Some (r, w) =>
                                 match conclude None r w with
                                 | Some w => dispatch ls w
                                 | None => None
                                 end
                             | None => None
                             end
                         end) (listeners sg) (mark_aborted c w) with
                | Some w => exec fuel k w
                | None => None
                end
          | None => None
          end
      | Async body k =>
          let r := length (promises w) in
          match exec fuel body (new_promise (Pending false []) w) with
          | Some (c, w) =>
              match conclude (Some r) c w with
              | Some w => exec fuel (k (VPromise r)) w
              | None => None
              end
          | None => None
          end
      | Await v k => Some (Suspended v (resume_with k), w)
      | TryCatch body handler =>
          match exec fuel body w with
          | Some (Abrupt e, w) => exec fuel (handler e) w
          | Some (Suspended a resume, w) =>
              Some (Suspended a (fun o => TryCatch (resume o) handler), w)
          | r => r
          end
      | TryFinally body finalizer =>
          match exec fuel body w with
          | Some (Suspended a resume, w) =>
              Some (Suspended a (fun o => TryFinally (resume o) finalizer), w)
          | Some (c, w) =>
              match exec fuel finalizer w with
              | Some (Normal _, w) => Some (c, w)
              | Some (Abrupt e, w) => Some (Abrupt e, w)
              | _ => None
              end
          | None => None
          end
      | Fetch url k =>
          let p := length (promises w) in
          let r := network w url in
          let cb := match content r with
                    | NetworkError e => Reject p e (Return VUndefined)
                    | Response ok status body =>
                        Resolve p (VResponse ok status body) (Return VUndefined)
                    end in
          exec fuel (k (VPromise p))
               (add_timer (now w + Z.max 0 (latency r)) cb
                          (new_promise (Pending false []) (request url w)))
      | Json (VResponse _ _ body) k =>
          let p := length (promises w) in
          let cb := match body with
                    | Some j => Resolve p (of_json j) (Return VUndefined)
                    | None =>
                        Reject p (VError "SyntaxError" "Unexpected token in JSON")
                               (Return VUndefined)
                    end in
          exec fuel (k (VPromise p))
               (add_timer (now w) cb (new_promise (Pending false []) w))
      | Json _ _ => Some (Abrupt (type_error "json is not a function"), w)
      end
  end.

(** **** The event loop *)

Definition run_job (fuel : nat) (j : job) (w : world) : option world :=
  match j with
  | JRun body d =>
      match exec fuel body w with
      | Some (c, w) => conclude d c w
      | None => None
      end
  | JThenable p q => Some (subscribe q (Forward p) w)
  | JForward p (Fulfilled v) => Some (resolve_promise p v w)
  | JForward p (Rejected e) => Some (settle p (Rejected e) w)
  | JAllElement a i (Fulfilled v) => Some (all_resolve a i v w)
  | JAllElement a _ (Rejected e) => Some (all_reject a e w)
  end.

(** All the microtasks, to the last. *)
Fixpoint drain (fuel : nat) (w : world) : option world :=
  match microtasks w with
  | [] => Some w
  | j :: js =>
      match fuel with
      | 0 => None
      | S fuel =>
          match run_job fuel j (set_microtasks js w) with
          | Some w => drain fuel w
          | None => None
          end
      end
  end.

(** One timer: the clock moves to its time (no timer is due before the
    time it is set at, so the clock never goes back), its callback runs,
    then the microtasks. *)
Definition fire (fuel : nat) (t : timer) (w : world) : option world :=
  let w := set_now (due t) (clear_timer (timer_id t) w) in
  match run_job fuel (JRun (callback t) None) w with
  | Some w => drain fuel w
  | None => None
  end.

(** The loop up to a time limit, or to the end when there is none. *)
Fixpoint event_loop (fuel : nat) (limit : option Z) (w : world) : option world :=
  match earliest (timers w) with
  | None => Some w
  | Some t =>
      if match limit with Some l => (l <? due t)%Z | None => false end
      then Some w
      else
        match fuel with
        | 0 => None
        | S fuel =>
            match fire fuel t w with
            | Some w => event_loop fuel limit w
            | None => None
            end
        end
  end.

(** A script runs to its end, then its microtasks, then the loop.  The
    result is what the script returned and the world it left. *)
Definition run_script (fuel : nat) (limit : option Z) (main : prog)
                      (net : string -> reply) : option (value * world) :=
  match exec fuel main (init net) with
  | Some (c, w) =>
      match conclude None c w with
      | Some w =>
          match drain fuel w with
          | Some w =>
              match event_loop fuel limit w with
              | Some w =>
                  Some (match c with Normal v => v | _ => VUndefined end, w)
              | None => None
              end
          | None => None
          end
      | None => None
      end
  | None => None
  end.

(** The state of the promise that a value denotes. *)
Definition state_of (v : value) (w : world) : option pstate :=
  match v with
  | VPromise p => nth_error (promises w) p
  | _ => None
  end.

(** What was printed, without the times. *)
Definition messages (w : world) : list (stream * list value) :=
  map (fun e => (snd (fst e), snd e)) (console w).

Definition pending (v : value) (w : world) : bool :=
  match state_of v w with
  | Some (Pending _ _) => true
  | _ => false
  end.

End Js.

(** ** asyncJavaScrpit.js *)

Module AsyncDemo.

Import String.StringSyntax.
Import Js.
Local Open Scope string_scope.
Local Open Scope list_scope.

(** [willReject] (lines 78-82). *)
Definition willReject (shouldReject : value) : prog :=
  NewPromise
    (fun p =>
       SetTimeout
         (if truthy shouldReject
          then Reject p (VError "Error" "boom") (Return VUndefined)
          else Resolve p (VStr "ok") (Return VUndefined))
         50 (fun _ => Return VUndefined))
    Return.

(** Line 83, for any argument (the source passes [true]). *)
Definition willReject_then_catch (shouldReject : value) : prog :=
  Call (willReject shouldReject) (fun p =>
  Then p (Some (fun v => ConsoleLog [v] (Return VUndefined))) None (fun q =>
  Then q None
       (Some (fun e => ConsoleLog [VStr "caught (promise):"; member e "message"]
                                  (Return VUndefined)))
       (fun _ => Return VUndefined))).

(** Lines 85-91, for any argument. *)
Definition willReject_try_await (shouldReject : value) : prog :=
  Async
    (TryCatch
       (Call (willReject shouldReject) (fun p =>
        Await p (fun _ => Return VUndefined)))
       (fun e => ConsoleLog [VStr "caught (await):"; member e "message"]
                            (Return VUndefined)))
    (fun _ => Return VUndefined).

End AsyncDemo.

(** ** part_001 *)

Module Part001.

Import String.StringSyntax.
Import Js.
Local Open Scope string_scope.
Local Open Scope list_scope.

(** [getUserCallback] (lines 86-91). *)
Definition getUserCallback (id : value) (callback : value -> value -> prog)
  : prog :=
  SetTimeout
    (Call (callback VNull (VObject [("id", id); ("name", js_add (VStr "User ") id)]))
          (fun _ => Return VUndefined))
    1000 (fun _ => Return VUndefined).

(** Lines 93-99, for any id (the source passes 1). *)
Definition getUserCallback_usage (id : value) : prog :=
  Call (getUserCallback id (fun error user =>
          if truthy error
          then ConsoleError [VStr "Error:"; error] (Return VUndefined)
          else ConsoleLog [VStr "User via callback:"; user] (Return VUndefined)))
       (fun _ => Return VUndefined).

(** [getUserPromise] (lines 103-110). *)
Definition getUserPromise (id : value) : prog :=
  NewPromise
    (fun p =>
       SetTimeout
         (Resolve p (VObject [("id", id); ("name", js_add (VStr "User ") id)])
                  (Return VUndefined))
         1000 (fun _ => Return VUndefined))
    Return.

(** Lines 112-114. *)
Definition getUserPromise_usage (id : value) : prog :=
  Call (getUserPromise id) (fun p =>
  Then p (Some (fun user => ConsoleLog [VStr "User via promise:"; user]
                                       (Return VUndefined))) None (fun q =>
  Then q None
       (Some (fun error => ConsoleError [VStr "Error:"; error] (Return VUndefined)))
       (fun _ => Return VUndefined))).

(** [getUserAsync] (lines 118-127). *)
Definition getUserAsync (id : value) : prog :=
  Async
    (TryCatch
       (Call (getUserPromise id) (fun p =>
        Await p (fun user =>
        ConsoleLog [VStr "User via async/await:"; user] (Return user))))
       (fun error => ConsoleError [VStr "Error:"; error] (Throw error)))
    Return.

(** Lines 130-132. *)
Definition getUserAsync_usage (id : value) : prog :=
  Async (Call (getUserAsync id) (fun p => Await p (fun _ => Return VUndefined)))
        (fun _ => Return VUndefined).

(** [cancellableOperation] (lines 183-192). *)
Definition cancellableOperation (signal : value) : prog :=
  NewPromise
    (fun p =>
       SetTimeout (Resolve p (VStr "completed") (Return VUndefined)) 5000
                  (fun timeoutId =>
       if nullish signal then Return VUndefined
       else
         AddEventListener signal
           (ClearTimeout timeoutId
              (Reject p (VError "Error" "Operation cancelled") (Return VUndefined)))
           (Return VUndefined)))
    Return.

(** The handlers of lines 196-197. *)
Definition log_outcome (p : value) (k : prog) : prog :=
  Then p (Some (fun result => ConsoleLog [VStr "Result:"; result]
                                         (Return VUndefined))) None (fun q =>
  Then q None
       (Some (fun error => ConsoleLog [VStr "Error:"; member error "message"]
                                      (Return VUndefined)))
       (fun _ => k)).

(** Lines 194-199, with the time of the abort left open (the source has
    2000). *)
Definition cancellableOperation_usage (ms : Z) : prog :=
  NewAbortController (fun controller =>
  Call (cancellableOperation (VSignal controller)) (fun p =>
  log_outcome p
    (SetTimeout (ControllerAbort controller (Return VUndefined)) ms
                (fun _ => Return VUndefined)))).

(** [fetchUserData] (lines 234-244). *)
Definition fetchUserData (userId : value) : prog :=
  Async
    (TryCatch
       (Fetch (String.append "https://api.example.com/users/" (to_string userId))
              (fun request =>
        Await request (fun response =>
        if negb (truthy (member response "ok"))
        then Throw (VError "Error"
                      (String.append "HTTP error! status: "
                                     (to_string (member response "status"))))
        else Json response (fun body => Await body (fun data => Return data)))))
       (fun error =>
          ConsoleError [VStr "Failed to fetch user:"; error] (Throw error)))
    Return.

(** The helpers of lines 315-318. *)
Definition fetchData1 (signal : value) : prog := PromiseResolve (VNum 1) Return.
Definition fetchData2 (signal : value) : prog := PromiseResolve (VNum 2) Return.
Definition fetchUserPosts (userId : value) : prog :=
  PromiseResolve (VArray []) Return.
Definition processResults (r1 r2 : value) : prog := Return (js_add r1 r2).

(** [fetchUserWithPosts] (lines 247-258). *)
Definition fetchUserWithPosts (userId : value) : prog :=
  Async
    (TryCatch
       (Call (fetchUserData userId) (fun a =>
        Call (fetchUserPosts userId) (fun b =>
        PromiseAll [a; b] (fun all =>
        Await all (fun pair =>
        Return (VObject [("user", index pair 0); ("posts", index pair 1)]))))))
       (fun error =>
          ConsoleError [VStr "Failed to fetch user data:"; error] (Throw error)))
    Return.

(** [bestPracticeExample] (lines 288-312). *)
Definition bestPracticeExample : prog :=
  Async
    (NewAbortController (fun controller =>
     TryFinally
       (TryCatch
          (SetTimeout (ControllerAbort controller (Return VUndefined)) 5000
                      (fun _ =>
           Call (fetchData1 (VSignal controller)) (fun a =>
           Call (fetchData2 (VSignal controller)) (fun b =>
           PromiseAll [a; b] (fun all =>
           Await all (fun pair =>
           Call (processResults (index pair 0) (index pair 1)) Return))))))
          (fun error =>
             if is_text (member error "name") "AbortError"
             then ConsoleLog [VStr "Operation timed out"] (Throw error)
             else Throw error))
       (ConsoleLog [VStr "Cleanup complete"] (Return VUndefined))))
    Return.

End Part001.

(** ** part_002 *)

Module Part002.

Import String.StringSyntax.
Import Js.
Local Open Scope string_scope.
Local Open Scope list_scope.

(** [fetchUserCallback] (lines 73-78). *)
Definition fetchUserCallback (id : value) (callback : value -> value -> prog)
  : prog :=
  SetTimeout
    (Call (callback VNull (VObject [("id", id); ("name", js_add (VStr "User ") id)]))
          (fun _ => Return VUndefined))
    100 (fun _ => Return VUndefined).

(** Lines 81-87, for any id. *)
Definition fetchUserCallback_usage (id : value) : prog :=
  Call (fetchUserCallback id (fun error user =>
          if truthy error
          then ConsoleError [VStr "Error:"; error] (Return VUndefined)
          else ConsoleLog [VStr "User via callback:"; user] (Return VUndefined)))
       (fun _ => Return VUndefined).

(** [fetchUserPromise] (lines 92-99). *)
Definition fetchUserPromise (id : value) : prog :=
  NewPromise
    (fun p =>
       SetTimeout
         (Resolve p (VObject [("id", id); ("name", js_add (VStr "User ") id)])
                  (Return VUndefined))
         100 (fun _ => Return VUndefined))
    Return.

(** Lines 102-104. *)
Definition fetchUserPromise_usage (id : value) : prog :=
  Call (fetchUserPromise id) (fun p =>
  Then p (Some (fun user => ConsoleLog [VStr "User via promise:"; user]
                                       (Return VUndefined))) None (fun q =>
  Then q None
       (Some (fun error => ConsoleError [VStr "Error:"; error] (Return VUndefined)))
       (fun _ => Return VUndefined))).

(** [fetchUser] (lines 109-111). *)
Definition fetchUser (id : value) : prog :=
  Async (Call (fetchUserPromise id) (fun p => Await p (fun user => Return user)))
        Return.

(** Lines 114-121. *)
Definition fetchUser_usage (id : value) : prog :=
  Async
    (TryCatch
       (Call (fetchUser id) (fun p =>
        Await p (fun user =>
        ConsoleLog [VStr "User via async/await:"; user] (Return VUndefined))))
       (fun error => ConsoleError [VStr "Error:"; error] (Return VUndefined)))
    (fun _ => Return VUndefined).

(** [cancellableOperation] (lines 148-158). *)
Definition cancellableOperation (signal : value) : prog :=
  NewPromise
    (fun p =>
       SetTimeout (Resolve p (VStr "completed") (Return VUndefined)) 5000
                  (fun timeoutId =>
       AddEventListener signal
         (ClearTimeout timeoutId
            (Reject p (VError "Error" "Operation cancelled") (Return VUndefined)))
         (Return VUndefined)))
    Return.

(** The handlers of lines 163-164. *)
Definition log_outcome (p : value) (k : prog) : prog :=
  Then p (Some (fun result => ConsoleLog [VStr "Result:"; result]
                                         (Return VUndefined))) None (fun q =>
  Then q None
       (Some (fun error => ConsoleLog [VStr "Error:"; member error "message"]
                                      (Return VUndefined)))
       (fun _ => k)).

(** Lines 161-167, with the time of the abort left open (the source has
    2000). *)
Definition cancellableOperation_usage (ms : Z) : prog :=
  NewAbortController (fun controller =>
  Call (cancellableOperation (VSignal controller)) (fun p =>
  log_outcome p
    (SetTimeout (ControllerAbort controller (Return VUndefined)) ms
                (fun _ => Return VUndefined)))).

(** The helpers of lines 254-256. *)
Definition fetchData1 (signal : value) : prog := PromiseResolve (VNum 1) Return.
Definition fetchData2 (signal : value) : prog := PromiseResolve (VNum 2) Return.
Definition processResults (r1 r2 : value) : prog := Return (js_add r1 r2).

(** [goodPracticeExample] (lines 228-251). *)
Definition goodPracticeExample : prog :=
  Async
    (NewAbortController (fun controller =>
     TryFinally
       (TryCatch
          (SetTimeout (ControllerAbort controller (Return VUndefined)) 5000
                      (fun _ =>
           Call (fetchData1 (VSignal controller)) (fun a =>
           Call (fetchData2 (VSignal controller)) (fun b =>
           PromiseAll [a; b] (fun all =>
           Await all (fun pair =>
           Call (processResults (index pair 0) (index pair 1)) Return))))))
          (fun error =>
             if is_text (member error "name") "AbortError"
             then ConsoleLog [VStr "Operation timed out"] (Throw error)
             else Throw error))
       (Return VUndefined)))
    Return.

End Part002.

(** ** Settings in which the functions are run *)

Module Setting.

Import String.StringSyntax.
Import Js.
Local Open Scope string_scope.
Local Open Scope list_scope.

(** No request gets through. *)
Definition no_network (url : String.string) : reply :=
  mkReply 0 (NetworkError (VError "TypeError" "fetch failed")).

(** The controller is aborted before the operation is started with its
    signal. *)
Definition abort_first (operation : value -> prog) : prog :=
  NewAbortController (fun controller =>
  ControllerAbort controller
    (Call (operation (VSignal controller)) Return)).

End Setting.

(** * Facts *)

(** ** Basic facts *)

Arguments pid_eqb : simpl never.

Lemma pid_eqb_eq (a b : pid) : pid_eqb a b = true <-> a = b.
Proof.
  destruct a, b; unfold pid_eqb; try (split; [discriminate | congruence]);
    try (rewrite Nat.eqb_eq; split; congruence); split; reflexivity.
Qed.

Lemma pid_eqb_refl (a : pid) : pid_eqb a a = true.
Proof. apply pid_eqb_eq; reflexivity. Qed.

Lemma pid_eqb_spec (a b : pid) : reflect (a = b) (pid_eqb a b).
Proof.
  destruct (pid_eqb a b) eqn:H; constructor.
  - apply pid_eqb_eq; assumption.
  - intro H'; apply pid_eqb_eq in H'; congruence.
Qed.

Section RunFacts.

Variables T R E : Type.
Variable asyncMapper : T -> behaviour R E.
Variable sty : style.

Lemma run_app (limit : Z) (a b : list event) (s : state T R E) :
  run asyncMapper limit sty (a ++ b) s
  = run asyncMapper limit sty b (run asyncMapper limit sty a s).
Proof. unfold run; apply fold_left_app. Qed.

Lemma set_add_length (p : pid) (l : list pid) : (1 <= size (set_add p l))%Z.
Proof.
  unfold size, set_add. destruct (existsb (pid_eqb p) l) eqn:H.
  - destruct l; [discriminate | simpl length; lia].
  - rewrite length_app; simpl; lia.
Qed.

Lemma executing_then (p : pid) (r : reaction T R E) (s : state T R E) :
  executing (then_ p r s) = executing s.
Proof. unfold then_. destruct (heap s p) as [[rs|o]|]; reflexivity. Qed.

Lemma results_then (p : pid) (r : reaction T R E) (s : state T R E) :
  results (then_ p r s) = results s.
Proof. unfold then_. destruct (heap s p) as [[rs|o]|]; reflexivity. Qed.

Lemma values_then (p : pid) (r : reaction T R E) (s : state T R E) :
  values (then_ p r s) = values s.
Proof. unfold then_. destruct (heap s p) as [[rs|o]|]; reflexivity. Qed.

Lemma calls_then (p : pid) (r : reaction T R E) (s : state T R E) :
  calls (then_ p r s) = calls s.
Proof. unfold then_. destruct (heap s p) as [[rs|o]|]; reflexivity. Qed.

Lemma executing_settle (p : pid) (o : outcome R E) (s : state T R E) :
  executing (settle p o s) = executing s.
Proof. unfold settle. destruct (heap s p) as [[rs|o']|]; reflexivity. Qed.

Lemma results_settle (p : pid) (o : outcome R E) (s : state T R E) :
  results (settle p o s) = results s.
Proof. unfold settle. destruct (heap s p) as [[rs|o']|]; reflexivity. Qed.

Lemma values_settle (p : pid) (o : outcome R E) (s : state T R E) :
  values (settle p o s) = values s.
Proof. unfold settle. destruct (heap s p) as [[rs|o']|]; reflexivity. Qed.

Lemma calls_settle (p : pid) (o : outcome R E) (s : state T R E) :
  calls (settle p o s) = calls s.
Proof. unfold settle. destruct (heap s p) as [[rs|o']|]; reflexivity. Qed.

Lemma executing_launch (item : T) (s : state T R E) :
  executing (launch sty item s)
  = set_add (PItem (length (results s))) (executing s).
Proof. unfold launch. rewrite executing_then. reflexivity. Qed.

Lemma results_launch (item : T) (s : state T R E) :
  results (launch sty item s) = results s ++ [PItem (length (results s))].
Proof. unfold launch. rewrite results_then. reflexivity. Qed.

(** A limit below 1 takes the same branch as limit 1 in every iteration:
    the set is never empty right after [executing.add(p)]. *)
Lemma loop_nonpositive (limit : Z) (items : list T) (s : state T R E) :
  (limit <= 1)%Z -> loop limit sty items s = loop 1 sty items s.
Proof.
  intros Hl. revert s. induction items as [|item rest IH]; intros s; simpl.
  - reflexivity.
  - pose proof (set_add_length (PItem (length (results s))) (executing s)) as H1.
    rewrite executing_launch.
    replace (limit <=? size (set_add (PItem (length (results s))) (executing s)))%Z
      with true by (symmetry; apply Z.leb_le; lia).
    replace (1 <=? size (set_add (PItem (length (results s))) (executing s)))%Z
      with true by (symmetry; apply Z.leb_le; lia).
    reflexivity.
Qed.

Lemma step_nonpositive (limit : Z) (ev : event) (s : state T R E) :
  (limit <= 1)%Z ->
  step asyncMapper limit sty ev s = step asyncMapper 1 sty ev s.
Proof.
  intros Hl. destruct ev; simpl; [|reflexivity].
  destruct (queue s) as [|j q]; [reflexivity|].
  destruct j as [r o|p q']; simpl; [|reflexivity].
  destruct r; simpl; try reflexivity.
  destruct o; [|reflexivity]. apply loop_nonpositive; assumption.
Qed.

Lemma run_nonpositive (limit : Z) (sched : list event) (s : state T R E) :
  (limit <= 1)%Z ->
  run asyncMapper limit sty sched s = run asyncMapper 1 sty sched s.
Proof.
  intros Hl. revert s. induction sched as [|ev sched IH]; intros s; simpl.
  - reflexivity.
  - rewrite step_nonpositive by assumption. apply IH.
Qed.

End RunFacts.

(** ** List and set lemmas *)

Section ListFacts.

Variables T R E : Type.

Local Abbreviation job := (job T R E).

Lemma mem_In (p : pid) (l : list pid) : mem p l = true <-> In p l.
Proof.
  unfold mem. rewrite existsb_exists. split.
  - intros [x [Hx He]]. apply pid_eqb_eq in He. subst. assumption.
  - intros H. exists p. split; [assumption | apply pid_eqb_refl].
Qed.

Lemma mem_false (p : pid) (l : list pid) : mem p l = false <-> ~ In p l.
Proof.
  rewrite <- mem_In. destruct (mem p l); split; congruence.
Qed.

Lemma set_delete_In (p q : pid) (l : list pid) :
  In q (set_delete p l) <-> In q l /\ q <> p.
Proof.
  unfold set_delete. rewrite filter_In. split; intros [H1 H2]; split; auto.
  - intros ->. rewrite pid_eqb_refl in H2. discriminate.
  - destruct (pid_eqb_spec p q); [congruence | reflexivity].
Qed.

Lemma set_delete_length (p : pid) (l : list pid) :
  length (set_delete p l) <= length l.
Proof. apply filter_length_le. Qed.

Lemma set_delete_shrinks (p : pid) (l : list pid) :
  In p l -> length (set_delete p l) < length l.
Proof.
  unfold set_delete. induction l as [|x l IH]; simpl; [tauto|].
  intros [->|H].
  - rewrite pid_eqb_refl. simpl.
    pose proof (filter_length_le (fun q => negb (pid_eqb p q)) l). lia.
  - specialize (IH H). destruct (negb (pid_eqb p x)); simpl; lia.
Qed.

Lemma set_delete_absent (p : pid) (l : list pid) :
  ~ In p l -> set_delete p l = l.
Proof.
  unfold set_delete. induction l as [|x l IH]; simpl; [reflexivity|].
  intros H. destruct (pid_eqb_spec p x); simpl.
  - subst. tauto.
  - f_equal. apply IH. tauto.
Qed.

Lemma set_add_In (p q : pid) (l : list pid) :
  In q (set_add p l) <-> q = p \/ In q l.
Proof.
  unfold set_add. destruct (existsb (pid_eqb p) l) eqn:H.
  - apply mem_In in H. split; [tauto|]. intros [->|H']; assumption.
  - rewrite in_app_iff. simpl. split; intros [H1|H1]; auto.
    + destruct H1; [auto | tauto].
Qed.

Lemma set_add_le (p : pid) (l : list pid) :
  (size (set_add p l) <= size l + 1)%Z.
Proof.
  unfold size, set_add. destruct (existsb (pid_eqb p) l).
  - lia.
  - rewrite length_app. simpl. lia.
Qed.

Lemma guarded_none (P G : job -> bool) (q : list job) :
  existsb P q = false -> guarded P G q = true.
Proof.
  induction q as [|j q IH]; simpl; [reflexivity|].
  intros H. apply orb_false_iff in H. destruct H as [H1 H2].
  rewrite H1. destruct (G j); auto.
Qed.

Lemma guarded_app (P G : job -> bool) (q q' : list job) :
  guarded P G q = true -> guarded P G q' = true ->
  guarded P G (q ++ q') = true.
Proof.
  induction q as [|j q IH]; simpl; [auto|].
  destruct (G j); [reflexivity|]. destruct (P j); [discriminate|]. auto.
Qed.

Lemma guarded_app_G (P G : job -> bool) (q q' : list job) :
  guarded P G q = true -> existsb G q = true ->
  guarded P G (q ++ q') = true.
Proof.
  induction q as [|j q IH]; simpl; [discriminate|].
  destruct (G j); [reflexivity|]. destruct (P j); [discriminate|]. auto.
Qed.

Lemma guarded_ext (P G G' : job -> bool) (q : list job) :
  (forall j, In j q -> G j = G' j) ->
  guarded P G q = guarded P G' q.
Proof.
  induction q as [|j q IH]; simpl; [reflexivity|].
  intros H. rewrite <- (H j) by auto. rewrite IH by auto. reflexivity.
Qed.

Lemma launches_app (q q' : list job) :
  launches (q ++ q') = launches q ++ launches q'.
Proof. apply flat_map_app. Qed.

Lemma launches_none (q : list job) :
  (forall j, In j q -> launch_of j = []) -> launches q = [].
Proof.
  induction q as [|j q IH]; simpl; [reflexivity|].
  intros H. rewrite (H j) by auto. simpl. apply IH. auto.
Qed.

Lemma launches_In (q : list job) (i : nat) (x : T) :
  In (i, x) (launches q) <-> exists o, In (JReaction (OnLaunch i x) o) q.
Proof.
  unfold launches. rewrite in_flat_map. split.
  - intros [j [Hj Hin]]. destruct j as [[] o|]; simpl in Hin; try tauto.
    destruct Hin as [Heq|[]]. inversion Heq; subst. exists o. assumption.
  - intros [o H]. exists (JReaction (OnLaunch i x) o). simpl. auto.
Qed.

(** The input paired with its positions. *)
Lemma indexed_length (l : list T) : length (indexed l) = length l.
Proof. unfold indexed. rewrite length_combine, length_seq. lia. Qed.

Lemma indexed_nth_gen (l : list T) (k i : nat) (x : T) :
  nth_error l i = Some x ->
  nth_error (combine (seq k (length l)) l) i = Some (k + i, x).
Proof.
  revert k i. induction l as [|y l IH]; intros k i H.
  - destruct i; discriminate.
  - destruct i; simpl in *.
    + inversion H; subst. f_equal. f_equal. lia.
    + rewrite (IH (S k) i H). f_equal. f_equal. lia.
Qed.

Lemma indexed_nth (l : list T) (i : nat) (x : T) :
  nth_error l i = Some x -> nth_error (indexed l) i = Some (i, x).
Proof. intros H. unfold indexed. rewrite (indexed_nth_gen _ 0 _ _ H). reflexivity. Qed.

Lemma indexed_In_gen (l : list T) (k i : nat) (x : T) :
  In (i, x) (combine (seq k (length l)) l) ->
  k <= i /\ nth_error l (i - k) = Some x.
Proof.
  revert k. induction l as [|y l IH]; simpl; intros k H; [tauto|].
  destruct H as [H|H].
  - inversion H; subst. rewrite Nat.sub_diag. split; [lia | reflexivity].
  - apply IH in H. destruct H as [H1 H2]. split; [lia|].
    replace (i - k) with (S (i - S k)) by lia. assumption.
Qed.

Lemma indexed_In (l : list T) (i : nat) (x : T) :
  In (i, x) (indexed l) -> nth_error l i = Some x.
Proof.
  intros H. apply indexed_In_gen in H. rewrite Nat.sub_0_r in H. tauto.
Qed.

Lemma firstn_seq (n k len : nat) :
  firstn n (seq k len) = seq k (Nat.min n len).
Proof.
  revert k len. induction n as [|n IH]; intros k len; [reflexivity|].
  destruct len; simpl; [reflexivity|]. f_equal. apply IH.
Qed.

Lemma indexed_firstn (l : list T) (n : nat) :
  firstn n (indexed l) = indexed (firstn n l).
Proof.
  unfold indexed. rewrite combine_firstn, firstn_seq, length_firstn.
  reflexivity.
Qed.

Lemma indexed_firstn_In (l : list T) (n i : nat) (x : T) :
  In (i, x) (firstn n (indexed l)) -> i < n /\ nth_error l i = Some x.
Proof.
  rewrite indexed_firstn. intros H. apply indexed_In in H.
  assert (Hi : i < length (firstn n l)) by (apply nth_error_Some; congruence).
  rewrite length_firstn in Hi. split; [lia|].
  rewrite nth_error_firstn in H. destruct (Nat.ltb_spec i n); [assumption|lia].
Qed.

Lemma firstn_snoc (A : Type) (l : list A) (n : nat) (x : A) :
  nth_error l n = Some x -> firstn (S n) l = firstn n l ++ [x].
Proof.
  revert n. induction l as [|y l IH]; intros n H.
  - destruct n; discriminate.
  - destruct n; simpl in *.
    + inversion H; reflexivity.
    + f_equal. apply IH. assumption.
Qed.

Lemma firstn_split_head (l : list T) (n : nat) (x : T) (rest : list T) :
  l = firstn n l ++ x :: rest ->
  nth_error l n = Some x /\ n < length l
  /\ l = firstn (S n) l ++ rest.
Proof.
  intros H.
  assert (Hn : n <= length l).
  { destruct (Nat.le_gt_cases n (length l)); [assumption|].
    rewrite firstn_all2 in H by lia.
    apply (f_equal (@length T)) in H. rewrite length_app in H. simpl in H. lia. }
  assert (Hx : nth_error l n = Some x).
  { rewrite H at 1. rewrite nth_error_app2; rewrite length_firstn, Nat.min_l by lia; [|lia].
    rewrite Nat.sub_diag. reflexivity. }
  split; [assumption|]. split.
  - apply nth_error_Some. congruence.
  - rewrite (firstn_snoc _ _ _ _ Hx). rewrite <- app_assoc. simpl. assumption.
Qed.

End ListFacts.

(** ** Preservation of the shape invariant by the primitives *)

Lemma pid_eqb_neq (a b : pid) : a <> b -> pid_eqb a b = false.
Proof. intros H. destruct (pid_eqb_spec a b); congruence. Qed.

Ltac case_pid a b :=
  let H := fresh "Heq" in
  destruct (pid_eqb_spec a b) as [H|H];
  [ try subst; try (injection H as H; try subst); rewrite ?pid_eqb_refl in *
  | rewrite ?(pid_eqb_neq _ _ H) in * ];
  try discriminate; try congruence.

Ltac heap_cases :=
  repeat match goal with
  | |- context [if pid_eqb ?a ?b then _ else _] => case_pid a b
  | H : context [if pid_eqb ?a ?b then _ else _] |- _ => case_pid a b
  end.

Ltac destruct_shape H :=
  destruct H as [sh_results sh_len sh_exec sh_size sh_fresh_item sh_alloc_item
                 sh_fresh_race sh_host sh_first sh_jobs sh_launches
                 sh_item_exec sh_exec_cleanup sh_item_out sh_op_out sh_op_item
                 sh_op_called sh_all_none sh_all_some sh_values sh_all_ok
                 sh_ret sh_all_order sh_seq sh_exec_le sh_race_limit].

Section Frames.

Variables T R E : Type.
Variable sty : style.

Local Abbreviation state := (state T R E).

Lemma hosted_mono (s s' : state) (p : pid) (r : reaction T R E) :
  (forall q, heap s q <> None -> heap s' q <> None) ->
  hosted s p r -> hosted s' p r.
Proof.
  intros Ha. destruct r as [| | | |q| |]; simpl; try tauto.
  - destruct q; simpl; try tauto. intros [H1 H2]. split; auto.
  - intros [H1 H2]. auto.
Qed.

Lemma job_ok_mono (s s' : state) (j : job T R E) :
  (forall q, heap s q <> None -> heap s' q <> None) ->
  (forall q o, essential q = true ->
     heap s q = Some (Settled o) -> heap s' q = Some (Settled o)) ->
  (forall i x, In (i, x) (launch_of j) ->
     (forall rs, heap s (PItem i) = Some (Pending rs) ->
                 exists rs', heap s' (PItem i) = Some (Pending rs'))
     /\ (heap s (POp i) = None -> heap s' (POp i) = None)) ->
  job_ok s j -> job_ok s' j.
Proof.
  intros Ha Hset Hl. destruct j as [r o|p q]; simpl; [|tauto].
  destruct r as [i x| | | |q| |]; simpl; auto.
  - intros [[rs H1] H2]. destruct (Hl i x) as [H3 H4]; [simpl; auto|]. eauto.
  - destruct q; simpl; auto. intros [[i' H1] H2]. split; eauto.
  - intros [j H]. eauto.
  - intros [H1 H2]. auto.
Qed.

Lemma indexed_fst (l : list T) : map fst (indexed l) = seq 0 (length l).
Proof.
  unfold indexed. generalize 0. induction l as [|x l IH]; intros k; simpl.
  - reflexivity.
  - f_equal. apply IH.
Qed.

Lemma cleanup_job_inv (j : job T R E) (i : nat) :
  cleanup_job j = Some i ->
  exists c o, j = JReaction c o /\ cleanup_of c = Some i
              /\ launch_of j = [] /\ (forall k, all_elem k j = false)
              /\ is_await j = false
              /\ (forall p, settles p j = false).
Proof.
  destruct j as [c o|]; simpl; [|discriminate]. intros H. exists c, o.
  destruct c; simpl in *; try discriminate; auto 10.
Qed.

Lemma update_nth_length (A : Type) (k : nat) (x : A) (l : list A) :
  length (update_nth k x l) = length l.
Proof.
  revert k. induction l as [|y l IH]; intros k; destruct k; simpl; auto.
Qed.

Lemma update_nth_same (A : Type) (k : nat) (x : A) (l : list A) :
  nth_error l k = Some x -> update_nth k x l = l.
Proof.
  revert k. induction l as [|y l IH]; intros k H; destruct k; simpl in *;
    try reflexivity.
  - inversion H; reflexivity.
  - f_equal. apply IH. assumption.
Qed.

Lemma update_nth_oob (A : Type) (k : nat) (x : A) (l : list A) :
  length l <= k -> update_nth k x l = l.
Proof.
  revert k. induction l as [|y l IH]; intros k H; destruct k; simpl in *;
    try reflexivity; [lia|]. f_equal. apply IH. lia.
Qed.

Lemma update_nth_lookup (A : Type) (k k' : nat) (x y : A) (l : list A) :
  nth_error (update_nth k x l) k' = Some y ->
  (k' = k /\ y = x) \/ (k' <> k /\ nth_error l k' = Some y).
Proof.
  revert k k'. induction l as [|z l IH]; intros k k' H.
  - destruct k, k'; discriminate.
  - destruct k, k'; simpl in *.
    + inversion H; auto.
    + right. split; [lia | assumption].
    + right. split; [lia | assumption].
    + destruct (IH _ _ H) as [[-> ->]|[H1 H2]]; [left | right]; split; auto.
Qed.

Lemma all_filled_lookup (vs : list (option (value R))) (l : list (value R)) (k : nat) :
  all_filled vs = Some l -> k < length vs ->
  exists v, nth_error vs k = Some (Some v).
Proof.
  revert l k. induction vs as [|ov vs IH]; intros l k H Hk; simpl in *; [lia|].
  destruct ov as [v|]; [|discriminate].
  destruct (all_filled vs) as [l'|] eqn:Hl; [|discriminate].
  destruct k; simpl; [eauto|]. apply (IH l'); [reflexivity | lia].
Qed.

Lemma all_filled_length (vs : list (option (value R))) (l : list (value R)) :
  all_filled vs = Some l -> length l = length vs.
Proof.
  revert l. induction vs as [|ov vs IH]; intros l H; simpl in *.
  - inversion H; reflexivity.
  - destruct ov as [v|]; [|discriminate].
    destruct (all_filled vs) as [l'|] eqn:Hl; [|discriminate].
    inversion H; subst. simpl. f_equal. apply IH. reflexivity.
Qed.

Lemma all_filled_nth (vs : list (option (value R))) (l : list (value R)) (k : nat) v :
  all_filled vs = Some l -> nth_error vs k = Some (Some v) ->
  nth_error l k = Some v.
Proof.
  revert l k. induction vs as [|ov vs IH]; intros l k H Hk; simpl in *.
  - destruct k; discriminate.
  - destruct ov as [v'|]; [|discriminate].
    destruct (all_filled vs) as [l'|] eqn:Hl; [|discriminate].
    inversion H; subst. destruct k; simpl in *.
    + inversion Hk; reflexivity.
    + apply IH; auto.
Qed.

Lemma launch_eq (item : T) (s : state) :
  launch sty item s
  = mkState (fun q => if pid_eqb (PItem (length (results s))) q
                      then Some (Pending [cleanup_reaction T R E sty (length (results s))])
                      else heap (alloc (PClean (length (results s)))
                                       (alloc (PItem (length (results s))) s)) q)
            (queue s ++ [JReaction (OnLaunch (length (results s)) item)
                                   (Fulfilled VUndefined)])
            (results s ++ [PItem (length (results s))])
            (set_add (PItem (length (results s))) (executing s))
            (values s) (calls s).
Proof.
  unfold launch, then_. simpl.
  rewrite pid_eqb_refl. reflexivity.
Qed.

Lemma cleanup_reaction_of (i : nat) :
  cleanup_of (cleanup_reaction T R E sty i) = Some i.
Proof. destruct sty; reflexivity. Qed.

End Frames.

Section Preservation.
Variables T R E : Type.
Variable asyncMapper : T -> behaviour R E.
Variable limit : Z.
Variable sty : style.
Variable inputs : list T.
Local Abbreviation state := (state T R E).
Local Abbreviation settle_ok := (settle_ok T R E asyncMapper inputs).

Lemma shape_settle (s : state) (p : pid) (o : outcome R E) :
  shape asyncMapper limit inputs s -> settle_ok s p o ->
  shape asyncMapper limit inputs (settle p o s).
Proof.
  intros Hs Hok. unfold settle.
  destruct (heap s p) as [[rs|o']|] eqn:Hp; try assumption.
  assert (Hhost : forall r, In r rs -> hosted s p r) by (intros; eapply sh_host; eauto).
  destruct_shape Hs. constructor; simpl.
  all: try assumption.
  all: unfold op_pending; simpl.
  - intros i Hi. case_pid p (PItem i); auto.
    rewrite sh_fresh_item in Hp by assumption. discriminate.
  - intros i Hi. case_pid p (PItem i). auto.
  - intros i Hi. case_pid p (PRace i); auto.
    rewrite sh_fresh_race in Hp by assumption. discriminate.
  - intros p0 rs0 r H Hr. case_pid p p0.
    eapply hosted_mono; [|eapply sh_host; eauto]; simpl.
    intros q Hq. case_pid p q.
  - intros i rs0 H. case_pid p (PItem i). eauto.
  - intros j Hj. apply in_app_or in Hj. destruct Hj as [Hj|Hj].
    + apply job_ok_mono with (s := s); simpl; auto.
      * intros q Hq. case_pid p q.
      * intros q o0 He H. case_pid p q.
      * intros i x Hin. split.
        -- intros rs0 H. case_pid p (PItem i); [|eauto]. exfalso.
           simpl in Hok. destruct Hok as [item [_ [_ [_ [_ Hno]]]]].
           apply (Hno x). unfold launches. apply in_flat_map. eauto.
        -- intros H. case_pid p (POp i).
    + apply in_map_iff in Hj. destruct Hj as [r [<- Hr]].
      specialize (Hhost r Hr). destruct r as [| | | |q| |]; simpl in *; try contradiction; auto.
      * subst. rewrite pid_eqb_refl. reflexivity.
      * subst. rewrite pid_eqb_refl. reflexivity.
      * destruct q; simpl in *; try contradiction; auto; subst; try (rewrite pid_eqb_refl; reflexivity).
        destruct Hhost as [[i' ->] Hlt]. split; [exists i'|].
        -- rewrite pid_eqb_refl; reflexivity.
        -- case_pid (PItem i') (PRace i).
      * destruct Hhost as [j ->]. exists j. rewrite pid_eqb_refl. discriminate.
      * destruct Hhost as [-> Ha]. rewrite pid_eqb_refl. split; [reflexivity | assumption].
  - rewrite launches_app. rewrite (@launches_none _ _ _ (map _ rs)); [rewrite app_nil_r; assumption|].
    intros j Hj. apply in_map_iff in Hj. destruct Hj as [r [<- Hr]].
    specialize (Hhost r Hr). destruct r; simpl in *; tauto.
  - intros i rs0 H. case_pid p (PItem i). eauto.
  - intros i o0 H Hin. rewrite existsb_app. case_pid p (PItem i).
    + destruct (sh_first _ _ Hp) as [c [rs' [-> Hc]]]. simpl.
      unfold cleans at 2. simpl. rewrite Hc, Nat.eqb_refl. apply orb_true_r.
    + erewrite sh_exec_cleanup; eauto.
  - intros i o0 H. case_pid p (PItem i).
    + inversion H; subst o0. simpl in Hok.
      destruct Hok as [item [H1 [H2 [H3 [H4 _]]]]]. exists item. unfold op_pending in H4. tauto.
    + destruct (sh_item_out _ _ H) as [item [H1 [H2 [H3 H4]]]]. exists item.
      unfold op_pending in H4.
      repeat split; auto. case_pid p (POp i).
  - intros i o0 H. case_pid p (POp i); [|eauto]. inversion H; subst. exact Hok.
  - intros i H. case_pid p (POp i). case_pid p (PItem i); [|auto].
    simpl in Hok. destruct Hok as [item [_ [_ [_ [Hno _]]]]].
    unfold op_pending in Hno. congruence.
  - intros i H. case_pid p (POp i); apply sh_op_called; congruence.
  - intros H. case_pid p PAll. auto.
  - intros H. case_pid p PAll; apply sh_all_some; congruence.
  - intros k v H. destruct (sh_values _ _ H) as [H1 H2]. case_pid p (PItem k). auto.
  - intros v H. case_pid p PAll; [|eauto]. inversion H; subst. exact Hok.
  - intros v H. case_pid p PRet;
      [|case_pid p PAll; eauto; rewrite (sh_ret _ H) in Hp; discriminate].
    inversion H; subst. exact Hok.
  - intros k Hin. apply guarded_app; [auto|].
    destruct (pid_eqb_spec p (PItem k)).
    + subst. destruct (sh_first _ _ Hp) as [c [rs' [-> Hc]]]. simpl.
      unfold cleans. simpl. rewrite Hc, Nat.eqb_refl. reflexivity.
    + apply guarded_none. apply not_true_is_false. intros He.
      apply existsb_exists in He. destruct He as [j [Hj He]].
      apply in_map_iff in Hj. destruct Hj as [r [<- Hr]].
      specialize (Hhost r Hr). destruct r; simpl in *; try discriminate.
      apply Nat.eqb_eq in He. destruct Hhost. congruence.
  - intros Hl i Hi. destruct (sh_seq Hl _ Hi) as [o0 H]. case_pid p (PItem i). eauto.
  - intros j H. apply (sh_race_limit j). case_pid p (PRace j).
Qed.

Lemma shape_pop_plain (s : state) (j : job T R E) (q : list (job T R E)) :
  shape asyncMapper limit inputs s -> queue s = j :: q ->
  launch_of j = [] -> cleanup_job j = None ->
  (forall k, all_elem k j = false) ->
  shape asyncMapper limit inputs (set_queue q s).
Proof.
  intros Hs Hq Hl Hc Ha. destruct_shape Hs. rewrite Hq in *.
  constructor; simpl; try assumption.
  - intros j' Hj. apply sh_jobs. simpl; auto.
  - simpl in sh_launches. rewrite Hl in sh_launches. assumption.
  - intros i o H Hin. specialize (sh_exec_cleanup i o H Hin). simpl in *.
    unfold cleans in sh_exec_cleanup at 1. rewrite Hc in sh_exec_cleanup. assumption.
  - intros k Hin. specialize (sh_all_order k Hin). simpl in *.
    unfold cleans in sh_all_order at 1. rewrite Hc, Ha in sh_all_order. assumption.
Qed.

Lemma launch_head (s : state) i x o (q : list (job T R E)) :
  shape asyncMapper limit inputs s ->
  queue s = JReaction (OnLaunch i x) o :: q ->
  nth_error inputs i = Some x
  /\ (forall x', ~ In (i, x') (launches q))
  /\ (exists rs, heap s (PItem i) = Some (Pending rs))
  /\ heap s (POp i) = None.
Proof.
  intros Hs Hq. assert (Hl := sh_launches Hs). rewrite Hq in Hl. simpl in Hl.
  assert (Hj := sh_jobs Hs (JReaction (OnLaunch i x) o)).
  rewrite Hq in Hj. simpl in Hj. specialize (Hj (or_introl eq_refl)).
  split; [|split; [|exact Hj]].
  - assert (Hin : In (i, x) (firstn (length (results s)) (indexed inputs))).
    { rewrite <- Hl. apply in_or_app. right. left. reflexivity. }
    apply indexed_firstn_In in Hin. tauto.
  - intros x' Hin.
    assert (Hnd : NoDup (map fst (firstn (length (results s)) (indexed inputs)))).
    { rewrite indexed_firstn, indexed_fst. apply seq_NoDup. }
    rewrite <- Hl, map_app in Hnd. simpl in Hnd.
    apply NoDup_remove_2 in Hnd. apply Hnd. apply in_or_app. right.
    change i with (fst (i, x')). apply in_map. assumption.
Qed.

Lemma shape_record_call (s : state) i x o (q : list (job T R E)) :
  shape asyncMapper limit inputs s ->
  queue s = JReaction (OnLaunch i x) o :: q ->
  shape asyncMapper limit inputs
        (set_calls (calls s ++ [(i, x)]) (set_queue q s)).
Proof.
  intros Hs Hq. destruct_shape Hs. rewrite Hq in *.
  constructor; simpl; try assumption.
  - intros j' Hj. apply sh_jobs. simpl; auto.
  - simpl in sh_launches. rewrite <- app_assoc. assumption.
  - intros i' o' H. destruct (sh_item_out _ _ H) as [item [H1 [H2 [H3 H4]]]].
    exists item. repeat split; auto. apply in_or_app; auto.
  - intros i' H. destruct (sh_op_called _ H) as [item Hin]. exists item.
    apply in_or_app; auto.
Qed.

Lemma shape_launched_async (s : state) i x :
  shape asyncMapper limit inputs s ->
  In (i, x) (calls s) ->
  (exists rs, heap s (PItem i) = Some (Pending rs)) ->
  heap s (POp i) = None ->
  (forall x', ~ In (i, x') (launches (queue s))) ->
  shape asyncMapper limit inputs
        (enqueue [JThenable (PItem i) (POp i)] (alloc (POp i) s)).
Proof.
  intros Hs Hc [rsi Hi] Ho Hno. destruct_shape Hs.
  constructor; simpl; try assumption; unfold op_pending; simpl.
  - intros p rs r H Hr. case_pid (POp i) p.
    + inversion H; subst. destruct Hr.
    + eapply hosted_mono; [|eapply sh_host; eauto]. simpl.
      intros q Hq. case_pid (POp i) q.
  - intros j Hj. apply in_app_or in Hj. destruct Hj as [Hj|[<-|[]]]; [|simpl; reflexivity].
    apply job_ok_mono with (s := s); simpl; auto.
    + intros q Hq. case_pid (POp i) q.
    + intros q o He H. case_pid (POp i) q.
    + intros i' x' Hin. split; [eauto|]. intros H. case_pid (POp i) (POp i').
      exfalso. apply (Hno x'). unfold launches. apply in_flat_map. eauto.
  - rewrite launches_app. simpl. rewrite app_nil_r. assumption.
  - intros i' o H Hin. rewrite existsb_app. erewrite sh_exec_cleanup; eauto.
  - intros i' o H. destruct (sh_item_out _ _ H) as [item [H1 [H2 [H3 H4]]]].
    exists item. repeat split; auto. case_pid (POp i) (POp i'). exact H4.
  - intros i' o H. case_pid (POp i) (POp i'). eauto.
  - intros i' H. case_pid (POp i) (POp i'); eauto.
  - intros i' H. case_pid (POp i) (POp i'); eauto.
  - intros k Hin. apply guarded_app; auto.
Qed.

Lemma shape_pop_cleanup (s : state) (j : job T R E) (q : list (job T R E)) i :
  shape asyncMapper limit inputs s -> queue s = j :: q ->
  cleanup_job j = Some i ->
  shape asyncMapper limit inputs
        (set_executing (set_delete (PItem i) (executing s)) (set_queue q s)).
Proof.
  intros Hs Hq Hc.
  destruct (cleanup_job_inv _ _ _ _ _ Hc) as [c [o [-> [Hc' [Hl [Ha _]]]]]].
  assert (Hset : exists o', heap s (PItem i) = Some (Settled o')).
  { assert (Hj := sh_jobs Hs (JReaction c o)). rewrite Hq in Hj.
    specialize (Hj (or_introl eq_refl)).
    destruct c; simpl in *; try discriminate; inversion Hc'; subst; eauto. }
  destruct Hset as [o' Hset].
  destruct_shape Hs. rewrite Hq in *.
  constructor; simpl; try assumption.
  - intros p Hp. apply set_delete_In in Hp. apply sh_exec. tauto.
  - pose proof (set_delete_length (PItem i) (executing s)). unfold size in *. lia.
  - intros j' Hj. apply sh_jobs. simpl; auto.
  - unfold launches in sh_launches. cbn [flat_map] in sh_launches.
    rewrite Hl in sh_launches. assumption.
  - intros i' rs H. apply set_delete_In. split; [eauto|]. congruence.
  - intros i' o0 H Hin. apply set_delete_In in Hin. destruct Hin as [Hin Hne].
    specialize (sh_exec_cleanup i' o0 H Hin). cbn [existsb] in sh_exec_cleanup.
    unfold cleans in sh_exec_cleanup at 1. cbn [cleanup_job] in sh_exec_cleanup.
    rewrite Hc' in sh_exec_cleanup.
    destruct (Nat.eqb_spec i i'); [subst; congruence|]. assumption.
  - intros k v H. destruct (sh_values _ _ H) as [H1 H2]. split; [assumption|].
    intros Hin. apply set_delete_In in Hin. tauto.
  - intros k Hin. apply set_delete_In in Hin. destruct Hin as [Hin Hne].
    specialize (sh_all_order k Hin). cbn [guarded] in sh_all_order.
    unfold cleans in sh_all_order at 1. cbn [cleanup_job] in sh_all_order.
    rewrite Hc', (Ha k) in sh_all_order.
    destruct (Nat.eqb_spec i k); [subst; congruence|]. assumption.
  - pose proof (set_delete_length (PItem i) (executing s)). unfold size in *. lia.
Qed.

Lemma shape_finally (s : state) i o b :
  shape asyncMapper limit inputs s ->
  shape asyncMapper limit inputs
        (enqueue [JReaction (OnFinallyThunk i o) (Fulfilled (VBool b));
                  JThenable (PClean i) (PFin i)]
                 (alloc (PFin i) s)).
Proof.
  intros Hs. destruct_shape Hs.
  constructor; simpl; try assumption; unfold op_pending; simpl.
  - intros p rs r H Hr. case_pid (PFin i) p.
    + inversion H; subst. destruct Hr.
    + eapply hosted_mono; [|eapply sh_host; eauto]. simpl.
      intros q Hq. case_pid (PFin i) q.
  - intros j Hj. apply in_app_or in Hj.
    destruct Hj as [Hj|[<-|[<-|[]]]]; [|simpl; auto..].
    apply job_ok_mono with (s := s); simpl; auto.
    + intros q Hq. case_pid (PFin i) q.
    + intros q o' He H. case_pid (PFin i) q.
    + intros i' x' Hin. split; [eauto|]. auto.
  - rewrite launches_app. simpl. rewrite app_nil_r. assumption.
  - intros i' o' H Hin. rewrite existsb_app. erewrite sh_exec_cleanup; eauto.
  - intros k Hin. apply guarded_app; auto.
Qed.

Lemma shape_pop_all_elem (s : state) k o (q : list (job T R E)) :
  shape asyncMapper limit inputs s ->
  queue s = JReaction (OnAllElement k) o :: q ->
  shape asyncMapper limit inputs (set_queue q s)
  /\ ~ In (PItem k) (executing s)
  /\ heap s (PItem k) = Some (Settled o)
  /\ heap s PAll <> None.
Proof.
  intros Hs Hq.
  assert (Hj := sh_jobs Hs (JReaction (OnAllElement k) o)). rewrite Hq in Hj.
  specialize (Hj (or_introl eq_refl)). simpl in Hj. destruct Hj as [Hj1 Hj2].
  assert (Hno : ~ In (PItem k) (executing s)).
  { intros Hin. assert (Hg := sh_all_order Hs k Hin). rewrite Hq in Hg.
    simpl in Hg. rewrite Nat.eqb_refl in Hg. discriminate. }
  split; [|auto]. destruct_shape Hs; rewrite Hq in *.
  constructor; simpl; try assumption.
  - intros j' Hj. apply sh_jobs. simpl; auto.
  - intros k' Hin. specialize (sh_all_order k' Hin). simpl in sh_all_order.
    destruct (Nat.eqb_spec k' k); [subst; tauto | assumption].
Qed.

Lemma shape_set_value (s : state) k v :
  shape asyncMapper limit inputs s ->
  heap s (PItem k) = Some (Settled (Fulfilled v)) ->
  ~ In (PItem k) (executing s) ->
  heap s PAll <> None ->
  shape asyncMapper limit inputs
        (set_values (update_nth k (Some v) (values s)) s).
Proof.
  intros Hs Hk Hno Hall. destruct_shape Hs.
  constructor; simpl; try assumption.
  - intros H. congruence.
  - intros H. rewrite update_nth_length. auto.
  - intros k' v' H. apply update_nth_lookup in H.
    destruct H as [[-> H]|[H1 H2]]; [inversion H; subst; auto | auto].
  - intros w H. destruct (sh_all_ok _ H) as [l [-> Hl]]. exists l. split; [reflexivity|].
    destruct (Nat.lt_ge_cases k (length (values s))) as [Hlt|Hge].
    + destruct (all_filled_lookup _ _ _ _ Hl Hlt) as [v0 Hv0].
      destruct (sh_values _ _ Hv0) as [H1 _].
      rewrite H1 in Hk. inversion Hk; subst.
      rewrite update_nth_same by assumption. assumption.
    + rewrite update_nth_oob by assumption. assumption.
Qed.

Lemma shape_then (s : state) (p : pid) (r : reaction T R E) :
  shape asyncMapper limit inputs s ->
  hosted s p r ->
  cleanup_of r = None ->
  (forall o, launch_of (JReaction r o) = []) ->
  (forall k o, all_elem k (JReaction r o) = true -> p = PItem k) ->
  (forall o, heap s p = Some (Settled o) -> job_ok s (JReaction r o)) ->
  shape asyncMapper limit inputs (then_ p r s).
Proof.
  intros Hs Hh Hc Hl Ha Hj. unfold then_.
  destruct (heap s p) as [[rs|o]|] eqn:Hp; [| |assumption].
  - (* pending: the reaction is appended *)
    destruct_shape Hs. constructor; simpl; try assumption; unfold op_pending; simpl.
    + intros i Hi. case_pid p (PItem i); auto.
      rewrite sh_fresh_item in Hp by assumption. discriminate.
    + intros i Hi. case_pid p (PItem i). auto.
    + intros i Hi. case_pid p (PRace i); auto.
      rewrite sh_fresh_race in Hp by assumption. discriminate.
    + intros p0 rs0 r0 H Hr. case_pid p p0.
      * inversion H; subst. apply in_app_or in Hr.
        eapply hosted_mono with (s := s);
          [simpl; intros q Hq; case_pid p0 q|].
        destruct Hr as [Hr|[<-|[]]]; eauto.
      * eapply hosted_mono with (s := s);
          [simpl; intros q Hq; case_pid p q|]. eauto.
    + intros i rs0 H. case_pid p (PItem i); [|eauto].
      inversion H; subst.
      destruct (sh_first _ _ Hp) as [c [rs' [-> Hc']]]. simpl. eauto.
    + intros j Hj'. apply job_ok_mono with (s := s); simpl; auto.
      * intros q Hq. case_pid p q.
      * intros q o He H. case_pid p q.
      * intros i x Hin. split.
        -- intros rs0 H. case_pid p (PItem i); eauto.
        -- intros H. case_pid p (POp i).
    + intros i rs0 H. case_pid p (PItem i); eauto.
    + intros i o H Hin. case_pid p (PItem i). eauto.
    + intros i o H. case_pid p (PItem i).
      destruct (sh_item_out _ _ H) as [item [H1 [H2 [H3 H4]]]]. exists item.
      unfold op_pending in H4. repeat split; auto.
      case_pid p (POp i). rewrite Hp in H4. discriminate.
    + intros i o H. case_pid p (POp i). eauto.
    + intros i H. case_pid p (POp i).
      * destruct (sh_op_item i) as [rs0 H0]; [unfold op_pending; rewrite Hp; reflexivity|].
        case_pid (POp i) (PItem i). eauto.
      * destruct (sh_op_item i H) as [rs0 H0]. case_pid p (PItem i); eauto.
    + intros i H. case_pid p (POp i); apply sh_op_called; congruence.
    + intros H. case_pid p PAll. auto.
    + intros H. case_pid p PAll; apply sh_all_some; congruence.
    + intros k v H. destruct (sh_values _ _ H) as [H1 H2]. case_pid p (PItem k). auto.
    + intros v H. case_pid p PAll. eauto.
    + intros v H. case_pid p PRet. case_pid p PAll; [|eauto].
      rewrite (sh_ret _ H) in Hp. discriminate.
    + intros Hlim i Hi. destruct (sh_seq Hlim _ Hi) as [o0 H].
      case_pid p (PItem i). eauto.
    + intros j H. apply (sh_race_limit j). case_pid p (PRace j).
  - (* settled: the reaction job is queued at once *)
    specialize (Hj o eq_refl).
    destruct_shape Hs. constructor; simpl; try assumption.
    + intros j Hj'. apply in_app_or in Hj'.
      destruct Hj' as [Hj'|[<-|[]]]; [exact (sh_jobs j Hj') | exact Hj].
    + rewrite launches_app. unfold launches at 2. cbn [flat_map]. rewrite Hl.
      rewrite !app_nil_r. assumption.
    + intros i o0 H Hin. rewrite existsb_app. erewrite sh_exec_cleanup; eauto.
    + intros k Hin. destruct (all_elem k (JReaction r o)) eqn:He.
      * apply Ha in He. subst p. apply guarded_app_G; auto. eauto.
      * apply guarded_app; auto. apply guarded_none. cbn [existsb].
        rewrite He. reflexivity.
Qed.

Lemma no_all_elem (s : state) (k : nat) :
  shape asyncMapper limit inputs s -> heap s PAll = None ->
  existsb (all_elem k) (queue s) = false.
Proof.
  intros Hs Hn. apply not_true_is_false. intros H.
  apply existsb_exists in H. destruct H as [j [Hj He]].
  apply (sh_jobs Hs) in Hj. destruct j as [[] o|]; simpl in *; try discriminate.
  tauto.
Qed.

Lemma shape_launch (item : T) (s : state) :
  shape asyncMapper limit inputs s ->
  heap s PAll = None ->
  (size (executing s) < bound limit)%Z ->
  nth_error inputs (length (results s)) = Some item ->
  shape asyncMapper limit inputs (launch sty item s).
Proof.
  intros Hs Hall Hsz Hitem. rewrite launch_eq.
  assert (Hnoall := fun k => no_all_elem s k Hs Hall).
  assert (Hlt : length (results s) < length inputs)
    by (apply nth_error_Some; congruence).
  assert (Hop : heap s (POp (length (results s))) = None).
  { destruct (heap s (POp (length (results s)))) eqn:H; [|reflexivity].
    destruct (sh_op_called Hs (length (results s))) as [x Hx]; [congruence|].
    assert (Hin : In (length (results s), x)
                     (firstn (length (results s)) (indexed inputs))).
    { rewrite <- (sh_launches Hs). apply in_or_app; auto. }
    apply indexed_firstn_In in Hin. lia. }
  destruct_shape Hs. set (n := length (results s)) in *.
  assert (Hn' : length (results s ++ [PItem n]) = S n)
    by (rewrite length_app; simpl; lia).
  constructor; cbn [heap queue results executing values calls alloc set_heap];
    rewrite ?Hn'; unfold op_pending;
    cbn [heap queue results executing values calls alloc set_heap].
  - rewrite seq_S, map_app. simpl. f_equal. assumption.
  - lia.
  - intros p Hp. apply set_add_In in Hp. destruct Hp as [->|Hp].
    + exists n. split; [reflexivity | lia].
    + destruct (sh_exec p Hp) as [i [-> Hi]]. exists i. split; [reflexivity | lia].
  - pose proof (set_add_le (PItem n) (executing s)). lia.
  - intros i Hi. case_pid (PItem n) (PItem i); [lia|].
    case_pid (PClean n) (PItem i). apply sh_fresh_item. lia.
  - intros i Hi. case_pid (PItem n) (PItem i).
    case_pid (PClean n) (PItem i). apply sh_alloc_item.
    assert (i <> n) by congruence. lia.
  - intros j Hj. case_pid (PItem n) (PRace j). case_pid (PClean n) (PRace j).
    apply sh_fresh_race. lia.
  - intros p rs r H Hr. assert (Hm : forall q, heap s q <> None ->
        (if pid_eqb (PItem n) q then Some (Pending [cleanup_reaction T R E sty n])
         else if pid_eqb (PClean n) q then Some (Pending [])
              else if pid_eqb (PItem n) q then Some (Pending []) else heap s q)
        <> None).
    { intros q Hq. case_pid (PItem n) q. case_pid (PClean n) q. }
    case_pid (PItem n) p.
    + inversion H; subst. destruct Hr as [<-|[]]. destruct sty; reflexivity.
    + case_pid (PClean n) p.
      * inversion H; subst. destruct Hr.
      * eapply hosted_mono with (s := s); [exact Hm | eauto].
  - intros i rs H. case_pid (PItem n) (PItem i).
    + inversion H; subst. eexists _, _. split; [reflexivity|].
      apply cleanup_reaction_of.
    + case_pid (PClean n) (PItem i). eauto.
  - intros j Hj. apply in_app_or in Hj. destruct Hj as [Hj|[<-|[]]].
    + apply job_ok_mono with (s := s); simpl; auto.
      * intros q Hq. case_pid (PItem n) q. case_pid (PClean n) q.
      * intros q o He H. case_pid (PItem n) q.
        -- rewrite sh_fresh_item in H by (unfold n; lia). discriminate.
        -- case_pid (PClean n) q.
      * intros i x Hin. split.
        -- intros rs H. case_pid (PItem n) (PItem i); [eauto|].
           case_pid (PClean n) (PItem i). eauto.
        -- intros H. case_pid (PItem n) (POp i).
    + simpl. rewrite pid_eqb_refl.
      split; [eauto | assumption].
  - rewrite launches_app. simpl. rewrite app_assoc, sh_launches.
    symmetry. apply firstn_snoc. apply indexed_nth. assumption.
  - intros i rs H. apply set_add_In. heap_cases; eauto.
  - intros i o H Hin. apply set_add_In in Hin. rewrite existsb_app.
    heap_cases. destruct Hin as [|Hin]; [congruence|].
    erewrite sh_exec_cleanup; eauto.
  - intros i o H. heap_cases.
    destruct (sh_item_out _ _ H) as [x [H1 [H2 [H3 H4]]]]. exists x.
    repeat split; auto.
  - intros i o H. heap_cases. eauto.
  - intros i H. heap_cases; try (apply sh_op_item; exact H); eauto.
  - intros i H. heap_cases. eauto.
  - intros H. auto.
  - intros H. heap_cases.
  - intros k v H. rewrite (sh_all_none Hall) in H. destruct k; discriminate.
  - intros v H. heap_cases.
  - intros v H. heap_cases. rewrite (sh_ret _ H) in Hall. discriminate.
  - intros k Hin. apply guarded_app.
    + apply guarded_none. apply Hnoall.
    + reflexivity.
  - intros Hl i Hi. assert (Hi' : i < n) by lia.
    heap_cases; [lia|].
    destruct (heap s (PItem i)) as [[rs|o]|] eqn:H.
    + apply sh_item_exec in H. unfold bound, size in Hsz.
      destruct (executing s); [destruct H | simpl in Hsz; lia].
    + eauto.
    + exfalso. apply (sh_alloc_item i Hi'). assumption.
  - pose proof (set_add_le (PItem n) (executing s)). lia.
  - intros j H. apply (sh_race_limit j). heap_cases; congruence.
Qed.
End Preservation.

(** ** Preservation of the control state *)

Section ControlFrames.

Variables T R E : Type.
Variable limit : Z.
Variable inputs : list T.

Local Abbreviation state := (state T R E).
Local Abbreviation job := (job T R E).
Local Abbreviation bn_race := (bn_race T R E).
Local Abbreviation bn_all := (bn_all T R E).
Local Abbreviation bn_results := (bn_results T R E).
Local Abbreviation bn_executing := (bn_executing T R E).
Local Abbreviation bn_queue := (bn_queue T R E).

Lemma existsb_app_false (A : Type) (f : A -> bool) (l l' : list A) :
  existsb f l = false -> existsb f l' = false -> existsb f (l ++ l') = false.
Proof. intros H1 H2. rewrite existsb_app, H1, H2. reflexivity. Qed.

Lemma control_benign (s s' : state) :
  control limit inputs s -> benign s s' -> control limit inputs s'.
Proof.
  intros Hc [Hr Ha Hres Hex [new [Hq [Hna Hg]]]].
  destruct Hc as [Hn Hp | j rest Hn Hj Hu [Hs1 Hs2] Hgd
                 | pre rest o post Hp Hq' Hn1 Hn2 [Hs1 Hs2] Hsz].
  - apply CDone.
    + unfold no_await in *. rewrite Hq. apply existsb_app_false; assumption.
    + intros j rs. rewrite Hr. apply Hp.
  - apply CWaiting with (j := j) (rest := rest).
    + unfold no_await in *. rewrite Hq. apply existsb_app_false; assumption.
    + rewrite Hr. assumption.
    + intros j' rs. rewrite Hr. apply Hu.
    + split; [auto | rewrite Hres; assumption].
    + rewrite Hex, Hq. destruct Hgd as [Hgd|Hgd]; [left; assumption|].
      right. apply guarded_app; auto.
  - apply CResuming with (pre := pre) (rest := rest) (o := o) (post := post ++ new).
    + intros j rs. rewrite Hr. apply Hp.
    + rewrite Hq, Hq', <- app_assoc. reflexivity.
    + assumption.
    + unfold no_await in *. apply existsb_app_false; assumption.
    + split; [auto | rewrite Hres; assumption].
    + rewrite Hex. assumption.
Qed.

Lemma benign_refl (s : state) : benign s s.
Proof.
  constructor; auto. exists []. rewrite app_nil_r. auto.
Qed.

Lemma benign_trans (s1 s2 s3 : state) :
  benign s1 s2 -> benign s2 s3 -> benign s1 s3.
Proof.
  intros [Hr Ha Hres Hex [new [Hq [Hna Hg]]]]
         [Hr' Ha' Hres' Hex' [new' [Hq' [Hna' Hg']]]].
  constructor.
  - intros j. rewrite Hr'. apply Hr.
  - auto.
  - congruence.
  - congruence.
  - exists (new ++ new'). rewrite Hq', Hq, <- app_assoc. split; [reflexivity|].
    split; [apply existsb_app_false; assumption|].
    intros j. apply guarded_app; [apply Hg|]. rewrite <- Hex. apply Hg'.
Qed.

Lemma benign_then (s : state) (p : pid) (r : reaction T R E) :
  (forall j, p <> PRace j) ->
  (forall o, is_await (JReaction r o) = false) ->
  (forall j o, settles (PRace j) (JReaction r o) = false) ->
  benign s (then_ p r s).
Proof.
  intros Hp Hr1 Hr2. unfold then_.
  destruct (heap s p) as [[rs|o]|] eqn:Hh; try apply benign_refl.
  - constructor; simpl; auto.
    + intros j. case_pid p (PRace j); try (exfalso; eapply Hp; reflexivity).
    + intros H. case_pid p PAll.
    + exists []. rewrite app_nil_r. auto.
  - constructor; simpl; auto.
    eexists; split; [reflexivity|]. split.
    + cbn [existsb]. rewrite Hr1. reflexivity.
    + intros j. apply guarded_none. cbn [existsb]. rewrite Hr2. reflexivity.
Qed.

Lemma benign_alloc (s : state) (p : pid) :
  (forall j, p <> PRace j) -> p <> PAll ->
  benign s (alloc p s).
Proof.
  intros Hp Ha. constructor; simpl; auto.
  - intros j. case_pid p (PRace j); try (exfalso; eapply Hp; reflexivity).
  - intros H. case_pid p PAll.
  - exists []. rewrite app_nil_r. auto.
Qed.

Lemma benign_enqueue (s : state) (js : list job) :
  existsb is_await js = false ->
  (forall j, existsb (settles (PRace j)) js = false) ->
  benign s (enqueue js s).
Proof.
  intros H1 H2. constructor; simpl; auto.
  exists js. split; [reflexivity|]. split; [assumption|].
  intros j. apply guarded_none. apply H2.
Qed.

Lemma benign_values (s : state) (vs : list (option (value R))) :
  benign s (set_values vs s).
Proof.
  constructor; simpl; auto. exists []. rewrite app_nil_r. auto.
Qed.

Lemma benign_calls (s : state) (cs : list (nat * T)) :
  benign s (set_calls cs s).
Proof.
  constructor; simpl; auto. exists []. rewrite app_nil_r. auto.
Qed.

Lemma control_pop (s : state) (j : job) (q : list job) :
  control limit inputs s -> queue s = j :: q ->
  is_await j = false ->
  (forall jr, settles (PRace jr) j = false) ->
  cleanup_job j = None ->
  control limit inputs (set_queue q s).
Proof.
  intros Hc Hq Hj1 Hj2 Hj3.
  destruct Hc as [Hn Hp | jw rest Hn Hj Hu Hs Hgd
                 | pre rest o post Hp Hq' Hn1 Hn2 Hs Hsz].
  - apply CDone; [|exact Hp]. unfold no_await in *. rewrite Hq in Hn.
    simpl in Hn. apply orb_false_iff in Hn. tauto.
  - apply CWaiting with (j := jw) (rest := rest); auto.
    + unfold no_await in *. rewrite Hq in Hn.
      simpl in Hn. apply orb_false_iff in Hn. tauto.
    + destruct Hgd as [Hgd|Hgd]; [left; exact Hgd|]. right.
      rewrite Hq in Hgd. cbn [guarded] in Hgd. unfold effective in Hgd at 1.
      rewrite Hj3, Hj2 in Hgd. exact Hgd.
  - rewrite Hq in Hq'. destruct pre as [|j' pre].
    + simpl in Hq'. inversion Hq'; subst. discriminate.
    + simpl in Hq'. inversion Hq'; subst.
      apply CResuming with (pre := pre) (rest := rest) (o := o) (post := post); auto.
      unfold no_await in *. simpl in Hn1. apply orb_false_iff in Hn1. tauto.
Qed.

Lemma settle_noop (s : state) (p : pid) (o : outcome R E) :
  (forall rs, heap s p <> Some (Pending rs)) -> settle p o s = s.
Proof.
  intros H. unfold settle. destruct (heap s p) as [[rs|o']|] eqn:Hp; auto.
  exfalso. apply (H rs). reflexivity.
Qed.

Lemma control_pop_await (s : state) rest (o : outcome R E) (q : list job) :
  control limit inputs s ->
  queue s = JReaction (OnAwait rest) o :: q ->
  no_await q /\ no_race_pending (set_queue q s)
  /\ suspended_ok inputs (set_queue q s) rest
  /\ (size (executing s) < bound limit)%Z.
Proof.
  intros Hc Hq.
  destruct Hc as [Hn Hp | jw rest' Hn Hjw Hu Hs Hgd
                 | pre rest' o' post Hp Hq' Hn1 Hn2 Hs Hsz].
  - unfold no_await in Hn. rewrite Hq in Hn. discriminate.
  - unfold no_await in Hn. rewrite Hq in Hn. discriminate.
  - rewrite Hq in Hq'. destruct pre as [|j' pre].
    + simpl in Hq'. inversion Hq'; subst. auto.
    + simpl in Hq'. inversion Hq'; subst. unfold no_await in Hn1. discriminate.
Qed.

Lemma heap_then_other (s : state) (p q : pid) (r : reaction T R E) :
  p <> q -> heap (then_ p r s) q = heap s q.
Proof.
  intros H. unfold then_. destruct (heap s p) as [[rs|o]|]; simpl; auto.
  case_pid p q.
Qed.

Lemma queue_then (s : state) (p : pid) (r : reaction T R E) :
  queue (then_ p r s)
  = queue s ++ match heap s p with
               | Some (Settled o) => [JReaction r o]
               | _ => []
               end.
Proof.
  unfold then_. destruct (heap s p) as [[rs|o]|]; simpl; auto using app_nil_r.
  all: rewrite app_nil_r; reflexivity.
Qed.

Lemma effective_of_cleans (ex : list pid) (k : nat) (q : list job) :
  existsb (cleans k) q = true -> In (PItem k) ex ->
  existsb (effective ex) q = true.
Proof.
  intros H Hin. apply existsb_exists in H. destruct H as [j [Hj Hc]].
  apply existsb_exists. exists j. split; [assumption|].
  unfold cleans in Hc. unfold effective.
  destruct (cleanup_job j) as [i|]; [|discriminate].
  apply Nat.eqb_eq in Hc. subst. apply mem_In. assumption.
Qed.

End ControlFrames.

Section Steps.

Variables T R E : Type.
Variable asyncMapper : T -> behaviour R E.
Variable limit : Z.
Variable sty : style.
Variable inputs : list T.

Local Abbreviation state := (state T R E).
Local Abbreviation job := (job T R E).
Local Abbreviation racing := (racing T R E asyncMapper limit inputs).
Local Abbreviation rc_shape := (rc_shape T R E asyncMapper limit inputs).
Local Abbreviation rc_race := (rc_race T R E asyncMapper limit inputs).
Local Abbreviation rc_others := (rc_others T R E asyncMapper limit inputs).
Local Abbreviation rc_all := (rc_all T R E asyncMapper limit inputs).
Local Abbreviation rc_results := (rc_results T R E asyncMapper limit inputs).
Local Abbreviation rc_executing := (rc_executing T R E asyncMapper limit inputs).
Local Abbreviation rc_await := (rc_await T R E asyncMapper limit inputs).
Local Abbreviation rc_guard := (rc_guard T R E asyncMapper limit inputs).

(** The jobs flushed when a promise other than a race settles. *)
Lemma benign_settle (s : state) (p : pid) (o : outcome R E) :
  shape asyncMapper limit inputs s ->
  (forall j, p <> PRace j) ->
  benign s (settle p o s).
Proof.
  intros Hs Hp. unfold settle.
  destruct (heap s p) as [[rs|o']|] eqn:Hh; try apply benign_refl.
  pose proof (sh_host Hs) as Hhost. pose proof (sh_first Hs) as Hfirst.
  pose proof (sh_item_exec Hs) as Hexec.
  constructor; simpl; auto.
  - intros j. case_pid p (PRace j); try (exfalso; eapply Hp; reflexivity).
  - intros H. case_pid p PAll.
  - eexists; split; [reflexivity|]. split.
    + apply not_true_is_false. intros He. apply existsb_exists in He.
      destruct He as [j [Hj He]]. apply in_map_iff in Hj.
      destruct Hj as [r [<- Hr]]. apply (Hhost _ _ _ Hh) in Hr.
      destruct r; simpl in *; try discriminate.
      destruct Hr as [j Hr]. eapply Hp; eauto.
    + intros j. destruct (existsb (settles (PRace j))
                           (map (fun r => JReaction r o) rs)) eqn:He.
      * apply existsb_exists in He. destruct He as [jb [Hj He]].
        apply in_map_iff in Hj. destruct Hj as [r [<- Hr]].
        apply (Hhost _ _ _ Hh) in Hr.
        destruct r as [| | | |q| |]; simpl in He; try discriminate.
        apply pid_eqb_eq in He. subst q. simpl in Hr.
        destruct Hr as [[i ->] _].
        destruct (Hfirst _ _ Hh) as [c [rs' [-> Hc]]].
        simpl. unfold effective. simpl. rewrite Hc.
        assert (Hm : mem (PItem i) (executing s) = true).
        { apply mem_In. eapply Hexec; eauto. }
        rewrite Hm. reflexivity.
      * apply guarded_none. assumption.
Qed.

Lemma control_pop_cleanup (s : state) (j : job) (q : list job) (i : nat) :
  shape asyncMapper limit inputs s ->
  control limit inputs s -> queue s = j :: q ->
  cleanup_job j = Some i ->
  control limit inputs
          (set_executing (set_delete (PItem i) (executing s)) (set_queue q s)).
Proof.
  intros Hsh Hc Hq Hj.
  destruct (cleanup_job_inv _ _ _ _ _ Hj) as [c [o' [-> [Hc' [_ [_ [Haw Hst]]]]]]].
  pose proof (set_delete_length (PItem i) (executing s)) as Hle.
  destruct Hc as [Hn Hp | jw rest Hn Hjw Hu Hs Hgd
                 | pre rest o post Hp Hq' Hn1 Hn2 Hs Hsz].
  - apply CDone; [|exact Hp]. unfold no_await in *. rewrite Hq in Hn.
    simpl in Hn. apply orb_false_iff in Hn. tauto.
  - apply CWaiting with (j := jw) (rest := rest); auto.
    + unfold no_await in *. rewrite Hq in Hn.
      simpl in Hn. apply orb_false_iff in Hn. tauto.
    + simpl. destruct Hgd as [Hgd|Hgd]; [left; unfold size in *; lia|].
      rewrite Hq in Hgd. cbn [guarded] in Hgd. unfold effective in Hgd at 1.
      rewrite Hj in Hgd. destruct (mem (PItem i) (executing s)) eqn:Hm.
      * left. apply mem_In in Hm. apply set_delete_shrinks in Hm.
        pose proof (sh_size Hsh). unfold size in *. lia.
      * right. rewrite Hst in Hgd. apply mem_false in Hm.
        rewrite set_delete_absent by assumption. exact Hgd.
  - rewrite Hq in Hq'. destruct pre as [|j' pre].
    + simpl in Hq'. inversion Hq'; subst. discriminate.
    + simpl in Hq'. inversion Hq'; subst.
      apply CResuming with (pre := pre) (rest := rest) (o := o) (post := post); auto.
      * unfold no_await in *. simpl in Hn1. apply orb_false_iff in Hn1. tauto.
      * simpl. unfold size in *. lia.
Qed.

Lemma control_pop_race (s : state) (jr : nat) (o : outcome R E) (q : list job) :
  shape asyncMapper limit inputs s ->
  control limit inputs s ->
  queue s = JReaction (OnSettle (PRace jr)) o :: q ->
  control limit inputs (settle (PRace jr) o (set_queue q s)).
Proof.
  intros Hsh Hc Hq.
  destruct Hc as [Hn Hp | jw rest Hn Hjw Hu Hs Hgd
                 | pre rest o' post Hp Hq' Hn1 Hn2 Hs Hsz].
  - rewrite settle_noop by (intros rs; apply Hp).
    apply CDone; [|exact Hp]. unfold no_await in *. rewrite Hq in Hn.
    exact Hn.
  - assert (Hnq : no_await q).
    { unfold no_await in *. rewrite Hq in Hn. exact Hn. }
    destruct (Nat.eq_dec jr jw) as [->|Hne].
    + (* the awaited race settles: its continuation is queued *)
      assert (Hsz : (size (executing s) < bound limit)%Z).
      { destruct Hgd as [Hgd|Hgd]; [exact Hgd|]. rewrite Hq in Hgd.
        cbn [guarded] in Hgd. unfold effective, settles in Hgd.
        cbn [cleanup_job cleanup_of] in Hgd.
        rewrite pid_eqb_refl in Hgd. discriminate. }
      unfold settle. cbn [heap set_queue]. rewrite Hjw.
      apply CResuming with (pre := q) (rest := rest) (o := o) (post := []).
      * intros j' rs. simpl. case_pid (PRace jw) (PRace j').
        intros H. apply Hu in H. congruence.
      * reflexivity.
      * exact Hnq.
      * reflexivity.
      * destruct Hs as [Hs1 Hs2]. split; [|exact Hs2]. simpl.
        case_pid (PRace jw) PAll.
      * exact Hsz.
    + rewrite settle_noop
        by (intros rs H; apply Hu in H; congruence).
      apply CWaiting with (j := jw) (rest := rest); auto.
      destruct Hgd as [Hgd|Hgd]; [left; exact Hgd|]. right.
      rewrite Hq in Hgd. cbn [guarded] in Hgd. unfold effective in Hgd at 1.
      unfold settles in Hgd at 1.
      cbn [cleanup_job cleanup_of] in Hgd.
      rewrite (pid_eqb_neq (PRace jw) (PRace jr)) in Hgd by congruence.
      exact Hgd.
  - rewrite settle_noop by (intros rs; apply Hp).
    rewrite Hq in Hq'. destruct pre as [|j' pre].
    + simpl in Hq'. inversion Hq'.
    + simpl in Hq'. inversion Hq'; subst.
      apply CResuming with (pre := pre) (rest := rest) (o := o') (post := post); auto.
Qed.

Lemma shape_alloc_race (s : state) (i : nat) :
  shape asyncMapper limit inputs s ->
  heap s (PRace i) = None -> i < length (results s) ->
  (limit <= Z.of_nat (length inputs))%Z ->
  shape asyncMapper limit inputs (alloc (PRace i) s).
Proof.
  intros Hs Hn Hi Hlim. destruct_shape Hs.
  constructor; simpl; try assumption; unfold op_pending; simpl.
  - intros j Hj. case_pid (PRace i) (PRace j). lia. auto.
  - intros p rs r H Hr. case_pid (PRace i) p.
    + inversion H; subst. destruct Hr.
    + eapply hosted_mono; [|eapply sh_host; eauto]. simpl.
      intros q Hq. case_pid (PRace i) q.
  - intros j Hj. apply job_ok_mono with (s := s); simpl; auto.
    + intros q Hq. case_pid (PRace i) q.
    + intros q o' He H. case_pid (PRace i) q.
    + intros i' x' Hin. split; [eauto|]. auto.
  - intros j H. assumption.
Qed.

Lemma racing_subscribe (i : nat) (s0 s : state) (es : list pid) :
  racing i s0 s -> (forall e, In e es -> In e (executing s0)) ->
  racing i s0 (fold_left (fun s e => then_ e (OnSettle (PRace i)) s) es s).
Proof.
  revert s. induction es as [|e es IH]; intros s Hr Hes; simpl; [exact Hr|].
  apply IH; [|intros e' He'; apply Hes; simpl; auto].
  destruct Hr as [Hsh Hrace Hoth Hall Hres Hex Haw Hg].
  assert (He : In e (executing s)) by (rewrite Hex; apply Hes; simpl; auto).
  destruct (sh_exec Hsh e He) as [k [-> Hk]].
  constructor.
  - apply shape_then; auto.
    + simpl. split; [eauto | congruence].
    + intros k' o H. simpl in H. discriminate.
    + intros o Ho. simpl. split; [eauto | congruence].
  - rewrite heap_then_other by discriminate. assumption.
  - intros j Hj. rewrite heap_then_other by discriminate. auto.
  - rewrite heap_then_other by discriminate. assumption.
  - rewrite results_then. assumption.
  - rewrite executing_then. assumption.
  - unfold no_await in *. rewrite queue_then, existsb_app, Haw.
    destruct (heap s (PItem k)) as [[rs|o]|]; reflexivity.
  - rewrite queue_then. destruct (heap s (PItem k)) as [[rs|o]|] eqn:Hp;
      rewrite ?app_nil_r; try assumption.
    apply guarded_app_G; [assumption|].
    apply effective_of_cleans with (k := k).
    + pose proof (sh_exec_cleanup Hsh) as Hec. eapply Hec; eauto.
    + rewrite <- Hex. assumption.
Qed.

Lemma inv_await_race (s : state) (i : nat) (rest : list T) :
  shape asyncMapper limit inputs s ->
  heap s (PRace i) = None -> i < length (results s) ->
  no_await (queue s) -> no_race_pending s ->
  suspended_ok inputs s rest ->
  (limit <= size (executing s))%Z ->
  inv asyncMapper limit inputs (await_race i rest s).
Proof.
  intros Hs Hn Hi Haw Hnr [Hall Hin] Hlim. unfold await_race.
  assert (Hr0 : racing i s (alloc (PRace i) s)).
  { constructor; simpl; auto.
    - apply shape_alloc_race; try assumption.
      pose proof (sh_exec_le Hs). pose proof (sh_len Hs). lia.
    - rewrite pid_eqb_refl. reflexivity.
    - intros j Hj. case_pid (PRace i) (PRace j).
    - apply guarded_none. apply not_true_is_false. intros H.
      apply existsb_exists in H. destruct H as [j [Hj H]].
      apply (sh_jobs Hs) in Hj. destruct j as [[| | | |q| |] o|]; simpl in H; try discriminate.
      apply pid_eqb_eq in H. subst q. simpl in Hj. destruct Hj as [_ Hj]. congruence. }
  apply racing_subscribe with (es := executing (alloc (PRace i) s)) in Hr0;
    [|simpl; auto].
  destruct Hr0 as [Hsh Hrace Hoth Hall' Hres Hex Haw' Hg].
  set (s1 := fold_left _ _ _) in *.
  unfold then_. rewrite Hrace. split.
  - assert (Hsh' := shape_then _ _ _ asyncMapper limit inputs s1 (PRace i) (OnAwait rest) Hsh).
    unfold then_ in Hsh'. rewrite Hrace in Hsh'. apply Hsh'; simpl; eauto.
    + intros k o H. discriminate.
    + intros o H. exists i. congruence.
  - apply CWaiting with (j := i) (rest := rest); simpl.
    + exact Haw'.
    + rewrite pid_eqb_refl. reflexivity.
    + intros j' rs H. case_pid (PRace i) (PRace j').
      rewrite Hoth in H by congruence. exfalso. apply (Hnr _ _ H).
    + split; simpl; [assumption | rewrite Hres; assumption].
    + right. rewrite Hex. exact Hg.
Qed.

Lemma shape_alloc_all (s : state) :
  shape asyncMapper limit inputs s ->
  heap s PAll = None -> length (results s) = length inputs ->
  shape asyncMapper limit inputs
        (set_values (repeat None (length (results s))) (alloc PAll s)).
Proof.
  intros Hs Hn Hlen. destruct_shape Hs.
  constructor; simpl; try assumption; unfold op_pending; simpl.
  - intros p rs r H Hr. case_pid PAll p.
    + inversion H; subst. destruct Hr.
    + eapply hosted_mono; [|eapply sh_host; eauto]. simpl.
      intros q Hq. case_pid PAll q.
  - intros j Hj. apply job_ok_mono with (s := s); simpl; auto.
    + intros q Hq. case_pid PAll q.
    + intros q o' He H. case_pid PAll q.
    + intros i' x' Hin. split; [eauto|]. auto.
  - intros H. discriminate.
  - intros _. split; [assumption | apply repeat_length].
  - intros k v H. apply nth_error_In in H. apply repeat_spec in H. discriminate.
  - intros v H. discriminate.
  - intros v H. rewrite (sh_ret _ H) in Hn. discriminate.
Qed.

Lemma shape_subscribe_all (m k : nat) (s : state) :
  shape asyncMapper limit inputs s -> heap s PAll <> None ->
  let s' := subscribe_all k (map PItem (seq k m)) s in
  shape asyncMapper limit inputs s' /\ benign s s'
  /\ values s' = values s /\ heap s' PAll = heap s PAll.
Proof.
  revert k s. induction m as [|m IH]; intros k s Hs Ha; simpl.
  - split; [assumption|]. split; [apply benign_refl|]. split; reflexivity.
  - assert (Hs1 : shape asyncMapper limit inputs (then_ (PItem k) (OnAllElement k) s)).
    { apply shape_then; auto.
      - simpl. auto.
      - intros k' o H. simpl in H. apply Nat.eqb_eq in H. congruence.
      - intros o H. simpl. auto. }
    assert (Hb1 : benign s (then_ (PItem k) (OnAllElement k) s)).
    { apply benign_then; auto; discriminate. }
    assert (Ha1 : heap (then_ (PItem k) (OnAllElement k) s) PAll = heap s PAll)
      by (apply heap_then_other; discriminate).
    destruct (IH (S k) _ Hs1) as [H1 [H2 [H3 H4]]]; [congruence|].
    split; [exact H1|]. split; [eapply benign_trans; eauto|].
    split; [rewrite H3; apply values_then | congruence].
Qed.

Lemma shape_enqueue_thenable (s : state) :
  shape asyncMapper limit inputs s ->
  shape asyncMapper limit inputs (enqueue [JThenable PRet PAll] s).
Proof.
  intros Hs. destruct_shape Hs.
  constructor; simpl; try assumption.
  - intros j Hj. apply in_app_or in Hj. destruct Hj as [Hj|[<-|[]]].
    + exact (sh_jobs j Hj).
    + simpl. exact I.
  - rewrite launches_app. simpl. rewrite app_nil_r. assumption.
  - intros i o H Hin. rewrite existsb_app. erewrite sh_exec_cleanup; eauto.
  - intros k Hin. apply guarded_app; auto.
Qed.

Lemma all_filled_repeat (n : nat) (l : list (value R)) :
  all_filled (repeat None n) = Some l -> n = 0 /\ l = [].
Proof.
  destruct n; simpl; intros H; [inversion H; auto | discriminate].
Qed.

Lemma inv_finish (s : state) :
  shape asyncMapper limit inputs s ->
  no_await (queue s) -> no_race_pending s ->
  suspended_ok inputs s [] ->
  inv asyncMapper limit inputs (finish s).
Proof.
  intros Hs Haw Hnr [Hall Hin]. unfold finish.
  assert (Hlen : length (results s) = length inputs).
  { rewrite app_nil_r in Hin. pose proof (sh_len Hs) as Hle.
    apply (f_equal (@length T)) in Hin. rewrite length_firstn in Hin. lia. }
  set (sA := set_values _ (alloc PAll s)).
  assert (HsA : shape asyncMapper limit inputs sA)
    by (apply shape_alloc_all; assumption).
  assert (HcA : control limit inputs sA).
  { apply CDone; [exact Haw|]. intros j rs. simpl. apply Hnr. }
  assert (Hres : results sA = map PItem (seq 0 (length (results s)))).
  { simpl. exact (sh_results Hs). }
  rewrite Hres.
  destruct (shape_subscribe_all (length (results s)) 0 sA HsA) as [HsB [HbB [HvB HaB]]].
  { simpl. discriminate. }
  set (sB := subscribe_all 0 _ sA) in *.
  assert (HcB : control limit inputs sB) by (eapply control_benign; eauto).
  assert (HsC : shape asyncMapper limit inputs
      match all_filled (values sB) with
      | Some l => settle PAll (Fulfilled (VArr l)) sB
      | None => sB
      end /\ control limit inputs
      match all_filled (values sB) with
      | Some l => settle PAll (Fulfilled (VArr l)) sB
      | None => sB
      end).
  { destruct (all_filled (values sB)) as [l|] eqn:Hl; [|auto]. split.
    - apply shape_settle; auto. simpl. eauto.
    - eapply control_benign; [exact HcB|].
      apply benign_settle; auto. discriminate. }
  destruct HsC as [HsC HcC]. split.
  - apply shape_enqueue_thenable. exact HsC.
  - eapply control_benign; [exact HcC|]. apply benign_enqueue; reflexivity.
Qed.

Lemma inv_loop (items : list T) (s : state) :
  running asyncMapper limit inputs items s ->
  inv asyncMapper limit inputs (loop limit sty items s).
Proof.
  revert s. induction items as [|item rest IH];
    intros s [Hs [Haw [Hnr [[Hall Hin] Hsz]]]]; simpl.
  - apply inv_finish; auto. split; assumption.
  - destruct (firstn_split_head _ _ _ _ _ Hin) as [Hitem [Hlt Hin']].
    assert (Hs1 : shape asyncMapper limit inputs (launch sty item s))
      by (apply shape_launch; assumption).
    assert (Hq1 : no_await (queue (launch sty item s))).
    { rewrite launch_eq. simpl. unfold no_await in *.
      rewrite existsb_app, Haw. reflexivity. }
    assert (Hr1 : forall j, heap (launch sty item s) (PRace j) = heap s (PRace j)).
    { intros j. rewrite launch_eq. simpl. heap_cases. reflexivity. }
    assert (Ha1 : heap (launch sty item s) PAll = None).
    { rewrite launch_eq. simpl. heap_cases. assumption. }
    assert (Hn1 : length (results (launch sty item s)) = S (length (results s))).
    { rewrite results_launch, length_app. simpl. lia. }
    assert (Hnr1 : no_race_pending (launch sty item s)).
    { intros j rs. rewrite Hr1. apply Hnr. }
    assert (Hso : suspended_ok inputs (launch sty item s) rest).
    { split; [assumption|]. rewrite Hn1. assumption. }
    destruct (limit <=? size (executing (launch sty item s)))%Z eqn:Hlim.
    + apply inv_await_race; auto.
      * rewrite Hr1. apply (sh_fresh_race Hs). lia.
      * lia.
      * apply Z.leb_le. assumption.
    + apply IH. split; [assumption|]. split; [assumption|].
      split; [assumption|]. split; [assumption|].
      apply Z.leb_gt in Hlim. unfold bound. lia.
Qed.
End Steps.

(** ** Every step preserves the invariant *)

Section StepInv.

Variables T R E : Type.
Variable asyncMapper : T -> behaviour R E.
Variable limit : Z.
Variable sty : style.
Variable inputs : list T.

Local Abbreviation state := (state T R E).
Local Abbreviation job := (job T R E).
Local Abbreviation inv := (inv asyncMapper limit inputs).
Local Abbreviation shape := (shape asyncMapper limit inputs).
Local Abbreviation control := (control limit inputs).

Lemma item_of_In (s : state) (i : nat) (x : T) :
  item_of i s = Some x -> In (i, x) (calls s).
Proof.
  unfold item_of. destruct (find _ (calls s)) as [[i' x']|] eqn:Hf; [|discriminate].
  intros H. inversion H; subst. apply find_some in Hf. destruct Hf as [Hin He].
  simpl in He. apply Nat.eqb_eq in He. subst. assumption.
Qed.

Lemma called_item (s : state) (i : nat) (x : T) :
  shape s -> In (i, x) (calls s) -> nth_error inputs i = Some x.
Proof.
  intros Hs Hin.
  assert (H : In (i, x) (firstn (length (results s)) (indexed inputs))).
  { rewrite <- (sh_launches Hs). apply in_or_app. auto. }
  apply indexed_firstn_In in H. tauto.
Qed.

Lemma inv_settle_op (s : state) (i : nat) :
  inv s -> inv (step asyncMapper limit sty (Settle i) s).
Proof.
  intros [Hs Hc]. simpl.
  destruct (heap s (POp i)) as [[rs|o]|] eqn:Hp; try (split; assumption).
  destruct (item_of i s) as [x|] eqn:Hx; try (split; assumption).
  apply item_of_In in Hx. split.
  - apply shape_settle; auto. simpl. exists x. split; [|reflexivity].
    eapply called_item; eauto.
  - eapply control_benign; [exact Hc|].
    eapply benign_settle; eauto. discriminate.
Qed.

Lemma inv_thenable (s : state) (p q' : pid) (q : list job) :
  inv s -> queue s = JThenable p q' :: q ->
  inv (then_ q' (OnSettle p) (set_queue q s)).
Proof.
  intros [Hs Hc] Hq.
  assert (Hj : job_ok s (JThenable p q')).
  { apply (sh_jobs Hs). rewrite Hq. simpl; auto. }
  assert (Hs0 : shape (set_queue q s))
    by (eapply shape_pop_plain; eauto).
  assert (Hc0 : control (set_queue q s))
    by (eapply control_pop; eauto).
  simpl in Hj.
  assert (Hcase : (exists i, p = PItem i /\ q' = POp i)
                  \/ (exists i, p = PClean i /\ q' = PFin i)
                  \/ (p = PRet /\ q' = PAll)).
  { destruct p, q'; try contradiction; subst; eauto. }
  split.
  - apply shape_then; auto.
    + destruct Hcase as [[i [-> ->]]|[[i [-> ->]]|[-> ->]]]; simpl; reflexivity.
    + intros k o H. simpl in H. discriminate.
    + intros o H. simpl in H.
      destruct Hcase as [[i [-> ->]]|[[i [-> ->]]|[-> ->]]]; simpl; auto.
  - eapply control_benign; [exact Hc0|]. apply benign_then.
    + destruct Hcase as [[i [-> ->]]|[[i [-> ->]]|[-> ->]]]; discriminate.
    + reflexivity.
    + intros j o. simpl.
      destruct Hcase as [[i [-> ->]]|[[i [-> ->]]|[-> ->]]]; reflexivity.
Qed.

Lemma inv_launch_job (s : state) (i : nat) (x : T) (o : outcome R E) (q : list job) :
  inv s -> queue s = JReaction (OnLaunch i x) o :: q ->
  inv (run_reaction asyncMapper limit sty (OnLaunch i x) o (set_queue q s)).
Proof.
  intros [Hs Hc] Hq.
  destruct (launch_head _ _ _ asyncMapper limit inputs s i x o q Hs Hq)
    as [Hx [Hno [Hpi Hpo]]].
  assert (Hs1 := shape_record_call _ _ _ asyncMapper limit inputs s i x o q Hs Hq).
  assert (Hc1 : control (set_calls (calls s ++ [(i, x)]) (set_queue q s))).
  { eapply control_benign; [|apply benign_calls].
    eapply control_pop; eauto. }
  simpl. set (s1 := set_calls _ _) in *.
  destruct (is_async (asyncMapper x)) eqn:Ha.
  - split.
    + apply shape_launched_async with (x := x); auto.
      simpl. apply in_or_app. simpl. auto.
    + eapply control_benign; [exact Hc1|].
      eapply benign_trans; [apply benign_alloc|apply benign_enqueue];
        try discriminate; reflexivity.
  - split.
    + apply shape_settle; auto. simpl. exists x.
      split; [assumption|]. split; [reflexivity|].
      split; [apply in_or_app; simpl; auto|].
      split; [unfold op_pending; simpl; rewrite Hpo; reflexivity | exact Hno].
    + eapply control_benign; [exact Hc1|].
      eapply benign_settle; eauto. discriminate.
Qed.

Lemma inv_cleanup_job (s : state) (c : reaction T R E) (i : nat)
      (o : outcome R E) (q : list job) :
  inv s -> queue s = JReaction c o :: q -> cleanup_of c = Some i ->
  inv (run_reaction asyncMapper limit sty c o (set_queue q s)).
Proof.
  intros [Hs Hc] Hq Hcl.
  assert (Hs1 := shape_pop_cleanup _ _ _ asyncMapper limit inputs s _ q i Hs Hq Hcl).
  assert (Hc1 := control_pop_cleanup _ _ _ asyncMapper limit inputs s _ q i Hs Hc Hq Hcl).
  destruct c; simpl in Hcl; try discriminate; inversion Hcl; subst; simpl.
  - split.
    + apply shape_settle; auto; exact I.
    + eapply control_benign; [exact Hc1|].
      eapply benign_settle; eauto. discriminate.
  - split.
    + apply shape_finally. exact Hs1.
    + eapply control_benign; [exact Hc1|].
      eapply benign_trans; [apply benign_alloc|apply benign_enqueue];
        try discriminate; reflexivity.
Qed.

Lemma inv_thunk_job (s : state) (i : nat) (o0 o : outcome R E) (q : list job) :
  inv s -> queue s = JReaction (OnFinallyThunk i o0) o :: q ->
  inv (settle (PFin i) o0 (set_queue q s)).
Proof.
  intros [Hs Hc] Hq.
  assert (Hs0 : shape (set_queue q s)) by (eapply shape_pop_plain; eauto).
  assert (Hc0 : control (set_queue q s)) by (eapply control_pop; eauto).
  split.
  - apply shape_settle; auto; exact I.
  - eapply control_benign; [exact Hc0|]. eapply benign_settle; eauto. discriminate.
Qed.

Lemma inv_settle_job (s : state) (p : pid) (o : outcome R E) (q : list job) :
  inv s -> queue s = JReaction (OnSettle p) o :: q ->
  inv (settle p o (set_queue q s)).
Proof.
  intros [Hs Hc] Hq.
  assert (Hj : job_ok s (JReaction (OnSettle p) o)).
  { apply (sh_jobs Hs). rewrite Hq. simpl; auto. }
  assert (Hs0 : shape (set_queue q s)) by (eapply shape_pop_plain; eauto).
  simpl in Hj.
  destruct p as [i|i|i|i|jr| |]; try contradiction.
  - (* the wrapper promise of item i adopts the outcome of its operation *)
    assert (Hc0 : control (set_queue q s)) by (eapply control_pop; eauto).
    split.
    + apply shape_settle; auto. simpl.
      pose proof (sh_op_out Hs) as Hoo. pose proof (sh_op_called Hs) as Hoc.
      destruct (Hoo i o Hj) as [x [Hx Ho]].
      destruct (Hoc i) as [x' Hx']; [congruence|].
      assert (x' = x) by
        (pose proof (called_item s i x' Hs Hx'); congruence).
      subst x'. exists x. split; [assumption|]. split; [assumption|].
      split; [assumption|]. split.
      * unfold op_pending. simpl. rewrite Hj. reflexivity.
      * intros x' Hin. apply launches_In in Hin. destruct Hin as [o' Hin].
        assert (Hj' : job_ok s (JReaction (OnLaunch i x') o')).
        { apply (sh_jobs Hs). rewrite Hq. simpl; auto. }
        simpl in Hj'. destruct Hj' as [_ Hj']. congruence.
    + eapply control_benign; [exact Hc0|]. eapply benign_settle; eauto. discriminate.
  - assert (Hc0 : control (set_queue q s)) by (eapply control_pop; eauto).
    split.
    + apply shape_settle; auto; exact I.
    + eapply control_benign; [exact Hc0|]. eapply benign_settle; eauto. discriminate.
  - split.
    + apply shape_settle; auto; exact I.
    + eapply control_pop_race; eauto.
  - assert (Hc0 : control (set_queue q s)) by (eapply control_pop; eauto).
    split.
    + apply shape_settle; auto. simpl. destruct o; [exact Hj | exact I].
    + eapply control_benign; [exact Hc0|]. eapply benign_settle; eauto. discriminate.
Qed.

Lemma inv_await_job (s : state) (rest : list T) (o : outcome R E) (q : list job) :
  inv s -> queue s = JReaction (OnAwait rest) o :: q ->
  inv (run_reaction asyncMapper limit sty (OnAwait rest) o (set_queue q s)).
Proof.
  intros [Hs Hc] Hq.
  assert (Hs0 : shape (set_queue q s)) by (eapply shape_pop_plain; eauto).
  destruct (control_pop_await _ _ _ limit inputs s rest o q Hc Hq)
    as [Haw [Hnr [Hso Hsz]]].
  simpl. destruct o as [v|e].
  - apply inv_loop. split; [assumption|]. split; [assumption|].
    split; [assumption|]. split; assumption.
  - split.
    + apply shape_settle; auto; exact I.
    + eapply control_benign;
        [exact (@CDone _ _ _ limit inputs (set_queue q s) Haw Hnr)|].
      eapply benign_settle; eauto. discriminate.
Qed.

Lemma inv_all_job (s : state) (k : nat) (o : outcome R E) (q : list job) :
  inv s -> queue s = JReaction (OnAllElement k) o :: q ->
  inv (run_reaction asyncMapper limit sty (OnAllElement k) o (set_queue q s)).
Proof.
  intros [Hs Hc] Hq.
  destruct (shape_pop_all_elem _ _ _ asyncMapper limit inputs s k o q Hs Hq)
    as [Hs0 [Hno [Hk Hall]]].
  assert (Hc0 : control (set_queue q s)) by (eapply control_pop; eauto).
  simpl. destruct o as [v|e].
  - unfold all_resolve.
    set (s1 := set_values _ (set_queue q s)).
    assert (Hs1 : shape s1) by (apply shape_set_value; assumption).
    assert (Hc1 : control s1)
      by (eapply control_benign; [exact Hc0 | apply benign_values]).
    destruct (all_filled (values s1)) as [l|] eqn:Hl; [|split; assumption].
    split.
    + apply shape_settle; auto. simpl. eauto.
    + eapply control_benign; [exact Hc1|]. eapply benign_settle; eauto. discriminate.
  - split.
    + apply shape_settle; auto; exact I.
    + eapply control_benign; [exact Hc0|]. eapply benign_settle; eauto. discriminate.
Qed.

(** Every step of the machine preserves the invariant. *)
Lemma inv_step (ev : event) (s : state) :
  inv s -> inv (step asyncMapper limit sty ev s).
Proof.
  intros Hi. destruct ev as [|i]; [|apply inv_settle_op; assumption].
  simpl. destruct (queue s) as [|j q] eqn:Hq; [assumption|].
  destruct j as [r o|p q']; [|apply inv_thenable; assumption].
  unfold run_job.
  destruct r as [i x|i|i|i o0|p|rest|k].
  - apply inv_launch_job; assumption.
  - apply inv_cleanup_job with (i := i); auto.
  - apply inv_cleanup_job with (i := i); auto.
  - apply inv_thunk_job with (o := o); assumption.
  - apply inv_settle_job; assumption.
  - apply inv_await_job; assumption.
  - apply inv_all_job; assumption.
Qed.

Lemma shape_init : shape init.
Proof.
  constructor; simpl; unfold op_pending; simpl; try discriminate; auto.
  - lia.
  - intros p [].
  - unfold bound, size. simpl. lia.
  - intros i Hi. lia.
  - intros p rs r H Hr. case_pid PRet p. inversion H; subst. destruct Hr.
  - intros j [].
  - intros i H. congruence.
  - intros H. congruence.
  - intros k v H. destruct k; discriminate.
  - intros Hl i Hi. lia.
  - intros j H. congruence.
Qed.

Lemma inv_mapper : inv (mapper limit sty inputs).
Proof.
  apply inv_loop. split; [apply shape_init|].
  split; [reflexivity|]. split; [intros j rs; simpl; discriminate|].
  split; [split; reflexivity|]. unfold bound, size. simpl. lia.
Qed.

Lemma inv_run (sched : list event) (s : state) :
  inv s -> inv (run asyncMapper limit sty sched s).
Proof.
  revert s. induction sched as [|ev sched IH]; intros s Hi; simpl; [assumption|].
  apply IH. apply inv_step. assumption.
Qed.

End StepInv.

(** ** Where rejections come from *)

Section Provenance.

Variables T R E : Type.
Variable asyncMapper : T -> behaviour R E.
Variable limit : Z.
Variable sty : style.
Variable inputs : list T.

Local Abbreviation state := (state T R E).
Local Abbreviation job := (job T R E).
Local Abbreviation fails := (@fails T R E asyncMapper inputs).
Local Abbreviation prov := (@prov T R E asyncMapper inputs).
Local Abbreviation ok_outcome := (ok_outcome T R E asyncMapper inputs).
Local Abbreviation ok_reaction := (ok_reaction T R E asyncMapper inputs).
Local Abbreviation ok_job := (ok_job T R E asyncMapper inputs).
Local Abbreviation pv_heap := (pv_heap T R E asyncMapper inputs).
Local Abbreviation pv_reactions := (pv_reactions T R E asyncMapper inputs).
Local Abbreviation pv_queue := (pv_queue T R E asyncMapper inputs).

Lemma prov_settle (s : state) (p : pid) (o : outcome R E) :
  prov s -> ok_outcome o -> prov (settle p o s).
Proof.
  intros [Hh Hr Hq] Ho. unfold settle.
  destruct (heap s p) as [[rs|o']|] eqn:Hp; try (constructor; assumption).
  constructor; simpl.
  - intros q o0 H. case_pid p q; eauto; inversion H; subst; assumption.
  - intros q rs0 r H Hin. case_pid p q. eauto.
  - intros j Hj. apply in_app_or in Hj. destruct Hj as [Hj|Hj]; [auto|].
    apply in_map_iff in Hj. destruct Hj as [r [<- Hin]]. simpl. eauto.
Qed.

Lemma prov_then (s : state) (p : pid) (r : reaction T R E) :
  prov s -> ok_reaction r -> prov (then_ p r s).
Proof.
  intros [Hh Hr Hq] Ho. unfold then_.
  destruct (heap s p) as [[rs|o']|] eqn:Hp; try (constructor; assumption).
  - constructor; simpl; auto.
    + intros q o0 H. case_pid p q. eauto.
    + intros q rs0 r0 H Hin. case_pid p q; eauto; inversion H; subst;
      apply in_app_or in Hin; destruct Hin as [Hin|[<-|[]]]; eauto.
  - constructor; simpl; auto.
    intros j Hj. apply in_app_or in Hj. destruct Hj as [Hj|[<-|[]]]; [auto|].
    simpl. eauto.
Qed.

Lemma prov_alloc (s : state) (p : pid) : prov s -> prov (alloc p s).
Proof.
  intros [Hh Hr Hq]. constructor; simpl; auto.
  - intros q o H. case_pid p q. eauto.
  - intros q rs r H Hin. case_pid p q; eauto; inversion H; subst; destruct Hin.
Qed.

Lemma prov_enqueue (s : state) (js : list job) :
  prov s -> (forall j, In j js -> ok_job j) -> prov (enqueue js s).
Proof.
  intros [Hh Hr Hq] Hjs. constructor; simpl; auto.
  intros j Hj. apply in_app_or in Hj. destruct Hj; auto.
Qed.

Lemma prov_frame (s s' : state) :
  prov s -> heap s' = heap s -> (forall j, In j (queue s') -> In j (queue s)) ->
  prov s'.
Proof.
  intros [Hh Hr Hq] Heq Hsub. constructor; rewrite ?Heq; auto.
Qed.

Lemma prov_launch (item : T) (s : state) : prov s -> prov (launch sty item s).
Proof.
  intros H. unfold launch. apply prov_then; [|destruct sty; exact I].
  apply prov_alloc.
  eapply prov_frame with (s := enqueue _ (alloc _ s)); [|reflexivity|auto].
  apply prov_enqueue; [apply prov_alloc; assumption|].
  intros j [<-|[]]. simpl. auto.
Qed.

Lemma prov_subscribe (r : reaction T R E) (es : list pid) (s : state) :
  prov s -> ok_reaction r ->
  prov (fold_left (fun s e => then_ e r s) es s).
Proof.
  revert s. induction es as [|e es IH]; intros s H Hr; simpl; [assumption|].
  apply IH; [apply prov_then|]; assumption.
Qed.

Lemma prov_await_race (i : nat) (rest : list T) (s : state) :
  prov s -> prov (await_race i rest s).
Proof.
  intros H. unfold await_race. apply prov_then; [|exact I].
  apply prov_subscribe; [|exact I]. apply prov_alloc. assumption.
Qed.

Lemma prov_subscribe_all (ps : list pid) (k : nat) (s : state) :
  prov s -> prov (subscribe_all k ps s).
Proof.
  revert k s. induction ps as [|p ps IH]; intros k s H; simpl; [assumption|].
  apply IH. apply prov_then; [assumption | exact I].
Qed.

Lemma prov_finish (s : state) : prov s -> prov (finish s).
Proof.
  intros H. unfold finish. apply prov_enqueue; [|intros j [<-|[]]; exact I].
  set (s1 := subscribe_all _ _ _).
  assert (H1 : prov s1).
  { apply prov_subscribe_all.
    eapply prov_frame with (s := alloc PAll s); [|reflexivity|auto].
    apply prov_alloc. assumption. }
  destruct (all_filled (values s1)); [|assumption].
  apply prov_settle; [assumption | exact I].
Qed.

Lemma prov_loop (items : list T) (s : state) :
  prov s -> prov (loop limit sty items s).
Proof.
  revert s. induction items as [|item rest IH]; intros s H; simpl.
  - apply prov_finish. assumption.
  - destruct (limit <=? size (executing (launch sty item s)))%Z.
    + apply prov_await_race. apply prov_launch. assumption.
    + apply IH. apply prov_launch. assumption.
Qed.

Lemma ok_called (x : T) : In x inputs -> ok_outcome (op_outcome (asyncMapper x)).
Proof.
  intros Hin. unfold ok_outcome.
  destruct (op_outcome (asyncMapper x)) as [v|e] eqn:Ho; [exact I|].
  exists x. auto.
Qed.

Lemma prov_step (ev : event) (s : state) :
  shape asyncMapper limit inputs s -> prov s ->
  prov (step asyncMapper limit sty ev s).
Proof.
  intros Hs Hp. destruct ev as [|i]; simpl.
  - destruct (queue s) as [|j q] eqn:Hq; [assumption|].
    assert (Hj : ok_job j) by (apply (pv_queue _ Hp); rewrite Hq; simpl; auto).
    assert (Hp0 : prov (set_queue q s)).
    { eapply prov_frame; [exact Hp|reflexivity|].
      simpl. intros j' Hj'. rewrite Hq. simpl; auto. }
    destruct j as [r o|p q']; simpl; [|apply prov_then; [assumption | exact I]].
    destruct Hj as [Ho Hr].
    destruct r as [i x|i|i|i o0|p|rest|k]; simpl.
    + destruct (launch_head _ _ _ asyncMapper limit inputs s i x o q Hs Hq)
        as [Hx _]. apply nth_error_In in Hx.
      assert (Hp1 : prov (set_calls (calls s ++ [(i, x)]) (set_queue q s)))
        by (eapply prov_frame; [exact Hp0|reflexivity|auto]).
      destruct (is_async (asyncMapper x)).
      * apply prov_enqueue; [apply prov_alloc; assumption|].
        intros j [<-|[]]. exact I.
      * apply prov_settle; [assumption | apply ok_called; assumption].
    + apply prov_settle; [|exact I].
      eapply prov_frame; [exact Hp0|reflexivity|auto].
    + apply prov_enqueue.
      * apply prov_alloc. eapply prov_frame; [exact Hp0|reflexivity|auto].
      * intros j [<-|[<-|[]]]; simpl; auto.
    + apply prov_settle; assumption.
    + apply prov_settle; assumption.
    + destruct o as [v|e]; [apply prov_loop | apply prov_settle]; assumption.
    + destruct o as [v|e]; [|apply prov_settle; assumption].
      unfold all_resolve. set (s1 := set_values _ _).
      assert (Hp1 : prov s1)
        by (eapply prov_frame; [exact Hp0|reflexivity|auto]).
      destruct (all_filled (values s1)); [|assumption].
      apply prov_settle; [assumption | exact I].
  - destruct (heap s (POp i)) as [[rs|o]|] eqn:Hh; try assumption.
    destruct (item_of i s) as [x|] eqn:Hx; try assumption.
    apply prov_settle; [assumption|]. apply ok_called.
    apply item_of_In in Hx.
    apply (called_item _ _ _ asyncMapper limit inputs s i x Hs) in Hx.
    eapply nth_error_In; eauto.
Qed.

Lemma prov_init : prov init.
Proof.
  constructor; simpl.
  - intros p o H. case_pid PRet p.
  - intros p rs r H Hin. case_pid PRet p. inversion H; subst. destruct Hin.
  - intros j [].
Qed.

Lemma prov_run (sched : list event) (s : state) :
  inv asyncMapper limit inputs s -> prov s ->
  prov (run asyncMapper limit sty sched s).
Proof.
  revert s. induction sched as [|ev sched IH]; intros s Hi Hp; simpl;
    [assumption|].
  apply IH; [apply inv_step; assumption|].
  apply prov_step; [destruct Hi|]; assumption.
Qed.

End Provenance.

(** ** Consequences of the invariant *)

Section Consequences.

Variables T R E : Type.
Variable asyncMapper : T -> behaviour R E.
Variable limit : Z.
Variable sty : style.
Variable inputs : list T.

Local Abbreviation state := (state T R E).
Local Abbreviation shape := (shape asyncMapper limit inputs).

Lemma reach_inv (sched : list event) :
  inv asyncMapper limit inputs
      (run asyncMapper limit sty sched (mapper limit sty inputs)).
Proof. apply inv_run. apply inv_mapper. Qed.

Lemma reach_shape (sched : list event) :
  shape (run asyncMapper limit sty sched (mapper limit sty inputs)).
Proof. destruct (reach_inv sched) as [H _]. exact H. Qed.

Lemma reach_prov (sched : list event) :
  prov asyncMapper inputs
       (run asyncMapper limit sty sched (mapper limit sty inputs)).
Proof.
  apply prov_run; [apply inv_mapper|].
  unfold mapper. apply prov_loop. apply prov_init.
Qed.

Lemma pending_in_flight (s : state) (i : nat) :
  shape s -> op_pending s i = true -> In i (in_flight s).
Proof.
  intros Hs Hp. unfold in_flight. apply filter_In. split; [|assumption].
  apply in_seq. split; [lia|]. simpl.
  destruct (sh_op_item Hs i Hp) as [rs Hrs].
  destruct (Nat.lt_ge_cases i (length (results s))) as [H|H]; [assumption|].
  rewrite (sh_fresh_item Hs i H) in Hrs. discriminate.
Qed.

Lemma NoDup_map_PItem (l : list nat) : NoDup l -> NoDup (map PItem l).
Proof.
  induction 1 as [|i l Hi Hnd IH]; simpl; constructor; [|assumption].
  intros H. apply in_map_iff in H. destruct H as [k [Hk Hin]].
  inversion Hk; subst. contradiction.
Qed.

Lemma in_flight_le (s : state) :
  shape s -> length (in_flight s) <= length (executing s).
Proof.
  intros Hs. rewrite <- (length_map PItem (in_flight s)).
  apply NoDup_incl_length.
  - apply NoDup_map_PItem. unfold in_flight. apply NoDup_filter. apply seq_NoDup.
  - intros p Hp. apply in_map_iff in Hp. destruct Hp as [i [<- Hi]].
    unfold in_flight in Hi. apply filter_In in Hi. destruct Hi as [_ Hi].
    destruct (sh_op_item Hs i Hi) as [rs Hrs].
    pose proof (sh_item_exec Hs) as He. eapply He; eauto.
Qed.

Lemma unsettled_le (s : state) :
  shape s -> length (unsettled s) <= length (executing s).
Proof.
  intros Hs. rewrite <- (length_map PItem (unsettled s)).
  apply NoDup_incl_length.
  - apply NoDup_map_PItem. unfold unsettled. apply NoDup_filter. apply seq_NoDup.
  - intros p Hp. apply in_map_iff in Hp. destruct Hp as [i [<- Hi]].
    unfold unsettled in Hi. apply filter_In in Hi. destruct Hi as [_ Hi].
    unfold item_pending in Hi.
    destruct (heap s (PItem i)) as [[rs|o]|] eqn:Hrs; try discriminate.
    apply (sh_item_exec Hs i rs Hrs).
Qed.

Lemma pending_unsettled (s : state) (i : nat) :
  shape s -> item_pending s i = true -> In i (unsettled s).
Proof.
  intros Hs Hp. unfold unsettled. apply filter_In. split; [|assumption].
  apply in_seq. split; [lia|]. simpl.
  destruct (Nat.lt_ge_cases i (length (results s))) as [H|H]; [assumption|].
  unfold item_pending in Hp. rewrite (sh_fresh_item Hs i H) in Hp. discriminate.
Qed.

Lemma success_all (s : state) (v : value R) :
  shape s -> returned s = Some (Fulfilled v) ->
  exists l, v = VArr l /\ all_filled (values s) = Some l
            /\ length (values s) = length inputs
            /\ length (results s) = length inputs.
Proof.
  intros Hs Hr. unfold returned in Hr.
  destruct (heap s PRet) as [[rs|o]|] eqn:Hp; try discriminate.
  inversion Hr; subst o.
  pose proof (sh_ret Hs) as H1. specialize (H1 v Hp).
  pose proof (sh_all_ok Hs) as H2. destruct (H2 v H1) as [l [-> Hl]].
  destruct (sh_all_some Hs) as [H3 H4]; [congruence|].
  exists l. repeat split; auto. congruence.
Qed.

Lemma success_values (s : state) (v : value R) :
  shape s -> returned s = Some (Fulfilled v) ->
  exists l, v = VArr l /\ length l = length inputs
    /\ forall i x, nth_error inputs i = Some x ->
         exists w, nth_error l i = Some w
                   /\ op_outcome (asyncMapper x) = Fulfilled w.
Proof.
  intros Hs Hr. destruct (success_all s v Hs Hr) as [l [-> [Hl [Hv Hn]]]].
  exists l. split; [reflexivity|]. split.
  - rewrite (all_filled_length _ _ _ Hl). assumption.
  - intros i x Hx.
    assert (Hi : i < length (values s)).
    { rewrite Hv. apply nth_error_Some. congruence. }
    destruct (all_filled_lookup _ _ _ _ Hl Hi) as [w Hw].
    exists w. split; [eapply all_filled_nth; eauto|].
    pose proof (sh_values Hs) as H1. destruct (H1 i w Hw) as [H2 _].
    pose proof (sh_item_out Hs) as H3. destruct (H3 i _ H2) as [x' [Hx' [Ho _]]].
    congruence.
Qed.

Lemma success_drained (s : state) (v : value R) :
  shape s -> returned s = Some (Fulfilled v) -> executing s = [].
Proof.
  intros Hs Hr. destruct (success_all s v Hs Hr) as [l [-> [Hl [Hv Hn]]]].
  destruct (executing s) as [|p ex] eqn:He; [reflexivity|]. exfalso.
  destruct (sh_exec Hs p) as [i [-> Hi]]; [rewrite He; simpl; auto|].
  assert (Hi' : i < length (values s)) by lia.
  destruct (all_filled_lookup _ _ _ _ Hl Hi') as [w Hw].
  pose proof (sh_values Hs) as H1. destruct (H1 i w Hw) as [_ H2].
  apply H2. rewrite He. simpl. auto.
Qed.

Lemma calls_prefix (s : state) :
  shape s -> calls s = firstn (length (calls s)) (indexed inputs).
Proof.
  intros Hs. pose proof (sh_launches Hs) as H.
  assert (Hl : length (calls s) <= length (results s)).
  { apply (f_equal (@length _)) in H. rewrite length_app, length_firstn in H. lia. }
  assert (H1 : calls s = firstn (length (calls s)) (calls s ++ launches (queue s))).
  { rewrite firstn_app, Nat.sub_diag, firstn_all. simpl.
    rewrite app_nil_r. reflexivity. }
  rewrite H, firstn_firstn in H1.
  replace (Nat.min (length (calls s)) (length (results s)))
    with (length (calls s)) in H1 by lia.
  exact H1.
Qed.

Lemma success_calls (s : state) (v : value R) :
  shape s -> returned s = Some (Fulfilled v) -> calls s = indexed inputs.
Proof.
  intros Hs Hr. destruct (success_all s v Hs Hr) as [l [-> [Hl [Hv Hn]]]].
  rewrite (calls_prefix s Hs). apply firstn_all2. rewrite indexed_length.
  rewrite <- (indexed_length _ inputs).
  apply NoDup_incl_length.
  - apply (NoDup_map_inv fst). rewrite indexed_fst. apply seq_NoDup.
  - intros [i x] Hin. apply indexed_In in Hin.
    assert (Hi : i < length (values s)).
    { rewrite Hv. apply nth_error_Some. congruence. }
    destruct (all_filled_lookup _ _ _ _ Hl Hi) as [w Hw].
    pose proof (sh_values Hs) as H1. destruct (H1 i w Hw) as [H2 _].
    pose proof (sh_item_out Hs) as H3.
    destruct (H3 i _ H2) as [x' [Hx' [_ [Hc _]]]].
    congruence.
Qed.

Lemma invoked_In (s : state) (i : nat) :
  invoked s i = true <-> exists x, In (i, x) (calls s).
Proof.
  unfold invoked. rewrite existsb_exists. split.
  - intros [[i' x] [Hin He]]. simpl in He. apply Nat.eqb_eq in He. subst.
    eauto.
  - intros [x Hin]. exists (i, x). split; [assumption|]. simpl.
    apply Nat.eqb_refl.
Qed.

Lemma invoked_lt (s : state) (i : nat) :
  shape s -> invoked s i = true -> i < length (results s).
Proof.
  intros Hs Hi. apply invoked_In in Hi. destruct Hi as [x Hx].
  assert (H : In (i, x) (firstn (length (results s)) (indexed inputs))).
  { rewrite <- (sh_launches Hs). apply in_or_app. auto. }
  apply indexed_firstn_In in H. tauto.
Qed.

Lemma sequential_launch (s : state) (i : nat) :
  shape s -> (limit <= 1)%Z ->
  launched s (S i) = true \/ invoked s (S i) = true ->
  invoked s i = true /\ item_pending s i = false /\ op_pending s i = false.
Proof.
  intros Hs Hl Hi.
  assert (Hlt : S i < length (results s)).
  { destruct Hi as [Hi|Hi]; [apply Nat.ltb_lt; exact Hi|].
    apply invoked_lt; assumption. }
  pose proof (sh_seq Hs Hl) as Hseq. destruct (Hseq i Hlt) as [o Ho].
  pose proof (sh_item_out Hs) as Hout.
  destruct (Hout i o Ho) as [x [_ [_ [Hc Hp]]]].
  split; [apply invoked_In; eauto|]. split; [|assumption].
  unfold item_pending. rewrite Ho. reflexivity.
Qed.

Lemma failure_cause (s : state) (e : E) :
  prov asyncMapper inputs s -> returned s = Some (Rejected e) ->
  fails asyncMapper inputs e.
Proof.
  intros Hp Hr. unfold returned in Hr.
  destruct (heap s PRet) as [[rs|o]|] eqn:H; try discriminate.
  inversion Hr; subst. destruct Hp as [Hh _ _]. exact (Hh PRet _ H).
Qed.

Lemma never_suspended (s : state) (j : nat) :
  shape s -> (Z.of_nat (length inputs) < limit)%Z -> suspended_at s j = false.
Proof.
  intros Hs Hl. unfold suspended_at.
  destruct (heap s (PRace j)) eqn:H; [|reflexivity].
  pose proof (sh_race_limit Hs j). rewrite H in *.
  assert (limit <= Z.of_nat (length inputs))%Z by (apply H0; discriminate). lia.
Qed.

End Consequences.

(** ** The two ways of unregistering a settled promise *)

Section Styles.

Variables T R E : Type.
Variable asyncMapper : T -> behaviour R E.
Variable limit : Z.

Local Abbreviation state := (state T R E).
Local Abbreviation job := (job T R E).
Local Abbreviation reaction := (reaction T R E).
Local Abbreviation extra_reaction := (extra_reaction T R E).
Local Abbreviation as_then := (as_then T R E).
Local Abbreviation as_then_job := (as_then_job T R E).
Local Abbreviation as_then_state := (as_then_state T R E).
Local Abbreviation core := (core T R E).
Local Abbreviation plain_reaction := (plain_reaction T R E).
Local Abbreviation plain_job := (plain_job T R E).
Local Abbreviation sm_heap := (sm_heap T R E).
Local Abbreviation sm_queue := (sm_queue T R E).
Local Abbreviation sm_results := (sm_results T R E).
Local Abbreviation sm_executing := (sm_executing T R E).
Local Abbreviation sm_values := (sm_values T R E).
Local Abbreviation sm_calls := (sm_calls T R E).
Local Abbreviation sm_clean_a := (sm_clean_a T R E).
Local Abbreviation sm_clean_b := (sm_clean_b T R E).
Local Abbreviation sm_fin_b := (sm_fin_b T R E).
Local Abbreviation sm_plain_b := (sm_plain_b T R E).
Local Abbreviation sm_jobs_b := (sm_jobs_b T R E).
Local Abbreviation sm_exec_ess := (sm_exec_ess T R E).
Local Abbreviation sm_results_ess := (sm_results_ess T R E).
Local Abbreviation then_schedule := (@then_schedule T R E asyncMapper limit).
Local Abbreviation finally_schedule := (@finally_schedule T R E asyncMapper limit).

Lemma plain_not_extra (r : reaction) :
  plain_reaction r = true -> extra_reaction r = false.
Proof.
  destruct r as [| | | |p| |]; simpl; try congruence. destruct p; simpl; congruence.
Qed.

Lemma core_app (q q' : list job) : core (q ++ q') = core q ++ core q'.
Proof. unfold core. rewrite filter_app, map_app. reflexivity. Qed.

Lemma core_plain (rs : list reaction) (o : outcome R E) :
  (forall r, In r rs -> extra_reaction r = false) ->
  core (map (fun r => JReaction r o) rs)
  = map (fun r => JReaction r o) (map as_then rs).
Proof.
  induction rs as [|r rs IH]; intros H; [reflexivity|].
  unfold core in *. simpl. rewrite (H r) by (simpl; auto). simpl.
  f_equal. apply IH. intros r' Hr'. apply H. simpl; auto.
Qed.

Lemma core_extra (q : list job) :
  (forall j, In j q -> extra_job j = true) -> core q = [].
Proof.
  induction q as [|j q IH]; intros H; [reflexivity|].
  unfold core in *. simpl. rewrite (H j) by (simpl; auto). simpl.
  apply IH. intros j' Hj'. apply H. simpl; auto.
Qed.

Lemma core_single (j : job) :
  extra_job j = false -> core [j] = [as_then_job j].
Proof. intros H. unfold core. simpl. rewrite H. reflexivity. Qed.

(** Settling an essential promise on both sides. *)
Lemma sim_settle (a b : state) (p : pid) (o : outcome R E) :
  sim a b -> essential p = true -> sim (settle p o a) (settle p o b).
Proof.
  intros [Hh Hq Hr He Hv Hc Hca Hcb Hfb Hpb Hjb Hee Hre] Hp. unfold settle.
  rewrite (Hh p Hp).
  destruct (heap b p) as [[rs|o']|] eqn:Hb; simpl;
    try (constructor; assumption).
  constructor; simpl; auto.
  - intros q Hq'. case_pid p q; auto.
  - rewrite core_app, Hq. f_equal. symmetry. apply core_plain.
    intros r Hr'. apply plain_not_extra. eapply Hpb; eauto.
  - intros i rs0 H. case_pid p (PClean i). eauto.
  - intros i rs0 H. case_pid p (PClean i). eauto.
  - intros i rs0 r H Hin. case_pid p (PFin i). eauto.
  - intros q rs0 r Hq' H Hin. case_pid p q. eauto.
  - intros j Hj. apply in_app_or in Hj. destruct Hj as [Hj|Hj]; [auto|].
    apply in_map_iff in Hj. destruct Hj as [r [<- Hin]].
    simpl. rewrite (Hpb p rs r Hp Hb Hin). reflexivity.
Qed.

Lemma sim_then (a b : state) (p : pid) (r : reaction) :
  sim a b -> essential p = true -> plain_reaction r = true ->
  sim (then_ p (as_then r) a) (then_ p r b).
Proof.
  intros [Hh Hq Hr He Hv Hc Hca Hcb Hfb Hpb Hjb Hee Hre] Hp Hpl. unfold then_.
  rewrite (Hh p Hp).
  destruct (heap b p) as [[rs|o']|] eqn:Hb; simpl;
    try (constructor; assumption).
  - constructor; simpl; auto.
    + intros q Hq'. case_pid p q; auto. simpl. rewrite map_app. reflexivity.
    + intros i rs0 H. case_pid p (PClean i). eauto.
    + intros i rs0 H. case_pid p (PClean i). eauto.
    + intros i rs0 r0 H Hin. case_pid p (PFin i). eauto.
    + intros q rs0 r0 Hq' H Hin. case_pid p q; [|eauto].
      inversion H; subst. apply in_app_or in Hin.
      destruct Hin as [Hin|[<-|[]]]; eauto.
  - constructor; simpl; auto.
    + rewrite core_app, Hq, core_single; [reflexivity|].
      apply plain_not_extra. assumption.
    + intros j Hj. apply in_app_or in Hj. destruct Hj as [Hj|[<-|[]]]; [auto|].
      simpl. rewrite Hpl. reflexivity.
Qed.

Lemma sim_alloc (a b : state) (p : pid) :
  sim a b -> is_fin p = false -> sim (alloc p a) (alloc p b).
Proof.
  intros [Hh Hq Hr He Hv Hc Hca Hcb Hfb Hpb Hjb Hee Hre] Hp.
  constructor; simpl; auto.
  - intros q Hq'. case_pid p q; auto.
  - intros i rs H. case_pid p (PClean i); eauto; inversion H; reflexivity.
  - intros i rs H. case_pid p (PClean i); eauto; inversion H; reflexivity.
  - intros i rs r H Hin. case_pid p (PFin i); eauto.
  - intros q rs r Hq' H Hin. case_pid p q; eauto;
    inversion H; subst; destruct Hin.
Qed.

Lemma sim_enqueue (a b : state) (js : list job) :
  sim a b ->
  (forall j, In j js -> extra_job j = false /\ plain_job j = true) ->
  sim (enqueue (map as_then_job js) a) (enqueue js b).
Proof.
  intros [Hh Hq Hr He Hv Hc Hca Hcb Hfb Hpb Hjb Hee Hre] Hjs.
  constructor; simpl; auto.
  - rewrite core_app, Hq. f_equal. unfold core. f_equal.
    symmetry. apply forallb_filter_id. apply forallb_forall.
    intros j Hj. destruct (Hjs j Hj) as [-> _]. reflexivity.
  - intros j Hj. apply in_app_or in Hj. destruct Hj as [Hj|Hj]; [auto|].
    apply Hjs. assumption.
Qed.

(** Changes of the finally version alone: its extra jobs and promises. *)
Lemma sim_extra_settle (a b : state) (p : pid) (o : outcome R E) :
  sim a b -> essential p = false -> sim a (settle p o b).
Proof.
  intros [Hh Hq Hr He Hv Hc Hca Hcb Hfb Hpb Hjb Hee Hre] Hp. unfold settle.
  destruct (heap b p) as [[rs|o']|] eqn:Hb; try (constructor; assumption).
  assert (Hrs : forall r, In r rs -> extra_reaction r = true).
  { intros r Hin. destruct p; try discriminate.
    - rewrite (Hcb _ _ Hb) in Hin. destruct Hin.
    - eapply Hfb; eauto. }
  constructor; simpl; auto.
  - intros q Hq'. case_pid p q. auto.
  - rewrite core_app, Hq. rewrite (core_extra (map _ rs)), app_nil_r; [reflexivity|].
    intros j Hj. apply in_map_iff in Hj. destruct Hj as [r [<- Hin]]. simpl. auto.
  - intros i rs0 H. case_pid p (PClean i). eauto.
  - intros i rs0 r H Hin. case_pid p (PFin i). eauto.
  - intros q rs0 r Hq' H Hin. case_pid p q. eauto.
  - intros j Hj. apply in_app_or in Hj. destruct Hj as [Hj|Hj]; [auto|].
    apply in_map_iff in Hj. destruct Hj as [r [<- Hin]]. simpl.
    rewrite (Hrs r Hin). apply orb_true_r.
Qed.

Lemma sim_extra_then (a b : state) (i k : nat) :
  sim a b -> sim a (then_ (PFin k) (OnSettle (PClean i)) b).
Proof.
  intros [Hh Hq Hr He Hv Hc Hca Hcb Hfb Hpb Hjb Hee Hre]. unfold then_.
  destruct (heap b (PFin k)) as [[rs|o']|] eqn:Hb; try (constructor; assumption).
  - constructor; simpl; auto.
    + intros q Hq'. case_pid (PFin k) q. auto.
    + intros i0 rs0 r H Hin. case_pid (PFin k) (PFin i0); [|eauto].
      inversion H; subst. apply in_app_or in Hin.
      destruct Hin as [Hin|[<-|[]]]; [eauto | reflexivity].
    + intros q rs0 r Hq' H Hin. case_pid (PFin k) q. eauto.
  - constructor; simpl; auto.
    + rewrite core_app, Hq, (core_extra [_]), app_nil_r; [reflexivity|].
      intros j [<-|[]]. reflexivity.
    + intros j Hj. apply in_app_or in Hj. destruct Hj as [Hj|[<-|[]]]; [auto|].
      reflexivity.
Qed.

Lemma sim_extra_alloc (a b : state) (i : nat) :
  sim a b -> sim a (alloc (PFin i) b).
Proof.
  intros [Hh Hq Hr He Hv Hc Hca Hcb Hfb Hpb Hjb Hee Hre].
  constructor; simpl; auto.
  - intros q Hq'. case_pid (PFin i) q. auto.
  - intros i0 rs r H Hin. case_pid (PFin i) (PFin i0); eauto;
    inversion H; subst; destruct Hin.
  - intros q rs r Hq' H Hin. case_pid (PFin i) q; eauto.
Qed.

Lemma sim_extra_enqueue (a b : state) (js : list job) :
  sim a b ->
  (forall j, In j js -> extra_job j = true /\ plain_job j = true) ->
  sim a (enqueue js b).
Proof.
  intros [Hh Hq Hr He Hv Hc Hca Hcb Hfb Hpb Hjb Hee Hre] Hjs.
  constructor; simpl; auto.
  - rewrite core_app, Hq, (core_extra js), app_nil_r; [reflexivity|].
    intros j Hj. apply Hjs. assumption.
  - intros j Hj. apply in_app_or in Hj. destruct Hj as [Hj|Hj]; [auto|].
    apply Hjs. assumption.
Qed.

(** The then version settles the promise of [then(cleanup, cleanup)],
    which nobody listens to. *)
Lemma sim_clean_settle (a b : state) (i : nat) (o : outcome R E) :
  sim a b -> sim (settle (PClean i) o a) b.
Proof.
  intros [Hh Hq Hr He Hv Hc Hca Hcb Hfb Hpb Hjb Hee Hre]. unfold settle.
  destruct (heap a (PClean i)) as [[rs|o']|] eqn:Ha; try (constructor; assumption).
  rewrite (Hca _ _ Ha). constructor; simpl; auto.
  - intros q Hq'. case_pid (PClean i) q. auto.
  - rewrite app_nil_r. assumption.
  - intros i0 rs0 H. case_pid (PClean i) (PClean i0). eauto.
Qed.

(** The data fields are replaced by the same values on both sides. *)
Lemma sim_data (a b : state) (rs ex : list pid)
      (vs : list (option (value R))) (cs : list (nat * T)) :
  sim a b ->
  (forall p, In p ex -> essential p = true) ->
  (forall p, In p rs -> essential p = true) ->
  sim (mkState (heap a) (queue a) rs ex vs cs)
      (mkState (heap b) (queue b) rs ex vs cs).
Proof.
  intros [Hh Hq Hr He Hv Hc Hca Hcb Hfb Hpb Hjb Hee Hre] Hex Hrs.
  constructor; simpl; auto.
Qed.

Lemma sim_set_values (a b : state) (vs : list (option (value R))) :
  sim a b -> sim (set_values vs a) (set_values vs b).
Proof.
  intros [Hh Hq Hr He Hv Hc Hca Hcb Hfb Hpb Hjb Hee Hre].
  constructor; simpl; auto.
Qed.

Lemma sim_set_calls (a b : state) (cs : list (nat * T)) :
  sim a b -> sim (set_calls cs a) (set_calls cs b).
Proof.
  intros [Hh Hq Hr He Hv Hc Hca Hcb Hfb Hpb Hjb Hee Hre].
  constructor; simpl; auto.
Qed.

Lemma sim_set_executing (a b : state) (ex : list pid) :
  sim a b -> (forall p, In p ex -> essential p = true) ->
  sim (set_executing ex a) (set_executing ex b).
Proof.
  intros [Hh Hq Hr He Hv Hc Hca Hcb Hfb Hpb Hjb Hee Hre] Hex.
  constructor; simpl; auto.
Qed.

Lemma sim_pop (a b : state) (j : job) (q : list job) :
  sim a b -> queue b = j :: q -> extra_job j = false ->
  queue a = as_then_job j :: core q
  /\ sim (set_queue (core q) a) (set_queue q b)
  /\ plain_job j = true.
Proof.
  intros [Hh Hq Hr He Hv Hc Hca Hcb Hfb Hpb Hjb Hee Hre] Hb Hj.
  assert (Ha : queue a = as_then_job j :: core q).
  { rewrite Hq, Hb. unfold core. simpl. rewrite Hj. reflexivity. }
  split; [assumption|]. split.
  - constructor; simpl; auto. intros j' Hj'. apply Hjb. rewrite Hb. simpl; auto.
  - apply Hjb. rewrite Hb. simpl; auto.
Qed.

Lemma sim_pop_extra (a b : state) (j : job) (q : list job) :
  sim a b -> queue b = j :: q -> extra_job j = true ->
  sim a (set_queue q b) /\ plain_job j = true.
Proof.
  intros [Hh Hq Hr He Hv Hc Hca Hcb Hfb Hpb Hjb Hee Hre] Hb Hj. split.
  - constructor; simpl; auto.
    + rewrite Hq, Hb. unfold core. simpl. rewrite Hj. reflexivity.
    + intros j' Hj'. apply Hjb. rewrite Hb. simpl; auto.
  - apply Hjb. rewrite Hb. simpl; auto.
Qed.

Lemma launch_unfold (sty : style) (item : T) (s : state) :
  launch sty item s
  = then_ (PItem (length (results s)))
          (cleanup_reaction T R E sty (length (results s)))
          (alloc (PClean (length (results s)))
             (mkState
                (heap (enqueue [JReaction (OnLaunch (length (results s)) item)
                                          (Fulfilled VUndefined)]
                               (alloc (PItem (length (results s))) s)))
                (queue (enqueue [JReaction (OnLaunch (length (results s)) item)
                                           (Fulfilled VUndefined)]
                                (alloc (PItem (length (results s))) s)))
                (results s ++ [PItem (length (results s))])
                (set_add (PItem (length (results s))) (executing s))
                (values s) (calls s))).
Proof. reflexivity. Qed.

Lemma sim_launch (a b : state) (item : T) :
  sim a b -> sim (launch ThenCleanup item a) (launch UseFinally item b).
Proof.
  intros H. rewrite !launch_unfold.
  rewrite (sm_results _ _ H), (sm_executing _ _ H), (sm_values _ _ H),
    (sm_calls _ _ H).
  set (i := length (results b)).
  apply (sim_then _ _ (PItem i) (OnFinally i)); try reflexivity.
  apply sim_alloc; [|reflexivity].
  apply (sim_data (enqueue _ (alloc (PItem i) a)) (enqueue _ (alloc (PItem i) b))).
  - apply (sim_enqueue _ _ [JReaction (OnLaunch i item) (Fulfilled VUndefined)]).
    + apply sim_alloc; [assumption | reflexivity].
    + intros j [<-|[]]. split; reflexivity.
  - intros p Hp. apply set_add_In in Hp. destruct Hp as [->|Hp]; [reflexivity|].
    apply (sm_exec_ess _ _ H). assumption.
  - intros p Hp. apply in_app_or in Hp. destruct Hp as [Hp|[<-|[]]]; [|reflexivity].
    apply (sm_results_ess _ _ H). assumption.
Qed.

Lemma sim_subscribe (a b : state) (r : reaction) (es : list pid) :
  sim a b -> plain_reaction r = true -> as_then r = r ->
  (forall e, In e es -> essential e = true) ->
  sim (fold_left (fun s e => then_ e r s) es a)
      (fold_left (fun s e => then_ e r s) es b).
Proof.
  revert a b. induction es as [|e es IH]; intros a b H Hr Hr' Hes; simpl;
    [assumption|].
  apply IH; auto; [|intros e' He'; apply Hes; simpl; auto].
  rewrite <- Hr' at 1. apply sim_then; auto. apply Hes. simpl; auto.
Qed.

Lemma sim_await_race (a b : state) (i : nat) (rest : list T) :
  sim a b -> sim (await_race i rest a) (await_race i rest b).
Proof.
  intros H. unfold await_race.
  apply (sim_then _ _ (PRace i) (OnAwait rest)); try reflexivity.
  simpl. rewrite (sm_executing _ _ H).
  apply sim_subscribe; try reflexivity.
  - apply sim_alloc; [assumption | reflexivity].
  - apply (sm_exec_ess _ _ H).
Qed.

Lemma sim_subscribe_all (ps : list pid) (k : nat) (a b : state) :
  sim a b -> (forall p, In p ps -> essential p = true) ->
  sim (subscribe_all k ps a) (subscribe_all k ps b).
Proof.
  revert k a b. induction ps as [|p ps IH]; intros k a b H Hps; simpl;
    [assumption|].
  apply IH; [|intros p' Hp'; apply Hps; simpl; auto].
  apply (sim_then _ _ p (OnAllElement k)); auto. apply Hps. simpl; auto.
Qed.

Lemma sim_finish (a b : state) : sim a b -> sim (finish a) (finish b).
Proof.
  intros H. unfold finish.
  apply (sim_enqueue _ _ [JThenable PRet PAll]);
    [|intros j [<-|[]]; split; reflexivity].
  simpl. rewrite (sm_results _ _ H).
  set (a1 := subscribe_all _ _ _). set (b1 := subscribe_all _ _ _).
  assert (H1 : sim a1 b1).
  { apply sim_subscribe_all; [|apply (sm_results_ess _ _ H)].
    apply sim_set_values. apply sim_alloc; [assumption | reflexivity]. }
  rewrite (sm_values _ _ H1).
  destruct (all_filled (values b1)); [|assumption].
  apply sim_settle; [assumption | reflexivity].
Qed.

Lemma sim_loop (items : list T) (a b : state) :
  sim a b ->
  sim (loop limit ThenCleanup items a) (loop limit UseFinally items b).
Proof.
  revert a b. induction items as [|item rest IH]; intros a b H; simpl.
  - apply sim_finish. assumption.
  - pose proof (sim_launch a b item H) as H1.
    rewrite (sm_executing _ _ H1), (sm_results _ _ H).
    destruct (limit <=? size (executing (launch UseFinally item b)))%Z.
    + apply sim_await_race. assumption.
    + apply IH. assumption.
Qed.

Local Abbreviation stepA := (step asyncMapper limit ThenCleanup).
Local Abbreviation stepB := (step asyncMapper limit UseFinally).
Local Abbreviation runA := (run asyncMapper limit ThenCleanup).
Local Abbreviation runB := (run asyncMapper limit UseFinally).

Lemma sim_init : sim (init (T := T) (R := R) (E := E)) init.
Proof.
  constructor; simpl; auto; try contradiction.
  - intros p Hp. case_pid PRet p; reflexivity.
  - intros i rs H. case_pid PRet (PClean i).
  - intros i rs H. case_pid PRet (PClean i).
  - intros i rs r H. case_pid PRet (PFin i).
  - intros p rs r Hp H Hin. case_pid PRet p. inversion H; subst. destruct Hin.
Qed.

Lemma sim_settle_event (a b : state) (i : nat) :
  sim a b -> sim (stepA (Settle i) a) (stepB (Settle i) b).
Proof.
  intros H. simpl. unfold item_of.
  rewrite (sm_heap _ _ H (POp i) eq_refl), (sm_calls _ _ H).
  destruct (heap b (POp i)) as [[rs|o]|]; simpl; try assumption.
  destruct (find _ (calls b)) as [c|]; [|assumption].
  apply sim_settle; [assumption | reflexivity].
Qed.

(** A job that both versions run. *)
Lemma sim_job (a b : state) (j : job) (q : list job) :
  sim a b -> queue b = j :: q -> extra_job j = false ->
  sim (stepA Tick a) (stepB Tick b).
Proof.
  intros H Hb Hj. destruct (sim_pop a b j q H Hb Hj) as [Ha [H0 Hp]].
  simpl. rewrite Ha, Hb.
  destruct j as [r o|p p']; simpl in *.
  - rewrite Hj, orb_false_r in Hp.
    destruct r as [i x|i|i|i o0|p|rest|k]; simpl in *; try discriminate.
    + (* launch *)
      apply (sim_set_calls _ _ (calls b ++ [(i, x)])) in H0.
      rewrite (sm_calls _ _ H).
      destruct (is_async (asyncMapper x)).
      * apply (sim_enqueue _ _ [JThenable (PItem i) (POp i)]);
          [|intros j [<-|[]]; split; reflexivity].
        apply sim_alloc; [assumption | reflexivity].
      * apply sim_settle; [assumption | reflexivity].
    + (* cleanup in both *)
      rewrite (sm_executing _ _ H).
      apply sim_clean_settle. apply sim_extra_settle; [|reflexivity].
      apply sim_set_executing; [assumption|].
      intros p Hin. apply set_delete_In in Hin. apply (sm_exec_ess _ _ H). tauto.
    + (* cleanup against finally *)
      rewrite (sm_executing _ _ H).
      apply sim_clean_settle. apply sim_extra_enqueue.
      * apply sim_extra_alloc. apply sim_set_executing; [assumption|].
        intros p Hin. apply set_delete_In in Hin. apply (sm_exec_ess _ _ H). tauto.
      * intros j [<-|[<-|[]]]; split; reflexivity.
    + apply sim_settle; assumption.
    + destruct o as [v|e].
      * apply sim_loop. assumption.
      * apply sim_settle; [assumption | reflexivity].
    + destruct o as [v|e]; [|apply sim_settle; [assumption | reflexivity]].
      unfold all_resolve. simpl. rewrite (sm_values _ _ H).
      set (vs := update_nth k (Some v) (values b)).
      apply (sim_set_values _ _ vs) in H0.
      destruct (all_filled vs); [|assumption].
      apply sim_settle; [assumption | reflexivity].
  - rewrite Hj in Hp. apply andb_true_iff in Hp. destruct Hp as [Hp1 Hp2].
    apply (sim_then _ _ p' (OnSettle p)); assumption.
Qed.

(** A job that only the finally version has. *)
Lemma sim_job_extra (a b : state) (j : job) (q : list job) :
  sim a b -> queue b = j :: q -> extra_job j = true ->
  sim a (stepB Tick b)
  /\ exists new, queue (stepB Tick b) = q ++ new.
Proof.
  intros H Hb Hj. destruct (sim_pop_extra a b j q H Hb Hj) as [H0 Hp].
  simpl. rewrite Hb.
  destruct j as [r o|p p']; simpl in *.
  - destruct r as [i x|i|i|i o0|p|rest|k]; simpl in *; try discriminate.
    + split; [apply sim_extra_settle; [assumption | reflexivity]|].
      unfold settle. simpl. destruct (heap b (PFin i)) as [[rs|o1]|]; simpl;
        eexists; try reflexivity; rewrite app_nil_r; reflexivity.
    + destruct p; simpl in Hj; try discriminate.
      split; [apply sim_extra_settle; [assumption | reflexivity]|].
      unfold settle. simpl. destruct (heap b (PClean i)) as [[rs|o1]|]; simpl;
        eexists; try reflexivity; rewrite app_nil_r; reflexivity.
  - rewrite Hj in Hp. destruct p; simpl in Hj; try discriminate.
    destruct p'; simpl in Hp; try discriminate.
    split; [apply sim_extra_then; assumption|].
    rewrite queue_then. simpl. eexists. reflexivity.
Qed.

Lemma sim_idle (a b : state) :
  sim a b -> (forall j, In j (queue b) -> extra_job j = true) ->
  stepA Tick a = a.
Proof.
  intros H Hq. simpl. rewrite (sm_queue _ _ H), (core_extra _ Hq). reflexivity.
Qed.

(** *** From a schedule of the finally version to one of the then version *)

Lemma sim_then_schedule (sched : list event) (a b : state) :
  sim a b -> sim (runA (then_schedule sched b) a) (runB sched b).
Proof.
  revert a b. induction sched as [|ev sched IH]; intros a b H; [assumption|].
  cbn [run fold_left then_schedule]. destruct ev as [|i].
  - destruct (queue b) as [|j q] eqn:Hq.
    + apply IH. simpl. rewrite Hq. assumption.
    + destruct (extra_job j) eqn:Hj.
      * apply IH. apply (sim_job_extra a b j q H Hq Hj).
      * cbn [run fold_left]. apply IH. apply (sim_job a b j q H Hq Hj).
  - cbn [run fold_left]. apply IH. apply sim_settle_event. assumption.
Qed.

(** *** From a schedule of the then version to one of the finally version *)

Lemma lead_none (q : list job) :
  lead q = None -> forall j, In j q -> extra_job j = true.
Proof.
  induction q as [|j q IH]; simpl; [tauto|].
  destruct (extra_job j) eqn:Hj; [|discriminate].
  destruct (lead q); [discriminate|]. intros _ j' [<-|Hin]; auto.
Qed.

Lemma lead_app (q new : list job) (k : nat) :
  lead q = Some k -> lead (q ++ new) = Some k.
Proof.
  revert k. induction q as [|j q IH]; simpl; intros k H; [discriminate|].
  destruct (extra_job j); [|assumption].
  destruct (lead q) as [k'|]; [|discriminate].
  rewrite (IH k' eq_refl). assumption.
Qed.

Lemma sim_catch_up (k : nat) (a b : state) :
  sim a b -> lead (queue b) = Some k ->
  sim (stepA Tick a) (runB (repeat Tick (S k)) b).
Proof.
  revert b. induction k as [|k IH]; intros b H Hl.
  - destruct (queue b) as [|j q] eqn:Hq; [discriminate|]. simpl in Hl.
    destruct (extra_job j) eqn:Hj.
    + destruct (lead q); discriminate.
    + cbn [repeat run fold_left]. apply (sim_job a b j q H Hq Hj).
  - destruct (queue b) as [|j q] eqn:Hq; [discriminate|]. simpl in Hl.
    destruct (extra_job j) eqn:Hj; [|discriminate].
    destruct (lead q) as [k'|] eqn:Hk; [|discriminate].
    inversion Hl; subst k'.
    destruct (sim_job_extra a b j q H Hq Hj) as [H1 [new Hnew]].
    change (repeat Tick (S (S k))) with (Tick :: repeat Tick (S k)).
    cbn [run fold_left]. apply IH; [assumption|].
    rewrite Hnew. apply lead_app. assumption.
Qed.

Lemma sim_finally_schedule (sched : list event) (a b : state) :
  sim a b -> sim (runA sched a) (runB (finally_schedule sched b) b).
Proof.
  revert a b. induction sched as [|ev sched IH]; intros a b H; [assumption|].
  change (runA (ev :: sched) a) with (runA sched (stepA ev a)).
  destruct ev as [|i]; cbn [finally_schedule].
  - rewrite run_app. apply IH. unfold catch_up.
    destruct (lead (queue b)) as [k|] eqn:Hl.
    + apply sim_catch_up; assumption.
    + rewrite (sim_idle a b H (lead_none _ Hl)). assumption.
  - change (runB (Settle i :: ?l) b) with (runB l (stepB (Settle i) b)).
    apply IH. apply sim_settle_event. assumption.
Qed.

Lemma sim_returned (a b : state) : sim a b -> returned a = returned b.
Proof.
  intros H. unfold returned. rewrite (sm_heap _ _ H PRet eq_refl).
  destruct (heap b PRet) as [[rs|o]|]; reflexivity.
Qed.

Lemma sim_mapper (inputs : list T) :
  sim (mapper (R := R) (E := E) limit ThenCleanup inputs)
      (mapper limit UseFinally inputs).
Proof. unfold mapper. apply sim_loop. apply sim_init. Qed.

End Styles.

(** ** The three copies agree *)

Lemma sim_same_outcome {T R E} (a b : state T R E) :
  sim a b -> same_outcome a b.
Proof.
  intros H. split; [apply (sim_returned _ _ _ _ _ H)|].
  split; [apply (sm_calls _ _ _ _ _ H)|].
  split; [apply (sm_executing _ _ _ _ _ H) | apply (sm_results _ _ _ _ _ H)].
Qed.

Lemma settlements_app (a b : list event) :
  settlements (a ++ b) = settlements a ++ settlements b.
Proof. apply flat_map_app. Qed.

Lemma settlements_ticks (n : nat) : settlements (repeat Tick n) = [].
Proof. induction n as [|n IH]; [reflexivity | exact IH]. Qed.

Lemma settlements_then_schedule {T R E} (asyncMapper : T -> behaviour R E)
    (limit : Z) (sched : list event) (b : state T R E) :
  settlements (then_schedule asyncMapper limit sched b) = settlements sched.
Proof.
  revert b. induction sched as [|ev sched IH]; intros b; [reflexivity|].
  cbn [then_schedule]. destruct ev as [|i].
  - destruct (queue b) as [|j q]; [apply IH|].
    destruct (extra_job j); [apply IH|]. apply (IH _).
  - cbn [settlements flat_map app]. f_equal. apply IH.
Qed.

Lemma settlements_finally_schedule {T R E} (asyncMapper : T -> behaviour R E)
    (limit : Z) (sched : list event) (b : state T R E) :
  settlements (finally_schedule asyncMapper limit sched b) = settlements sched.
Proof.
  revert b. induction sched as [|ev sched IH]; intros b; [reflexivity|].
  cbn [finally_schedule]. destruct ev as [|i].
  - rewrite settlements_app. unfold catch_up.
    destruct (lead (queue b)); [rewrite settlements_ticks|]; apply IH.
  - cbn [settlements flat_map app]. f_equal. apply IH.
Qed.

(** ** Liveness: the work measure *)

Section WorkFacts.

Variables T R E : Type.
Variable n : nat.

Local Abbreviation state := (state T R E).
Local Abbreviation job := (job T R E).
Local Abbreviation reaction := (reaction T R E).

Lemma in_domain (p : pid) :
  In p (domain n) <->
  match p with
  | POp i | PItem i | PClean i | PFin i | PRace i => i < n
  | PAll | PRet => True
  end.
Proof.
  unfold domain. rewrite !in_app_iff, !in_map_iff. split.
  - intros H.
    repeat match goal with
    | H : _ \/ _ |- _ => destruct H as [H|H]
    | H : exists _, _ |- _ => destruct H as [x [He Hin]]
    end;
    subst; simpl in *; try (apply in_seq in Hin; lia);
    try (destruct H as [H|[H|[]]]; subst; exact I).
  - destruct p as [i|i|i|i|i| |]; intros H.
    + left. exists i. split; [reflexivity | apply in_seq; lia].
    + right; left. exists i. split; [reflexivity | apply in_seq; lia].
    + right; right; left. exists i. split; [reflexivity | apply in_seq; lia].
    + right; right; right; left. exists i. split; [reflexivity | apply in_seq; lia].
    + right; right; right; right; left. exists i.
      split; [reflexivity | apply in_seq; lia].
    + right; right; right; right; right. simpl. auto.
    + right; right; right; right; right. simpl. auto.
Qed.

Lemma NoDup_map_seq (f : nat -> pid) (len : nat) :
  (forall i j, f i = f j -> i = j) -> NoDup (map f (seq 0 len)).
Proof.
  intros Hf. generalize (seq_NoDup len 0). generalize (seq 0 len) as l.
  induction l as [|a l IH]; intros Hn; simpl; constructor.
  - inversion Hn; subst. intros Hin. apply in_map_iff in Hin.
    destruct Hin as [b [Hb Hin]]. apply Hf in Hb. subst. contradiction.
  - inversion Hn; subst. auto.
Qed.

Lemma NoDup_append (l l' : list pid) :
  NoDup l -> NoDup l' -> (forall p, In p l -> ~ In p l') -> NoDup (l ++ l').
Proof.
  intros Hl Hl' Hd. induction l as [|a l IH]; simpl; [assumption|].
  inversion Hl; subst. constructor.
  - rewrite in_app_iff. intros [H|H]; [contradiction|].
    apply (Hd a); simpl; auto.
  - apply IH; [assumption|]. intros p Hp. apply Hd. simpl. auto.
Qed.

Lemma NoDup_domain : NoDup (domain n).
Proof.
  unfold domain.
  repeat (apply NoDup_append;
          [apply NoDup_map_seq; intros i j H; injection H; auto | |
           intros p Hp; apply in_map_iff in Hp; destruct Hp as [i [<- _]];
           rewrite ?in_app_iff, ?in_map_iff;
           intros H;
           repeat match goal with
           | H : _ \/ _ |- _ => destruct H as [H|H]
           | H : exists _, _ |- _ => destruct H as [x [He Hin]]
           end; try discriminate;
           try (destruct H as [H|[H|[]]]; discriminate)]).
  constructor; [simpl; intros [H|[]]; discriminate|].
  constructor; [simpl; tauto | constructor].
Qed.

Lemma list_sum_update (l : list pid) (f g : pid -> nat) (p : pid) :
  NoDup l -> In p l -> (forall q, q <> p -> g q = f q) ->
  list_sum (map g l) + f p = list_sum (map f l) + g p.
Proof.
  intros Hn Hin Hfg. induction l as [|a l IH]; [destruct Hin|].
  inversion Hn; subst. simpl.
  destruct (pid_eqb_spec a p) as [He|He].
  - subst a.
    assert (Hm : map g l = map f l).
    { apply map_ext_in. intros q Hq. apply Hfg. intros ->. contradiction. }
    rewrite Hm. lia.
  - destruct Hin as [Hin|Hin]; [contradiction|].
    rewrite (Hfg a He). specialize (IH H2 Hin). lia.
Qed.

Lemma heap_weight_set_in (s : state) (p : pid) (ps : pstate T R E) :
  In p (domain n) ->
  heap_weight n (set_heap p ps s) + pstate_weight n (heap s p)
  = heap_weight n s + pstate_weight n (Some ps).
Proof.
  intros Hin. unfold heap_weight.
  rewrite (list_sum_update (domain n)
             (fun q => pstate_weight n (heap s q))
             (fun q => pstate_weight n (heap (set_heap p ps s) q)) p
             NoDup_domain Hin).
  - simpl. rewrite pid_eqb_refl. reflexivity.
  - intros q Hq. simpl. case_pid p q.
Qed.

Lemma heap_weight_set_out (s : state) (p : pid) (ps : pstate T R E) :
  ~ In p (domain n) -> heap_weight n (set_heap p ps s) = heap_weight n s.
Proof.
  intros Hin. unfold heap_weight. f_equal. apply map_ext_in.
  intros q Hq. simpl. case_pid p q.
Qed.

Lemma in_domain_dec (p : pid) : In p (domain n) \/ ~ In p (domain n).
Proof.
  rewrite in_domain.
  destruct p as [i|i|i|i|i| |];
    try (destruct (Nat.lt_ge_cases i n); [left|right]; lia); left; exact I.
Qed.

Lemma list_sum_map_app (A : Type) (f : A -> nat) (l l' : list A) :
  list_sum (map f (l ++ l')) = list_sum (map f l) + list_sum (map f l').
Proof. rewrite map_app, list_sum_app. reflexivity. Qed.

Lemma work_alloc (s : state) (p : pid) : work n (alloc p s) <= work n s.
Proof.
  unfold work, alloc. simpl queue.
  destruct (in_domain_dec p) as [H|H].
  - pose proof (heap_weight_set_in s p (Pending []) H) as He. simpl in He. lia.
  - rewrite (heap_weight_set_out s p _ H). lia.
Qed.

Lemma work_enqueue (s : state) (js : list job) :
  work n (enqueue js s) = work n s + list_sum (map (job_weight n) js).
Proof.
  unfold work. simpl. rewrite list_sum_map_app.
  change (heap_weight n (enqueue js s)) with (heap_weight n s). lia.
Qed.

Lemma work_then (s : state) (p : pid) (r : reaction) :
  work n (then_ p r s) <= work n s + reaction_weight n r.
Proof.
  unfold then_. destruct (heap s p) as [[rs|o]|] eqn:Hp.
  - unfold work. simpl queue. destruct (in_domain_dec p) as [H|H].
    + pose proof (heap_weight_set_in s p (Pending (rs ++ [r])) H) as He.
      rewrite Hp in He. simpl in He. rewrite list_sum_map_app in He.
      simpl in He. lia.
    + rewrite (heap_weight_set_out s p _ H). lia.
  - rewrite work_enqueue. simpl. lia.
  - lia.
Qed.

Lemma work_settle (s : state) (p : pid) (o : outcome R E) :
  In p (domain n) \/ (forall rs, heap s p = Some (Pending rs) -> rs = []) ->
  work n (settle p o s) = work n s.
Proof.
  intros Hd. unfold settle. destruct (heap s p) as [[rs|o']|] eqn:Hp; try reflexivity.
  rewrite work_enqueue.
  assert (Hj : list_sum (map (job_weight n) (map (fun r => JReaction r o) rs))
               = list_sum (map (reaction_weight n) rs)).
  { rewrite map_map. reflexivity. }
  rewrite Hj. unfold work. simpl queue.
  destruct (in_domain_dec p) as [H|H].
  - pose proof (heap_weight_set_in s p (Settled o) H) as He.
    rewrite Hp in He. simpl in He. lia.
  - destruct Hd as [Hd|Hd]; [contradiction|].
    rewrite (Hd rs eq_refl). rewrite (heap_weight_set_out s p _ H). simpl. lia.
Qed.

End WorkFacts.

Section WorkSteps.

Variables T R E : Type.
Variable asyncMapper : T -> behaviour R E.
Variable limit : Z.
Variable sty : style.
Variable inputs : list T.

Local Abbreviation state := (state T R E).
Local Abbreviation job := (job T R E).
Local Abbreviation reaction := (reaction T R E).
Local Abbreviation n := (length inputs).
Local Abbreviation inv := (inv asyncMapper limit inputs).
Local Abbreviation shape := (shape asyncMapper limit inputs).
Local Abbreviation tracked := (tracked inputs).

Lemma work_frame (s s' : state) :
  heap s' = heap s -> queue s' = queue s -> work n s' = work n s.
Proof. intros Hh Hq. unfold work, heap_weight. rewrite Hh, Hq. reflexivity. Qed.

Lemma cleanup_weight (i : nat) :
  reaction_weight n (cleanup_reaction T R E sty i) <= 4.
Proof. destruct sty; simpl; lia. Qed.

Lemma work_launch (item : T) (s : state) :
  work n (launch sty item s) <= work n s + 7.
Proof.
  unfold launch.
  eapply Nat.le_trans; [apply work_then|].
  pose proof (cleanup_weight (length (results s))) as Hc.
  eapply Nat.le_trans; [apply Nat.add_le_mono_r; apply work_alloc|].
  match goal with
  | |- work n (set_executing ?l (set_results ?l' ?s0)) + _ <= _ =>
      rewrite (work_frame s0 (set_executing l (set_results l' s0)) eq_refl eq_refl)
  end.
  rewrite work_enqueue. simpl.
  pose proof (work_alloc T R E n s (PItem (length (results s)))). lia.
Qed.

Lemma work_subscribe (r : reaction) (l : list pid) (s : state) :
  work n (fold_left (fun s e => then_ e r s) l s)
  <= work n s + length l * reaction_weight n r.
Proof.
  revert s. induction l as [|e l IH]; intros s; simpl; [lia|].
  eapply Nat.le_trans; [apply IH|].
  pose proof (work_then T R E n s e r). lia.
Qed.

Lemma work_await_race (i : nat) (rest : list T) (s : state) :
  work n (await_race i rest s)
  <= work n s + length (executing s) + await_weight n (length rest).
Proof.
  unfold await_race.
  eapply Nat.le_trans; [apply work_then|]. simpl reaction_weight.
  apply Nat.add_le_mono_r.
  eapply Nat.le_trans; [apply work_subscribe|]. simpl.
  pose proof (work_alloc T R E n s (PRace i)). lia.
Qed.

Lemma work_subscribe_all (k : nat) (ps : list pid) (s : state) :
  work n (subscribe_all k ps s) <= work n s + length ps.
Proof.
  revert k s. induction ps as [|p ps IH]; intros k s; simpl; [lia|].
  eapply Nat.le_trans; [apply IH|].
  pose proof (work_then T R E n s p (OnAllElement k)). simpl in H. lia.
Qed.

Lemma results_subscribe_all (k : nat) (ps : list pid) (s : state) :
  results (subscribe_all k ps s) = results s.
Proof.
  revert k s. induction ps as [|p ps IH]; intros k s; simpl; [reflexivity|].
  rewrite IH. apply results_then.
Qed.

Lemma work_finish (s : state) :
  work n (finish s) <= work n s + length (results s) + 2.
Proof.
  unfold finish. rewrite work_enqueue. simpl.
  set (s1 := set_values _ (alloc PAll s)).
  assert (H1 : work n s1 <= work n s).
  { eapply Nat.le_trans; [|apply (work_alloc T R E n s PAll)].
    apply Nat.eq_le_incl. apply work_frame; reflexivity. }
  assert (H2 : work n (subscribe_all 0 (results s1) s1)
               <= work n s + length (results s)).
  { eapply Nat.le_trans; [apply work_subscribe_all|]. unfold s1 at 2. simpl. lia. }
  change (results s1) with (results s) in H2.
  destruct (all_filled _); [rewrite work_settle|]; try lia.
  left. apply in_domain. exact I.
Qed.

Lemma work_loop (items : list T) (s : state) :
  length (results s) + length items <= n ->
  length (executing s) <= length (results s) ->
  work n (loop limit sty items s) + 1
  <= work n s + await_weight n (length items).
Proof.
  revert s. induction items as [|item rest IH]; intros s Hlen Hex; simpl loop.
  - pose proof (work_finish s). unfold await_weight. simpl in *. lia.
  - pose proof (work_launch item s) as Hl.
    assert (Hr : length (results (launch sty item s)) = S (length (results s))).
    { rewrite results_launch, length_app. simpl. lia. }
    assert (He : length (executing (launch sty item s))
                 <= length (results (launch sty item s))).
    { rewrite executing_launch, Hr.
      pose proof (set_add_le (PItem (length (results s))) (executing s)) as H.
      unfold size in H. lia. }
    simpl length in *.
    assert (Hw : await_weight n (S (length rest))
                 = await_weight n (length rest) + n + 8)
      by (unfold await_weight; lia).
    destruct (limit <=? size (executing (launch sty item s)))%Z.
    + pose proof (work_await_race (length (results s)) rest (launch sty item s)).
      lia.
    + specialize (IH (launch sty item s)). lia.
Qed.

Lemma item_lt (s : state) (i : nat) :
  shape s -> heap s (PItem i) <> None -> i < n.
Proof.
  intros Hs Hi. pose proof (sh_len Hs).
  destruct (Nat.lt_ge_cases i (length (results s))) as [H1|H1]; [lia|].
  rewrite (sh_fresh_item Hs i H1) in Hi. congruence.
Qed.

Lemma op_lt (s : state) (i : nat) :
  shape s -> heap s (POp i) <> None -> i < n.
Proof.
  intros Hs Hi. pose proof (sh_len Hs).
  destruct (sh_op_called Hs i Hi) as [x Hx].
  assert (Hv : invoked s i = true) by (apply invoked_In; eauto).
  pose proof (invoked_lt T R E asyncMapper limit inputs s i Hs Hv). lia.
Qed.

Lemma race_lt (s : state) (j : nat) :
  shape s -> heap s (PRace j) <> None -> j < n.
Proof.
  intros Hs Hj. pose proof (sh_len Hs).
  destruct (Nat.lt_ge_cases j (length (results s))) as [H1|H1]; [lia|].
  rewrite (sh_fresh_race Hs j H1) in Hj. congruence.
Qed.

Lemma shape_tracked (s : state) : shape s -> fin_ok n s -> tracked s.
Proof.
  intros Hs Hf p rs Hp. destruct rs as [|r rs]; [left; reflexivity|]. right.
  pose proof (sh_host Hs p (r :: rs) r Hp (or_introl eq_refl)) as Hh.
  assert (Hne : heap s p <> None) by congruence.
  apply in_domain.
  destruct r as [i x|i|i|i o|q|rest|k]; simpl in Hh; try contradiction.
  - subst p. eapply item_lt; eauto.
  - subst p. eapply item_lt; eauto.
  - destruct q as [i|i|i|i|i| |]; try contradiction.
    + subst p. eapply op_lt; eauto.
    + subst p. apply Hf. assumption.
    + destruct Hh as [[i' ->] _]. eapply item_lt; eauto.
    + subst p. exact I.
  - destruct Hh as [j ->]. eapply race_lt; eauto.
  - destruct Hh as [-> _]. eapply item_lt; eauto.
Qed.

Lemma work_settle_tracked (s : state) (p : pid) (o : outcome R E) :
  tracked s -> work n (settle p o s) = work n s.
Proof.
  intros Ht. apply work_settle.
  destruct (in_domain_dec n p) as [H|H]; [left; assumption|]. right.
  intros rs Hp. destruct (Ht p rs Hp); [assumption | contradiction].
Qed.

Lemma work_pop (s : state) (j : job) (q : list job) :
  queue s = j :: q -> work n s = work n (set_queue q s) + job_weight n j.
Proof.
  intros Hq. unfold work. rewrite Hq. simpl.
  change (heap_weight n (set_queue q s)) with (heap_weight n s). lia.
Qed.

Lemma suspended_length (s : state) (rest : list T) :
  shape s -> suspended_ok inputs s rest ->
  length (results s) + length rest <= n
  /\ length (executing s) <= length (results s).
Proof.
  intros Hs [_ Hin]. pose proof (sh_len Hs) as Hl.
  pose proof (sh_exec_le Hs) as He. unfold size in He.
  split; [|lia].
  assert (H : length inputs
              = length (firstn (length (results s)) inputs ++ rest))
    by (rewrite <- Hin; reflexivity).
  rewrite length_app, length_firstn in H. lia.
Qed.

Ltac work_simpl :=
  repeat match goal with
  | |- context [work ?m (set_calls ?l ?s0)] =>
      change (work m (set_calls l s0)) with (work m s0)
  | |- context [work ?m (set_executing ?l ?s0)] =>
      change (work m (set_executing l s0)) with (work m s0)
  | |- context [work ?m (set_values ?l ?s0)] =>
      change (work m (set_values l s0)) with (work m s0)
  | |- context [work ?m (set_results ?l ?s0)] =>
      change (work m (set_results l s0)) with (work m s0)
  end.

(** Every microtask turn uses up some of the work. *)
Lemma work_tick (s : state) (j : job) (q : list job) :
  inv s -> fin_ok n s -> queue s = j :: q ->
  work n (step asyncMapper limit sty Tick s) < work n s.
Proof.
  intros [Hs Hc] Hf Hq. simpl. rewrite Hq.
  rewrite (work_pop s j q Hq).
  pose proof (shape_tracked s Hs Hf) as Ht.
  destruct j as [r o|p p']; simpl.
  - destruct r as [i x|i|i|i o0|p|rest|k]; simpl.
    + destruct (is_async (asyncMapper x)).
      * rewrite work_enqueue. simpl.
        match goal with
        | |- work n (alloc ?p ?s0) + _ < _ =>
            pose proof (work_alloc T R E n s0 p) as Ha; revert Ha
        end. work_simpl. lia.
      * rewrite work_settle_tracked; [|exact Ht]. work_simpl. lia.
    + rewrite work_settle_tracked; [|exact Ht]. work_simpl. lia.
    + rewrite work_enqueue. simpl.
      match goal with
      | |- work n (alloc ?p ?s0) + _ < _ =>
          pose proof (work_alloc T R E n s0 p) as Ha; revert Ha
      end. work_simpl. lia.
    + rewrite work_settle_tracked; [lia | exact Ht].
    + rewrite work_settle_tracked; [lia | exact Ht].
    + destruct (control_pop_await _ _ _ limit inputs s rest o q Hc Hq)
        as [_ [_ [Hso _]]].
      destruct o as [v|e].
      * assert (Hs0 : shape (set_queue q s))
          by (eapply shape_pop_plain; eauto).
        destruct (suspended_length _ rest Hs0 Hso) as [H1 H2].
        pose proof (work_loop rest (set_queue q s) H1 H2). lia.
      * rewrite work_settle_tracked; [|exact Ht]. unfold await_weight. lia.
    + destruct o as [v|e].
      * unfold all_resolve.
        destruct (all_filled _);
          [rewrite work_settle_tracked; [|exact Ht]|]; work_simpl; lia.
      * rewrite work_settle_tracked; [lia | exact Ht].
  - pose proof (work_then T R E n (set_queue q s) p' (OnSettle p)) as H.
    simpl in H. lia.
Qed.

Lemma work_settle_event (s : state) (i : nat) :
  inv s -> fin_ok n s ->
  work n (step asyncMapper limit sty (Settle i) s) = work n s.
Proof.
  intros [Hs _] Hf. simpl.
  destruct (heap s (POp i)) as [[rs|o]|]; try reflexivity.
  destruct (item_of i s); [|reflexivity].
  apply work_settle_tracked. apply shape_tracked; assumption.
Qed.

End WorkSteps.

(** ** Which promises a step allocates *)

Section Allocation.

Variables T R E : Type.
Variable asyncMapper : T -> behaviour R E.
Variable limit : Z.
Variable sty : style.
Variable inputs : list T.

Local Abbreviation state := (state T R E).
Local Abbreviation job := (job T R E).
Local Abbreviation reaction := (reaction T R E).
Local Abbreviation n := (length inputs).
Local Abbreviation inv := (inv asyncMapper limit inputs).
Local Abbreviation shape := (shape asyncMapper limit inputs).

Lemma none_settle (s : state) (p q : pid) (o : outcome R E) :
  heap (settle p o s) q = None <-> heap s q = None.
Proof.
  unfold settle. destruct (heap s p) as [[rs|o']|] eqn:Hp; simpl; try tauto.
  case_pid p q; [split; intros H; congruence | tauto].
Qed.

Lemma none_then (s : state) (p q : pid) (r : reaction) :
  heap (then_ p r s) q = None <-> heap s q = None.
Proof.
  unfold then_. destruct (heap s p) as [[rs|o']|] eqn:Hp; simpl; try tauto.
  case_pid p q; [split; intros H; congruence | tauto].
Qed.

Lemma none_alloc (s : state) (p q : pid) :
  p <> q -> heap (alloc p s) q = heap s q.
Proof. intros H. simpl. case_pid p q. Qed.

Lemma none_subscribe (r : reaction) (l : list pid) (s : state) (q : pid) :
  heap (fold_left (fun s e => then_ e r s) l s) q = None <-> heap s q = None.
Proof.
  revert s. induction l as [|e l IH]; intros s; simpl; [tauto|].
  rewrite IH. apply none_then.
Qed.

Lemma none_subscribe_all (k : nat) (ps : list pid) (s : state) (q : pid) :
  heap (subscribe_all k ps s) q = None <-> heap s q = None.
Proof.
  revert k s. induction ps as [|p ps IH]; intros k s; simpl; [tauto|].
  rewrite IH. apply none_then.
Qed.

Lemma none_launch (item : T) (s : state) (q : pid) :
  loop_pid q = false ->
  (heap (launch sty item s) q = None <-> heap s q = None).
Proof.
  clear asyncMapper. intros Hq. rewrite launch_eq. simpl.
  destruct q; try discriminate; heap_cases; tauto.
Qed.

Lemma none_await_race (i : nat) (rest : list T) (s : state) (q : pid) :
  loop_pid q = false ->
  (heap (await_race i rest s) q = None <-> heap s q = None).
Proof.
  intros Hq. unfold await_race. rewrite none_then, none_subscribe.
  rewrite none_alloc; [tauto|]. intros <-. discriminate.
Qed.

Lemma none_finish (s : state) (q : pid) :
  loop_pid q = false -> (heap (finish s) q = None <-> heap s q = None).
Proof.
  intros Hq. unfold finish.
  change (heap (enqueue ?js ?s0) q) with (heap s0 q).
  set (s1 := subscribe_all _ _ _).
  assert (H1 : heap s1 q = None <-> heap s q = None).
  { unfold s1. rewrite none_subscribe_all.
    change (heap (set_values ?l ?s0) q) with (heap s0 q).
    rewrite none_alloc; [tauto|]. intros <-. discriminate. }
  destruct (all_filled (values s1)); [rewrite none_settle|]; exact H1.
Qed.

Lemma none_loop (items : list T) (s : state) (q : pid) :
  loop_pid q = false ->
  (heap (loop limit sty items s) q = None <-> heap s q = None).
Proof.
  intros Hq. revert s. induction items as [|item rest IH]; intros s; simpl.
  - apply none_finish. assumption.
  - destruct (limit <=? _)%Z.
    + rewrite none_await_race by assumption. apply none_launch. assumption.
    + rewrite IH. apply none_launch. assumption.
Qed.

Lemma fin_ok_keep (s s' : state) :
  (forall i, heap s' (PFin i) = None <-> heap s (PFin i) = None) ->
  fin_ok n s -> fin_ok n s'.
Proof. intros H Hf i Hi. apply Hf. rewrite <- H. assumption. Qed.

Lemma fin_ok_step (ev : event) (s : state) :
  inv s -> fin_ok n s -> fin_ok n (step asyncMapper limit sty ev s).
Proof.
  intros [Hs Hc] Hf.
  assert (Hkeep : forall s', (forall i, heap s' (PFin i) = None
                                        <-> heap s (PFin i) = None) ->
                             fin_ok n s')
    by (intros s' H; eapply fin_ok_keep; eauto).
  destruct ev as [|i]; simpl.
  - destruct (queue s) as [|j q] eqn:Hq; [assumption|].
    assert (Hj : job_ok s j) by (apply (sh_jobs Hs); rewrite Hq; left; reflexivity).
    destruct j as [r o|p p']; simpl.
    + destruct r as [i x|i|i|i o0|p|rest|k]; simpl.
      * destruct (is_async (asyncMapper x)).
        -- intros m. simpl. apply Hf.
        -- apply Hkeep. intros m. rewrite none_settle. reflexivity.
      * apply Hkeep. intros m. rewrite none_settle. reflexivity.
      * intros m. simpl. case_pid (PFin i) (PFin m); [|apply Hf].
        intros _. simpl in Hj. eapply item_lt; [exact Hs|]. congruence.
      * apply Hkeep. intros m. rewrite none_settle. reflexivity.
      * apply Hkeep. intros m. rewrite none_settle. reflexivity.
      * destruct o as [v|e].
        -- apply Hkeep. intros m. rewrite none_loop by reflexivity. reflexivity.
        -- apply Hkeep. intros m. rewrite none_settle. reflexivity.
      * destruct o as [v|e].
        -- unfold all_resolve. destruct (all_filled _).
           ++ apply Hkeep. intros m. rewrite none_settle. reflexivity.
           ++ exact Hf.
        -- apply Hkeep. intros m. rewrite none_settle. reflexivity.
    + apply Hkeep. intros m. rewrite none_then. reflexivity.
  - destruct (heap s (POp i)) as [[rs|o]|]; try assumption.
    destruct (item_of i s); [|assumption].
    apply Hkeep. intros m. rewrite none_settle. reflexivity.
Qed.

Lemma fin_ok_mapper : fin_ok n (mapper (R := R) (E := E) limit sty inputs).
Proof.
  intros i Hi. exfalso. apply Hi. unfold mapper.
  apply none_loop; reflexivity.
Qed.

End Allocation.

Section AliveFrames.

Variables T R E : Type.

Local Abbreviation state := (state T R E).
Local Abbreviation job := (job T R E).
Local Abbreviation reaction := (reaction T R E).

Lemma queued_none (x : option job) (s : state) (j : job) :
  queued None s j -> queued x s j.
Proof. intros [H|H]; [left; assumption | discriminate]. Qed.

Lemma scheduled_none (x : option job) (s : state) (r : reaction) :
  scheduled None s r -> scheduled x s r.
Proof.
  intros [H|[o H]]; [left; assumption|]. right. exists o.
  apply queued_none. assumption.
Qed.

Lemma item_served_none (x : option job) (s : state) (i : nat) :
  item_served None s i -> item_served x s i.
Proof.
  intros [[item [o H]]|[H|H]].
  - left. exists item, o. apply queued_none. assumption.
  - right; left. apply queued_none. assumption.
  - right; right. apply scheduled_none. assumption.
Qed.

Lemma ret_served_none (x : option job) (s : state) :
  ret_served None s -> ret_served x s.
Proof.
  intros [H|H]; [left; apply queued_none | right; apply scheduled_none];
    assumption.
Qed.

Lemma returned_none (s : state) :
  returned s = None <->
  heap s PRet = None \/ exists rs, heap s PRet = Some (Pending rs).
Proof.
  unfold returned. destruct (heap s PRet) as [[rs|o]|]; split; intros H;
    try reflexivity; try discriminate; eauto.
  - destruct H as [H|[rs H]]; discriminate.
Qed.

(** *** What an advance preserves *)

Lemma queued_advance (x : option job) (s s' : state) (j : job) :
  advance s s' -> queued x s j -> queued x s' j.
Proof.
  intros Ha [H|H]; [left; apply (ad_queue _ _ _ _ _ Ha); assumption | right; assumption].
Qed.

Lemma item_served_advance (x : option job) (s s' : state) (i : nat) :
  advance s s' -> item_served x s i -> item_served x s' i.
Proof.
  intros Ha [[item [o H]]|[H|H]].
  - left. exists item, o. eapply queued_advance; eauto.
  - right; left. eapply queued_advance; eauto.
  - right; right. apply (ad_sched _ _ _ _ _ Ha). assumption.
Qed.

Lemma ret_served_advance (x : option job) (s s' : state) :
  advance s s' -> ret_served x s -> ret_served x s'.
Proof.
  intros Ha [H|H].
  - left. eapply queued_advance; eauto.
  - right. apply (ad_sched _ _ _ _ _ Ha). assumption.
Qed.

Lemma returned_advance (s s' : state) :
  advance s s' -> heap s PRet <> None ->
  returned s' = None -> returned s = None.
Proof.
  intros Ha Hr H. apply returned_none in H. apply returned_none.
  destruct H as [H|[rs H]].
  - exfalso. apply (ad_some _ _ _ _ _ Ha PRet Hr H).
  - right. apply (ad_ret_pending _ _ _ _ _ Ha rs H).
Qed.

Lemma alive0_advance (x : option job) (s s' : state) :
  alive0 x s -> advance s s' -> alive0 x s'.
Proof.
  intros [Hra Hr Hrc Hi Ht] Ha. constructor.
  - apply (ad_some _ _ _ _ _ Ha). assumption.
  - intros Hn Hall. destruct (heap s PAll) as [ps|] eqn:Hp.
    + apply (ret_served_advance x s s' Ha). apply Hr.
      * eapply returned_advance; eauto.
      * congruence.
    + apply ret_served_none. apply (ad_ret _ _ _ _ _ Ha); assumption.
  - intros j rs' Hj.
    destruct (ad_race _ _ _ _ _ Ha j rs' Hj) as [[rs H]|H].
    + apply (ad_sched _ _ _ _ _ Ha). eapply Hrc; eauto.
    + apply scheduled_none. assumption.
  - intros i rs' Hj.
    destruct (ad_item _ _ _ _ _ Ha i rs' Hj) as [[rs H]|H].
    + apply (item_served_advance x s s' i Ha). eapply Hi; eauto.
    + apply item_served_none. assumption.
  - intros p q [H|H].
    + destruct (ad_thenable _ _ _ _ _ Ha p q H) as [H1|H1]; [|assumption].
      apply (ad_some _ _ _ _ _ Ha). apply (Ht p). left. assumption.
    + apply (ad_some _ _ _ _ _ Ha). apply (Ht p). right. assumption.
Qed.

Lemma awaited_advance (x : option job) (s s' : state) :
  heap s PRet <> None -> awaited x s -> advance s s' -> awaited x s'.
Proof.
  intros Hr Hw Ha Hn Hall.
  destruct Hw as [rest Hrest].
  - eapply returned_advance; eauto.
  - destruct (heap s PAll) eqn:Hp; [|reflexivity].
    exfalso. apply (ad_some _ _ _ _ _ Ha PAll); [congruence | assumption].
  - exists rest. apply (ad_sched _ _ _ _ _ Ha). assumption.
Qed.

Lemma all_ok_advance (x : option job) (s s' : state) :
  all_ok x s -> advance s s' -> values s' = values s ->
  (forall rs', heap s' PAll = Some (Pending rs') ->
               exists rs, heap s PAll = Some (Pending rs)) ->
  all_ok x s'.
Proof.
  intros Hall Ha Hv Hp rs' H'. destruct (Hp rs' H') as [rs H].
  destruct (Hall rs H) as [Hk Hs]. split; rewrite Hv; [assumption|].
  intros k Hn. apply (ad_sched _ _ _ _ _ Ha). auto.
Qed.

(** *** Advances *)

Lemma advance_refl (s : state) : advance s s.
Proof. constructor; eauto. intros H1 H2. contradiction. Qed.

Lemma advance_trans (s1 s2 s3 : state) :
  advance s1 s2 -> advance s2 s3 -> advance s1 s3.
Proof.
  intros H12 H23. constructor.
  - intros x r H. apply (ad_sched _ _ _ _ _ H23). apply (ad_sched _ _ _ _ _ H12).
    assumption.
  - intros j H. apply (ad_queue _ _ _ _ _ H23). apply (ad_queue _ _ _ _ _ H12).
    assumption.
  - intros p H. apply (ad_some _ _ _ _ _ H23). apply (ad_some _ _ _ _ _ H12).
    assumption.
  - intros i rs3 H3.
    destruct (ad_item _ _ _ _ _ H23 i rs3 H3) as [[rs2 H2]|H2]; [|right; assumption].
    destruct (ad_item _ _ _ _ _ H12 i rs2 H2) as [H1|H1]; [left; assumption|].
    right. eapply item_served_advance; eauto.
  - intros j rs3 H3.
    destruct (ad_race _ _ _ _ _ H23 j rs3 H3) as [[rs2 H2]|H2]; [|right; assumption].
    destruct (ad_race _ _ _ _ _ H12 j rs2 H2) as [H1|H1]; [left; assumption|].
    right. apply (ad_sched _ _ _ _ _ H23). assumption.
  - intros rs3 H3. destruct (ad_ret_pending _ _ _ _ _ H23 rs3 H3) as [rs2 H2].
    apply (ad_ret_pending _ _ _ _ _ H12 rs2 H2).
  - intros Hn Hs Hr. destruct (heap s2 PAll) as [ps|] eqn:Hp.
    + apply (ret_served_advance None s2 s3 H23).
      apply (ad_ret _ _ _ _ _ H12 Hn); [congruence|].
      apply returned_none in Hr. apply returned_none.
      destruct Hr as [Hr|[rs Hr]].
      * left. destruct (heap s2 PRet) eqn:H2; [|reflexivity].
        exfalso. apply (ad_some _ _ _ _ _ H23 PRet); [congruence | assumption].
      * right. apply (ad_ret_pending _ _ _ _ _ H23 rs Hr).
    + apply (ad_ret _ _ _ _ _ H23); assumption.
  - intros p q H3.
    destruct (ad_thenable _ _ _ _ _ H23 p q H3) as [H2|H2]; [|right; assumption].
    destruct (ad_thenable _ _ _ _ _ H12 p q H2) as [H1|H1]; [left; assumption|].
    right. apply (ad_some _ _ _ _ _ H23). assumption.
Qed.

Lemma advance_plain (s s' : state) :
  (forall x r, scheduled x s r -> scheduled x s' r) ->
  (forall j, In j (queue s) -> In j (queue s')) ->
  (forall p, heap s p <> None -> heap s' p <> None) ->
  (forall p rs', watched p = true -> heap s' p = Some (Pending rs') ->
                 exists rs, heap s p = Some (Pending rs)) ->
  (heap s PAll = None -> heap s' PAll = None) ->
  (forall p q, In (JThenable p q) (queue s') ->
               In (JThenable p q) (queue s) \/ heap s' q <> None) ->
  advance s s'.
Proof.
  intros H1 H2 H3 H4 H5 H6. constructor; auto.
  - intros i rs' H. left. apply (H4 (PItem i) rs' eq_refl H).
  - intros j rs' H. left. apply (H4 (PRace j) rs' eq_refl H).
  - intros rs' H. apply (H4 PRet rs' eq_refl H).
  - intros Hn Hs. exfalso. auto.
Qed.

Lemma pending_settle (s : state) (p q : pid) (o : outcome R E) rs' :
  heap (settle p o s) q = Some (Pending rs') -> heap s q = Some (Pending rs').
Proof.
  unfold settle. destruct (heap s p) as [[rs|o']|] eqn:Hp; simpl; auto.
  case_pid p q.
Qed.

Lemma pending_then (s : state) (p q : pid) (r : reaction) rs' :
  heap (then_ p r s) q = Some (Pending rs') ->
  exists rs, heap s q = Some (Pending rs).
Proof.
  unfold then_. destruct (heap s p) as [[rs|o']|] eqn:Hp; simpl; eauto.
  case_pid p q; eauto.
Qed.

Lemma scheduled_settle (x : option job) (s : state) (p : pid)
      (o : outcome R E) (r : reaction) :
  scheduled x s r -> scheduled x (settle p o s) r.
Proof.
  unfold settle. destruct (heap s p) as [[rs|o']|] eqn:Hp; auto.
  intros [[p' [rs' [He [Hp' Hin]]]]|[o1 [H|H]]].
  - destruct (pid_eqb_spec p p') as [Heq|Hne].
    + subst p'. rewrite Hp in Hp'. inversion Hp'; subst rs'.
      right. exists o. left. simpl. apply in_or_app. right.
      apply in_map_iff. exists r. auto.
    + left. exists p', rs'. simpl. rewrite (pid_eqb_neq _ _ Hne). auto.
  - right. exists o1. left. simpl. apply in_or_app. auto.
  - right. exists o1. right. assumption.
Qed.

Lemma scheduled_then (x : option job) (s : state) (p : pid)
      (r' r : reaction) :
  scheduled x s r -> scheduled x (then_ p r' s) r.
Proof.
  unfold then_. destruct (heap s p) as [[rs|o']|] eqn:Hp; auto.
  - intros [[p' [rs' [He [Hp' Hin]]]]|[o1 [H|H]]].
    + destruct (pid_eqb_spec p p') as [Heq|Hne].
      * subst p'. rewrite Hp in Hp'. inversion Hp'; subst rs'.
        left. exists p, (rs ++ [r']). simpl. rewrite pid_eqb_refl.
        split; [assumption|]. split; [reflexivity|]. apply in_or_app. auto.
      * left. exists p', rs'. simpl. rewrite (pid_eqb_neq _ _ Hne). auto.
    + right. exists o1. left. assumption.
    + right. exists o1. right. assumption.
  - intros [H|[o1 [H|H]]].
    + left. assumption.
    + right. exists o1. left. simpl. apply in_or_app. auto.
    + right. exists o1. right. assumption.
Qed.

Lemma scheduled_new (x : option job) (s : state) (p : pid) (r : reaction) :
  essential p = true -> heap s p <> None -> scheduled x (then_ p r s) r.
Proof.
  intros He Hp. unfold then_. destruct (heap s p) as [[rs|o']|] eqn:Hp'.
  - left. exists p, (rs ++ [r]). simpl. rewrite pid_eqb_refl.
    split; [assumption|]. split; [reflexivity|]. apply in_or_app. simpl. auto.
  - right. exists o'. left. simpl. apply in_or_app. simpl. auto.
  - contradiction.
Qed.

Lemma scheduled_enqueue (x : option job) (s : state) (js : list job)
      (r : reaction) :
  scheduled x s r -> scheduled x (enqueue js s) r.
Proof.
  intros [H|[o [H|H]]].
  - left. assumption.
  - right. exists o. left. simpl. apply in_or_app. auto.
  - right. exists o. right. assumption.
Qed.

Lemma scheduled_alloc (x : option job) (s : state) (p : pid) (r : reaction) :
  essential p = false \/ heap s p = None ->
  scheduled x s r -> scheduled x (alloc p s) r.
Proof.
  intros Hp [[p' [rs' [He [Hp' Hin]]]]|H]; [|right; assumption].
  left. exists p', rs'. simpl.
  destruct (pid_eqb_spec p p') as [Heq|Hne]; [|auto].
  subst p'. destruct Hp as [Hp|Hp]; congruence.
Qed.

Lemma advance_settle (s : state) (p : pid) (o : outcome R E) :
  advance s (settle p o s).
Proof.
  apply advance_plain.
  - intros x r. apply scheduled_settle.
  - intros j Hj. unfold settle. destruct (heap s p) as [[rs|o']|]; auto.
    simpl. apply in_or_app. auto.
  - intros q Hq H. apply none_settle in H. contradiction.
  - intros q rs' _ H. apply pending_settle in H. eauto.
  - intros H. apply none_settle. assumption.
  - intros p1 q1 Hi. unfold settle in Hi.
    destruct (heap s p) as [[rs|o']|]; auto. simpl in Hi.
    apply in_app_or in Hi. destruct Hi as [Hi|Hi]; [auto|].
    apply in_map_iff in Hi. destruct Hi as [r [Hr _]]. discriminate.
Qed.

Lemma advance_then (s : state) (p : pid) (r : reaction) :
  advance s (then_ p r s).
Proof.
  apply advance_plain.
  - intros x r'. apply scheduled_then.
  - intros j Hj. rewrite queue_then. apply in_or_app. auto.
  - intros q Hq H. apply none_then in H. contradiction.
  - intros q rs' _ H. apply pending_then in H. assumption.
  - intros H. apply none_then. assumption.
  - intros p1 q1 Hi. rewrite queue_then in Hi. apply in_app_or in Hi.
    destruct Hi as [Hi|Hi]; [auto|].
    destruct (heap s p) as [[rs|o']|]; try destruct Hi as [Hi|[]];
      try discriminate; destruct Hi.
Qed.

Lemma advance_enqueue (s : state) (js : list job) :
  (forall p q, In (JThenable p q) js -> heap s q <> None) ->
  advance s (enqueue js s).
Proof.
  intros Hjs. apply advance_plain; simpl; eauto.
  - intros x r. apply scheduled_enqueue.
  - intros j Hj. apply in_or_app. auto.
  - intros p q Hi. apply in_app_or in Hi. destruct Hi; eauto.
Qed.

Lemma advance_alloc (s : state) (p : pid) :
  watched p = false -> p <> PAll ->
  essential p = false \/ heap s p = None ->
  advance s (alloc p s).
Proof.
  intros Hw Hall Hp. apply advance_plain; simpl; auto.
  - intros x r. apply scheduled_alloc. assumption.
  - intros q Hq. case_pid p q.
  - intros q rs' Hq. case_pid p q. eauto.
  - case_pid p PAll.
Qed.

Lemma advance_same (s s' : state) :
  heap s' = heap s -> queue s' = queue s -> advance s s'.
Proof.
  intros Hh Hq. apply advance_plain; rewrite ?Hh, ?Hq; eauto.
  intros x r [H|[o [H|H]]].
  - left. rewrite Hh. assumption.
  - right. exists o. left. rewrite Hq. assumption.
  - right. exists o. right. assumption.
Qed.

End AliveFrames.

Section AliveLoop.

Variables T R E : Type.
Variable asyncMapper : T -> behaviour R E.
Variable limit : Z.
Variable sty : style.
Variable inputs : list T.

Local Abbreviation state := (state T R E).
Local Abbreviation job := (job T R E).
Local Abbreviation reaction := (reaction T R E).
Local Abbreviation inv := (inv asyncMapper limit inputs).
Local Abbreviation shape := (shape asyncMapper limit inputs).
Local Abbreviation running := (running asyncMapper limit inputs).

(** A new promise, and what waits for it at the end of the step. *)
Lemma advance_alloc_new (s s' : state) (p : pid) :
  heap s p = None -> p <> PRet ->
  advance (alloc p s) s' ->
  (forall i, p = PItem i -> item_served None s' i) ->
  (forall j, p = PRace j -> scheduled None s' (OnSettle (PRace j))) ->
  (p = PAll -> returned s' = None -> ret_served None s') ->
  advance s s'.
Proof.
  intros Hp Hret Ha Hi Hr Hall. constructor.
  - intros x r H. apply (ad_sched _ _ _ _ _ Ha).
    apply scheduled_alloc; auto.
  - intros j H. apply (ad_queue _ _ _ _ _ Ha). assumption.
  - intros q H. apply (ad_some _ _ _ _ _ Ha). simpl. case_pid p q.
  - intros i rs' H.
    destruct (ad_item _ _ _ _ _ Ha i rs' H) as [[rs H1]|H1]; [|right; assumption].
    simpl in H1. case_pid p (PItem i); [right; auto | left; eauto].
  - intros j rs' H.
    destruct (ad_race _ _ _ _ _ Ha j rs' H) as [[rs H1]|H1]; [|right; assumption].
    simpl in H1. case_pid p (PRace j); [right; auto | left; eauto].
  - intros rs' H. destruct (ad_ret_pending _ _ _ _ _ Ha rs' H) as [rs H1].
    simpl in H1. case_pid p PRet. eauto.
  - intros Hn Hs Hr'. destruct (pid_eqb_spec p PAll) as [He|He]; [auto|].
    apply (ad_ret _ _ _ _ _ Ha); [|assumption|assumption].
    simpl. rewrite (pid_eqb_neq _ _ He). assumption.
  - intros p1 q1 H. destruct (ad_thenable _ _ _ _ _ Ha p1 q1 H); auto.
Qed.

Lemma advance_launch (item : T) (s : state) :
  heap s (PItem (length (results s))) = None ->
  advance s (launch sty item s).
Proof.
  intros Hp. apply advance_alloc_new with (p := PItem (length (results s)));
    try assumption; try discriminate.
  - unfold launch.
    eapply advance_trans; [|apply advance_then].
    eapply advance_trans; [|apply advance_alloc; auto; discriminate].
    match goal with
    | |- advance ?a (set_executing ?l (set_results ?l' ?s0)) =>
        apply (advance_trans _ _ _ a s0); [|apply advance_same; reflexivity]
    end.
    apply advance_enqueue. intros p q [H|[]]. discriminate.
  - intros i Hi. injection Hi as <-. left.
    exists item, (Fulfilled VUndefined). left. rewrite launch_eq. simpl.
    apply in_or_app. simpl. auto.
Qed.

Lemma advance_subscribe (r : reaction) (l : list pid) (s : state) :
  advance s (fold_left (fun s e => then_ e r s) l s).
Proof.
  revert s. induction l as [|e l IH]; intros s; simpl; [apply advance_refl|].
  eapply advance_trans; [apply advance_then | apply IH].
Qed.

Lemma scheduled_subscribe (x : option job) (r : reaction) (l : list pid)
      (s : state) (e : pid) :
  In e l -> essential e = true -> heap s e <> None ->
  scheduled x (fold_left (fun s e => then_ e r s) l s) r.
Proof.
  revert s. induction l as [|a l IH]; intros s Hin He Hp; [destruct Hin|].
  simpl. destruct Hin as [->|Hin].
  - apply (ad_sched _ _ _ _ _ (advance_subscribe r l _)).
    apply scheduled_new; assumption.
  - apply IH; try assumption. rewrite none_then. assumption.
Qed.

Lemma advance_await_race (i : nat) (rest : list T) (s : state) (e : pid) :
  heap s (PRace i) = None ->
  In e (executing s) -> essential e = true -> heap s e <> None ->
  advance s (await_race i rest s)
  /\ scheduled None (await_race i rest s) (OnAwait rest).
Proof.
  intros Hp Hin He Hh. unfold await_race. split.
  - apply advance_alloc_new with (p := PRace i);
      try assumption; try discriminate.
    + eapply advance_trans; [apply advance_subscribe | apply advance_then].
    + intros j Hj. injection Hj as <-. apply scheduled_then.
      apply scheduled_subscribe with (e := e); try assumption.
      simpl. case_pid (PRace i) e.
  - apply scheduled_new; [reflexivity|].
    rewrite none_subscribe. simpl. rewrite pid_eqb_refl. discriminate.
Qed.

Lemma advance_subscribe_all (k : nat) (ps : list pid) (s : state) :
  advance s (subscribe_all k ps s).
Proof.
  revert k s. induction ps as [|p ps IH]; intros k s; simpl;
    [apply advance_refl|].
  eapply advance_trans; [apply advance_then | apply IH].
Qed.

Lemma values_subscribe_all (k : nat) (ps : list pid) (s : state) :
  values (subscribe_all k ps s) = values s.
Proof.
  revert k s. induction ps as [|p ps IH]; intros k s; simpl; [reflexivity|].
  rewrite IH. apply values_then.
Qed.

Lemma scheduled_subscribe_all (x : option job) (ps : list pid) (k0 k : nat)
      (s : state) (p : pid) :
  nth_error ps k = Some p -> essential p = true -> heap s p <> None ->
  scheduled x (subscribe_all k0 ps s) (OnAllElement (k0 + k)).
Proof.
  revert k0 k s. induction ps as [|a ps IH]; intros k0 k s Hn He Hp.
  - destruct k; discriminate.
  - simpl. destruct k as [|k].
    + simpl in Hn. injection Hn as ->. rewrite Nat.add_0_r.
      apply (ad_sched _ _ _ _ _ (advance_subscribe_all (S k0) ps _)).
      apply scheduled_new; assumption.
    + simpl in Hn. replace (k0 + S k) with (S k0 + k) by lia.
      apply IH; try assumption. rewrite none_then. assumption.
Qed.

Lemma settle_not_pending (s : state) (p : pid) (o : outcome R E) rs :
  heap (settle p o s) p <> Some (Pending rs).
Proof.
  unfold settle. destruct (heap s p) as [[rs'|o']|] eqn:H;
    simpl; rewrite ?pid_eqb_refl; congruence.
Qed.

Lemma all_filled_repeat_none (len : nat) :
  all_filled (repeat (@None (value R)) (S len)) = None.
Proof. reflexivity. Qed.

Lemma advance_finish (s : state) :
  shape s -> heap s PAll = None ->
  advance s (finish s) /\ all_ok None (finish s)
  /\ heap (finish s) PAll <> None.
Proof.
  intros Hs Hp. unfold finish.
  set (s1 := set_values _ (alloc PAll s)).
  set (s2 := subscribe_all 0 (results s1) s1).
  assert (Hv : values s2 = repeat None (length (results s)))
    by (unfold s2; rewrite values_subscribe_all; reflexivity).
  assert (H2 : heap s2 PAll <> None).
  { unfold s2. rewrite none_subscribe_all. simpl. discriminate. }
  assert (H12 : advance (alloc PAll s) s2).
  { eapply advance_trans; [|apply advance_subscribe_all].
    apply advance_same; reflexivity. }
  split; [|split].
  - apply advance_alloc_new with (p := PAll);
      try assumption; try discriminate.
    + eapply advance_trans; [exact H12|].
      eapply advance_trans;
        [|apply advance_enqueue; intros p q [H|[]]; injection H as _ <-].
      * destruct (all_filled (values s2));
          [apply advance_settle | apply advance_refl].
      * destruct (all_filled (values s2)); [rewrite none_settle|]; assumption.
    + intros _ _. left. left. simpl. apply in_or_app. simpl. auto.
  - intros rs Hrs. simpl in Hrs.
    destruct (all_filled (values s2)) as [l|] eqn:Hf.
    + exfalso. revert Hrs. apply settle_not_pending.
    + assert (Hvs : values (enqueue [JThenable PRet PAll] s2)
                    = repeat None (length (results s))) by exact Hv.
      split; simpl values; rewrite Hv.
      * rewrite Hv in Hf. destruct (length (results s)) as [|len].
        -- discriminate.
        -- exists 0. reflexivity.
      * intros k Hk.
        assert (Hlt : k < length (results s)).
        { rewrite <- (repeat_length (@None (value R)) (length (results s))).
          apply nth_error_Some. congruence. }
        apply scheduled_enqueue. unfold s2.
        apply (scheduled_subscribe_all None (results s1) 0 k s1 (PItem k)).
        -- change (results s1) with (results s). rewrite (sh_results Hs).
           rewrite nth_error_map, nth_error_seq.
           rewrite ?length_map, ?length_seq.
           destruct (k <? length (results s)) eqn:Hlt'; [reflexivity|].
           apply Nat.ltb_ge in Hlt'. lia.
        -- reflexivity.
        -- simpl. apply (sh_alloc_item Hs). assumption.
  - simpl. destruct (all_filled (values s2));
      [rewrite none_settle|]; assumption.
Qed.

Lemma running_launch (item : T) (rest : list T) (s : state) :
  running (item :: rest) s ->
  let s1 := launch sty item s in
  heap s (PItem (length (results s))) = None
  /\ heap s1 (PRace (length (results s))) = None
  /\ heap s1 PAll = None
  /\ In (PItem (length (results s))) (executing s1)
  /\ heap s1 (PItem (length (results s))) <> None
  /\ ((limit <=? size (executing s1))%Z = false -> running rest s1).
Proof.
  intros [Hs [Haw [Hnr [[Hall Hin] Hsz]]]]. simpl.
  destruct (firstn_split_head _ _ _ _ _ Hin) as [Hitem [Hlt Hin']].
  assert (Hs1 : shape (launch sty item s))
    by (apply shape_launch; assumption).
  assert (Hq1 : no_await (queue (launch sty item s))).
  { rewrite launch_eq. simpl. unfold no_await in *.
    rewrite existsb_app, Haw. reflexivity. }
  assert (Hr1 : forall j, heap (launch sty item s) (PRace j) = heap s (PRace j)).
  { intros j. rewrite launch_eq. simpl. heap_cases. reflexivity. }
  assert (Ha1 : heap (launch sty item s) PAll = None).
  { rewrite launch_eq. simpl. heap_cases. assumption. }
  assert (Hn1 : length (results (launch sty item s)) = S (length (results s))).
  { rewrite results_launch, length_app. simpl. lia. }
  split; [apply (sh_fresh_item Hs); lia|].
  split; [rewrite Hr1; apply (sh_fresh_race Hs); lia|].
  split; [assumption|].
  split; [rewrite executing_launch; apply set_add_In; auto|].
  split; [rewrite launch_eq; simpl; rewrite pid_eqb_refl; discriminate|].
  intros Hlim. split; [assumption|]. split; [assumption|].
  split; [intros j rs; rewrite Hr1; apply Hnr|].
  split; [split; [assumption | rewrite Hn1; assumption]|].
  apply Z.leb_gt in Hlim. unfold bound. lia.
Qed.

Lemma advance_loop (items : list T) (s : state) :
  running items s ->
  advance s (loop limit sty items s)
  /\ all_ok None (loop limit sty items s)
  /\ awaited None (loop limit sty items s).
Proof.
  revert s. induction items as [|item rest IH]; intros s Hrun; simpl loop.
  - destruct Hrun as [Hs [_ [_ [[Hall _] _]]]].
    destruct (advance_finish s Hs Hall) as [H1 [H2 H3]].
    split; [assumption|]. split; [assumption|].
    intros _ H. contradiction.
  - destruct (running_launch item rest s Hrun)
      as [Hi [Hr [Hall [Hin [Hp Hnext]]]]].
    pose proof (advance_launch item s Hi) as Hl.
    destruct (limit <=? size (executing (launch sty item s)))%Z.
    + destruct (advance_await_race (length (results s)) rest
                  (launch sty item s) (PItem (length (results s)))
                  Hr Hin eq_refl Hp) as [H1 H2].
      split; [eapply advance_trans; eauto|].
      split.
      * intros rs Hrs. exfalso. unfold await_race in Hrs.
        assert (Hn : heap (await_race (length (results s)) rest
                             (launch sty item s)) PAll = None).
        { unfold await_race. rewrite none_then, none_subscribe. simpl.
          assumption. }
        unfold await_race in Hn. congruence.
      * intros _ _. exists rest. assumption.
    + destruct (IH (launch sty item s) (Hnext eq_refl)) as [H1 [H2 H3]].
      split; [eapply advance_trans; eauto|]. split; assumption.
Qed.

End AliveLoop.

Section AliveStep.

Variables T R E : Type.
Variable asyncMapper : T -> behaviour R E.
Variable limit : Z.
Variable sty : style.
Variable inputs : list T.

Local Abbreviation state := (state T R E).
Local Abbreviation job := (job T R E).
Local Abbreviation reaction := (reaction T R E).
Local Abbreviation inv := (inv asyncMapper limit inputs).
Local Abbreviation shape := (shape asyncMapper limit inputs).

Lemma alive_steady (x : option job) (s s' : state) :
  alive x s -> steady s s' -> alive x s'.
Proof.
  intros [H0 [Hall Haw]] [Ha [Hv Hp]]. split; [|split].
  - eapply alive0_advance; eauto.
  - eapply all_ok_advance; eauto.
  - eapply awaited_advance; eauto. apply (al_ret_alloc _ _ _ _ _ H0).
Qed.

Lemma steady_trans (s1 s2 s3 : state) :
  steady s1 s2 -> steady s2 s3 -> steady s1 s3.
Proof.
  intros [Ha [Hv Hp]] [Ha' [Hv' Hp']]. split; [eapply advance_trans; eauto|].
  split; [congruence|]. intros rs3 H3. destruct (Hp' rs3 H3) as [rs2 H2].
  eauto.
Qed.

Lemma steady_settle (s : state) (p : pid) (o : outcome R E) :
  steady s (settle p o s).
Proof.
  split; [apply advance_settle|]. split; [apply values_settle|].
  intros rs' H. apply pending_settle in H. eauto.
Qed.

Lemma steady_then (s : state) (p : pid) (r : reaction) :
  steady s (then_ p r s).
Proof.
  split; [apply advance_then|]. split; [apply values_then|].
  intros rs' H. apply pending_then in H. assumption.
Qed.

Lemma steady_enqueue (s : state) (js : list job) :
  (forall p q, In (JThenable p q) js -> heap s q <> None) ->
  steady s (enqueue js s).
Proof.
  intros H. split; [apply advance_enqueue; assumption|].
  split; [reflexivity|]. simpl. eauto.
Qed.

Lemma steady_alloc (s : state) (p : pid) :
  watched p = false -> p <> PAll ->
  essential p = false \/ heap s p = None ->
  steady s (alloc p s).
Proof.
  intros Hw Hall Hp. split; [apply advance_alloc; assumption|].
  split; [reflexivity|]. simpl. intros rs'. case_pid p PAll. eauto.
Qed.

Lemma steady_same (s s' : state) :
  heap s' = heap s -> queue s' = queue s -> values s' = values s ->
  steady s s'.
Proof.
  intros Hh Hq Hv. split; [apply advance_same; assumption|].
  split; [assumption|]. rewrite Hh. eauto.
Qed.

Lemma steady_refl (s : state) : steady s s.
Proof. apply steady_same; reflexivity. Qed.

Lemma steady_settle_after (s0 s : state) (p : pid) (o : outcome R E) :
  steady s0 s -> steady s0 (settle p o s).
Proof. intros H. eapply steady_trans; [exact H | apply steady_settle]. Qed.

Lemma steady_then_after (s0 s : state) (p : pid) (r : reaction) :
  steady s0 s -> steady s0 (then_ p r s).
Proof. intros H. eapply steady_trans; [exact H | apply steady_then]. Qed.

Lemma steady_enqueue_after (s0 s : state) (js : list job) :
  steady s0 s ->
  (forall p q, In (JThenable p q) js -> heap s q <> None) ->
  steady s0 (enqueue js s).
Proof.
  intros H Hjs. eapply steady_trans; [exact H | apply steady_enqueue; assumption].
Qed.

Lemma steady_alloc_after (s0 s : state) (p : pid) :
  steady s0 s ->
  watched p = false -> p <> PAll ->
  essential p = false \/ heap s p = None ->
  steady s0 (alloc p s).
Proof.
  intros H H1 H2 H3.
  eapply steady_trans; [exact H | apply steady_alloc; assumption].
Qed.

Lemma steady_calls_after (s0 s : state) (l : list (nat * T)) :
  steady s0 s -> steady s0 (set_calls l s).
Proof.
  intros H. eapply steady_trans; [exact H | apply steady_same; reflexivity].
Qed.

Lemma steady_executing_after (s0 s : state) (l : list pid) :
  steady s0 s -> steady s0 (set_executing l s).
Proof.
  intros H. eapply steady_trans; [exact H | apply steady_same; reflexivity].
Qed.

(** *** Taking the first job off the queue *)

Lemma queued_pop (s : state) (j j' : job) (q : list job) :
  queue s = j :: q -> queued None s j' -> queued (Some j) (set_queue q s) j'.
Proof.
  intros Hq [H|H]; [|discriminate]. rewrite Hq in H.
  destruct H as [->|H]; [right; reflexivity | left; assumption].
Qed.

Lemma scheduled_pop (s : state) (j : job) (q : list job) (r : reaction) :
  queue s = j :: q -> scheduled None s r -> scheduled (Some j) (set_queue q s) r.
Proof.
  intros Hq [H|[o H]]; [left; assumption|]. right. exists o.
  eapply queued_pop; eauto.
Qed.

Lemma alive_pop (s : state) (j : job) (q : list job) :
  queue s = j :: q -> alive None s -> alive (Some j) (set_queue q s).
Proof.
  intros Hq [[Hra Hr Hrc Hi Ht] [Hall Haw]]. split; [constructor|split].
  - assumption.
  - intros Hn Ha. destruct (Hr Hn Ha) as [H|H].
    + left. eapply queued_pop; eauto.
    + right. eapply scheduled_pop; eauto.
  - intros i rs H. eapply scheduled_pop; eauto.
  - intros i rs H. destruct (Hi i rs H) as [[item [o H1]]|[H1|H1]].
    + left. exists item, o. eapply queued_pop; eauto.
    + right; left. eapply queued_pop; eauto.
    + right; right. eapply scheduled_pop; eauto.
  - intros p p' [H|H]; apply (Ht p).
    + left. rewrite Hq. right. assumption.
    + injection H as <-. left. rewrite Hq. left. reflexivity.
  - intros rs H. destruct (Hall rs H) as [Hk Hs]. split; [assumption|].
    intros k Hn. eapply scheduled_pop; eauto.
  - intros Hn Ha. destruct (Haw Hn Ha) as [rest H]. exists rest.
    eapply scheduled_pop; eauto.
Qed.

(** *** The job that ran no longer counts *)

Lemma scheduled_ran (s : state) (j : job) (r : reaction) :
  scheduled (Some j) s r ->
  scheduled None s r \/ exists o, j = JReaction r o.
Proof.
  intros [H|[o [H|H]]].
  - left. left. assumption.
  - left. right. exists o. left. assumption.
  - right. exists o. congruence.
Qed.

Lemma alive0_ran (s : state) (j : job) :
  alive0 (Some j) s ->
  (j = JThenable PRet PAll -> returned s = None -> ret_served None s) ->
  (forall o, j = JReaction (OnSettle PRet) o -> returned s <> None) ->
  (forall i o, j = JReaction (OnSettle (PRace i)) o ->
               forall rs, heap s (PRace i) <> Some (Pending rs)) ->
  (forall i item o, j = JReaction (OnLaunch i item) o ->
                    forall rs, heap s (PItem i) = Some (Pending rs) ->
                               item_served None s i) ->
  (forall i, j = JThenable (PItem i) (POp i) ->
             scheduled None s (OnSettle (PItem i))) ->
  (forall i o, j = JReaction (OnSettle (PItem i)) o ->
               forall rs, heap s (PItem i) <> Some (Pending rs)) ->
  alive0 None s.
Proof.
  intros [Hra Hr Hrc Hi Ht] O1 O2 O3 O4 O5 O6. constructor.
  - assumption.
  - intros Hn Ha. destruct (Hr Hn Ha) as [[H|H]|H].
    + left. left. assumption.
    + apply O1; congruence.
    + destruct (scheduled_ran _ _ _ H) as [H1|[o H1]].
      * right. assumption.
      * exfalso. apply (O2 o H1). assumption.
  - intros i rs H. destruct (scheduled_ran _ _ _ (Hrc i rs H)) as [H1|[o H1]].
    + assumption.
    + exfalso. apply (O3 i o H1 rs H).
  - intros i rs H. destruct (Hi i rs H) as [[item [o [H1|H1]]]|[[H1|H1]|H1]].
    + left. exists item, o. left. assumption.
    + apply (O4 i item o) with (rs := rs); congruence.
    + right; left. left. assumption.
    + right; right. apply O5. congruence.
    + destruct (scheduled_ran _ _ _ H1) as [H2|[o H2]].
      * right; right. assumption.
      * exfalso. apply (O6 i o H2 rs H).
  - intros p q [H|H]; [|discriminate]. apply (Ht p). left. assumption.
Qed.

Lemma all_ok_ran (s : state) (j : job) :
  all_ok (Some j) s ->
  (forall k o, j = JReaction (OnAllElement k) o ->
               forall rs, heap s PAll = Some (Pending rs) ->
                          nth_error (values s) k <> Some None) ->
  all_ok None s.
Proof.
  intros Hall O rs H. destruct (Hall rs H) as [Hk Hs]. split; [assumption|].
  intros k Hn. destruct (scheduled_ran _ _ _ (Hs k Hn)) as [H1|[o H1]].
  - assumption.
  - exfalso. apply (O k o H1 rs H). assumption.
Qed.

Lemma awaited_ran (s : state) (j : job) :
  awaited (Some j) s ->
  (forall rest o, j = JReaction (OnAwait rest) o -> awaited None s) ->
  awaited None s.
Proof.
  intros Haw O Hn Ha. destruct (Haw Hn Ha) as [rest H].
  destruct (scheduled_ran _ _ _ H) as [H1|[o H1]].
  - exists rest. assumption.
  - apply (O rest o H1); assumption.
Qed.

Lemma returned_settle (s : state) (o : outcome R E) :
  heap s PRet <> None -> returned (settle PRet o s) <> None.
Proof.
  intros H. unfold returned, settle.
  destruct (heap s PRet) as [[rs|o']|] eqn:Hp; simpl;
    rewrite ?pid_eqb_refl, ?Hp; congruence.
Qed.

Lemma all_filled_none (vs : list (option (value R))) :
  all_filled vs = None -> exists k, nth_error vs k = Some None.
Proof.
  induction vs as [|ov vs IH]; simpl; [discriminate|].
  destruct ov as [v|]; [|intros _; exists 0; reflexivity].
  destruct (all_filled vs) as [l|]; [discriminate|].
  intros _. destruct (IH eq_refl) as [k Hk]. exists (S k). assumption.
Qed.

Ltac ran Hp Hst :=
  let H0 := fresh "H0" in
  let Hall := fresh "Hall" in
  let Haw := fresh "Haw" in
  destruct (alive_steady _ _ _ Hp Hst) as [H0 [Hall Haw]];
  split; [apply (alive0_ran _ _ H0)
         | split; [apply (all_ok_ran _ _ Hall) | apply (awaited_ran _ _ Haw)]];
  try (intros; discriminate).

Lemma alive_tick (s : state) (j : job) (q : list job) :
  inv s -> alive None s -> queue s = j :: q ->
  alive None (run_job asyncMapper limit sty j (set_queue q s)).
Proof.
  intros [Hs Hc] Hal Hq.
  pose proof (alive_pop s j q Hq Hal) as Hp.
  assert (Hj : job_ok s j) by (apply (sh_jobs Hs); rewrite Hq; left; reflexivity).
  assert (Hra : heap s PRet <> None).
  { destruct Hal as [H0 _]. apply (al_ret_alloc _ _ _ _ _ H0). }
  destruct j as [r o|p p'].
  - destruct r as [i x|i|i|i o0|p|rest|k]; simpl run_job; simpl run_reaction.
    + (* launch *)
      simpl in Hj. destruct Hj as [Hi Ho].
      destruct (is_async (asyncMapper x)).
      * match goal with
        | |- alive None ?s' => assert (Hst : steady (set_queue q s) s')
        end.
        { apply steady_enqueue_after;
            [apply steady_alloc_after;
             [apply steady_calls_after; apply steady_refl
             | reflexivity | discriminate | right; exact Ho]|].
          intros p p' [H|[]]. injection H as <- <-.
          simpl. rewrite pid_eqb_refl. discriminate. }
        ran Hp Hst.
        intros i0 item o0 He rs Hrs. injection He as <- <- <-.
        right; left. left. simpl. apply in_or_app. simpl. auto.
      * match goal with
        | |- alive None ?s' => assert (Hst : steady (set_queue q s) s')
        end.
        { apply steady_settle_after. apply steady_calls_after.
          apply steady_refl. }
        ran Hp Hst.
        intros i0 item o0 He rs Hrs. injection He as <- <- <-.
        exfalso. revert Hrs. apply settle_not_pending.
    + (* cleanup *)
      match goal with
      | |- alive None ?s' => assert (Hst : steady (set_queue q s) s')
      end.
      { apply steady_settle_after. apply steady_executing_after.
        apply steady_refl. }
      ran Hp Hst.
    + (* finally *)
      match goal with
      | |- alive None ?s' => assert (Hst : steady (set_queue q s) s')
      end.
      { apply steady_enqueue_after;
          [apply steady_alloc_after;
           [apply steady_executing_after; apply steady_refl
           | reflexivity | discriminate | left; reflexivity]|].
        intros p p' [H|[H|[]]]; [discriminate|].
        injection H as <- <-. simpl. rewrite pid_eqb_refl. discriminate. }
      ran Hp Hst.
    + pose proof (steady_settle (set_queue q s) (PFin i) o0) as Hst.
      ran Hp Hst.
    + pose proof (steady_settle (set_queue q s) p o) as Hst.
      ran Hp Hst.
      * intros o0 He. injection He as -> _. apply returned_settle. assumption.
      * intros i o0 He rs. injection He as -> _. apply settle_not_pending.
      * intros i o0 He rs. injection He as -> _. apply settle_not_pending.
    + (* the loop resumes *)
      destruct (control_pop_await _ _ _ limit inputs s rest o q Hc Hq)
        as [Haw [Hnr [Hso Hsz]]].
      assert (Hs0 : shape (set_queue q s)) by (eapply shape_pop_plain; eauto).
      destruct o as [v|e].
      * destruct (advance_loop T R E asyncMapper limit sty inputs rest
                    (set_queue q s)) as [Ha [Hall' Haw']].
        { split; [assumption|]. split; [assumption|]. split; [assumption|].
          split; assumption. }
        split; [|split; assumption].
        destruct Hp as [H0 _].
        apply (alive0_ran _ _ (alive0_advance _ _ _ _ _ _ H0 Ha));
          intros; discriminate.
      * pose proof (steady_settle (set_queue q s) PRet (Rejected e)) as Hst.
        ran Hp Hst.
        intros rest0 o0 _ Hn. exfalso. revert Hn. apply returned_settle.
        assumption.
    + (* an element of Promise.all *)
      simpl in Hj. destruct Hj as [Hk Hall].
      destruct o as [v|e].
      * unfold all_resolve.
        set (s1 := set_values _ (set_queue q s)).
        assert (H01 : advance (set_queue q s) s1)
          by (apply advance_same; reflexivity).
        assert (Ha : advance (set_queue q s)
                       (match all_filled (values s1) with
                        | Some l => settle PAll (Fulfilled (VArr l)) s1
                        | None => s1
                        end)).
        { destruct (all_filled (values s1));
            [eapply advance_trans; [exact H01 | apply advance_settle]
            | exact H01]. }
        destruct Hp as [H0 [Hall0 Haw0]].
        split; [|split].
        -- apply (alive0_ran _ _ (alive0_advance _ _ _ _ _ _ H0 Ha));
             intros; discriminate.
        -- intros rs Hrs.
           destruct (all_filled (values s1)) as [l|] eqn:Hf.
           ++ exfalso. revert Hrs. apply settle_not_pending.
           ++ destruct (Hall0 rs Hrs) as [_ Hsch].
              split; [apply all_filled_none; assumption|].
              intros k' Hk'. unfold s1 in Hk'. simpl in Hk'.
              apply update_nth_lookup in Hk'.
              destruct Hk' as [[_ Hk']|[Hne Hk']]; [discriminate|].
              destruct (scheduled_ran _ _ _ (Hsch k' Hk')) as [H1|[o1 H1]].
              ** apply (ad_sched _ _ _ _ _ H01). assumption.
              ** injection H1 as -> _. congruence.
        -- apply (awaited_ran _ (JReaction (OnAllElement k) (Fulfilled v)));
             [|intros; discriminate].
           apply (awaited_advance T R E _ (set_queue q s) _ Hra Haw0 Ha).
      * pose proof (steady_settle (set_queue q s) PAll (Rejected e)) as Hst.
        ran Hp Hst.
        intros k0 o0 _ rs Hrs. exfalso. revert Hrs. apply settle_not_pending.
  - (* a thenable is adopted *)
    simpl run_job.
    pose proof (steady_then (set_queue q s) p' (OnSettle p)) as Hst.
    assert (Hp' : heap (set_queue q s) p' <> None).
    { destruct Hp as [H0 _]. apply (al_thenable _ _ _ _ _ H0 p p').
      right. reflexivity. }
    ran Hp Hst.
    + intros He _. injection He as -> ->. right.
      apply scheduled_new; [reflexivity | assumption].
    + intros i He. injection He as -> ->.
      apply scheduled_new; [reflexivity | assumption].
Qed.

Lemma alive_step (ev : event) (s : state) :
  inv s -> alive None s -> alive None (step asyncMapper limit sty ev s).
Proof.
  intros Hi Hal. destruct ev as [|i]; simpl.
  - destruct (queue s) as [|j q] eqn:Hq; [assumption|].
    apply alive_tick; assumption.
  - destruct (heap s (POp i)) as [[rs|o]|]; try assumption.
    destruct (item_of i s); [|assumption].
    eapply alive_steady; [exact Hal | apply steady_settle].
Qed.

Lemma alive0_init : alive0 None (init (T := T) (R := R) (E := E)).
Proof.
  constructor; simpl.
  - discriminate.
  - intros _ H. contradiction.
  - intros j rs. discriminate.
  - intros i rs. discriminate.
  - intros p q [[]|H]. discriminate.
Qed.

Lemma alive_mapper : alive None (mapper (R := R) (E := E) limit sty inputs).
Proof using All.
  unfold mapper.
  destruct (advance_loop T R E asyncMapper limit sty inputs inputs init)
    as [Ha [Hall Haw]].
  { split; [apply shape_init|].
    split; [reflexivity|]. split; [intros j rs; simpl; discriminate|].
    split; [split; reflexivity|]. unfold bound, size. simpl. lia. }
  split; [|split; assumption].
  eapply alive0_advance; [apply alive0_init | exact Ha].
Qed.

Lemma alive_run (sched : list event) :
  alive None (run asyncMapper limit sty sched (mapper limit sty inputs)).
Proof.
  rewrite <- (rev_involutive sched). induction (rev sched) as [|ev l IH].
  - apply alive_mapper.
  - simpl rev. rewrite run_app. simpl. apply alive_step; [|assumption].
    apply inv_run. apply inv_mapper.
Qed.

End AliveStep.

(** ** Every run can be continued until the call completes *)

Section Progress.

Variables T R E : Type.
Variable asyncMapper : T -> behaviour R E.
Variable limit : Z.
Variable sty : style.
Variable inputs : list T.

Local Abbreviation state := (state T R E).
Local Abbreviation job := (job T R E).
Local Abbreviation reaction := (reaction T R E).
Local Abbreviation n := (length inputs).
Local Abbreviation inv := (inv asyncMapper limit inputs).
Local Abbreviation shape := (shape asyncMapper limit inputs).
Local Abbreviation step := (step asyncMapper limit sty).
Local Abbreviation run := (run asyncMapper limit sty).
Local Abbreviation good := (good asyncMapper limit inputs).

(** With an empty queue, a scheduled reaction sits on a pending promise. *)
Lemma scheduled_host (s : state) (r : reaction) :
  shape s -> queue s = [] -> scheduled None s r ->
  exists p rs, heap s p = Some (Pending rs) /\ In r rs /\ hosted s p r.
Proof.
  intros Hs Hq [[p [rs [_ [Hp Hin]]]]|[o [H|H]]].
  - exists p, rs. split; [assumption|]. split; [assumption|].
    apply (sh_host Hs p rs r Hp Hin).
  - rewrite Hq in H. destruct H.
  - discriminate.
Qed.

Lemma item_of_called (s : state) (i : nat) (x : T) :
  In (i, x) (calls s) -> exists y, item_of i s = Some y.
Proof.
  intros Hin. unfold item_of.
  destruct (find (fun c => Nat.eqb (fst c) i) (calls s)) as [c|] eqn:Hf.
  - eauto.
  - exfalso. apply (find_none _ _ Hf) in Hin. simpl in Hin.
    rewrite Nat.eqb_refl in Hin. discriminate.
Qed.

(** A pending item promise with an empty queue waits for its operation. *)
Lemma item_waits (s : state) (i : nat) (rs : list reaction) :
  shape s -> alive None s -> queue s = [] ->
  heap s (PItem i) = Some (Pending rs) ->
  exists r rs' item,
    heap s (POp i) = Some (Pending (r :: rs')) /\ item_of i s = Some item.
Proof.
  intros Hs [H0 _] Hq Hi.
  destruct (al_item _ _ _ _ _ H0 i rs Hi) as [[item [o [H|H]]]|[[H|H]|H]];
    try (rewrite Hq in H; destruct H); try discriminate.
  destruct (scheduled_host s _ Hs Hq H) as [p [rs' [Hp [Hin Hh]]]].
  simpl in Hh. subst p.
  destruct rs' as [|r rs']; [destruct Hin|].
  assert (Hne : heap s (POp i) <> None) by congruence.
  destruct (sh_op_called Hs i Hne) as [x Hx].
  destruct (item_of_called s i x Hx) as [y Hy].
  exists r, rs', y. auto.
Qed.

(** No deadlock: when the call has not completed and the queue is empty,
    some operation is still running, and its settling is awaited. *)
Lemma progress (s : state) :
  inv s -> alive None s -> returned s = None -> queue s = [] ->
  exists i r rs item,
    heap s (POp i) = Some (Pending (r :: rs)) /\ item_of i s = Some item.
Proof.
  intros [Hs Hc] Hal Hn Hq.
  assert (Hitem : forall i rs, heap s (PItem i) = Some (Pending rs) ->
            exists i r rs item,
              heap s (POp i) = Some (Pending (r :: rs))
              /\ item_of i s = Some item).
  { intros i rs Hi.
    destruct (item_waits s i rs Hs Hal Hq Hi) as [r [rs' [item H]]].
    exists i, r, rs', item. assumption. }
  destruct Hal as [H0 [Hall Haw]].
  destruct (heap s PAll) as [ps|] eqn:Hp.
  - assert (Hne : heap s PAll <> None) by congruence.
    destruct (al_ret _ _ _ _ _ H0 Hn Hne) as [[H|H]|H];
      try (rewrite Hq in H; destruct H); try discriminate.
    destruct (scheduled_host s _ Hs Hq H) as [p [rs [Hp' [Hin Hh]]]].
    simpl in Hh. subst p.
    destruct (Hall rs Hp') as [[k Hk] Hsch].
    destruct (scheduled_host s _ Hs Hq (Hsch k Hk)) as [p [rs' [Hp'' [Hin' Hh']]]].
    simpl in Hh'. destruct Hh' as [-> _]. eapply Hitem; eauto.
  - destruct (Haw Hn Hp) as [rest H].
    destruct (scheduled_host s _ Hs Hq H) as [p [rs [Hp' [Hin Hh]]]].
    simpl in Hh. destruct Hh as [j ->].
    pose proof (al_race _ _ _ _ _ H0 j rs Hp') as H1.
    destruct (scheduled_host s _ Hs Hq H1) as [p [rs' [Hp'' [Hin' Hh']]]].
    simpl in Hh'. destruct Hh' as [[i ->] _]. eapply Hitem; eauto.
Qed.

Lemma good_step (ev : event) (s : state) : good s -> good (step ev s).
Proof.
  intros [Hi [Hf Ha]]. split; [apply inv_step; assumption|].
  split; [apply fin_ok_step; assumption|].
  apply (alive_step T R E asyncMapper limit sty inputs); assumption.
Qed.

Lemma good_run (sched : list event) (s : state) : good s -> good (run sched s).
Proof.
  revert s. induction sched as [|ev sched IH]; intros s H; [assumption|].
  simpl. apply IH. apply good_step. assumption.
Qed.

Lemma good_mapper : good (mapper limit sty inputs).
Proof.
  split; [apply inv_mapper|]. split; [apply fin_ok_mapper|].
  apply (alive_mapper T R E asyncMapper limit sty inputs).
Qed.

Lemma completes_within (w : nat) (s : state) :
  work n s <= w -> good s ->
  exists sched, returned (run sched s) <> None.
Proof.
  revert s. induction w as [|w IH]; intros s Hw Hg.
  - destruct (returned s) eqn:Hr; [exists []; simpl; congruence|].
    exfalso. destruct Hg as [Hi [Hf Ha]].
    destruct (queue s) as [|j q] eqn:Hq.
    + destruct (progress s Hi Ha Hr Hq) as [i [r [rs [item [Hp Hit]]]]].
      pose proof (work_settle_event T R E asyncMapper limit sty inputs s i Hi Hf) as H1.
      assert (Hg1 : good (step (Settle i) s))
        by (apply good_step; split; [assumption | split; assumption]).
      destruct Hg1 as [Hi1 [Hf1 _]].
      assert (Hq1 : exists j q, queue (step (Settle i) s) = j :: q).
      { simpl. rewrite Hp, Hit. unfold settle. rewrite Hp. simpl.
        rewrite Hq. simpl. eauto. }
      destruct Hq1 as [j [q Hq1]].
      pose proof (work_tick T R E asyncMapper limit sty inputs _ j q Hi1 Hf1 Hq1).
      lia.
    + pose proof (work_tick T R E asyncMapper limit sty inputs s j q Hi Hf Hq).
      lia.
  - destruct (returned s) eqn:Hr; [exists []; simpl; congruence|].
    pose proof Hg as [Hi [Hf Ha]].
    destruct (queue s) as [|j q] eqn:Hq.
    + destruct (progress s Hi Ha Hr Hq) as [i [r [rs [item [Hp Hit]]]]].
      pose proof (work_settle_event T R E asyncMapper limit sty inputs s i Hi Hf) as H1.
      assert (Hg1 : good (step (Settle i) s)) by (apply good_step; assumption).
      pose proof Hg1 as [Hi1 [Hf1 _]].
      assert (Hq1 : exists j q, queue (step (Settle i) s) = j :: q).
      { simpl. rewrite Hp, Hit. unfold settle. rewrite Hp. simpl.
        rewrite Hq. simpl. eauto. }
      destruct Hq1 as [j [q Hq1]].
      pose proof (work_tick T R E asyncMapper limit sty inputs _ j q Hi1 Hf1 Hq1) as H2.
      destruct (IH (step Tick (step (Settle i) s))) as [sched Hs].
      * lia.
      * apply good_step. assumption.
      * exists (Settle i :: Tick :: sched). exact Hs.
    + pose proof (work_tick T R E asyncMapper limit sty inputs s j q Hi Hf Hq) as H2.
      destruct (IH (step Tick s)) as [sched Hs].
      * lia.
      * apply good_step. assumption.
      * exists (Tick :: sched). exact Hs.
Qed.

(** Whatever has happened so far, the run can go on until the call has
    completed: no schedule leads into a deadlock or into a queue that never
    drains. *)
Lemma completes (sched : list event) :
  exists sched',
    returned (run (sched ++ sched') (mapper limit sty inputs)) <> None.
Proof.
  destruct (completes_within (work n (run sched (mapper limit sty inputs)))
              (run sched (mapper limit sty inputs)) (Nat.le_refl _))
    as [sched' H].
  - apply good_run. apply good_mapper.
  - exists sched'. rewrite run_app. exact H.
Qed.

End Progress.

(** ** The copies agree in runs driven by timers *)

Section TimerRuns.

Variables T R E : Type.
Variable asyncMapper : T -> behaviour R E.
Variable limit : Z.
Variable inputs : list T.

Local Abbreviation state := (state T R E).
Local Abbreviation n := (length inputs).
Local Abbreviation good := (good asyncMapper limit inputs).

Lemma run_ticks_idle (sty : style) (k : nat) (s : state) :
  queue s = [] -> run asyncMapper limit sty (repeat Tick k) s = s.
Proof.
  intros Hq. induction k as [|k IH]; [reflexivity|].
  simpl. rewrite Hq. exact IH.
Qed.

Lemma drained_within (sty : style) (w : nat) (s : state) :
  work n s <= w -> good s ->
  queue (run asyncMapper limit sty (repeat Tick w) s) = [].
Proof.
  revert s. induction w as [|w IH]; intros s Hw Hg.
  - simpl. destruct (queue s) as [|j q] eqn:Hq; [reflexivity|].
    destruct Hg as [Hi [Hf _]].
    pose proof (work_tick T R E asyncMapper limit sty inputs s j q Hi Hf Hq).
    lia.
  - destruct (queue s) as [|j q] eqn:Hq.
    + rewrite run_ticks_idle; assumption.
    + pose proof Hg as [Hi [Hf _]].
      pose proof (work_tick T R E asyncMapper limit sty inputs s j q Hi Hf Hq).
      change (repeat Tick (S w)) with (Tick :: repeat Tick w).
      change (run asyncMapper limit sty (Tick :: repeat Tick w) s)
        with (run asyncMapper limit sty (repeat Tick w)
                  (step asyncMapper limit sty Tick s)).
      apply IH; [lia|]. apply good_step. assumption.
Qed.

Lemma drain_empty (sty : style) (s : state) :
  good s -> queue (drain asyncMapper limit sty inputs s) = [].
Proof. intros Hg. apply drained_within; [lia | assumption]. Qed.

Lemma good_drain (sty : style) (s : state) :
  good s -> good (drain asyncMapper limit sty inputs s).
Proof. intros Hg. apply good_run. assumption. Qed.

(** Two ways of draining the queue end in the same state. *)
Lemma drained_unique (sty : style) (k k' : nat) (s : state) :
  queue (run asyncMapper limit sty (repeat Tick k) s) = [] ->
  queue (run asyncMapper limit sty (repeat Tick k') s) = [] ->
  run asyncMapper limit sty (repeat Tick k) s
  = run asyncMapper limit sty (repeat Tick k') s.
Proof.
  assert (H : forall a b s',
             queue (run asyncMapper limit sty (repeat Tick a) s') = [] ->
             run asyncMapper limit sty (repeat Tick (a + b)) s'
             = run asyncMapper limit sty (repeat Tick a) s').
  { intros a b s' Hq. rewrite repeat_app, run_app.
    apply run_ticks_idle. assumption. }
  intros Hk Hk'. destruct (Nat.le_ge_cases k k') as [Hle|Hle].
  - replace k' with (k + (k' - k)) by lia. symmetry. apply H. assumption.
  - replace k with (k' + (k - k')) by lia. apply H. assumption.
Qed.

Lemma then_schedule_ticks (k : nat) (b : state) :
  exists m, then_schedule asyncMapper limit (repeat Tick k) b = repeat Tick m.
Proof.
  revert b. induction k as [|k IH]; intros b; [exists 0; reflexivity|].
  simpl. destruct (queue b) as [|j q].
  - apply IH.
  - destruct (extra_job j).
    + apply IH.
    + destruct (IH (run_job asyncMapper limit UseFinally j (set_queue q b)))
        as [m Hm].
      exists (S m). simpl. rewrite Hm. reflexivity.
Qed.

Lemma sim_drain (a b : state) :
  sim a b -> good a -> good b ->
  sim (drain asyncMapper limit ThenCleanup inputs a)
      (drain asyncMapper limit UseFinally inputs b).
Proof.
  intros Hs Ha Hb. unfold drain at 2.
  pose proof (sim_then_schedule T R E asyncMapper limit
                (repeat Tick (work n b)) a b Hs) as H.
  destruct (then_schedule_ticks (work n b) b) as [m Hm].
  rewrite Hm in H.
  assert (Hq : queue (run asyncMapper limit ThenCleanup (repeat Tick m) a) = []).
  { rewrite (sm_queue _ _ _ _ _ H).
    rewrite (drain_empty UseFinally b Hb : queue (run _ _ _ _ b) = []).
    reflexivity. }
  unfold drain.
  rewrite (drained_unique ThenCleanup (work n a) m a
             (drain_empty ThenCleanup a Ha) Hq).
  exact H.
Qed.

Lemma sim_timer_run (order : list nat) :
  sim (timer_run asyncMapper limit ThenCleanup inputs order)
      (timer_run asyncMapper limit UseFinally inputs order).
Proof.
  unfold timer_run.
  assert (H : forall a b : state,
             sim a b -> good a -> good b ->
             sim (fold_left (fun s i => drain asyncMapper limit ThenCleanup inputs
                                          (step asyncMapper limit ThenCleanup (Settle i) s))
                            order a)
                 (fold_left (fun s i => drain asyncMapper limit UseFinally inputs
                                          (step asyncMapper limit UseFinally (Settle i) s))
                            order b)).
  { induction order as [|i order IH]; intros a b Hs Ha Hb; [assumption|].
    cbn [fold_left]. apply IH.
    - apply sim_drain.
      + apply (sim_settle_event T R E asyncMapper limit). assumption.
      + apply good_step. assumption.
      + apply good_step. assumption.
    - apply good_drain. apply good_step. assumption.
    - apply good_drain. apply good_step. assumption. }
  apply H.
  - apply sim_drain; [apply sim_mapper | apply good_mapper | apply good_mapper].
  - apply good_drain. apply good_mapper.
  - apply good_drain. apply good_mapper.
Qed.

End TimerRuns.

(** ** The promise that the cleanup call derives *)

Section Derived.

Variables T R E : Type.
Variable asyncMapper : T -> behaviour R E.
Variable limit : Z.
Variable sty : style.
Variable inputs : list T.

Local Abbreviation state := (state T R E).
Local Abbreviation job := (job T R E).
Local Abbreviation reaction := (reaction T R E).
Local Abbreviation shape := (shape asyncMapper limit inputs).
Local Abbreviation inv := (inv asyncMapper limit inputs).
Local Abbreviation derived := (@derived T R E sty).
Local Abbreviation job_fine := (@job_fine T R E sty).
Local Abbreviation settles_with := (@settles_with T R E sty).

Lemma settled_settle (s : state) (p q : pid) (o o' : outcome R E) :
  heap s q = Some (Settled o') -> heap (settle p o s) q = Some (Settled o').
Proof.
  intros H. unfold settle. destruct (heap s p) as [[rs|o0]|] eqn:Hp; auto.
  simpl. case_pid p q.
Qed.

Lemma derived_outcome_mono (s s' : state) (i : nat) (o : outcome R E) :
  (forall k o', heap s (PItem k) = Some (Settled o') ->
                heap s' (PItem k) = Some (Settled o')) ->
  derived_outcome sty s i o -> derived_outcome sty s' i o.
Proof. intros H. unfold derived_outcome. destruct sty; auto. Qed.

Lemma job_fine_mono (s s' : state) (j : job) :
  (forall k o', heap s (PItem k) = Some (Settled o') ->
                heap s' (PItem k) = Some (Settled o')) ->
  job_fine s j -> job_fine s' j.
Proof.
  intros H [Hf Hj]. split; [assumption|].
  destruct j as [r o|p q]; [|exact I].
  destruct r as [i x|i|i|i o0|p|rest|k]; try exact I; auto.
  destruct p; try exact I; auto.
Qed.

Lemma derived_frame (s s' : state) :
  derived s -> heap s' = heap s -> length (results s') = length (results s) ->
  (forall j, In j (queue s') -> In j (queue s)) -> derived s'.
Proof.
  intros [Hf Hr Hj Hn Hc Ha] Hh Hl Hq.
  constructor; rewrite ?Hh, ?Hl; auto.
  - intros j Hin. apply Hq in Hin. apply Hj in Hin.
    revert Hin. apply job_fine_mono. rewrite Hh. auto.
  - intros i o H. specialize (Hc i o H). revert Hc.
    apply derived_outcome_mono. rewrite Hh. auto.
Qed.

Lemma derived_settle (s : state) (p : pid) (o : outcome R E) :
  derived s -> settles_with s p o -> derived (settle p o s).
Proof.
  intros Hd Hw.
  assert (Hm : forall k o', heap s (PItem k) = Some (Settled o') ->
                 heap (settle p o s) (PItem k) = Some (Settled o'))
    by (intros k o'; apply settled_settle).
  destruct Hd as [Hf Hr Hj Hn Hc Ha].
  unfold settle in *. destruct (heap s p) as [[rs|o0]|] eqn:Hp;
    try (constructor; assumption).
  constructor; simpl.
  - intros i Hi. destruct (Hf i Hi) as [H1 H2].
    split; heap_cases; assumption.
  - intros q rs0 r H Hin. case_pid p q. eauto.
  - intros j Hin. apply in_app_or in Hin. destruct Hin as [Hin|Hin].
    + apply Hj in Hin. revert Hin. apply job_fine_mono. exact Hm.
    + apply in_map_iff in Hin. destruct Hin as [r [<- Hin]].
      destruct (Hr p rs r Hp Hin) as [Hfit Hpl].
      split; [exact Hfit|].
      destruct r as [i x|i|i|i o1|p'|rest|k]; try exact I;
        [destruct Hpl|].
      destruct p'; try exact I. simpl in Hpl. subst p.
      apply (Hm _ _ Hw).
  - intros i o1 H. case_pid p (PFin i).
    + inversion H; subst. apply (Hm _ _ Hw).
    + apply (Hm i o1). auto.
  - intros i o1 H. case_pid p (PClean i).
    + inversion H; subst. revert Hw. apply derived_outcome_mono. exact Hm.
    + specialize (Hc i o1 H). revert Hc. apply derived_outcome_mono. exact Hm.
  - intros i H. case_pid p (PClean i).
    apply Ha. case_pid p (PItem i).
Qed.

Lemma derived_then (s : state) (p : pid) (r : reaction) :
  derived s -> fits sty r = true -> placed p r -> derived (then_ p r s).
Proof.
  intros Hd Hfit Hpl.
  assert (Hm : forall k o', heap s (PItem k) = Some (Settled o') ->
                 heap (then_ p r s) (PItem k) = Some (Settled o')).
  { intros k o' H. unfold then_. destruct (heap s p) as [[rs|o0]|] eqn:Hp; auto.
    simpl. case_pid p (PItem k). }
  destruct Hd as [Hf Hr Hj Hn Hc Ha].
  unfold then_ in *. destruct (heap s p) as [[rs|o0]|] eqn:Hp;
    try (constructor; assumption).
  - constructor; simpl; auto.
    + intros i Hi. destruct (Hf i Hi) as [H1 H2].
      split; heap_cases; assumption.
    + intros q rs0 r0 H Hin. case_pid p q; [|eauto].
      inversion H; subst. apply in_app_or in Hin.
      destruct Hin as [Hin|[<-|[]]]; eauto.
    + intros j Hin. apply Hj in Hin. revert Hin. apply job_fine_mono. exact Hm.
    + intros i o1 H. case_pid p (PFin i). apply (Hm i o1). auto.
    + intros i o1 H. case_pid p (PClean i).
      specialize (Hc i o1 H). revert Hc. apply derived_outcome_mono. exact Hm.
    + intros i H. case_pid p (PClean i). apply Ha. case_pid p (PItem i).
  - constructor; simpl; auto.
    intros j Hin. apply in_app_or in Hin.
    destruct Hin as [Hin|[<-|[]]]; [exact (Hj j Hin)|].
    split; [exact Hfit|].
    destruct r as [i x|i|i|i o1|p'|rest|k]; try exact I; [destruct Hpl|].
    destruct p'; try exact I. simpl in Hpl. subst p. apply Hn. exact Hp.
Qed.

Lemma derived_alloc (s : state) (p : pid) :
  derived s -> essential p = true \/ is_fin p = true ->
  (forall i, p <> PItem i) -> derived (alloc p s).
Proof.
  intros [Hf Hr Hj Hn Hc Ha] Hp Hni.
  assert (Hm : forall k o', heap s (PItem k) = Some (Settled o') ->
                 heap (alloc p s) (PItem k) = Some (Settled o')).
  { intros k o' H. simpl. case_pid p (PItem k). }
  assert (Hnc : forall i, p <> PClean i).
  { intros i ->. destruct Hp; discriminate. }
  constructor; simpl.
  - intros i Hi. destruct (Hf i Hi) as [H1 H2]. split.
    + case_pid p (PItem i).
    + case_pid p (PClean i).
  - intros q rs r H Hin. case_pid p q; [|eauto]. inversion H; subst. destruct Hin.
  - intros j Hin. apply Hj in Hin. revert Hin. apply job_fine_mono. exact Hm.
  - intros i o H. case_pid p (PFin i). apply (Hm i o). auto.
  - intros i o H. case_pid p (PClean i).
    specialize (Hc i o H). revert Hc. apply derived_outcome_mono. exact Hm.
  - intros i H. case_pid p (PClean i). apply Ha. case_pid p (PItem i).
Qed.

Lemma derived_enqueue (s : state) (js : list job) :
  derived s -> (forall j, In j js -> job_fine s j) -> derived (enqueue js s).
Proof.
  intros [Hf Hr Hj Hn Hc Ha] Hjs.
  constructor; [exact Hf | exact Hr | | exact Hn | exact Hc | exact Ha].
  simpl. intros j Hin. apply in_app_or in Hin.
  destruct Hin as [Hin|Hin]; [exact (Hj j Hin) | exact (Hjs j Hin)].
Qed.

Lemma fits_cleanup (i : nat) : fits sty (cleanup_reaction T R E sty i) = true.
Proof. destruct sty; reflexivity. Qed.

Lemma derived_launch (item : T) (s : state) :
  derived s -> derived (launch sty item s).
Proof.
  intros [Hf Hr Hj Hn Hc Ha].
  destruct (Hf (length (results s)) (Nat.le_refl _)) as [Hfi Hfc].
  assert (Hm : forall k o', heap s (PItem k) = Some (Settled o') ->
                 heap (launch sty item s) (PItem k) = Some (Settled o')).
  { intros k o' H. rewrite launch_eq. simpl. heap_cases; try assumption. }
  constructor.
  - intros i Hi. rewrite results_launch, length_app in Hi. simpl in Hi.
    destruct (Hf i ltac:(lia)) as [H1 H2].
    rewrite launch_eq. simpl.
    split; heap_cases; try assumption; lia.
  - intros q rs r. rewrite launch_eq. simpl. intros H Hin.
    case_pid (PItem (length (results s))) q.
    + inversion H; subst. destruct Hin as [<-|[]].
      split; [apply fits_cleanup | destruct sty; exact I].
    + case_pid (PClean (length (results s))) q.
      * inversion H; subst. destruct Hin.
      * case_pid (PItem (length (results s))) q. eauto.
  - intros j Hin.
    assert (Hin' : In j (queue s) \/
                   j = JReaction (OnLaunch (length (results s)) item)
                                 (Fulfilled VUndefined)).
    { rewrite launch_eq in Hin. simpl in Hin. apply in_app_or in Hin.
      destruct Hin as [Hin|[<-|[]]]; auto. }
    destruct Hin' as [Hin'| ->].
    + apply Hj in Hin'. revert Hin'. apply job_fine_mono. exact Hm.
    + split; [destruct sty; reflexivity | exact I].
  - intros i o H. apply Hm. apply Hn.
    rewrite launch_eq in H. simpl in H. heap_cases; try assumption.
  - intros i o H.
    assert (H' : heap s (PClean i) = Some (Settled o)).
    { rewrite launch_eq in H. simpl in H. heap_cases; try assumption. }
    specialize (Hc i o H'). revert Hc. apply derived_outcome_mono. exact Hm.
  - intros i. rewrite launch_eq. simpl. unfold pid_eqb.
    destruct (Nat.eqb (length (results s)) i);
      [intros _ H; discriminate H | apply Ha].
Qed.

Lemma derived_subscribe (r : reaction) (es : list pid) (s : state) :
  derived s -> fits sty r = true -> (forall p, placed p r) ->
  derived (fold_left (fun s e => then_ e r s) es s).
Proof.
  revert s. induction es as [|e es IH]; intros s H Hr Hp; simpl; [assumption|].
  apply IH; [apply derived_then; auto | assumption | assumption].
Qed.

Lemma derived_await_race (i : nat) (rest : list T) (s : state) :
  derived s -> derived (await_race i rest s).
Proof.
  intros H. unfold await_race.
  apply derived_then; [|destruct sty; reflexivity | exact I].
  apply derived_subscribe; [|destruct sty; reflexivity | intros p; exact I].
  apply derived_alloc; [assumption | left; reflexivity | discriminate].
Qed.

Lemma derived_subscribe_all (ps : list pid) (k : nat) (s : state) :
  derived s -> derived (subscribe_all k ps s).
Proof.
  revert k s. induction ps as [|p ps IH]; intros k s H; simpl; [assumption|].
  apply IH. apply derived_then; [assumption | destruct sty; reflexivity | exact I].
Qed.

Lemma results_subscribe_all' (k : nat) (ps : list pid) (s : state) :
  results (subscribe_all k ps s) = results s.
Proof.
  revert k s. induction ps as [|p ps IH]; intros k s; simpl; [reflexivity|].
  rewrite IH. apply results_then.
Qed.

Lemma derived_finish (s : state) : derived s -> derived (finish s).
Proof.
  intros H. unfold finish.
  apply derived_enqueue;
    [|intros j [<-|[]]; split; [destruct sty; reflexivity | exact I]].
  set (s1 := subscribe_all _ _ _).
  assert (H1 : derived s1).
  { apply derived_subscribe_all.
    eapply derived_frame with (s := alloc PAll s); [|reflexivity|reflexivity|auto].
    apply derived_alloc; [assumption | left; reflexivity | discriminate]. }
  destruct (all_filled (values s1)); [|assumption].
  apply derived_settle; [assumption | exact I].
Qed.

Lemma derived_loop (items : list T) (s : state) :
  derived s -> derived (loop limit sty items s).
Proof.
  revert s. induction items as [|item rest IH]; intros s H; simpl.
  - apply derived_finish. assumption.
  - destruct (limit <=? size (executing (launch sty item s)))%Z.
    + apply derived_await_race. apply derived_launch. assumption.
    + apply IH. apply derived_launch. assumption.
Qed.

Lemma derived_step (ev : event) (s : state) :
  shape s -> derived s -> derived (step asyncMapper limit sty ev s).
Proof.
  intros Hs Hd. destruct ev as [|i]; simpl.
  - destruct (queue s) as [|j q] eqn:Hq; [assumption|].
    assert (Hj : job_fine s j) by (apply (dv_jobs Hd); rewrite Hq; simpl; auto).
    assert (Hok : job_ok s j) by (apply (sh_jobs Hs); rewrite Hq; simpl; auto).
    assert (Hd0 : derived (set_queue q s)).
    { eapply derived_frame; [exact Hd|reflexivity|reflexivity|].
      simpl. intros j' Hj'. rewrite Hq. simpl; auto. }
    destruct j as [r o|p q']; simpl.
    2:{ destruct Hj as [Hfit _]. simpl in Hfit, Hok.
        apply derived_then; [assumption| |].
        - destruct sty; [exact Hfit | reflexivity].
        - destruct p; try exact I. destruct q'; try destruct Hok.
          reflexivity. }
    destruct Hj as [Hfit Hj]. simpl in Hfit.
    destruct r as [i x|i|i|i o0|p|rest|k]; simpl.
    + assert (Hd1 : derived (set_calls (calls s ++ [(i, x)]) (set_queue q s)))
        by (eapply derived_frame; [exact Hd0|reflexivity|reflexivity|auto]).
      destruct (is_async (asyncMapper x)).
      * apply derived_enqueue.
        -- apply derived_alloc; [assumption | left; reflexivity | discriminate].
        -- intros j [<-|[]]. split; [destruct sty; reflexivity | exact I].
      * apply derived_settle; [assumption | exact I].
    + apply derived_settle.
      * eapply derived_frame; [exact Hd0|reflexivity|reflexivity|auto].
      * simpl. unfold derived_outcome. destruct sty; [eauto | discriminate].
    + apply derived_enqueue.
      * apply derived_alloc; [|right; reflexivity | discriminate].
        eapply derived_frame; [exact Hd0|reflexivity|reflexivity|auto].
      * simpl in Hok. intros j [<-|[<-|[]]]; (split; [exact Hfit || (destruct sty; reflexivity)|]).
        -- simpl. case_pid (PFin i) (PItem i).
        -- exact I.
    + apply derived_settle; [assumption | exact Hj].
    + apply derived_settle; [assumption|].
      destruct p; try exact I.
      * simpl. unfold derived_outcome. destruct sty; [discriminate | exact Hj].
      * destruct Hok.
    + destruct o as [v|e];
        [apply derived_loop; assumption
        | apply derived_settle; [assumption | exact I]].
    + destruct o as [v|e]; [|apply derived_settle; [assumption | exact I]].
      unfold all_resolve. set (s1 := set_values _ _).
      assert (Hd1 : derived s1)
        by (eapply derived_frame; [exact Hd0|reflexivity|reflexivity|auto]).
      destruct (all_filled (values s1)); [|assumption].
      apply derived_settle; [assumption | exact I].
  - destruct (heap s (POp i)) as [[rs|o]|] eqn:Hh; try assumption.
    destruct (item_of i s) as [x|] eqn:Hx; try assumption.
    apply derived_settle; [assumption | exact I].
Qed.

Lemma derived_init : derived init.
Proof.
  constructor; simpl.
  - intros i _. split; reflexivity.
  - intros p rs r H Hin. case_pid PRet p. inversion H; subst. destruct Hin.
  - intros j [].
  - intros i o H. discriminate.
  - intros i o H. discriminate.
  - intros i H. congruence.
Qed.

Lemma derived_run (sched : list event) (s : state) :
  inv s -> derived s -> derived (run asyncMapper limit sty sched s).
Proof.
  revert s. induction sched as [|ev sched IH]; intros s Hi Hd; simpl;
    [assumption|].
  apply IH; [apply inv_step; assumption|].
  apply derived_step; [destruct Hi|]; assumption.
Qed.

Lemma reach_derived (sched : list event) :
  derived (run asyncMapper limit sty sched (mapper limit sty inputs)).
Proof.
  apply derived_run; [apply inv_mapper|].
  apply derived_loop. apply derived_init.
Qed.

End Derived.

(** ** How far [finally] comes *)

Section Pipeline.

Variables T R E : Type.
Variable asyncMapper : T -> behaviour R E.
Variable limit : Z.
Variable inputs : list T.

Local Abbreviation state := (state T R E).
Local Abbreviation job := (job T R E).
Local Abbreviation reaction := (reaction T R E).
Local Abbreviation shape := (shape asyncMapper limit inputs).
Local Abbreviation inv := (inv asyncMapper limit inputs).
Local Abbreviation derived := (@derived T R E UseFinally).
Local Abbreviation loop := (loop limit UseFinally).
Local Abbreviation launch := (launch UseFinally).

(** No item's promise is settled from [s] to [s']. *)
Local Abbreviation same_items s s' :=
  (forall i (o : outcome R E), heap s' (PItem i) = Some (Settled o) ->
                               heap s (PItem i) = Some (Settled o)).

Lemma staged_carries (x x' : option job) (s s' : state) (i : nat)
      (o : outcome R E) :
  carries i x s x' s' -> staged x s i o -> staged x' s' i o.
Proof.
  intros Hc [H|[[rs [Hp [[b Hb] Ht]]]|[[Hs Ht]|[H|H]]]].
  - left. apply (cr_queue Hc); [reflexivity | assumption].
  - right; left. destruct (cr_pending Hc rs Hp) as [rs' [Hp' Hin]].
    exists rs'. split; [assumption|]. split.
    + exists b. apply (cr_queue Hc); [reflexivity | assumption].
    + destruct Ht as [Ht|Ht];
        [left; apply (cr_queue Hc); [reflexivity | assumption] | right; auto].
  - right; right; left.
    split; [apply (cr_settled Hc); assumption|].
    apply (cr_queue Hc); [reflexivity | assumption].
  - do 3 right; left. apply (cr_queue Hc); [reflexivity | assumption].
  - do 4 right. apply (cr_clean Hc). assumption.
Qed.

Lemma pipeline_carries (x x' : option job) (s s' : state) :
  pipeline x s -> (forall i, carries i x s x' s') -> same_items s s' ->
  pipeline x' s'.
Proof.
  intros Hp Hc Hi i o H. apply (staged_carries x x' s s' i o (Hc i)).
  apply Hp. apply Hi. assumption.
Qed.

Lemma carries_refl (i : nat) (x : option job) (s : state) : carries i x s x s.
Proof. constructor; eauto. Qed.

Lemma carries_trans (i : nat) (x1 x2 x3 : option job) (s1 s2 s3 : state) :
  carries i x1 s1 x2 s2 -> carries i x2 s2 x3 s3 -> carries i x1 s1 x3 s3.
Proof.
  intros [Hq1 Hp1 Hs1 Hc1] [Hq2 Hp2 Hs2 Hc2]. constructor; auto.
  intros rs H. destruct (Hp1 rs H) as [rs1 [H1 Hin1]].
  destruct (Hp2 rs1 H1) as [rs2 [H2 Hin2]]. exists rs2. auto.
Qed.

Lemma carries_same (i : nat) (x : option job) (s s' : state) :
  heap s' = heap s -> (forall j, In j (queue s) -> In j (queue s')) ->
  carries i x s x s'.
Proof.
  intros Hh Hq. constructor; rewrite ?Hh; eauto.
  intros j _ [H|H]; [left; auto | right; assumption].
Qed.

Lemma carries_enqueue (i : nat) (x : option job) (s : state) (js : list job) :
  carries i x s x (enqueue js s).
Proof.
  apply carries_same; [reflexivity|]. simpl. intros j H. apply in_or_app. auto.
Qed.

Lemma carries_settle (i : nat) (x : option job) (s : state) (p : pid)
      (o : outcome R E) :
  p <> PFin i -> carries i x s x (settle p o s).
Proof.
  intros Hp. constructor.
  - intros j _ [H|H]; [left | right; assumption].
    unfold settle. destruct (heap s p) as [[rs|o0]|]; simpl; auto.
    apply in_or_app. auto.
  - intros rs H. exists rs. split; [|auto].
    unfold settle. destruct (heap s p) as [[rs0|o0]|]; simpl; auto.
    case_pid p (PFin i).
  - intros o0. apply settled_settle.
  - intros o0. apply settled_settle.
Qed.

Lemma carries_then (i : nat) (x : option job) (s : state) (p : pid)
      (r : reaction) :
  carries i x s x (then_ p r s).
Proof.
  constructor.
  - intros j _ [H|H]; [left | right; assumption].
    rewrite queue_then. apply in_or_app. auto.
  - intros rs H. unfold then_.
    destruct (heap s p) as [[rs0|o0]|] eqn:Hp; simpl; eauto.
    case_pid p (PFin i); [|eauto].
    rewrite Hp in H. inversion H; subst. eexists. split; [reflexivity|].
    intros r0 Hr. apply in_or_app. auto.
  - intros o H. unfold then_.
    destruct (heap s p) as [[rs0|o0]|] eqn:Hp; simpl; auto.
    case_pid p (PFin i).
  - intros o H. unfold then_.
    destruct (heap s p) as [[rs0|o0]|] eqn:Hp; simpl; auto.
    case_pid p (PClean i).
Qed.

Lemma carries_alloc (i : nat) (x : option job) (s : state) (p : pid) :
  p <> PFin i -> (p = PClean i -> heap s p = None) ->
  carries i x s x (alloc p s).
Proof.
  intros Hf Hc. constructor; simpl.
  - intros j _ [H|H]; [left; assumption | right; assumption].
  - intros rs H. exists rs. split; [|auto]. case_pid p (PFin i).
  - intros o H. case_pid p (PFin i).
  - intros o H. case_pid p (PClean i). rewrite Hc in H by reflexivity.
    discriminate.
Qed.

Lemma carries_pop (i : nat) (s : state) (j : job) (q : list job) :
  queue s = j :: q -> carries i None s (Some j) (set_queue q s).
Proof.
  intros Hq. constructor; simpl; eauto.
  intros j' _ H. eapply queued_pop; eauto.
Qed.

Lemma carries_ran (i : nat) (s : state) (j : job) :
  stage_of j <> Some i -> carries i (Some j) s None s.
Proof.
  intros Hj. constructor; eauto.
  intros j' Hs [H|H]; [left; assumption|].
  injection H as <-. contradiction.
Qed.

(** *** The loop leaves the stages of [finally] alone *)

Lemma same_items_then (s : state) (p : pid) (r : reaction) :
  same_items s (then_ p r s).
Proof.
  intros i o. unfold then_.
  destruct (heap s p) as [[rs|o0]|] eqn:Hp; simpl; auto.
  case_pid p (PItem i).
Qed.

Lemma same_items_settle (s : state) (p : pid) (o : outcome R E) :
  (forall i, p <> PItem i) -> same_items s (settle p o s).
Proof.
  intros Hn i o0. unfold settle.
  destruct (heap s p) as [[rs|o1]|] eqn:Hp; simpl; auto.
  case_pid p (PItem i).
Qed.

Lemma same_items_alloc (s : state) (p : pid) : same_items s (alloc p s).
Proof. intros i o. simpl. case_pid p (PItem i). Qed.

Lemma carries_launch (i : nat) (x : option job) (item : T) (s : state) :
  derived s -> carries i x s x (launch item s).
Proof.
  intros Hd.
  destruct (dv_fresh Hd (length (results s)) (Nat.le_refl _)) as [Hfi Hfc].
  constructor.
  - intros j _ [H|H]; [left | right; assumption].
    rewrite launch_eq. simpl. apply in_or_app. auto.
  - intros rs H. exists rs. split; [|auto].
    rewrite launch_eq. simpl. heap_cases; try assumption.
  - intros o H. rewrite launch_eq. simpl. heap_cases; try assumption.
  - intros o H. rewrite launch_eq. simpl. heap_cases; try assumption.
Qed.

Lemma same_items_launch (item : T) (s : state) :
  derived s -> same_items s (launch item s).
Proof.
  intros Hd i o. rewrite launch_eq. simpl. intros H.
  heap_cases; try assumption.
Qed.

Lemma carries_subscribe (i : nat) (x : option job) (r : reaction)
      (es : list pid) (s : state) :
  carries i x s x (fold_left (fun s e => then_ e r s) es s).
Proof.
  revert s. induction es as [|e es IH]; intros s; simpl; [apply carries_refl|].
  eapply carries_trans; [apply carries_then | apply IH].
Qed.

Lemma same_items_subscribe (r : reaction) (es : list pid) (s : state) :
  same_items s (fold_left (fun s e => then_ e r s) es s).
Proof.
  revert s. induction es as [|e es IH]; intros s; simpl; [auto|].
  intros i o H. apply same_items_then with (p := e) (r := r).
  apply IH. assumption.
Qed.

Lemma carries_subscribe_all (i : nat) (x : option job) (ps : list pid)
      (k : nat) (s : state) :
  carries i x s x (subscribe_all k ps s).
Proof.
  revert k s. induction ps as [|p ps IH]; intros k s; simpl;
    [apply carries_refl|].
  eapply carries_trans; [apply carries_then | apply IH].
Qed.

Lemma same_items_subscribe_all (ps : list pid) (k : nat) (s : state) :
  same_items s (subscribe_all k ps s).
Proof.
  revert k s. induction ps as [|p ps IH]; intros k s; simpl; [auto|].
  intros i o H. apply same_items_then with (p := p) (r := OnAllElement k).
  eapply IH. eassumption.
Qed.

Lemma carries_await_race (i : nat) (x : option job) (k : nat) (rest : list T)
      (s : state) :
  carries i x s x (await_race k rest s).
Proof.
  unfold await_race.
  eapply carries_trans; [|apply carries_then].
  eapply carries_trans; [|apply carries_subscribe].
  apply carries_alloc; discriminate.
Qed.

Lemma same_items_await_race (k : nat) (rest : list T) (s : state) :
  same_items s (await_race k rest s).
Proof.
  unfold await_race. intros i o H.
  apply same_items_then in H. apply same_items_subscribe in H.
  apply same_items_alloc in H. assumption.
Qed.

Lemma carries_finish (i : nat) (x : option job) (s : state) :
  carries i x s x (finish s).
Proof.
  unfold finish. eapply carries_trans; [|apply carries_enqueue].
  set (s1 := subscribe_all _ _ _).
  assert (H1 : carries i x s x s1).
  { unfold s1. eapply carries_trans; [|apply carries_subscribe_all].
    eapply carries_trans; [apply carries_alloc with (p := PAll); discriminate|].
    apply carries_same; [reflexivity | auto]. }
  destruct (all_filled (values s1)); [|assumption].
  eapply carries_trans; [exact H1|]. apply carries_settle. discriminate.
Qed.

Lemma same_items_finish (s : state) : same_items s (finish s).
Proof.
  unfold finish. intros i o H.
  change (heap (enqueue ?js ?s0) (PItem i)) with (heap s0 (PItem i)) in H.
  set (s1 := subscribe_all _ _ _) in H.
  assert (H1 : heap s1 (PItem i) = Some (Settled o)).
  { destruct (all_filled (values s1)); [|assumption].
    apply same_items_settle in H; [assumption | discriminate]. }
  unfold s1 in H1. apply same_items_subscribe_all in H1.
  change (heap (set_values ?l ?s0) (PItem i)) with (heap s0 (PItem i)) in H1.
  apply same_items_alloc in H1. assumption.
Qed.

Lemma carries_loop (i : nat) (x : option job) (items : list T) (s : state) :
  derived s -> carries i x s x (loop items s).
Proof.
  revert s. induction items as [|item rest IH]; intros s Hd; simpl.
  - apply carries_finish.
  - pose proof (carries_launch i x item s Hd) as Hl.
    destruct (limit <=? size (executing (launch item s)))%Z.
    + eapply carries_trans; [exact Hl | apply carries_await_race].
    + eapply carries_trans; [exact Hl|]. apply IH.
      apply derived_launch. assumption.
Qed.

Lemma same_items_loop (items : list T) (s : state) :
  derived s -> same_items s (loop items s).
Proof.
  revert s. induction items as [|item rest IH]; intros s Hd; simpl.
  - apply same_items_finish.
  - intros i o H. apply (same_items_launch item s Hd).
    destruct (limit <=? size (executing (launch item s)))%Z.
    + apply same_items_await_race in H. assumption.
    + apply IH in H; [assumption|]. apply derived_launch. assumption.
Qed.

(** *** The steps of [finally] *)

(** The promise of an item is settled: the callback of [finally] is
    queued. *)
Lemma pipeline_settle_item (x : option job) (s : state) (i : nat)
      (o : outcome R E) :
  pipeline x s ->
  (forall rs, heap s (PItem i) = Some (Pending rs) -> In (OnFinally i) rs) ->
  pipeline x (settle (PItem i) o s).
Proof.
  intros Hp Hin i' o' H.
  destruct (Nat.eq_dec i' i) as [->|Hne].
  - unfold settle in *. destruct (heap s (PItem i)) as [[rs|o0]|] eqn:Hh.
    + simpl in H. rewrite pid_eqb_refl in H. inversion H; subst.
      left. left. simpl. apply in_or_app. right.
      apply in_map_iff. exists (OnFinally i). auto.
    + apply Hp. exact H.
    + simpl in H. rewrite Hh in H. discriminate.
  - apply (staged_carries x x s (settle (PItem i) o s) i' o').
    + apply carries_settle. discriminate.
    + apply Hp. unfold settle in H.
      destruct (heap s (PItem i)) as [[rs|o0]|] eqn:Hh; try assumption.
      simpl in H. case_pid (PItem i) (PItem i').
Qed.

Lemma first_is_finally (s : state) (i : nat) (rs : list reaction) :
  shape s -> derived s -> heap s (PItem i) = Some (Pending rs) ->
  In (OnFinally i) rs.
Proof.
  intros Hs Hd H. destruct (sh_first Hs i rs H) as [c [rs' [-> Hc]]].
  destruct (dv_reactions Hd (PItem i) (c :: rs') c H (or_introl eq_refl))
    as [Hfit _].
  destruct c; simpl in Hc; try discriminate; inversion Hc; subst.
  left. reflexivity.
Qed.

Lemma in_queue_settle (s : state) (p : pid) (o : outcome R E) (j : job) :
  In j (queue s) -> In j (queue (settle p o s)).
Proof.
  intros H. unfold settle. destruct (heap s p) as [[rs|o0]|]; simpl; auto.
  apply in_or_app. auto.
Qed.

Lemma stage_neq (i i' : nat) : i' <> i -> Some i <> Some i'.
Proof. intros H Heq. injection Heq as ->. contradiction. Qed.

Lemma queued_in (s : state) (j j' : job) :
  queued (Some j) s j' -> j' <> j -> In j' (queue s).
Proof. intros [H|H] Hn; [assumption|]. injection H as <-. contradiction. Qed.

Lemma pipeline_calm (x : option job) (s s' : state) :
  pipeline x s -> (forall i, carries i x s x s') -> same_items s s' ->
  pipeline x s'.
Proof. apply pipeline_carries. Qed.

Lemma pipeline_ran (s : state) (j : job) :
  pipeline (Some j) s -> stage_of j = None -> pipeline None s.
Proof.
  intros Hp Hj. eapply pipeline_carries; [exact Hp| |auto].
  intros i. apply carries_ran. rewrite Hj. discriminate.
Qed.

Lemma pipeline_step (ev : event) (s : state) :
  shape s -> derived s -> pipeline None s ->
  pipeline None (step asyncMapper limit UseFinally ev s).
Proof.
  intros Hs Hd Hp. destruct ev as [|i]; simpl.
  2:{ destruct (heap s (POp i)) as [[rs|o]|] eqn:Hh; try assumption.
      destruct (item_of i s) as [x|] eqn:Hx; try assumption.
      eapply pipeline_calm; [exact Hp | |].
      - intros k. apply carries_settle. discriminate.
      - apply same_items_settle. discriminate. }
  destruct (queue s) as [|j q] eqn:Hq; [assumption|].
  assert (Hj : job_fine UseFinally s j)
    by (apply (dv_jobs Hd); rewrite Hq; simpl; auto).
  assert (Hok : job_ok s j) by (apply (sh_jobs Hs); rewrite Hq; simpl; auto).
  assert (Hd0 : derived (set_queue q s)).
  { eapply derived_frame; [exact Hd|reflexivity|reflexivity|].
    simpl. intros j' Hj'. rewrite Hq. simpl; auto. }
  assert (Hp0 : pipeline (Some j) (set_queue q s)).
  { eapply pipeline_carries; [exact Hp| |auto].
    intros k. apply carries_pop. assumption. }
  set (s0 := set_queue q s) in *.
  assert (Hh0 : heap s0 = heap s) by reflexivity.
  destruct Hj as [Hfit Hj].
  destruct j as [r o|p q']; simpl.
  2:{ (* the derived promise subscribes to the promise inside finally *)
      assert (Hcase : stage_of (JThenable p q' : job) = None
                      \/ exists i, p = PClean i /\ q' = PFin i).
      { destruct p; simpl; auto. right. exists i. split; [reflexivity|].
        simpl in Hok. destruct q'; try destruct Hok. reflexivity. }
      destruct Hcase as [Hnone | [i [-> ->]]];
        [eapply pipeline_calm;
         [eapply pipeline_ran; [exact Hp0 | exact Hnone]
         | intros k; apply carries_then | apply same_items_then]|].
      intros i' o' H. apply same_items_then in H.
      pose proof (Hp0 i' o' H) as Hst.
      destruct (Nat.eq_dec i' i) as [->|Hne].
      - destruct Hst as [Ha|[[rs [Hf [[b Hb] Ht]]]|[[Hf Ht]|[Hq'|He]]]].
        + left. left. rewrite queue_then. apply in_or_app. left.
          apply (queued_in _ _ _ Ha). discriminate.
        + right; left. unfold then_. rewrite Hf. simpl. rewrite pid_eqb_refl.
          eexists. split; [reflexivity|]. split.
          * exists b. left. apply (queued_in _ _ _ Hb). discriminate.
          * right. apply in_or_app. right. left. reflexivity.
        + do 3 right; left. left. unfold then_. rewrite Hf. simpl.
          apply in_or_app. right. left. reflexivity.
        + do 3 right; left. left. rewrite queue_then. apply in_or_app. left.
          apply (queued_in _ _ _ Hq'). discriminate.
        + do 4 right. rewrite heap_then_other by discriminate. assumption.
      - revert Hst. apply staged_carries.
        eapply carries_trans; [|apply carries_then].
        apply carries_ran. simpl. apply stage_neq. assumption. }
  simpl in Hfit.
  destruct r as [i x|i|i|i o0|p|rest|k]; simpl.
  - (* the operation is invoked *)
    assert (Hp1 : pipeline None s0)
      by (eapply pipeline_ran; [exact Hp0 | reflexivity]).
    set (s1 := set_calls _ s0).
    assert (Hp2 : pipeline None s1) by exact Hp1.
    destruct (is_async (asyncMapper x)).
    + eapply pipeline_calm; [exact Hp2 | |].
      * intros k. eapply carries_trans; [|apply carries_enqueue].
        apply carries_alloc; discriminate.
      * intros k o' H. apply same_items_alloc in H. assumption.
    + apply pipeline_settle_item; [assumption|].
      intros rs H. apply (first_is_finally s i rs Hs Hd). exact H.
  - discriminate.
  - (* the callback of finally *)
    simpl in Hok.
    intros i' o' H.
    assert (H0 : heap s0 (PItem i') = Some (Settled o')).
    { simpl in H. case_pid (PFin i) (PItem i'). }
    destruct (Nat.eq_dec i' i) as [->|Hne].
    + rewrite Hh0, Hok in H0. inversion H0; subst o'.
      right; left. exists []. simpl. rewrite pid_eqb_refl.
      split; [reflexivity|]. split.
      * eexists. left. apply in_or_app. right. left. reflexivity.
      * left. left. apply in_or_app. right. right. left. reflexivity.
    + pose proof (Hp0 i' o' H0) as Hst. revert Hst. apply staged_carries.
      eapply carries_trans;
        [apply carries_ran; simpl; apply stage_neq; assumption|].
      eapply carries_trans; [|apply carries_enqueue].
      eapply carries_trans; [|apply carries_alloc].
      * apply carries_same; [reflexivity | auto].
      * intros Heq. injection Heq as ->. contradiction.
      * discriminate.
  - (* the thunk of finally settles the promise inside *)
    intros i' o' H.
    assert (H0 : heap s0 (PItem i') = Some (Settled o')).
    { apply same_items_settle in H; [assumption | discriminate]. }
    pose proof (Hp0 i' o' H0) as Hst.
    destruct (Nat.eq_dec i' i) as [->|Hne].
    + rewrite Hh0, Hj in H0. inversion H0; subst o'.
      destruct Hst as [Ha|[[rs [Hf [[b Hb] Ht]]]|[[Hf Ht]|[Hq'|He]]]].
      * left. left. apply in_queue_settle.
        apply (queued_in _ _ _ Ha). discriminate.
      * unfold settle. rewrite Hf.
        destruct Ht as [Ht|Ht].
        -- right; right; left. simpl. rewrite pid_eqb_refl.
           split; [reflexivity|]. left. apply in_or_app. left.
           apply (queued_in _ _ _ Ht). discriminate.
        -- do 3 right; left. left. simpl. apply in_or_app. right.
           apply in_map_iff. exists (OnSettle (PClean i)). auto.
      * right; right; left. rewrite settle_noop by (rewrite Hf; discriminate).
        split; [assumption|]. left. apply (queued_in _ _ _ Ht). discriminate.
      * do 3 right; left. left. apply in_queue_settle.
        apply (queued_in _ _ _ Hq'). discriminate.
      * do 4 right. apply settled_settle. assumption.
    + revert Hst. apply staged_carries.
      eapply carries_trans;
        [apply carries_ran; simpl; apply stage_neq; assumption|].
      apply carries_settle. intros Heq. injection Heq as ->. contradiction.
  - (* a promise is settled by its resolving functions *)
    destruct p; simpl in Hok; try destruct Hok.
    + (* the promise of an item *)
      apply pipeline_settle_item.
      * eapply pipeline_ran; [exact Hp0 | reflexivity].
      * intros rs H. apply (first_is_finally s i rs Hs Hd). exact H.
    + (* the derived promise *)
      intros i' o' H.
      assert (H0 : heap s0 (PItem i') = Some (Settled o')).
      { apply same_items_settle in H; [assumption | discriminate]. }
      pose proof (Hp0 i' o' H0) as Hst.
      destruct (Nat.eq_dec i' i) as [->|Hne].
      * rewrite Hh0, Hj in H0. inversion H0; subst o'.
        do 4 right. unfold settle.
        destruct (heap s0 (PClean i)) as [[rs|o1]|] eqn:Hc.
        -- simpl. rewrite pid_eqb_refl. reflexivity.
        -- rewrite Hc. pose proof (dv_clean Hd0 i o1 Hc) as H1.
           change (heap s (PItem i) = Some (Settled o1)) in H1.
           rewrite Hj in H1. inversion H1; subst. reflexivity.
        -- exfalso. apply (dv_alloc Hd0 i); [|assumption].
           rewrite Hh0, Hj. discriminate.
      * revert Hst. apply staged_carries.
        eapply carries_trans;
          [apply carries_ran; simpl; apply stage_neq; assumption|].
        apply carries_settle. discriminate.
    + (* a race *)
      eapply pipeline_calm;
        [eapply pipeline_ran; [exact Hp0 | reflexivity] | |].
      * intros k. apply carries_settle. discriminate.
      * apply same_items_settle. discriminate.
    + (* the promise of the function *)
      eapply pipeline_calm;
        [eapply pipeline_ran; [exact Hp0 | reflexivity] | |].
      * intros k. apply carries_settle. discriminate.
      * apply same_items_settle. discriminate.
  - (* the function resumes *)
    assert (Hp1 : pipeline None s0)
      by (eapply pipeline_ran; [exact Hp0 | reflexivity]).
    destruct o as [v|e].
    + eapply pipeline_calm; [exact Hp1 | |].
      * intros k. apply carries_loop. assumption.
      * apply same_items_loop. assumption.
    + eapply pipeline_calm; [exact Hp1 | |].
      * intros k. apply carries_settle. discriminate.
      * apply same_items_settle. discriminate.
  - (* an element of Promise.all *)
    assert (Hp1 : pipeline None s0)
      by (eapply pipeline_ran; [exact Hp0 | reflexivity]).
    destruct o as [v|e].
    + unfold all_resolve. set (s1 := set_values _ _).
      assert (Hp2 : pipeline None s1) by exact Hp1.
      destruct (all_filled (values s1)); [|assumption].
      eapply pipeline_calm; [exact Hp2 | |].
      * intros i. apply carries_settle. discriminate.
      * apply same_items_settle. discriminate.
    + eapply pipeline_calm; [exact Hp1 | |].
      * intros i. apply carries_settle. discriminate.
      * apply same_items_settle. discriminate.
Qed.

Lemma pipeline_run (sched : list event) (s : state) :
  inv s -> derived s -> pipeline None s ->
  pipeline None (run asyncMapper limit UseFinally sched s).
Proof.
  revert s. induction sched as [|ev sched IH]; intros s Hi Hd Hp; simpl;
    [assumption|].
  apply IH.
  - apply inv_step. assumption.
  - apply (derived_step T R E asyncMapper limit UseFinally inputs);
      [destruct Hi|]; assumption.
  - apply pipeline_step; [destruct Hi| |]; assumption.
Qed.

Lemma reach_pipeline (sched : list event) :
  pipeline None (run asyncMapper limit UseFinally sched
                     (mapper limit UseFinally inputs)).
Proof.
  apply pipeline_run.
  - apply inv_mapper.
  - apply derived_loop. apply derived_init.
  - eapply pipeline_calm with (s := init).
    + intros i o H. discriminate.
    + intros i. apply carries_loop. apply derived_init.
    + apply same_items_loop. apply derived_init.
Qed.

End Pipeline.

(** ** The rejections that nothing handles *)

Section Unhandled.

Variables T R E : Type.
Variable asyncMapper : T -> behaviour R E.
Variable limit : Z.
Variable inputs : list T.

Local Abbreviation state := (state T R E).
Local Abbreviation job := (job T R E).
Local Abbreviation good := (good asyncMapper limit inputs).

Lemma flat_map_none (A B : Type) (f : A -> list B) (l : list A) :
  (forall a, In a l -> f a = []) -> flat_map f l = [].
Proof.
  induction l as [|a l IH]; intros H; simpl; [reflexivity|].
  rewrite (H a (or_introl eq_refl)). apply IH. intros b Hb. apply H. right.
  assumption.
Qed.

(** The promise derived by [then(cleanup, cleanup)] is never rejected. *)
Lemma unhandled_then (s : state) : derived ThenCleanup s -> unhandled s = [].
Proof.
  intros Hd. unfold unhandled. apply flat_map_none. intros i _.
  destruct (heap s (PClean i)) as [[rs|[v|e]]|] eqn:Hc; try reflexivity.
  destruct (dv_clean Hd i (Rejected e) Hc) as [b Hb]. discriminate.
Qed.

Lemma unhandled_In (s : state) (i : nat) (e : E) :
  In (i, e) (unhandled s) <->
  i < length (results s) /\ heap s (PClean i) = Some (Settled (Rejected e)).
Proof.
  unfold unhandled. rewrite in_flat_map. split.
  - intros [k [Hk Hin]]. apply in_seq in Hk.
    destruct (heap s (PClean k)) as [[rs|[v|e']]|] eqn:Hc;
      try (destruct Hin; fail).
    destruct Hin as [Heq|[]]. inversion Heq; subst. split; [lia | assumption].
  - intros [Hi Hc]. exists i. split; [apply in_seq; lia|].
    rewrite Hc. left. reflexivity.
Qed.

Lemma failed_In (s : state) (i : nat) (e : E) :
  In (i, e) (failed s) <->
  i < length (results s) /\ heap s (PItem i) = Some (Settled (Rejected e)).
Proof.
  unfold failed. rewrite in_flat_map. split.
  - intros [k [Hk Hin]]. apply in_seq in Hk.
    destruct (heap s (PItem k)) as [[rs|[v|e']]|] eqn:Hc;
      try (destruct Hin; fail).
    destruct Hin as [Heq|[]]. inversion Heq; subst. split; [lia | assumption].
  - intros [Hi Hc]. exists i. split; [apply in_seq; lia|].
    rewrite Hc. left. reflexivity.
Qed.

(** What [finally] leaves rejected is the failure of the item. *)
Lemma unhandled_is_failure (s : state) (i : nat) (e : E) :
  derived UseFinally s -> In (i, e) (unhandled s) -> In (i, e) (failed s).
Proof.
  intros Hd Hin. apply unhandled_In in Hin. destruct Hin as [Hi Hc].
  apply failed_In. split; [assumption|].
  exact (dv_clean Hd i (Rejected e) Hc).
Qed.

Lemma failed_cause (s : state) (i : nat) (e : E) :
  shape asyncMapper limit inputs s -> In (i, e) (failed s) ->
  exists item, nth_error inputs i = Some item
               /\ op_outcome (asyncMapper item) = Rejected e.
Proof.
  intros Hs Hin. apply failed_In in Hin. destruct Hin as [_ Hh].
  destruct (sh_item_out Hs i (Rejected e) Hh) as [item [Hn [Ho _]]].
  exists item. split; [assumption | symmetry; assumption].
Qed.

(** When the queue has run empty, [finally] has come to its end for every
    settled item: its derived promise has the outcome of the item's
    promise. *)
Lemma unhandled_drained (s : state) :
  derived UseFinally s -> pipeline None s -> queue s = [] ->
  unhandled s = failed s.
Proof.
  intros Hd Hp Hq. unfold unhandled, failed. apply flat_map_ext. intros i.
  assert (Hidle : forall j : job, ~ queued None s j).
  { intros j [H|H]; [rewrite Hq in H; destruct H | discriminate]. }
  destruct (heap s (PItem i)) as [[rs|o]|] eqn:Hi.
  - destruct (heap s (PClean i)) as [[rs'|[v|e]]|] eqn:Hc; try reflexivity.
    pose proof (dv_clean Hd i (Rejected e) Hc) as H. simpl in H. congruence.
  - assert (Hc : heap s (PClean i) = Some (Settled o)).
    { destruct (Hp i o Hi)
        as [Ha|[[rs [Hf [[b Hb] Ht]]]|[[Hf Ht]|[Hq'|He]]]];
        [ exfalso; eapply Hidle; eauto
        | exfalso; eapply Hidle; eauto
        | exfalso; eapply Hidle; eauto
        | exfalso; eapply Hidle; eauto
        | assumption ]. }
    rewrite Hc. reflexivity.
  - destruct (heap s (PClean i)) as [[rs'|[v|e]]|] eqn:Hc; try reflexivity.
    pose proof (dv_clean Hd i (Rejected e) Hc) as H. simpl in H. congruence.
Qed.

(** A run driven by timers is a run, and it ends with an empty queue. *)
Lemma timer_run_is_run (sty : style) (order : list nat) :
  exists sched,
    timer_run asyncMapper limit sty inputs order
    = run asyncMapper limit sty sched (mapper limit sty inputs).
Proof.
  unfold timer_run.
  assert (H : forall s : state,
             exists sched,
               fold_left (fun s i => drain asyncMapper limit sty inputs
                                       (step asyncMapper limit sty (Settle i) s))
                         order s
               = run asyncMapper limit sty sched s).
  { induction order as [|i order IH]; intros s; [exists []; reflexivity|].
    cbn [fold_left].
    destruct (IH (drain asyncMapper limit sty inputs
                    (step asyncMapper limit sty (Settle i) s))) as [sched Hs].
    exists (Settle i
            :: repeat Tick (work (length inputs)
                                 (step asyncMapper limit sty (Settle i) s))
            ++ sched).
    rewrite Hs. unfold drain.
    change (run asyncMapper limit sty (Settle i :: ?l) s)
      with (run asyncMapper limit sty l (step asyncMapper limit sty (Settle i) s)).
    rewrite run_app. reflexivity. }
  destruct (H (drain asyncMapper limit sty inputs (mapper limit sty inputs)))
    as [sched Hs].
  exists (repeat Tick (work (length inputs)
                            (mapper limit sty inputs : state)) ++ sched).
  rewrite Hs. unfold drain. rewrite run_app. reflexivity.
Qed.

Lemma timer_run_drained (sty : style) (order : list nat) :
  queue (timer_run asyncMapper limit sty inputs order) = [].
Proof.
  unfold timer_run.
  assert (H : forall s : state,
             good s -> queue s = [] ->
             queue (fold_left (fun s i => drain asyncMapper limit sty inputs
                                 (step asyncMapper limit sty (Settle i) s))
                              order s) = []).
  { induction order as [|i order IH]; intros s Hg Hq; [assumption|].
    cbn [fold_left]. apply IH.
    - apply good_drain. apply good_step. assumption.
    - apply drain_empty. apply good_step. assumption. }
  apply H.
  - apply good_drain. apply good_mapper.
  - apply drain_empty. apply good_mapper.
Qed.

(** The promises of the items fail alike in the copies. *)
Lemma failed_sim (a b : state) : sim a b -> failed a = failed b.
Proof.
  intros H. unfold failed. rewrite (sm_results _ _ _ _ _ H).
  apply flat_map_ext. intros i.
  rewrite (sm_heap _ _ _ _ _ H (PItem i) eq_refl).
  destruct (heap b (PItem i)) as [[rs|o]|]; reflexivity.
Qed.

Lemma unhandled_timer_run (order : list nat) :
  unhandled (timer_run asyncMapper limit ThenCleanup inputs order) = []
  /\ unhandled (timer_run asyncMapper limit UseFinally inputs order)
     = failed (timer_run asyncMapper limit ThenCleanup inputs order).
Proof.
  split.
  - destruct (timer_run_is_run ThenCleanup order) as [sched ->].
    apply unhandled_then. apply reach_derived.
  - rewrite (failed_sim _ _ (sim_timer_run T R E asyncMapper limit inputs order)).
    pose proof (timer_run_drained UseFinally order) as Hq.
    destruct (timer_run_is_run UseFinally order) as [sched Hs].
    rewrite Hs in *.
    apply unhandled_drained; [apply reach_derived | apply reach_pipeline | exact Hq].
Qed.

End Unhandled.

(** The copies agree on what the returned promise, the operation and the
    collections show. *)
Lemma returned_outcomes_agree {T R E} (asyncMapper : T -> behaviour R E)
    (inputs : list T) (limit : Z) :
  (forall order,
      same_outcome (timer_run asyncMapper limit ThenCleanup inputs order)
                   (timer_run asyncMapper limit UseFinally inputs order))
  /\
  (forall sched, exists sched',
      settlements sched' = settlements sched /\
      same_outcome
        (run asyncMapper limit ThenCleanup sched (mapWithLimit inputs limit))
        (run asyncMapper limit UseFinally sched'
           (processBatchWithLimit inputs limit)))
  /\
  (forall sched, exists sched',
      settlements sched' = settlements sched /\
      same_outcome
        (run asyncMapper limit ThenCleanup sched' (mapWithLimit inputs limit))
        (run asyncMapper limit UseFinally sched
           (processBatchWithLimit inputs limit))).
Proof.
  pose proof (sim_mapper T R E limit inputs) as H0.
  split; [|split]; [intros order | intros sched | intros sched].
  - apply sim_same_outcome. apply sim_timer_run.
  - exists (finally_schedule asyncMapper limit sched
              (processBatchWithLimit inputs limit)).
    split; [apply settlements_finally_schedule|].
    apply sim_same_outcome. apply sim_finally_schedule. exact H0.
  - exists (then_schedule asyncMapper limit sched
              (processBatchWithLimit inputs limit)).
    split; [apply settlements_then_schedule|].
    apply sim_same_outcome. apply sim_then_schedule. exact H0.
Qed.

Lemma resolved_outcome {R E} (b : behaviour R E) (w : value R) :
  op_outcome b = Fulfilled w -> exists v, resolved b = Some v /\ w = VRes v.
Proof.
  destruct b; simpl; intros H; inversion H; eauto.
Qed.

Lemma resolved_not_rejected {R E} (b : behaviour R E) (e : E) :
  resolved b <> None -> op_outcome b <> Rejected e.
Proof.
  destruct b; simpl; congruence.
Qed.

Lemma indexed_snd {T} (l : list T) : map snd (indexed l) = l.
Proof.
  unfold indexed. generalize 0. induction l as [|x l IH]; intros k; simpl.
  - reflexivity.
  - f_equal. apply IH.
Qed.

(** * The properties of the specification *)

(** C1: with a limit of at least 1, at every instant of every run the set
    [executing] holds at most [limit] promises; the items that are launched
    and whose promise is not settled are at most [limit], and so are the
    operations that were invoked and have not settled; every such item and
    operation is counted. *)
Theorem in_flight_bounded :
  forall (T R E : Type) (asyncMapper : T -> behaviour R E) (sty : style)
         (inputs : list T) (limit : Z) (sched : list event),
    (1 <= limit)%Z ->
    let s := run asyncMapper limit sty sched (mapper limit sty inputs) in
    (size (executing s) <= limit)%Z
    /\ (Z.of_nat (length (unsettled s)) <= limit)%Z
    /\ (Z.of_nat (length (in_flight s)) <= limit)%Z
    /\ (forall i, item_pending s i = true -> In i (unsettled s))
    /\ (forall i, op_pending s i = true -> In i (in_flight s)).
Proof.
  intros T R E asyncMapper sty inputs limit sched Hl s.
  pose proof (reach_shape T R E asyncMapper limit sty inputs sched) as Hs.
  fold s in Hs.
  pose proof (sh_size Hs) as Hsz. unfold bound in Hsz.
  pose proof (in_flight_le T R E asyncMapper limit inputs s Hs) as Hle.
  pose proof (unsettled_le T R E asyncMapper limit inputs s Hs) as Hle'.
  unfold size in *. split; [lia|]. split; [lia|]. split; [lia|].
  split; intros i Hi.
  - eapply pending_unsettled; eauto.
  - eapply pending_in_flight; eauto.
Qed.

Lemma in_flight_bounded_witness :
  (1 <= 2)%Z
  /\ let s := run double 2 ThenCleanup (ticks 4) (mapper 2 ThenCleanup [1; 2; 3; 4; 5]) in
     (size (executing s) <= 2)%Z
     /\ (Z.of_nat (length (unsettled s)) <= 2)%Z
     /\ (Z.of_nat (length (in_flight s)) <= 2)%Z
     /\ (forall i, item_pending s i = true -> In i (unsettled s))
     /\ (forall i, op_pending s i = true -> In i (in_flight s)).
Proof.
  split; [lia|].
  apply (in_flight_bounded nat nat nat double ThenCleanup [1; 2; 3; 4; 5] 2 (ticks 4)).
  lia.
Defined.

(** C2: when the input is not empty, the limit is at least 1 and every
    operation succeeds, every run can be continued until the call has
    completed, and a call that has completed returns an array as long as
    the input whose i-th element is the value that the operation resolves
    with on [items[i]], whatever the order in which the operations
    completed. *)
Theorem results_in_input_order :
  forall (T R E : Type) (asyncMapper : T -> behaviour R E) (sty : style)
         (inputs : list T) (limit : Z),
    inputs <> [] ->
    (1 <= limit)%Z ->
    (forall x, In x inputs -> resolved (asyncMapper x) <> None) ->
    (forall sched, exists sched' o,
        returned (run asyncMapper limit sty (sched ++ sched')
                      (mapper limit sty inputs)) = Some o)
    /\ (forall sched o,
          returned (run asyncMapper limit sty sched (mapper limit sty inputs))
          = Some o ->
          exists l, o = Fulfilled (VArr l)
            /\ length l = length inputs
            /\ forall i x, nth_error inputs i = Some x ->
                 exists v, resolved (asyncMapper x) = Some v
                           /\ nth_error l i = Some (VRes v)).
Proof.
  intros T R E asyncMapper sty inputs limit _ _ Hok. split.
  - intros sched.
    destruct (completes T R E asyncMapper limit sty inputs sched) as [sched' H].
    exists sched'.
    destruct (returned (run asyncMapper limit sty (sched ++ sched')
                            (mapper limit sty inputs))) as [o|];
      [exists o; reflexivity | congruence].
  - intros sched o Hr.
    pose proof (reach_shape T R E asyncMapper limit sty inputs sched) as Hs.
    pose proof (reach_prov T R E asyncMapper limit sty inputs sched) as Hp.
    destruct o as [v|e].
    + destruct (success_values T R E asyncMapper limit inputs _ v Hs Hr)
        as [l [-> [Hlen Hl]]].
      exists l. split; [reflexivity|]. split; [assumption|].
      intros i x Hx. destruct (Hl i x Hx) as [w [Hw Ho]].
      destruct (resolved_outcome _ _ Ho) as [u [Hu ->]]. eauto.
    + exfalso.
      destruct (failure_cause T R E asyncMapper inputs _ e Hp Hr) as [x [Hx Hf]].
      apply (resolved_not_rejected (asyncMapper x) e (Hok x Hx)). assumption.
Qed.

Lemma double_resolves :
  forall x, In x [1; 2; 3; 4; 5] -> resolved (double x) <> None.
Proof. intros x _. discriminate. Qed.

Lemma results_in_input_order_witness :
  returned (run double 2 ThenCleanup (timers [1; 0; 2; 4; 3])
                (mapper 2 ThenCleanup [1; 2; 3; 4; 5]))
  = Some (Fulfilled (VArr [VRes 2; VRes 4; VRes 6; VRes 8; VRes 10]))
  /\ (forall sched, exists sched' o,
         returned (run double 2 ThenCleanup (sched ++ sched')
                       (mapper 2 ThenCleanup [1; 2; 3; 4; 5])) = Some o)
  /\ (forall sched o,
        returned (run double 2 ThenCleanup sched
                      (mapper 2 ThenCleanup [1; 2; 3; 4; 5])) = Some o ->
        exists l, o = Fulfilled (VArr l)
          /\ length l = length [1; 2; 3; 4; 5]
          /\ forall i x, nth_error [1; 2; 3; 4; 5] i = Some x ->
               exists v, resolved (double x) = Some v
                         /\ nth_error l i = Some (VRes v)).
Proof.
  split; [vm_compute; reflexivity|].
  apply (results_in_input_order nat nat nat double ThenCleanup [1; 2; 3; 4; 5] 2).
  - discriminate.
  - lia.
  - exact double_resolves.
Defined.

(** C3, counterexample: items [1; 2], limit 2, the operation on the first
    item rejects while the second is still running: the call has already
    failed and operation 1 is in flight. *)
Lemma waits_for_all_counterexample :
  ~ waits_for_all fail_on_one ThenCleanup [1; 2] 2.
Proof.
  intros H.
  assert (Hf : in_flight (run fail_on_one 2 ThenCleanup (ticks 4 ++ Settle 0 :: ticks 6)
                              (mapper 2 ThenCleanup [1; 2])) = [1])
    by (vm_compute; reflexivity).
  rewrite (H (ticks 4 ++ Settle 0 :: ticks 6) (Rejected 7)) in Hf;
    [discriminate | vm_compute; reflexivity | vm_compute; reflexivity].
Qed.

(** C3, amended: a successful result is delivered only after every item
    has been launched and every operation has settled; a failure carries
    the error of an operation that failed on some input item (and, as the
    counterexample shows, does not wait for the others). *)
Theorem success_waits_failure_is_caused :
  forall (T R E : Type) (asyncMapper : T -> behaviour R E) (sty : style)
         (inputs : list T) (limit : Z) (sched : list event),
    (1 <= limit)%Z ->
    let s := run asyncMapper limit sty sched (mapper limit sty inputs) in
    (forall v, returned s = Some (Fulfilled v) ->
       calls s = indexed inputs /\ in_flight s = []
       /\ forall i, item_pending s i = false /\ op_pending s i = false)
    /\ (forall e, returned s = Some (Rejected e) ->
          exists x, In x inputs /\ op_outcome (asyncMapper x) = Rejected e).
Proof.
  intros T R E asyncMapper sty inputs limit sched _ s.
  pose proof (reach_shape T R E asyncMapper limit sty inputs sched) as Hs.
  pose proof (reach_prov T R E asyncMapper limit sty inputs sched) as Hp.
  fold s in Hs, Hp. split.
  - intros v Hv.
    pose proof (success_drained T R E asyncMapper limit inputs s v Hs Hv) as He.
    assert (Hno : forall i, op_pending s i = false).
    { intros i. destruct (op_pending s i) eqn:Hi; [|reflexivity].
      destruct (sh_op_item Hs i Hi) as [rs Hrs].
      apply (sh_item_exec Hs) in Hrs. rewrite He in Hrs. destruct Hrs. }
    split; [eapply success_calls; eauto|]. split.
    + unfold in_flight. induction (seq 0 (length (results s))) as [|i l IH];
        simpl; [reflexivity|]. rewrite Hno. assumption.
    + intros i. split; [|apply Hno]. unfold item_pending.
      destruct (heap s (PItem i)) as [[rs|o]|] eqn:Hrs; try reflexivity.
      apply (sh_item_exec Hs) in Hrs. rewrite He in Hrs. destruct Hrs.
  - intros e He. exact (failure_cause T R E asyncMapper inputs s e Hp He).
Qed.

Lemma success_waits_failure_is_caused_witness :
  (1 <= 2)%Z
  /\ let s := run fail_on_one 2 ThenCleanup (timers [0; 1])
                  (mapper 2 ThenCleanup [1; 2]) in
     (forall v, returned s = Some (Fulfilled v) ->
        calls s = indexed [1; 2] /\ in_flight s = []
        /\ forall i, item_pending s i = false /\ op_pending s i = false)
     /\ (forall e, returned s = Some (Rejected e) ->
           exists x, In x [1; 2] /\ op_outcome (fail_on_one x) = Rejected e).
Proof.
  split; [lia|].
  apply (success_waits_failure_is_caused nat nat nat fail_on_one ThenCleanup
           [1; 2] 2 (timers [0; 1])).
  lia.
Defined.

(** C4, counterexample: items [1; 2], limit 1, the operation on the first
    item rejects: [await Promise.race] throws, the loop is left and the
    second item is never passed to the operation. *)
Lemma maps_every_item_counterexample :
  ~ maps_every_item fail_on_one ThenCleanup [1; 2] 1.
Proof.
  intros H. specialize (H (timers [0])). cbv zeta in H.
  assert (Hc : map snd (calls (run fail_on_one 1 ThenCleanup (timers [0])
                                   (mapper 1 ThenCleanup [1; 2]))) = [1])
    by (vm_compute; reflexivity).
  rewrite Hc in H. cut ([1] = [1; 2]); [discriminate|]. apply H.
  - vm_compute. reflexivity.
  - vm_compute. discriminate.
  - split; [vm_compute; reflexivity|].
    intros [|[|i]]; vm_compute; reflexivity.
Qed.

(** C4, amended: the operation is invoked on the items in input order
    without skipping or repeating one, so never twice on an item, and on
    every item exactly once when the call succeeds. *)
Theorem items_mapped_in_order_once :
  forall (T R E : Type) (asyncMapper : T -> behaviour R E) (sty : style)
         (inputs : list T) (limit : Z) (sched : list event),
    (1 <= limit)%Z ->
    let s := run asyncMapper limit sty sched (mapper limit sty inputs) in
    calls s = firstn (length (calls s)) (indexed inputs)
    /\ NoDup (map fst (calls s))
    /\ (forall v, returned s = Some (Fulfilled v) -> map snd (calls s) = inputs).
Proof.
  intros T R E asyncMapper sty inputs limit sched _ s.
  pose proof (reach_shape T R E asyncMapper limit sty inputs sched) as Hs.
  fold s in Hs.
  pose proof (calls_prefix T R E asyncMapper limit inputs s Hs) as Hc.
  split; [assumption|]. split.
  - rewrite Hc, indexed_firstn, indexed_fst. apply seq_NoDup.
  - intros v Hv. rewrite (success_calls T R E asyncMapper limit inputs s v Hs Hv).
    apply indexed_snd.
Qed.

Lemma items_mapped_in_order_once_witness :
  (1 <= 1)%Z
  /\ let s := run fail_on_one 1 ThenCleanup (timers [0])
                  (mapper 1 ThenCleanup [1; 2]) in
     calls s = firstn (length (calls s)) (indexed [1; 2])
     /\ NoDup (map fst (calls s))
     /\ (forall v, returned s = Some (Fulfilled v) -> map snd (calls s) = [1; 2]).
Proof.
  split; [lia|].
  apply (items_mapped_in_order_once nat nat nat fail_on_one ThenCleanup
           [1; 2] 1 (timers [0])).
  lia.
Defined.

(** C5, counterexample: items [1; 2], limit 2, the first operation
    rejects: the call has failed and the promise of the second item is
    still in the set. *)
Lemma drained_on_completion_counterexample :
  ~ drained_on_completion fail_on_one UseFinally [1; 2] 2.
Proof.
  intros H.
  assert (Hf : executing (run fail_on_one 2 UseFinally (ticks 4 ++ Settle 0 :: ticks 8)
                              (mapper 2 UseFinally [1; 2])) = [PItem 1])
    by (vm_compute; reflexivity).
  rewrite (H (ticks 4 ++ Settle 0 :: ticks 8) (Rejected 7)) in Hf;
    [discriminate | vm_compute; reflexivity | vm_compute; reflexivity].
Qed.

(** C5, amended: the set is empty when the function is entered, no
    operation is in flight before the first one has been invoked, and the
    set is empty again when the call completes successfully. *)
Theorem drained_before_and_after_success :
  forall (T R E : Type) (asyncMapper : T -> behaviour R E) (sty : style)
         (inputs : list T) (limit : Z) (sched : list event),
    (1 <= limit)%Z ->
    let s := run asyncMapper limit sty sched (mapper limit sty inputs) in
    executing (init (T := T) (R := R) (E := E)) = []
    /\ (calls s = [] -> in_flight s = [])
    /\ (forall v, returned s = Some (Fulfilled v) ->
          executing s = [] /\ in_flight s = []).
Proof.
  intros T R E asyncMapper sty inputs limit sched _ s.
  pose proof (reach_shape T R E asyncMapper limit sty inputs sched) as Hs.
  fold s in Hs.
  assert (Hflight : (forall i, op_pending s i = false) -> in_flight s = []).
  { intros Hno. unfold in_flight.
    induction (seq 0 (length (results s))) as [|i l IH]; simpl; [reflexivity|].
    rewrite Hno. assumption. }
  split; [reflexivity|]. split.
  - intros Hc. apply Hflight. intros i.
    destruct (op_pending s i) eqn:Hi; [|reflexivity].
    destruct (sh_op_called Hs i) as [x Hx].
    + unfold op_pending in Hi. destruct (heap s (POp i)); [discriminate|discriminate].
    + rewrite Hc in Hx. destruct Hx.
  - intros v Hv.
    pose proof (success_drained T R E asyncMapper limit inputs s v Hs Hv) as He.
    split; [assumption|]. apply Hflight. intros i.
    destruct (op_pending s i) eqn:Hi; [|reflexivity].
    destruct (sh_op_item Hs i Hi) as [rs Hrs].
    apply (sh_item_exec Hs) in Hrs. rewrite He in Hrs. destruct Hrs.
Qed.

Lemma drained_before_and_after_success_witness :
  (1 <= 2)%Z
  /\ let s := run double 2 UseFinally (timers [0; 1; 2; 3; 4])
                  (mapper 2 UseFinally [1; 2; 3; 4; 5]) in
     executing (init (T := nat) (R := nat) (E := nat)) = []
     /\ (calls s = [] -> in_flight s = [])
     /\ (forall v, returned s = Some (Fulfilled v) ->
           executing s = [] /\ in_flight s = []).
Proof.
  split; [lia|].
  apply (drained_before_and_after_success nat nat nat double UseFinally
           [1; 2; 3; 4; 5] 2 (timers [0; 1; 2; 3; 4])).
  lia.
Defined.

(** C6: with limit 1 execution is sequential: whenever item i + 1 has
    been launched (its promise exists), and so whenever the operation has
    been invoked on it, the operation was invoked on item i before and
    that invocation has settled, as has the promise of item i. *)
Theorem limit_one_is_sequential :
  forall (T R E : Type) (asyncMapper : T -> behaviour R E) (sty : style)
         (inputs : list T) (sched : list event) (i : nat),
    let s := run asyncMapper 1 sty sched (mapper 1 sty inputs) in
    launched s (S i) = true \/ invoked s (S i) = true ->
    invoked s i = true /\ item_pending s i = false /\ op_pending s i = false.
Proof.
  intros T R E asyncMapper sty inputs sched i s Hi.
  pose proof (reach_shape T R E asyncMapper 1%Z sty inputs sched) as Hs.
  fold s in Hs.
  apply (sequential_launch T R E asyncMapper 1%Z inputs s i Hs); [lia | assumption].
Qed.

Lemma limit_one_is_sequential_witness :
  let s := run double 1 ThenCleanup (timers [0]) (mapper 1 ThenCleanup [1; 2; 3]) in
  launched s 1 = true
  /\ invoked s 0 = true /\ item_pending s 0 = false /\ op_pending s 0 = false.
Proof.
  split; [vm_compute; reflexivity|].
  apply (limit_one_is_sequential nat nat nat double ThenCleanup [1; 2; 3]
           (timers [0]) 0).
  left. vm_compute. reflexivity.
Defined.

(** C7, counterexample: one item and limit 1: the set reaches size 1 right
    after the only launch and the loop awaits the race. *)
Lemma never_throttled_counterexample :
  ~ never_throttled double ThenCleanup [1] 1.
Proof.
  intros H. specialize (H ltac:(simpl; lia) [] 0).
  vm_compute in H. discriminate H.
Qed.

Lemma loop_unthrottled {T R E} (limit : Z) (sty : style) (items : list T)
      (s : state T R E) :
  (size (executing s) + Z.of_nat (length items) < limit)%Z ->
  loop limit sty items s = finish (fold_left (fun s x => launch sty x s) items s).
Proof.
  revert s. induction items as [|item rest IH]; intros s H; simpl; [reflexivity|].
  pose proof (set_add_le (PItem (length (results s))) (executing s)) as Hle.
  rewrite <- executing_launch with (sty := sty) (item := item) in Hle.
  simpl length in H.
  replace (limit <=? size (executing (launch sty item s)))%Z with false
    by (symmetry; apply Z.leb_gt; lia).
  apply IH. lia.
Qed.

(** Without an awaited race no step looks at the limit. *)
Lemma step_unthrottled {T R E} (asyncMapper : T -> behaviour R E)
      (limit limit' : Z) (sty : style) (inputs : list T) (ev : event)
      (s : state T R E) :
  shape asyncMapper limit inputs s ->
  (Z.of_nat (length inputs) < limit)%Z ->
  step asyncMapper limit sty ev s = step asyncMapper limit' sty ev s.
Proof.
  intros Hs Hl. destruct ev as [|i]; [|reflexivity]. simpl.
  destruct (queue s) as [|j q] eqn:Hq; [reflexivity|].
  destruct j as [r o|p q']; [|reflexivity].
  destruct r; try reflexivity. exfalso.
  assert (Hj : job_ok s (JReaction (OnAwait rest) o)).
  { apply (sh_jobs Hs). rewrite Hq. simpl. auto. }
  simpl in Hj. destruct Hj as [j Hj].
  pose proof (sh_race_limit Hs j Hj). lia.
Qed.

Lemma run_unthrottled {T R E} (asyncMapper : T -> behaviour R E)
      (limit limit' : Z) (sty : style) (inputs : list T) (sched : list event)
      (s : state T R E) :
  inv asyncMapper limit inputs s ->
  (Z.of_nat (length inputs) < limit)%Z ->
  run asyncMapper limit sty sched s = run asyncMapper limit' sty sched s.
Proof.
  revert s. induction sched as [|ev sched IH]; intros s Hi Hl; simpl;
    [reflexivity|].
  rewrite <- (step_unthrottled asyncMapper limit limit' sty inputs ev s)
    by (destruct Hi; assumption).
  apply IH; [apply inv_step|]; assumption.
Qed.

(** C7, amended: a limit above the number of items never makes the loop
    suspend: the call launches every item at once, and the run does not
    depend on the limit. With a limit equal to the number of items the
    loop suspends once, after the last launch. *)
Theorem limit_above_size_never_throttles :
  forall (T R E : Type) (asyncMapper : T -> behaviour R E) (sty : style)
         (inputs : list T) (limit : Z) (sched : list event),
    (Z.of_nat (length inputs) < limit)%Z ->
    let s := run asyncMapper limit sty sched (mapper limit sty inputs) in
    (forall j, suspended_at s j = false)
    /\ mapper (R := R) (E := E) limit sty inputs = launch_all sty inputs
    /\ (forall limit', (Z.of_nat (length inputs) < limit')%Z ->
          s = run asyncMapper limit' sty sched (mapper limit' sty inputs)).
Proof.
  intros T R E asyncMapper sty inputs limit sched Hl s.
  pose proof (reach_shape T R E asyncMapper limit sty inputs sched) as Hs.
  fold s in Hs.
  assert (Hm : forall l, (Z.of_nat (length inputs) < l)%Z ->
             mapper l sty inputs = launch_all (R := R) (E := E) sty inputs).
  { intros l Hl'. unfold mapper, launch_all. apply loop_unthrottled.
    unfold size. simpl. lia. }
  split; [|split].
  - intros j. apply (never_suspended T R E asyncMapper limit inputs s j Hs Hl).
  - apply Hm. assumption.
  - intros limit' Hl'. unfold s.
    assert (He : mapper (R := R) (E := E) limit' sty inputs
                 = mapper limit sty inputs)
      by (rewrite (Hm limit Hl), (Hm limit' Hl'); reflexivity).
    rewrite He.
    apply run_unthrottled with (inputs := inputs); [apply inv_mapper | assumption].
Qed.

Lemma limit_above_size_never_throttles_witness :
  (Z.of_nat (length [1; 2; 3]) < 4)%Z
  /\ let s := run double 4 ThenCleanup (timers [2; 0; 1])
                  (mapper 4 ThenCleanup [1; 2; 3]) in
     (forall j, suspended_at s j = false)
     /\ mapper (R := nat) (E := nat) 4 ThenCleanup [1; 2; 3]
        = launch_all ThenCleanup [1; 2; 3]
     /\ (forall limit', (Z.of_nat (length [1; 2; 3]) < limit')%Z ->
           s = run double limit' ThenCleanup (timers [2; 0; 1])
                   (mapper limit' ThenCleanup [1; 2; 3])).
Proof.
  split; [simpl; lia|].
  apply (limit_above_size_never_throttles nat nat nat double ThenCleanup
           [1; 2; 3] 4 (timers [2; 0; 1])).
  simpl. lia.
Defined.

(** C8: on an empty input the promise of [Promise.all] is already
    fulfilled with the empty array when the call returns, two microtasks
    hand it to the caller, and no run ever invokes the operation. *)
Theorem empty_input_returns_empty :
  forall (T R E : Type) (asyncMapper : T -> behaviour R E) (sty : style)
         (limit : Z),
    (1 <= limit)%Z ->
    heap (mapper (T := T) (R := R) (E := E) limit sty []) PAll
    = Some (Settled (Fulfilled (VArr [])))
    /\ returned (run asyncMapper limit sty [Tick; Tick] (mapper limit sty []))
       = Some (Fulfilled (VArr []))
    /\ forall sched,
         let s := run asyncMapper limit sty sched (mapper limit sty []) in
         calls s = [] /\ in_flight s = []
         /\ (forall o, returned s = Some o -> o = Fulfilled (VArr [])).
Proof.
  intros T R E asyncMapper sty limit Hl.
  split; [reflexivity|]. split; [reflexivity|].
  intros sched s.
  pose proof (reach_shape T R E asyncMapper limit sty [] sched) as Hs.
  pose proof (reach_prov T R E asyncMapper limit sty [] sched) as Hp.
  fold s in Hs, Hp.
  assert (Hc : calls s = []).
  { rewrite (calls_prefix T R E asyncMapper limit [] s Hs).
    unfold indexed. simpl. apply firstn_nil. }
  split; [assumption|]. split.
  - unfold in_flight. pose proof (sh_len Hs) as Hn. simpl in Hn.
    replace (length (results s)) with 0 by lia. reflexivity.
  - intros [v|e] Ho.
    + destruct (success_values T R E asyncMapper limit [] s v Hs Ho)
        as [l [-> [Hlen _]]].
      destruct l; [reflexivity | discriminate].
    + destruct (failure_cause T R E asyncMapper [] s e Hp Ho) as [x [[] _]].
Qed.

Lemma empty_input_returns_empty_witness :
  (1 <= 3)%Z
  /\ heap (mapper (T := nat) (R := nat) (E := nat) 3 ThenCleanup []) PAll
     = Some (Settled (Fulfilled (VArr [])))
  /\ returned (run double 3 ThenCleanup [Tick; Tick] (mapper 3 ThenCleanup []))
     = Some (Fulfilled (VArr []))
  /\ forall sched,
       let s := run double 3 ThenCleanup sched (mapper 3 ThenCleanup []) in
       calls s = [] /\ in_flight s = []
       /\ (forall o, returned s = Some o -> o = Fulfilled (VArr [])).
Proof.
  split; [lia|].
  apply (empty_input_returns_empty nat nat nat double ThenCleanup 3). lia.
Defined.



(** With the demo operation on five items and limit 2, timers firing in
    the order 1, 0, 2, 4, 3, both copies return the doubled items in input
    order. *)
Example timer_run_doubles :
  returned (timer_run double 2 ThenCleanup [1; 2; 3; 4; 5] [1; 0; 2; 4; 3])
  = Some (Fulfilled (VArr [VRes 2; VRes 4; VRes 6; VRes 8; VRes 10]))
  /\ returned (timer_run double 2 UseFinally [1; 2; 3; 4; 5] [1; 0; 2; 4; 3])
     = Some (Fulfilled (VArr [VRes 2; VRes 4; VRes 6; VRes 8; VRes 10])).
Proof. split; vm_compute; reflexivity. Qed.

(** C10: a limit of 0 or less raises nothing and behaves exactly as limit
    1: every run is the run with limit 1, the set never holds more than
    one promise, and the items are processed one after the other: when
    item i + 1 is launched, the operation on item i has settled. *)
Theorem nonpositive_limit_is_limit_one :
  forall (T R E : Type) (asyncMapper : T -> behaviour R E) (sty : style)
         (inputs : list T) (limit : Z) (sched : list event),
    (limit <= 0)%Z ->
    let s := run asyncMapper limit sty sched (mapper limit sty inputs) in
    s = run asyncMapper 1 sty sched (mapper 1 sty inputs)
    /\ (size (executing s) <= 1)%Z
    /\ (forall i, launched s (S i) = true \/ invoked s (S i) = true ->
          invoked s i = true /\ item_pending s i = false
          /\ op_pending s i = false).
Proof.
  intros T R E asyncMapper sty inputs limit sched Hl s.
  pose proof (reach_shape T R E asyncMapper limit sty inputs sched) as Hs.
  fold s in Hs. split; [|split].
  - unfold s, mapper.
    rewrite (run_nonpositive T R E asyncMapper sty limit) by lia.
    rewrite (loop_nonpositive T R E sty limit) by lia. reflexivity.
  - pose proof (sh_size Hs) as Hsz. unfold bound in Hsz. lia.
  - intros i Hi.
    apply (sequential_launch T R E asyncMapper limit inputs s i Hs);
      [lia | assumption].
Qed.

Lemma nonpositive_limit_is_limit_one_witness :
  (-2 <= 0)%Z
  /\ let s := run double (-2) UseFinally (timers [0; 1])
                  (mapper (-2) UseFinally [1; 2; 3]) in
     s = run double 1 UseFinally (timers [0; 1]) (mapper 1 UseFinally [1; 2; 3])
     /\ (size (executing s) <= 1)%Z
     /\ (forall i, launched s (S i) = true \/ invoked s (S i) = true ->
           invoked s i = true /\ item_pending s i = false
           /\ op_pending s i = false).
Proof.
  split; [lia|].
  apply (nonpositive_limit_is_limit_one nat nat nat double UseFinally
           [1; 2; 3] (-2) (timers [0; 1])).
  lia.
Defined.

(** * Further properties of the code *)

(** ** The mapper *)

Section LoopFrame.

Variables T R E : Type.
Variable limit : Z.
Variable sty : style.

Local Abbreviation state := (state T R E).
Local Abbreviation reaction := (reaction T R E).

Lemma heap_settle_other (s : state) (p q : pid) (o : outcome R E) :
  p <> q -> heap (settle p o s) q = heap s q.
Proof.
  intros H. unfold settle. destruct (heap s p) as [[rs|o']|]; simpl; auto.
  case_pid p q.
Qed.

Lemma heap_subscribe_other (r : reaction) (l : list pid) (s : state) (q : pid) :
  (forall e, In e l -> e <> q) ->
  heap (fold_left (fun s e => then_ e r s) l s) q = heap s q.
Proof.
  revert s. induction l as [|e l IH]; intros s Hl; simpl; [reflexivity|].
  rewrite IH by (intros e' He'; apply Hl; right; assumption).
  apply heap_then_other. apply Hl. left. reflexivity.
Qed.

Lemma heap_subscribe_all_other (k : nat) (l : list pid) (s : state) (q : pid) :
  (forall e, In e l -> e <> q) ->
  heap (subscribe_all k l s) q = heap s q.
Proof.
  revert k s. induction l as [|e l IH]; intros k s Hl; simpl; [reflexivity|].
  rewrite IH by (intros e' He'; apply Hl; right; assumption).
  apply heap_then_other. apply Hl. left. reflexivity.
Qed.

Lemma only_items_neq (l : list pid) (q : pid) :
  only_items l -> loop_pid q = false -> forall e, In e l -> e <> q.
Proof.
  intros Hl Hq e He ->. destruct (Hl q He) as [i ->]. discriminate.
Qed.

Lemma executing_subscribe (r : reaction) (l : list pid) (s : state) :
  executing (fold_left (fun s e => then_ e r s) l s) = executing s.
Proof.
  revert s. induction l as [|e l IH]; intros s; simpl; [reflexivity|].
  rewrite IH. apply executing_then.
Qed.

Lemma results_subscribe (r : reaction) (l : list pid) (s : state) :
  results (fold_left (fun s e => then_ e r s) l s) = results s.
Proof.
  revert s. induction l as [|e l IH]; intros s; simpl; [reflexivity|].
  rewrite IH. apply results_then.
Qed.

Lemma calls_subscribe (r : reaction) (l : list pid) (s : state) :
  calls (fold_left (fun s e => then_ e r s) l s) = calls s.
Proof.
  revert s. induction l as [|e l IH]; intros s; simpl; [reflexivity|].
  rewrite IH. apply calls_then.
Qed.

Lemma calls_subscribe_all (k : nat) (l : list pid) (s : state) :
  calls (subscribe_all k l s) = calls s.
Proof.
  revert k s. induction l as [|e l IH]; intros k s; simpl; [reflexivity|].
  rewrite IH. apply calls_then.
Qed.

Lemma executing_subscribe_all (k : nat) (l : list pid) (s : state) :
  executing (subscribe_all k l s) = executing s.
Proof.
  revert k s. induction l as [|e l IH]; intros k s; simpl; [reflexivity|].
  rewrite IH. apply executing_then.
Qed.

(** What [Promise.all] leaves as it is. *)
Lemma finish_frame (s : state) (q : pid) :
  only_items (results s) -> loop_pid q = false ->
  heap (finish s) q = heap s q
  /\ results (finish s) = results s
  /\ executing (finish s) = executing s
  /\ calls (finish s) = calls s.
Proof.
  intros Hr Hq. unfold finish.
  set (s1 := set_values _ (alloc PAll s)).
  set (s2 := subscribe_all 0 (results s1) s1).
  assert (Hh : heap s2 q = heap s q).
  { unfold s2. rewrite heap_subscribe_all_other.
    - simpl. case_pid PAll q.
    - apply only_items_neq; assumption. }
  assert (H2 : results s2 = results s /\ executing s2 = executing s
               /\ calls s2 = calls s).
  { unfold s2. rewrite results_subscribe_all, executing_subscribe_all,
      calls_subscribe_all. auto. }
  destruct H2 as [H2 [H3 H4]].
  destruct (all_filled (values s2)); simpl.
  - rewrite heap_settle_other, results_settle, executing_settle, calls_settle;
      [auto|]. intros <-. discriminate.
  - auto.
Qed.

Lemma await_race_frame (i : nat) (rest : list T) (s : state) (q : pid) :
  only_items (executing s) -> loop_pid q = false ->
  heap (await_race i rest s) q = heap s q
  /\ results (await_race i rest s) = results s
  /\ executing (await_race i rest s) = executing s
  /\ calls (await_race i rest s) = calls s.
Proof.
  intros He Hq. unfold await_race.
  rewrite heap_then_other by (intros <-; discriminate).
  rewrite results_then, executing_then, calls_then.
  rewrite results_subscribe, executing_subscribe, calls_subscribe.
  rewrite heap_subscribe_other by (apply only_items_neq; assumption).
  simpl. case_pid (PRace i) q. auto.
Qed.

Lemma launch_frame (item : T) (s : state) (q : pid) :
  loop_pid q = false ->
  heap (launch sty item s) q = heap s q
  /\ calls (launch sty item s) = calls s.
Proof.
  intros Hq. rewrite launch_eq. simpl.
  split; [|reflexivity]. destruct q; try discriminate; heap_cases; reflexivity.
Qed.

Lemma only_items_add (i : nat) (l : list pid) :
  only_items l -> only_items (set_add (PItem i) l).
Proof.
  intros Hl p Hp. apply set_add_In in Hp. destruct Hp as [->|Hp]; eauto.
Qed.

Lemma only_items_snoc (i : nat) (l : list pid) :
  only_items l -> only_items (l ++ [PItem i]).
Proof.
  intros Hl p Hp. apply in_app_or in Hp. destruct Hp as [Hp|[<-|[]]]; eauto.
Qed.

(** The loop never invokes the operation itself and touches no promise
    but the ones it creates. *)
Lemma loop_frame (items : list T) (s : state) (q : pid) :
  only_items (executing s) -> only_items (results s) -> loop_pid q = false ->
  heap (loop limit sty items s) q = heap s q
  /\ calls (loop limit sty items s) = calls s.
Proof.
  intros He Hr Hq. revert s He Hr.
  induction items as [|item rest IH]; intros s He Hr; simpl loop.
  - destruct (finish_frame s q Hr Hq) as [H1 [_ [_ H2]]]. auto.
  - destruct (launch_frame item s q Hq) as [H1 H2].
    assert (He1 : only_items (executing (launch sty item s)))
      by (rewrite executing_launch; apply only_items_add; assumption).
    assert (Hr1 : only_items (results (launch sty item s)))
      by (rewrite results_launch; apply only_items_snoc; assumption).
    destruct (limit <=? size (executing (launch sty item s)))%Z.
    + destruct (await_race_frame (length (results s)) rest _ q He1 Hq)
        as [H3 [_ [_ H4]]].
      split; congruence.
    + destruct (IH _ He1 Hr1) as [H3 H4]. split; congruence.
Qed.

Lemma set_add_fresh (k : nat) :
  set_add (PItem k) (map PItem (seq 0 k)) = map PItem (seq 0 (S k)).
Proof.
  unfold set_add.
  assert (H : existsb (pid_eqb (PItem k)) (map PItem (seq 0 k)) = false).
  { apply not_true_is_false. intros H. apply existsb_exists in H.
    destruct H as [p [Hin Hp]]. apply pid_eqb_eq in Hp. subst p.
    apply in_map_iff in Hin. destruct Hin as [i [Hi Hin]].
    injection Hi as ->. apply in_seq in Hin. lia. }
  rewrite H, seq_S, map_app. reflexivity.
Qed.

(** The first, synchronous part of the call launches [burst] items. *)
Lemma loop_burst (items : list T) (s : state) (k : nat) :
  results s = map PItem (seq 0 k) -> executing s = results s ->
  (Z.of_nat k < Z.max limit 1)%Z ->
  results (loop limit sty items s)
  = map PItem (seq 0 (k + Nat.min (Z.to_nat (Z.max limit 1) - k) (length items)))
  /\ executing (loop limit sty items s) = results (loop limit sty items s).
Proof.
  revert s k. induction items as [|item rest IH]; intros s k Hr He Hk;
    cbn [loop length].
  - assert (Ho : only_items (results s)).
    { rewrite Hr. intros p Hp. apply in_map_iff in Hp.
      destruct Hp as [i [<- _]]. eauto. }
    destruct (finish_frame s PRet Ho eq_refl) as [_ [H1 [H2 _]]].
    rewrite H1, H2, Nat.min_0_r, Nat.add_0_r. auto.
  - assert (Hr1 : results (launch sty item s) = map PItem (seq 0 (S k))).
    { rewrite results_launch, Hr, length_map, length_seq, seq_S, map_app.
      reflexivity. }
    assert (He1 : executing (launch sty item s) = map PItem (seq 0 (S k))).
    { rewrite executing_launch, He, Hr, length_map, length_seq.
      apply set_add_fresh. }
    rewrite He1. unfold size. rewrite length_map, length_seq.
    destruct (limit <=? Z.of_nat (S k))%Z eqn:Hlim.
    + apply Z.leb_le in Hlim.
      assert (Ho : only_items (executing (launch sty item s))).
      { rewrite He1. intros p Hp. apply in_map_iff in Hp.
        destruct Hp as [i [<- _]]. eauto. }
      destruct (await_race_frame (length (results s)) rest _ PRet Ho eq_refl)
        as [_ [H1 [H2 _]]].
      rewrite H1, H2, He1, Hr1.
      replace (k + Nat.min (Z.to_nat (Z.max limit 1) - k) (S (length rest)))
        with (S k) by lia.
      auto.
    + apply Z.leb_gt in Hlim.
      destruct (IH (launch sty item s) (S k) Hr1 (eq_trans He1 (eq_sym Hr1)))
        as [H1 H2]; [lia|].
      split; [|exact H2]. rewrite H1. do 2 f_equal. lia.
Qed.

End LoopFrame.

(** The promise that a call hands back is pending when the call returns. *)
Lemma mapper_pending (T R E : Type) (limit : Z) (sty : style) (inputs : list T) :
  returned (mapper (R := R) (E := E) limit sty inputs) = None.
Proof.
  assert (Hn : only_items (executing (init (T := T) (R := R) (E := E))))
    by (intros p []).
  destruct (loop_frame T R E limit sty inputs init PRet Hn Hn eq_refl) as [H _].
  unfold returned, mapper. rewrite H. reflexivity.
Qed.

Section Keeps.

Variables T R E : Type.
Variable asyncMapper : T -> behaviour R E.
Variable limit : Z.
Variable sty : style.

Local Abbreviation state := (state T R E).
Local Abbreviation reaction := (reaction T R E).

Lemma keeps_refl (s : state) : keeps s s.
Proof. split; [auto|]. exists []. symmetry. apply app_nil_r. Qed.

Lemma keeps_trans (a b c : state) : keeps a b -> keeps b c -> keeps a c.
Proof.
  intros [H1 [l1 H2]] [H3 [l2 H4]]. split; [auto|].
  exists (l1 ++ l2). rewrite H4, H2, app_assoc. reflexivity.
Qed.

Lemma keeps_same (s s' : state) :
  heap s' PRet = heap s PRet -> calls s' = calls s -> keeps s s'.
Proof.
  intros Hh Hc. split.
  - intros o Ho. congruence.
  - exists []. rewrite app_nil_r. assumption.
Qed.

Lemma keeps_settle (p : pid) (o : outcome R E) (s : state) :
  keeps s (settle p o s).
Proof.
  split.
  - intros o' Ho'. unfold settle.
    destruct (heap s p) as [[rs|o1]|] eqn:Hp; simpl; auto.
    case_pid p PRet.
  - exists []. rewrite app_nil_r. apply calls_settle.
Qed.

Lemma keeps_then (p : pid) (r : reaction) (s : state) :
  keeps s (then_ p r s).
Proof.
  split.
  - intros o' Ho'. unfold then_.
    destruct (heap s p) as [[rs|o1]|] eqn:Hp; simpl; auto.
    case_pid p PRet.
  - exists []. rewrite app_nil_r. apply calls_then.
Qed.

Lemma keeps_alloc (p : pid) (s : state) : p <> PRet -> keeps s (alloc p s).
Proof.
  intros Hp. apply keeps_same; [|reflexivity]. simpl. case_pid p PRet.
Qed.

Lemma keeps_subscribe (r : reaction) (l : list pid) (s : state) :
  keeps s (fold_left (fun s e => then_ e r s) l s).
Proof.
  revert s. induction l as [|e l IH]; intros s; simpl; [apply keeps_refl|].
  eapply keeps_trans; [apply keeps_then|apply IH].
Qed.

Lemma keeps_subscribe_all (k : nat) (l : list pid) (s : state) :
  keeps s (subscribe_all k l s).
Proof.
  revert k s. induction l as [|e l IH]; intros k s; simpl; [apply keeps_refl|].
  eapply keeps_trans; [apply keeps_then|apply IH].
Qed.

Lemma keeps_launch (item : T) (s : state) : keeps s (launch sty item s).
Proof.
  apply keeps_same; rewrite launch_eq; [|reflexivity].
  simpl. reflexivity.
Qed.

Lemma keeps_await_race (i : nat) (rest : list T) (s : state) :
  keeps s (await_race i rest s).
Proof.
  unfold await_race.
  eapply keeps_trans; [|apply keeps_then].
  eapply keeps_trans; [|apply keeps_subscribe].
  apply keeps_alloc. discriminate.
Qed.

Lemma keeps_finish (s : state) : keeps s (finish s).
Proof.
  unfold finish.
  set (s1 := set_values _ (alloc PAll s)).
  assert (H1 : keeps s s1) by (apply keeps_same; reflexivity).
  assert (H2 : keeps s (subscribe_all 0 (results s1) s1))
    by (eapply keeps_trans; [exact H1|apply keeps_subscribe_all]).
  apply keeps_trans with
    (match all_filled (values (subscribe_all 0 (results s1) s1)) with
     | Some l => settle PAll (Fulfilled (VArr l)) (subscribe_all 0 (results s1) s1)
     | None => subscribe_all 0 (results s1) s1
     end).
  - destruct (all_filled _); [|exact H2].
    eapply keeps_trans; [exact H2|apply keeps_settle].
  - apply keeps_same; reflexivity.
Qed.

Lemma keeps_loop (items : list T) (s : state) :
  keeps s (loop limit sty items s).
Proof.
  revert s. induction items as [|item rest IH]; intros s; cbn [loop].
  - apply keeps_finish.
  - destruct (limit <=? _)%Z.
    + eapply keeps_trans; [apply keeps_launch|apply keeps_await_race].
    + eapply keeps_trans; [apply keeps_launch|apply IH].
Qed.

Lemma keeps_run_reaction (r : reaction) (o : outcome R E) (s : state) :
  keeps s (run_reaction asyncMapper limit sty r o s).
Proof.
  destruct r as [i item|i|i|i o0|p|rest|k]; cbn [run_reaction].
  - assert (H : keeps s (set_calls (calls s ++ [(i, item)]) s)).
    { split; [auto|]. exists [(i, item)]. reflexivity. }
    destruct (is_async (asyncMapper item)).
    + eapply keeps_trans; [exact H|]. apply keeps_same; reflexivity.
    + eapply keeps_trans; [exact H|apply keeps_settle].
  - eapply keeps_trans; [|apply keeps_settle]. apply keeps_same; reflexivity.
  - apply keeps_same; reflexivity.
  - apply keeps_settle.
  - apply keeps_settle.
  - destruct o; [apply keeps_loop|apply keeps_settle].
  - destruct o; [|apply keeps_settle]. unfold all_resolve.
    set (s1 := set_values _ s).
    assert (H : keeps s s1) by (apply keeps_same; reflexivity).
    destruct (all_filled _); [|exact H].
    eapply keeps_trans; [exact H|apply keeps_settle].
Qed.

Lemma keeps_step (ev : event) (s : state) :
  keeps s (step asyncMapper limit sty ev s).
Proof.
  destruct ev as [|i]; cbn [step].
  - destruct (queue s) as [|j q]; [apply keeps_refl|].
    apply keeps_trans with (set_queue q s); [apply keeps_same; reflexivity|].
    destruct j as [r o|p q']; cbn [run_job].
    + apply keeps_run_reaction.
    + apply keeps_then.
  - destruct (heap s (POp i)) as [[rs|o]|]; try apply keeps_refl.
    destruct (item_of i s); [apply keeps_settle|apply keeps_refl].
Qed.

Lemma keeps_run (sched : list event) (s : state) :
  keeps s (run asyncMapper limit sty sched s).
Proof.
  revert s. induction sched as [|ev sched IH]; intros s.
  - apply keeps_refl.
  - change (run asyncMapper limit sty (ev :: sched) s)
      with (run asyncMapper limit sty sched (step asyncMapper limit sty ev s)).
    eapply keeps_trans; [apply keeps_step|apply IH].
Qed.

End Keeps.

(** X1: once the promise that the call returned is settled, no later event
    changes its outcome, and an invocation of the operation, once recorded,
    stays recorded in its place. *)
Theorem outcome_is_final :
  forall (T R E : Type) (asyncMapper : T -> behaviour R E) (sty : style)
         (inputs : list T) (limit : Z) (sched more : list event),
    let s := run asyncMapper limit sty sched (mapper limit sty inputs) in
    let s' := run asyncMapper limit sty (sched ++ more) (mapper limit sty inputs) in
    (forall o, returned s = Some o -> returned s' = Some o)
    /\ calls s = firstn (length (calls s)) (calls s').
Proof.
  intros T R E asyncMapper sty inputs limit sched more s s'.
  assert (Hk : keeps s s').
  { unfold s'. rewrite run_app. apply keeps_run. }
  destruct Hk as [H1 [l H2]]. split.
  - intros o Ho. unfold returned in *.
    destruct (heap s PRet) as [[rs|o1]|] eqn:Hp; try discriminate.
    rewrite (H1 o1 eq_refl). assumption.
  - rewrite H2, firstn_app, Nat.sub_diag, firstn_all. simpl.
    symmetry. apply app_nil_r.
Qed.

Lemma filter_none {A} (f : A -> bool) (l : list A) :
  (forall x, In x l -> f x = false) -> filter f l = [].
Proof.
  induction l as [|x l IH]; intros H; simpl; [reflexivity|].
  rewrite (H x (or_introl eq_refl)). apply IH.
  intros y Hy. apply H. right. assumption.
Qed.

(** X2: the synchronous part of a call, up to its first [await], creates the
    promises of the first [burst] items and queues their invocations in
    input order; it invokes the operation for none of them and hands back a
    pending promise. *)
Theorem first_burst :
  forall (T R E : Type) (asyncMapper : T -> behaviour R E) (sty : style)
         (inputs : list T) (limit : Z),
    let s := mapper (R := R) (E := E) limit sty inputs in
    let b := burst limit (length inputs) in
    results s = map PItem (seq 0 b)
    /\ executing s = results s
    /\ launches (queue s) = firstn b (indexed inputs)
    /\ calls s = []
    /\ in_flight s = []
    /\ returned s = None.
Proof.
  intros T R E asyncMapper sty inputs limit s b.
  assert (Hb : results s = map PItem (seq 0 b) /\ executing s = results s).
  { destruct (loop_burst T R E limit sty inputs init 0)
      as [H1 H2]; try reflexivity; [lia|].
    split; [|exact H2]. unfold s, mapper. rewrite H1.
    unfold b, burst. rewrite Nat.sub_0_r. reflexivity. }
  destruct Hb as [Hr He].
  assert (Hn : only_items (@nil pid)) by (intros p []).
  change (@nil pid) with (executing (init (T := T) (R := R) (E := E))) in Hn.
  assert (Hc : calls s = []).
  { destruct (loop_frame T R E limit sty inputs init
                PRet Hn Hn eq_refl) as [_ H].
    exact H. }
  assert (Hs : shape asyncMapper limit inputs s).
  { destruct (inv_mapper T R E asyncMapper limit sty inputs) as [H _]. exact H. }
  repeat split; try assumption.
  - pose proof (sh_launches Hs) as H. fold s in H.
    rewrite Hc, Hr, length_map, length_seq in H. exact H.
  - unfold in_flight.
    apply filter_none. intros i _. unfold op_pending.
    destruct (loop_frame T R E limit sty inputs init
                (POp i) Hn Hn eq_refl) as [H _].
    fold (mapper (R := R) (E := E) limit sty inputs) in H. fold s in H.
    rewrite H. reflexivity.
  - apply mapper_pending.
Qed.

(** X3: the example calls pass an operation that doubles its item behind a
    timer.  Whatever the items and the limit, every run of such a call can
    be continued until the promise is fulfilled with the doubled items in
    input order, and the promise never settles any other way. *)
Theorem example_usage_doubles :
  forall (sty : style) (items : list nat) (limit : Z),
    (forall sched, exists sched',
        returned (run double limit sty (sched ++ sched') (mapper limit sty items))
        = Some (Fulfilled (doubled items)))
    /\ (forall sched o,
          returned (run double limit sty sched (mapper limit sty items)) = Some o ->
          o = Fulfilled (doubled items)).
Proof.
  intros sty items limit.
  assert (Hsafe : forall sched o,
    returned (run double limit sty sched (mapper limit sty items)) = Some o ->
    o = Fulfilled (doubled items)).
  { intros sched o Ho. destruct o as [v|e].
    - destruct (success_values _ _ _ double limit items _ v (reach_shape _ _ _ double limit sty items sched) Ho)
        as [l [-> [Hlen Hl]]].
      unfold doubled. do 2 f_equal.
      apply nth_error_ext. intros i.
      rewrite nth_error_map.
      destruct (nth_error items i) as [x|] eqn:Hx; simpl.
      + destruct (Hl i x Hx) as [w [Hw Hw']]. rewrite Hw.
        injection Hw' as <-. reflexivity.
      + apply nth_error_None. apply nth_error_None in Hx. lia.
    - destruct (failure_cause _ _ _ double items _ e (reach_prov _ _ _ double limit sty items sched) Ho)
        as [x [_ Hx]].
      discriminate. }
  split; [|exact Hsafe].
  intros sched.
  destruct (completes _ _ _ double limit sty items sched) as [sched' H].
  exists sched'.
  destruct (returned _) as [o|] eqn:Ho; [|congruence].
  rewrite (Hsafe _ _ Ho). reflexivity.
Qed.

Section Quiet.

Variables T R E : Type.
Variable asyncMapper : T -> behaviour R E.
Variable limit : Z.
Variable sty : style.
Variable inputs : list T.

Local Abbreviation state := (state T R E).
Local Abbreviation reaction := (reaction T R E).
Local Abbreviation job := (job T R E).

Lemma quiet_same (s s' : state) :
  heap s' = heap s -> queue s' = queue s -> quiet s -> quiet s'.
Proof.
  intros Hh Hq [H1 H2]. split.
  - rewrite Hq. assumption.
  - intros p rs rest. rewrite Hh. apply H2.
Qed.

Lemma quiet_enqueue (js : list job) (s : state) :
  existsb is_await js = false -> quiet s -> quiet (enqueue js s).
Proof.
  intros Hj [H1 H2]. split.
  - simpl. rewrite existsb_app, H1, Hj. reflexivity.
  - exact H2.
Qed.

Lemma quiet_alloc (p : pid) (s : state) : quiet s -> quiet (alloc p s).
Proof.
  intros [H1 H2]. split; [exact H1|].
  intros q rs rest. simpl. case_pid p q.
  - intros H. injection H as <-. intros [].
  - apply H2.
Qed.

Lemma quiet_settle (p : pid) (o : outcome R E) (s : state) :
  quiet s -> quiet (settle p o s).
Proof.
  intros [H1 H2]. unfold settle.
  destruct (heap s p) as [[rs|o']|] eqn:Hp; try (split; assumption).
  split.
  - simpl. rewrite existsb_app, H1. simpl.
    apply not_true_is_false. intros H. apply existsb_exists in H.
    destruct H as [j [Hin Hj]]. apply in_map_iff in Hin.
    destruct Hin as [r [<- Hr]]. destruct r; try discriminate.
    exact (H2 p rs _ Hp Hr).
  - intros q rs' rest. simpl. case_pid p q.
    apply H2.
Qed.

Lemma quiet_then (p : pid) (r : reaction) (s : state) :
  plain r -> quiet s -> quiet (then_ p r s).
Proof.
  intros Hr [H1 H2]. unfold then_.
  destruct (heap s p) as [[rs|o']|] eqn:Hp; try (split; assumption).
  - split; [exact H1|].
    intros q rs' rest. simpl. case_pid p q.
    + intros H. injection H as <-. intros Hin. apply in_app_or in Hin.
      destruct Hin as [Hin | [Hin | []]].
      * eapply H2; eassumption.
      * exact (Hr rest Hin).
    + apply H2.
  - apply quiet_enqueue; [|split; assumption].
    simpl. destruct r; try reflexivity. exfalso. exact (Hr _ eq_refl).
Qed.

Lemma still_trans (a b c : state) : still a b -> still b c -> still a c.
Proof. intros [H1 H2] [H3 H4]. split; [assumption | congruence]. Qed.

Lemma quiet_step (ev : event) (s : state) :
  quiet s -> still s (step asyncMapper limit sty ev s).
Proof.
  intros Hq. destruct ev as [|i]; cbn [step].
  - destruct (queue s) as [|j q] eqn:Hqu; [split; [assumption | reflexivity]|].
    assert (Hj : is_await j = false /\ quiet (set_queue q s)).
    { destruct Hq as [H1 H2]. rewrite Hqu in H1. simpl in H1.
      apply orb_false_iff in H1. destruct H1 as [H1 H1'].
      split; [assumption|]. split; assumption. }
    destruct Hj as [Hj Hq0].
    destruct j as [r o|p q']; cbn [run_job].
    + destruct r as [i item|i|i|i o0|p|rest|k]; cbn [run_reaction];
        try discriminate Hj.
      * destruct (is_async (asyncMapper item)).
        -- split; [|reflexivity].
           apply quiet_enqueue; [reflexivity|].
           apply quiet_alloc.
           apply quiet_same with (s := set_queue q s); auto.
        -- split; [|rewrite results_settle; reflexivity].
           apply quiet_settle.
           apply quiet_same with (s := set_queue q s); auto.
      * split; [|rewrite results_settle; reflexivity].
        apply quiet_settle.
        apply quiet_same with (s := set_queue q s); auto.
      * split; [|reflexivity].
        apply quiet_enqueue; [reflexivity|].
        apply quiet_alloc.
        apply quiet_same with (s := set_queue q s); auto.
      * split; [|rewrite results_settle; reflexivity].
        apply quiet_settle. assumption.
      * split; [|rewrite results_settle; reflexivity].
        apply quiet_settle. assumption.
      * destruct o as [v|e].
        -- unfold all_resolve.
           set (s1 := set_values _ (set_queue q s)).
           assert (H1 : quiet s1) by (apply quiet_same with (s := set_queue q s); auto).
           destruct (all_filled _).
           ++ split; [|rewrite results_settle; reflexivity].
              apply quiet_settle. assumption.
           ++ split; [assumption | reflexivity].
        -- split; [|rewrite results_settle; reflexivity].
           apply quiet_settle. assumption.
    + split; [|rewrite results_then; reflexivity].
      apply quiet_then; [|assumption]. intros rest. discriminate.
  - destruct (heap s (POp i)) as [[rs|o]|]; try (split; [assumption|reflexivity]).
    destruct (item_of i s); [|split; [assumption|reflexivity]].
    split; [|rewrite results_settle; reflexivity].
    apply quiet_settle. assumption.
Qed.

Lemma quiet_run (sched : list event) (s : state) :
  quiet s -> still s (run asyncMapper limit sty sched s).
Proof.
  revert s. induction sched as [|ev sched IH]; intros s Hq.
  - split; [assumption | reflexivity].
  - change (run asyncMapper limit sty (ev :: sched) s)
      with (run asyncMapper limit sty sched (step asyncMapper limit sty ev s)).
    destruct (quiet_step ev s Hq) as [H1 H2].
    eapply still_trans; [split; eassumption|]. apply IH. assumption.
Qed.

End Quiet.

Section Concluded.

Variables T R E : Type.
Variable asyncMapper : T -> behaviour R E.
Variable limit : Z.
Variable sty : style.
Variable inputs : list T.

Local Abbreviation state := (state T R E).
Local Abbreviation reaction := (reaction T R E).
Local Abbreviation job := (job T R E).
Local Abbreviation shape := (shape asyncMapper limit inputs).
Local Abbreviation inv := (inv asyncMapper limit inputs).

Lemma quiet_of_done (s : state) :
  shape s -> no_await (queue s) -> no_race_pending s -> quiet s.
Proof.
  intros Hs Ha Hr. split; [exact Ha|].
  intros p rs rest Hp Hin.
  destruct (sh_host Hs p rs _ Hp Hin) as [j ->].
  exact (Hr j rs Hp).
Qed.

Lemma returned_same (s s' : state) :
  heap s' PRet = heap s PRet -> returned s' = returned s.
Proof. intros H. unfold returned. rewrite H. reflexivity. Qed.

Lemma returned_then (p : pid) (r : reaction) (s : state) :
  returned (then_ p r s) = returned s.
Proof.
  unfold returned, then_.
  destruct (heap s p) as [[rs|o]|] eqn:Hp; try reflexivity.
  simpl. case_pid p PRet. rewrite Hp. reflexivity.
Qed.

Lemma returned_settle_other (p : pid) (o : outcome R E) (s : state) :
  p <> PRet -> returned (settle p o s) = returned s.
Proof.
  intros H. apply returned_same. apply heap_settle_other. assumption.
Qed.

Lemma concluded_step (ev : event) (s : state) :
  inv s -> (returned s <> None -> quiet s) ->
  returned (step asyncMapper limit sty ev s) <> None ->
  quiet (step asyncMapper limit sty ev s).
Proof.
  intros [Hs Hc] IH Hret.
  destruct (returned s) as [o0|] eqn:Hr.
  { apply quiet_step. apply IH. discriminate. }
  destruct ev as [|i]; cbn [step] in *.
  - destruct (queue s) as [|j q] eqn:Hq; [congruence|].
    assert (Hr0 : returned (set_queue q s) = None) by exact Hr.
    destruct j as [r o|p q']; cbn [run_job] in *.
    + destruct r as [i item|i|i|i o1|p|rest|k]; cbn [run_reaction] in *.
      * exfalso. apply Hret.
        destruct (is_async (asyncMapper item)).
        -- rewrite <- Hr. apply returned_same. simpl. reflexivity.
        -- rewrite returned_settle_other by discriminate. exact Hr.
      * exfalso. apply Hret.
        rewrite returned_settle_other by discriminate. exact Hr.
      * exfalso. apply Hret. rewrite <- Hr. apply returned_same. reflexivity.
      * exfalso. apply Hret.
        rewrite returned_settle_other by discriminate. exact Hr.
      * destruct (pid_eqb_spec p PRet) as [-> | Hne].
        -- assert (Hj : job_ok s (JReaction (OnSettle PRet) o)).
           { apply (sh_jobs Hs). rewrite Hq. left. reflexivity. }
           simpl in Hj.
           apply quiet_settle.
           destruct Hc as [Ha Hn | j rest Ha Hp Hu [Hall _] _
                          | pre rest o' post Hn Hq' _ _ [Hall _] _];
             try congruence.
           apply quiet_of_done; [eapply shape_pop_plain; eauto | |exact Hn].
           unfold no_await in *. rewrite Hq in Ha. simpl in Ha. exact Ha.
        -- exfalso. apply Hret.
           rewrite returned_settle_other by assumption. exact Hr.
      * assert (Hs0 : shape (set_queue q s)).
        { eapply shape_pop_plain; eauto. }
        destruct (control_pop_await _ _ _ limit inputs s rest o q Hc Hq)
          as [Haw [Hnr _]].
        destruct o as [v|e].
        -- exfalso. apply Hret. rewrite <- Hr0. apply returned_same.
           apply loop_frame; [| |reflexivity].
           ++ intros p Hp. destruct (sh_exec Hs0 p Hp) as [i [-> _]]. eauto.
           ++ intros p Hp. rewrite (sh_results Hs0) in Hp.
              apply in_map_iff in Hp. destruct Hp as [i [<- _]]. eauto.
        -- apply quiet_settle. apply quiet_of_done; assumption.
      * exfalso. apply Hret. destruct o as [v|e].
        -- unfold all_resolve. destruct (all_filled _).
           ++ rewrite returned_settle_other by discriminate. exact Hr.
           ++ exact Hr.
        -- rewrite returned_settle_other by discriminate. exact Hr.
    + exfalso. apply Hret. rewrite returned_then. exact Hr.
  - exfalso. apply Hret.
    destruct (heap s (POp i)) as [[rs|o]|]; try exact Hr.
    destruct (item_of i s); [|exact Hr].
    rewrite returned_settle_other by discriminate. exact Hr.
Qed.

Lemma concluded_run (sched : list event) :
  let s := run asyncMapper limit sty sched (mapper limit sty inputs) in
  returned s <> None -> quiet s.
Proof.
  induction sched as [|ev sched IH] using rev_ind; intros s.
  - intros H. exfalso. apply H. unfold s. simpl.
    apply mapper_pending.
  - unfold s. rewrite run_app.
    apply concluded_step; [apply reach_inv | exact IH].
Qed.

End Concluded.

(** X4: once the promise that the call returned is settled, fulfilled or
    rejected, the call starts nothing more: no further item is launched,
    and the operation is invoked for no item beyond those launched by then.
    So the items that the loop had not reached when the call failed are
    never processed. *)
Theorem settled_call_launches_no_more :
  forall (T R E : Type) (asyncMapper : T -> behaviour R E) (sty : style)
         (inputs : list T) (limit : Z) (sched more : list event),
    let s := run asyncMapper limit sty sched (mapper limit sty inputs) in
    let s' := run asyncMapper limit sty (sched ++ more) (mapper limit sty inputs) in
    (forall o, returned s = Some o -> results s' = results s)
    /\ (forall o i, returned s = Some o -> invoked s' i = true ->
                    launched s i = true).
Proof.
  intros T R E asyncMapper sty inputs limit sched more s s'.
  assert (H : forall o, returned s = Some o -> results s' = results s).
  { intros o Ho.
    assert (Hq : quiet s).
    { apply (concluded_run T R E asyncMapper limit sty inputs sched).
      fold s. congruence. }
    unfold s'. rewrite run_app.
    destruct (quiet_run T R E asyncMapper limit sty more s Hq) as [_ Hres].
    exact Hres. }
  split; [exact H|].
  intros o i Ho Hi. unfold launched. rewrite <- (H o Ho).
  apply Nat.ltb_lt.
  apply (invoked_lt T R E asyncMapper limit inputs s' i); [|exact Hi].
  apply reach_shape.
Qed.

Section Sequential.

Variables T R E : Type.
Variable asyncMapper : T -> behaviour R E.
Variable limit : Z.
Variable sty : style.
Variable inputs : list T.

Local Abbreviation state := (state T R E).
Local Abbreviation reaction := (reaction T R E).
Local Abbreviation job := (job T R E).
Local Abbreviation shape := (shape asyncMapper limit inputs).
Local Abbreviation inv := (inv asyncMapper limit inputs).

Ltac skip_pid p q :=
  let H := fresh in
  assert (H : pid_eqb p q = false)
    by (apply pid_eqb_neq; first [discriminate | auto]);
  rewrite H; clear H.

Lemma sequential_same (s s' : state) :
  heap s' = heap s -> queue s' = queue s -> results s' = results s ->
  sequential s -> sequential s'.
Proof.
  intros Hh Hq Hr [H1 H2 H3 H4 H5].
  split; rewrite ?Hh, ?Hq, ?Hr; assumption.
Qed.

Lemma sequential_pop (s : state) (j : job) (q : list job) :
  queue s = j :: q -> sequential s -> sequential (set_queue q s).
Proof.
  intros Hq [H1 H2 H3 H4 H5]. split; simpl; try assumption.
  - intros j' o Hin. apply H3. rewrite Hq. right. assumption.
  - intros rest o Hin. apply (H5 rest o). rewrite Hq. right. assumption.
Qed.

Lemma sequential_enqueue (js : list job) (s : state) :
  (forall j, In j js -> apart_job j) -> sequential s -> sequential (enqueue js s).
Proof.
  intros Hj [H1 H2 H3 H4 H5]. split; simpl; try assumption.
  - intros j o Hin. apply in_app_or in Hin. destruct Hin as [Hin|Hin]; [auto|].
    destruct (Hj _ Hin).
  - intros rest o Hin. apply in_app_or in Hin.
    destruct Hin as [Hin|Hin]; [exact (H5 rest o Hin)|].
    destruct (Hj _ Hin).
Qed.

Lemma sequential_alloc (p : pid) (s : state) :
  (forall i, p <> PItem i) -> (forall j, p <> PRace j) ->
  sequential s -> sequential (alloc p s).
Proof.
  intros Hi Hr [H1 H2 H3 H4 H5]. split; simpl.
  - intros i Hlt. skip_pid p (PItem i). auto.
  - intros i rs j. skip_pid p (PItem i). apply H2.
  - intros j o Hin. skip_pid p (PItem j). auto.
  - intros j rs. skip_pid p (PRace j). apply H4.
  - intros rest o Hin. destruct (H5 rest o Hin) as [j [Hj Hh]].
    exists j. split; [assumption|].
    skip_pid p (PItem j). assumption.
Qed.

(** Settling a promise that is no item and no race. *)
Lemma sequential_settle (p : pid) (o : outcome R E) (s : state) :
  (forall i, p <> PItem i) -> (forall j, p <> PRace j) ->
  (forall rs r, heap s p = Some (Pending rs) -> In r rs -> apart r) ->
  sequential s -> sequential (settle p o s).
Proof.
  intros Hi Hr Hrs Hsq. unfold settle.
  destruct (heap s p) as [[rs|o']|] eqn:Hp; try assumption.
  apply sequential_enqueue.
  - intros j Hin. apply in_map_iff in Hin. destruct Hin as [r [<- Hin]].
    exact (Hrs rs r eq_refl Hin).
  - destruct Hsq as [H1 H2 H3 H4 H5]. split; simpl.
    + intros i Hlt. skip_pid p (PItem i). auto.
    + intros i rs' j. skip_pid p (PItem i). apply H2.
    + intros j o1 Hin. skip_pid p (PItem j). auto.
    + intros j rs'. skip_pid p (PRace j). apply H4.
    + intros rest o1 Hin. destruct (H5 rest o1 Hin) as [j [Hj Hh]].
      exists j. split; [assumption|].
      skip_pid p (PItem j). assumption.
Qed.

(** Settling an item hands its outcome to its race. *)
Lemma sequential_settle_item (i : nat) (o : outcome R E) (s : state) :
  (forall rs rest, heap s (PItem i) = Some (Pending rs) -> ~ In (OnAwait rest) rs) ->
  sequential s -> sequential (settle (PItem i) o s).
Proof.
  intros Hrs Hsq. unfold settle.
  destruct (heap s (PItem i)) as [[rs|o']|] eqn:Hp; try assumption.
  destruct Hsq as [H1 H2 H3 H4 H5]. split; simpl.
  - intros i' Hlt. destruct (H1 i' Hlt) as [v Hv].
    case_pid (PItem i) (PItem i'). eauto.
  - intros i' rs' j. case_pid (PItem i) (PItem i'). apply H2.
  - intros j o1 Hin. apply in_app_or in Hin. destruct Hin as [Hin|Hin].
    + pose proof (H3 j o1 Hin) as Hj. case_pid (PItem i) (PItem j).
    + apply in_map_iff in Hin. destruct Hin as [r [Hr Hin]].
      injection Hr as -> ->.
      rewrite (H2 i rs j Hp Hin), pid_eqb_refl. reflexivity.
  - intros j rs'. case_pid (PItem i) (PRace j). apply H4.
  - intros rest o1 Hin. apply in_app_or in Hin. destruct Hin as [Hin|Hin].
    + destruct (H5 rest o1 Hin) as [j [Hj Hh]]. exists j.
      split; [assumption|]. case_pid (PItem i) (PItem j).
    + apply in_map_iff in Hin. destruct Hin as [r [Hr Hin]].
      injection Hr as -> ->. destruct (Hrs rs rest eq_refl Hin).
Qed.

(** Settling a race queues what waits for it. *)
Lemma sequential_settle_race (j : nat) (o : outcome R E) (s : state) :
  heap s (PItem j) = Some (Settled o) ->
  (forall rs r, heap s (PRace j) = Some (Pending rs) -> In r rs ->
                exists rest, r = OnAwait rest) ->
  sequential s -> sequential (settle (PRace j) o s).
Proof.
  intros Hj Hrs Hsq. unfold settle.
  destruct (heap s (PRace j)) as [[rs|o']|] eqn:Hp; try assumption.
  destruct Hsq as [H1 H2 H3 H4 H5]. split; simpl.
  - intros i Hlt. case_pid (PRace j) (PItem i). auto.
  - intros i rs' j'. case_pid (PRace j) (PItem i). apply H2.
  - intros j' o1 Hin. case_pid (PRace j) (PItem j').
    apply in_app_or in Hin. destruct Hin as [Hin|Hin]; [auto|].
    apply in_map_iff in Hin. destruct Hin as [r [Hr Hin]].
    destruct (Hrs rs r eq_refl Hin) as [rest ->]. discriminate.
  - intros j' rs'. case_pid (PRace j) (PRace j'). apply H4.
  - intros rest o1 Hin. apply in_app_or in Hin. destruct Hin as [Hin|Hin].
    + destruct (H5 rest o1 Hin) as [j' [Hj' Hh]]. exists j'.
      split; [assumption|]. case_pid (PRace j) (PItem j').
    + apply in_map_iff in Hin. destruct Hin as [r [Hr Hin]].
      injection Hr as -> ->. exists j. split; [exact (H4 j rs Hp)|].
      case_pid (PRace j) (PItem j).
Qed.

(** Registering a reaction that has no part in a race. *)
Lemma sequential_then (p : pid) (r : reaction) (s : state) :
  apart r -> sequential s -> sequential (then_ p r s).
Proof.
  intros Hr Hsq. unfold then_.
  destruct (heap s p) as [[rs|o']|] eqn:Hp; try assumption.
  - destruct Hsq as [H1 H2 H3 H4 H5]. split; simpl.
    + intros i Hlt. destruct (H1 i Hlt) as [v Hv].
      case_pid p (PItem i). eauto.
    + intros i rs' j. case_pid p (PItem i); [|apply H2].
      intros H Hin. injection H as <-. apply in_app_or in Hin.
      destruct Hin as [Hin | [Hin | []]]; [eapply H2; eassumption|].
      subst r. destruct Hr.
    + intros j o1 Hin. pose proof (H3 j o1 Hin) as Hj. case_pid p (PItem j).
    + intros j rs'. case_pid p (PRace j); [|apply H4].
      intros _. eapply H4. eassumption.
    + intros rest o1 Hin. destruct (H5 rest o1 Hin) as [j [Hj Hh]]. exists j.
      split; [assumption|]. case_pid p (PItem j).
  - apply sequential_enqueue; [|assumption].
    intros j [<- | []]. exact Hr.
Qed.

Lemma sequential_subscribe_all (k : nat) (l : list pid) (s : state) :
  sequential s -> sequential (subscribe_all k l s).
Proof.
  revert k s. induction l as [|e l IH]; intros k s Hs; simpl; [assumption|].
  apply IH. apply sequential_then; [exact I | assumption].
Qed.

Lemma sequential_finish (s : state) :
  shape s -> heap s PAll = None -> sequential s -> sequential (finish s).
Proof.
  intros Hs Hall Hsq. unfold finish.
  apply sequential_enqueue; [intros j [<- | []]; exact I|].
  set (s1 := set_values _ (alloc PAll s)).
  assert (H1 : sequential s1).
  { apply sequential_same with (s := alloc PAll s); try reflexivity.
    apply sequential_alloc; [discriminate | discriminate | assumption]. }
  assert (H2 : sequential (subscribe_all 0 (results s1) s1))
    by (apply sequential_subscribe_all; assumption).
  destruct (all_filled _); [|assumption].
  apply sequential_settle; try discriminate; [|assumption].
  intros rs r Hp Hin.
  assert (Hh : heap (subscribe_all 0 (results s1) s1) PAll = Some (Pending [])).
  { rewrite heap_subscribe_all_other.
    - simpl. reflexivity.
    - intros e He. simpl in He. rewrite (sh_results Hs) in He.
      apply in_map_iff in He. destruct He as [i [<- _]]. discriminate. }
  rewrite Hh in Hp. injection Hp as <-. destruct Hin.
Qed.


Lemma apart_hosted (s : state) (p : pid) (r : reaction) :
  hosted s p r -> (forall i, p <> PItem i) -> (forall j, p <> PRace j) ->
  apart r.
Proof.
  intros H Hi Hr. destruct r as [i x|i|i|i o|q|rest|k]; simpl in *; try exact I.
  - destruct q; try exact I. destruct H as [[i' ->] _]. destruct (Hi i' eq_refl).
  - destruct H as [j ->]. destruct (Hr j eq_refl).
Qed.

Lemma item_hosts_no_await (s : state) (i : nat) (rest : list T) :
  hosted s (PItem i) (OnAwait rest) -> False.
Proof. intros [j H]. discriminate. Qed.

Lemma race_hosts_await (s : state) (j : nat) (r : reaction) :
  hosted s (PRace j) r -> exists rest, r = OnAwait rest.
Proof.
  destruct r as [i x|i|i|i o|q|rest|k]; simpl; try contradiction;
    try discriminate.
  - destruct q; try contradiction; try discriminate.
    intros [[i' H] _]. discriminate.
  - eauto.
  - intros [H _]. discriminate.
Qed.

Lemma then_pending (p : pid) (r : reaction) (rs : list reaction) (s : state) :
  heap s p = Some (Pending rs) ->
  then_ p r s = set_heap p (Pending (rs ++ [r])) s.
Proof. intros H. unfold then_. rewrite H. reflexivity. Qed.

(** One turn of the loop with a limit of 1 or less: the item is launched
    and the call at once waits for it. *)
Lemma sequential_turn (item : T) (rest : list T) (s : state) :
  executing s = [] ->
  let i := length (results s) in
  let s' := await_race i rest (launch sty item s) in
  results s' = results s ++ [PItem i]
  /\ queue s' = queue s ++ [JReaction (OnLaunch i item) (Fulfilled VUndefined)]
  /\ forall q,
       heap s' q
       = if pid_eqb (PRace i) q then Some (Pending [OnAwait rest])
         else if pid_eqb (PItem i) q
              then Some (Pending [cleanup_reaction T R E sty i;
                                  OnSettle (PRace i)])
              else if pid_eqb (PClean i) q then Some (Pending [])
                   else heap s q.
Proof.
  intros He i s'. unfold s', await_race.
  set (s1 := launch sty item s).
  assert (H1 : s1 = launch sty item s) by reflexivity.
  rewrite launch_eq in H1. fold i in H1. rewrite He in H1.
  assert (He1 : executing (alloc (PRace i) s1) = [PItem i])
    by (rewrite H1; reflexivity).
  rewrite He1. cbn [fold_left].
  assert (H2 : heap (alloc (PRace i) s1) (PItem i)
               = Some (Pending [cleanup_reaction T R E sty i])).
  { rewrite H1. cbn [alloc set_heap heap].
    change (pid_eqb (PRace i) (PItem i)) with false. cbn iota.
    rewrite pid_eqb_refl. reflexivity. }
  rewrite (then_pending _ _ _ _ H2).
  assert (H3 : heap (set_heap (PItem i)
                       (Pending ([cleanup_reaction T R E sty i]
                                 ++ [OnSettle (PRace i)]))
                       (alloc (PRace i) s1)) (PRace i)
               = Some (Pending [])).
  { cbn [alloc set_heap heap].
    change (pid_eqb (PItem i) (PRace i)) with false. cbn iota.
    rewrite pid_eqb_refl. reflexivity. }
  rewrite (then_pending _ _ _ _ H3).
  rewrite H1. cbn [alloc set_heap heap queue results app].
  split; [reflexivity|]. split; [reflexivity|].
  intros q. heap_cases; reflexivity.
Qed.

Lemma sequential_loop (rest : list T) (s : state) :
  (limit <= 1)%Z ->
  shape s -> heap s PAll = None -> executing s = [] ->
  no_race_pending s -> no_await (queue s) ->
  (forall i, i < length (results s) ->
             exists v, heap s (PItem i) = Some (Settled (Fulfilled v))) ->
  (forall i rs j, heap s (PItem i) = Some (Pending rs) ->
                  In (OnSettle (PRace j)) rs -> i = j) ->
  (forall j o, In (JReaction (OnSettle (PRace j)) o) (queue s) ->
               heap s (PItem j) = Some (Settled o)) ->
  sequential (loop limit sty rest s).
Proof.
  intros Hl Hs Hall He Hnr Hna P1 P2 P3.
  destruct rest as [|item rest]; cbn [loop].
  - apply (sequential_finish s Hs Hall). split.
    + intros i Hi. apply P1. lia.
    + exact P2.
    + exact P3.
    + intros j rs Hp. destruct (Hnr j rs Hp).
    + intros r o Hin. exfalso. unfold no_await in Hna.
      assert (H : existsb is_await (queue s) = true).
      { apply existsb_exists. eexists. split; [exact Hin | reflexivity]. }
      congruence.
  - rewrite executing_launch, He.
    replace (limit <=? size (set_add (PItem (length (results s))) []))%Z
      with true by (symmetry; apply Z.leb_le; cbn; lia).
    destruct (sequential_turn item rest s He) as [Hr [Hq Hh]].
    set (i := length (results s)) in *.
    set (s' := await_race i rest (launch sty item s)) in *.
    assert (Hold : forall k o, heap s (PItem k) = Some (Settled o) ->
                               heap s' (PItem k) = Some (Settled o)).
    { intros k o Hk. rewrite Hh.
      assert (k < i).
      { destruct (Nat.lt_ge_cases k i) as [Hlt|Hge]; [assumption|].
        rewrite (sh_fresh_item Hs k Hge) in Hk. discriminate. }
      replace (pid_eqb (PRace i) (PItem k)) with false by reflexivity.
      replace (pid_eqb (PClean i) (PItem k)) with false by reflexivity.
      rewrite (pid_eqb_neq (PItem i) (PItem k))
        by (intros H'; injection H' as H'; lia).
      assumption. }
    split.
    + intros k Hk. rewrite Hr, length_app in Hk. simpl in Hk.
      destruct (P1 k) as [v Hv]; [fold i; lia|]. exists v. apply Hold. assumption.
    + intros k rs j. rewrite Hh.
      replace (pid_eqb (PRace i) (PItem k)) with false by reflexivity.
      replace (pid_eqb (PClean i) (PItem k)) with false by reflexivity.
      case_pid (PItem i) (PItem k).
      * intros H Hin. injection H as <-.
        destruct Hin as [Hin | [Hin | []]].
        -- destruct sty; discriminate.
        -- injection Hin as <-. reflexivity.
      * apply P2.
    + intros j o Hin. rewrite Hq in Hin. apply in_app_or in Hin.
      destruct Hin as [Hin | [Hin | []]]; [|discriminate].
      apply Hold. apply P3. assumption.
    + intros j rs. rewrite Hh, Hr, length_app. simpl.
      case_pid (PRace i) (PRace j); [intros _; fold i; lia|].
      intros Hp. destruct (Hnr j rs Hp).
    + intros r o Hin. rewrite Hq in Hin. apply in_app_or in Hin.
      destruct Hin as [Hin | [Hin | []]]; [|discriminate].
      exfalso. unfold no_await in Hna.
      assert (H : existsb is_await (queue s) = true).
      { apply existsb_exists. eexists. split; [exact Hin | reflexivity]. }
      congruence.
Qed.


Lemma sequential_step (ev : event) (s : state) :
  (limit <= 1)%Z -> inv s -> sequential s ->
  sequential (step asyncMapper limit sty ev s).
Proof.
  intros Hl [Hs Hc] Hsq.
  assert (Hhost : forall p o,
             (forall i, p <> PItem i) -> (forall j, p <> PRace j) ->
             forall s1 : state, heap s1 = heap s -> sequential s1 ->
             sequential (settle p o s1)).
  { intros p o Hi Hr s1 Hh1 Hs1. apply sequential_settle; try assumption.
    intros rs r Hp Hin. rewrite Hh1 in Hp.
    exact (apart_hosted s p r (sh_host Hs p rs r Hp Hin) Hi Hr). }
  assert (Hitem : forall i o (s1 : state), heap s1 = heap s -> sequential s1 ->
                                           sequential (settle (PItem i) o s1)).
  { intros i o s1 Hh1 Hs1. apply sequential_settle_item; [|assumption].
    intros rs rest Hp Hin. rewrite Hh1 in Hp.
    exact (item_hosts_no_await s i rest (sh_host Hs _ rs _ Hp Hin)). }
  destruct ev as [|i]; cbn [step].
  - destruct (queue s) as [|j q] eqn:Hq; [assumption|].
    pose proof (sequential_pop s j q Hq Hsq) as Hsq0.
    destruct j as [r o|p q']; cbn [run_job].
    + destruct r as [i item|i|i|i o1|p|rest|k]; cbn [run_reaction].
      * destruct (is_async (asyncMapper item)).
        -- apply sequential_enqueue; [intros j [<- | []]; exact I|].
           apply sequential_alloc; try discriminate.
           apply sequential_same with (s := set_queue q s); auto.
        -- apply Hitem; [reflexivity|].
           apply sequential_same with (s := set_queue q s); auto.
      * apply Hhost; try discriminate; [reflexivity|].
        apply sequential_same with (s := set_queue q s); auto.
      * apply sequential_enqueue.
        { intros j [<- | [<- | []]]; exact I. }
        apply sequential_alloc; try discriminate.
        apply sequential_same with (s := set_queue q s); auto.
      * apply Hhost; try discriminate; [reflexivity | assumption].
      * destruct p as [i|i|i|i|jr| |];
          try (apply Hhost; try discriminate; [reflexivity | assumption]).
        -- apply Hitem; [reflexivity | assumption].
        -- apply sequential_settle_race; [| |assumption].
           ++ destruct Hsq as [_ _ H3 _ _]. apply H3. rewrite Hq. left. reflexivity.
           ++ intros rs r Hp Hin.
              exact (race_hosts_await s jr r (sh_host Hs _ rs r Hp Hin)).
      * assert (Hs0 : shape (set_queue q s)).
        { eapply shape_pop_plain; eauto. }
        destruct (control_pop_await _ _ _ limit inputs s rest o q Hc Hq)
          as [Haw [Hnr [[Hall _] Hsz]]].
        destruct o as [v|e].
        -- apply sequential_loop; try assumption.
           ++ unfold bound, size in Hsz. simpl.
              destruct (executing s); [reflexivity | simpl in Hsz; lia].
           ++ intros i Hi. simpl in Hi.
              destruct Hsq as [H1 _ _ _ H5].
              destruct (H5 rest (Fulfilled v)) as [j [Hj Hv]];
                [rewrite Hq; left; reflexivity|].
              destruct (Nat.eq_dec i j) as [-> | Hne]; [eauto|].
              apply H1. lia.
           ++ destruct Hsq0 as [_ H2 _ _ _]. exact H2.
           ++ destruct Hsq0 as [_ _ H3 _ _]. exact H3.
        -- apply Hhost; try discriminate; [reflexivity | assumption].
      * destruct o as [v|e].
        -- unfold all_resolve.
           set (s1 := set_values _ (set_queue q s)).
           assert (H1 : sequential s1)
             by (apply sequential_same with (s := set_queue q s); auto).
           destruct (all_filled _); [|assumption].
           apply Hhost; try discriminate; [reflexivity | assumption].
        -- apply Hhost; try discriminate; [reflexivity | assumption].
    + apply sequential_then; [|assumption].
      assert (Hj : job_ok s (JThenable p q')).
      { apply (sh_jobs Hs). rewrite Hq. left. reflexivity. }
      simpl in Hj. destruct p; try contradiction; exact I.
  - destruct (heap s (POp i)) as [[rs|o]|]; try assumption.
    destruct (item_of i s); [|assumption].
    apply Hhost; try discriminate; [reflexivity | assumption].
Qed.

Lemma sequential_mapper :
  (limit <= 1)%Z -> sequential (mapper (R := R) (E := E) limit sty inputs).
Proof using All.
  intros Hl. unfold mapper.
  apply sequential_loop; try assumption; try reflexivity.
  - apply shape_init.
  - intros j rs. simpl. discriminate.
  - simpl. intros i Hi. lia.
  - simpl. intros i rs j H. discriminate.
  - simpl. intros j o [].
Qed.

Lemma sequential_run (sched : list event) :
  (limit <= 1)%Z ->
  sequential (run asyncMapper limit sty sched (mapper limit sty inputs)).
Proof.
  intros Hl. induction sched as [|ev sched IH] using rev_ind.
  - apply sequential_mapper. assumption.
  - rewrite run_app. apply sequential_step; [assumption | apply reach_inv | exact IH].
Qed.

End Sequential.

(** X5: with a limit of 1 or less the call goes on to an item only when the
    operation on the item before it has succeeded.  So when the operation
    fails on an item, no later item is ever launched and the operation is
    never invoked for one. *)
Theorem sequential_stops_at_failure :
  forall (T R E : Type) (asyncMapper : T -> behaviour R E) (sty : style)
         (inputs : list T) (limit : Z) (sched : list event),
    (limit <= 1)%Z ->
    let s := run asyncMapper limit sty sched (mapper limit sty inputs) in
    (forall i, launched s (S i) = true ->
       exists x v, nth_error inputs i = Some x
                   /\ op_outcome (asyncMapper x) = Fulfilled v)
    /\ (forall k x e i,
          nth_error inputs k = Some x ->
          op_outcome (asyncMapper x) = Rejected e ->
          k < i ->
          launched s i = false /\ invoked s i = false).
Proof.
  intros T R E asyncMapper sty inputs limit sched Hl s.
  pose proof (reach_shape T R E asyncMapper limit sty inputs sched) as Hs.
  pose proof (sequential_run T R E asyncMapper limit sty inputs sched Hl) as Hsq.
  fold s in Hs, Hsq.
  assert (H : forall i, S i < length (results s) ->
                exists x v, nth_error inputs i = Some x
                            /\ op_outcome (asyncMapper x) = Fulfilled v).
  { intros i Hi. destruct Hsq as [H1 _ _ _ _].
    destruct (H1 i Hi) as [v Hv].
    destruct (sh_item_out Hs i _ Hv) as [x [Hx [Ho _]]].
    exists x, v. split; [assumption | congruence]. }
  split.
  - intros i Hi. apply H. unfold launched in Hi. apply Nat.ltb_lt in Hi. exact Hi.
  - intros k x e i Hx He Hlt.
    assert (Hlen : length (results s) <= i).
    { destruct (Nat.le_gt_cases (length (results s)) i) as [Hle|Hgt];
        [assumption|].
      destruct (H k) as [x' [v [Hx' Hv]]]; [lia|]. congruence. }
    split.
    + unfold launched. apply Nat.ltb_ge. exact Hlen.
    + destruct (invoked s i) eqn:Hi; [|reflexivity].
      pose proof (invoked_lt T R E asyncMapper limit inputs s i Hs Hi). lia.
Qed.

Lemma sequential_stops_at_failure_witness :
  (1 <= 1)%Z
  /\ let s := run fail_on_one 1 UseFinally (timers [0; 1])
                  (mapper 1 UseFinally [0; 1; 2]) in
     (forall i, launched s (S i) = true ->
        exists x v, nth_error [0; 1; 2] i = Some x
                    /\ op_outcome (fail_on_one x) = Fulfilled v)
     /\ (forall k x e i,
           nth_error [0; 1; 2] k = Some x ->
           op_outcome (fail_on_one x) = Rejected e ->
           k < i ->
           launched s i = false /\ invoked s i = false).
Proof.
  split; [lia|].
  apply (sequential_stops_at_failure nat nat nat fail_on_one UseFinally
           [0; 1; 2] 1 (timers [0; 1])).
  lia.
Defined.

(** ** The loops that block *)

Section Numbers.

Local Open Scope Z_scope.

Lemma to_double_exact (z : Z) : Z.abs z < 2 ^ 53 -> to_double z = z.
Proof.
  intros H. unfold to_double.
  destruct (Z.ltb_spec (Z.abs z) (2 ^ 53)); [reflexivity | lia].
Qed.

Lemma to_double_limit : to_double (2 ^ 53) = 2 ^ 53.
Proof. vm_compute. reflexivity. Qed.

Lemma to_double_above_limit : to_double (2 ^ 53 + 1) = 2 ^ 53.
Proof. vm_compute. reflexivity. Qed.

(** Counting up stops at 2^53: the next integer is no float, and the sum
    rounds back. *)
Lemma number_add_one (i : Z) :
  0 <= i <= 2 ^ 53 -> 0 <= number_add i 1 <= 2 ^ 53.
Proof.
  intros H. unfold number_add.
  destruct (Z.eq_dec i (2 ^ 53)) as [-> | Hne].
  - rewrite to_double_above_limit. lia.
  - destruct (Z.eq_dec (i + 1) (2 ^ 53)) as [-> | Hne'].
    + rewrite to_double_limit. lia.
    + rewrite to_double_exact by lia. lia.
Qed.

Lemma heavySyncWork_loop_sum (n : Z) (k : nat) (i : Z) (extra : nat) :
  0 <= i -> i + Z.of_nat k = n -> n <= 2 ^ 27 ->
  heavySyncWork_loop (S k + extra) n (i * (i - 1) / 2) i
  = Some (n * (n - 1) / 2).
Proof.
  revert i. induction k as [|k IH]; intros i Hi Hk Hn.
  - cbn [Nat.add heavySyncWork_loop].
    replace (i <? n) with false by (symmetry; apply Z.ltb_ge; lia).
    do 3 f_equal; lia.
  - change (S (S k) + extra)%nat with (S (S k + extra)).
    cbn [heavySyncWork_loop].
    replace (i <? n) with true by (symmetry; apply Z.ltb_lt; lia).
    assert (Hsum : i * (i - 1) / 2 + i = (i + 1) * (i + 1 - 1) / 2).
    { replace ((i + 1) * (i + 1 - 1)) with (i * (i - 1) + i * 2) by ring.
      rewrite Z.div_add by lia. reflexivity. }
    assert (Hb : 0 <= (i + 1) * (i + 1 - 1) / 2 < 2 ^ 53).
    { split; [apply Z.div_pos; nia|].
      apply Z.div_lt_upper_bound; [lia|].
      assert (i + 1 <= 2 ^ 27) by lia.
      assert ((i + 1) * (i + 1 - 1) <= 2 ^ 27 * 2 ^ 27) by nia.
      change (2 * 2 ^ 53) with (2 ^ 54).
      change (2 ^ 27 * 2 ^ 27) with (2 ^ 54) in *.
      assert ((i + 1) * (i + 1 - 1) <> 2 ^ 54) by nia.
      lia. }
    unfold number_add at 1 2.
    rewrite Hsum, !to_double_exact by lia.
    apply IH; lia.
Qed.

End Numbers.

(** X6: [heavySyncWork(n)] returns 0 + 1 + ... + (n - 1) = n (n - 1) / 2,
    with no rounding on the way, for every count up to 2^27; a count of 0
    or less gives 0. *)
Theorem heavySyncWork_sums :
  forall (iterations : Z) (extra : nat),
    (iterations <= 2 ^ 27)%Z ->
    heavySyncWork (S (Z.to_nat iterations) + extra) iterations
    = Some (if (iterations <=? 0)%Z then 0%Z
            else (iterations * (iterations - 1) / 2)%Z).
Proof.
  intros n extra H. unfold heavySyncWork.
  destruct (Z.leb_spec n 0) as [Hn | Hn].
  - cbn [Nat.add heavySyncWork_loop].
    replace (0 <? n)%Z with false by (symmetry; apply Z.ltb_ge; lia).
    reflexivity.
  - apply (heavySyncWork_loop_sum n (Z.to_nat n) 0 extra); lia.
Qed.

Lemma heavySyncWork_sums_witness :
  (100000 <= 2 ^ 27)%Z
  /\ heavySyncWork (S (Z.to_nat 100000) + 0) 100000
     = Some (if (100000 <=? 0)%Z then 0%Z
             else (100000 * (100000 - 1) / 2)%Z).
Proof.
  split; [lia|]. apply (heavySyncWork_sums 100000 0). lia.
Defined.

(** X7: with a count above 2^53 [heavySyncWork] never returns: its counter
    reaches 2^53 and stays there, as 2^53 + 1 rounds to 2^53. *)
Theorem heavySyncWork_never_ends :
  forall (iterations : Z) (fuel : nat),
    (2 ^ 53 < iterations)%Z ->
    heavySyncWork fuel iterations = None.
Proof.
  intros n fuel H. unfold heavySyncWork.
  assert (G : forall s i, (0 <= i <= 2 ^ 53)%Z ->
                          heavySyncWork_loop fuel n s i = None).
  { induction fuel as [|fuel IH]; intros s i Hi; [reflexivity|].
    cbn [heavySyncWork_loop].
    replace (i <? n)%Z with true by (symmetry; apply Z.ltb_lt; lia).
    apply IH. apply number_add_one. assumption. }
  apply G. lia.
Qed.

Lemma heavySyncWork_never_ends_witness :
  (2 ^ 53 < 2 ^ 53 + 2)%Z
  /\ heavySyncWork 1000 (2 ^ 53 + 2) = None.
Proof.
  split; [lia|]. apply (heavySyncWork_never_ends (2 ^ 53 + 2) 1000). lia.
Defined.

(** X8: [blockingOperation(ms)] returns at the first reading of the clock
    that is [ms] or more after the first one, and at no other: every
    reading before it was less than [ms] after the start. *)
Theorem blockingOperation_waits :
  forall (ms : Z) (clock rest : list Z),
    blockingOperation ms clock = Some rest
    <-> exists start early t,
          clock = start :: early ++ t :: rest
          /\ Forall (fun x => (x - start < ms)%Z) early
          /\ (ms <= t - start)%Z.
Proof.
  intros ms clock rest. split.
  - destruct clock as [|start clock]; [discriminate|]. cbn [blockingOperation].
    intros H. exists start.
    induction clock as [|x clock IH]; [discriminate|].
    cbn [blockingOperation_loop] in H.
    destruct (Z.ltb_spec (x - start) ms) as [Hx | Hx].
    + destruct (IH H) as [early [t [Hc [He Ht]]]].
      exists (x :: early), t. injection Hc as Hc. subst clock.
      split; [reflexivity|]. split; [constructor; assumption | assumption].
    + injection H as <-. exists [], x. auto.
  - intros [start [early [t [-> [He Ht]]]]]. cbn [blockingOperation].
    induction He as [|x early Hx He IH]; cbn [app blockingOperation_loop].
    + replace (t - start <? ms)%Z with false by (symmetry; apply Z.ltb_ge; lia).
      reflexivity.
    + replace (x - start <? ms)%Z with true by (symmetry; apply Z.ltb_lt; lia).
      exact IH.
Qed.

(** ** The functions over timers, promises and requests *)

Section Programs.

Import String.StringSyntax.
Import Js.
Local Open Scope string_scope.
Local Open Scope list_scope.

Ltac run_script_to_end :=
  match goal with
  | |- exists p w, ?run = Some (p, w) /\ _ =>
      let r := eval vm_compute in run in
      match r with
      | Some (?v, ?w0) =>
          exists v, w0; split;
          [vm_compute; reflexivity | vm_compute; repeat split; reflexivity]
      end
  end.

Lemma event_loop_eq (fuel : nat) (limit : option Z) (w : world) :
  event_loop fuel limit w
  = match earliest (timers w) with
    | None => Some w
    | Some t =>
        if match limit with Some l => (l <? due t)%Z | None => false end
        then Some w
        else
          match fuel with
          | 0 => None
          | S fuel =>
              match fire fuel t w with
              | Some w => event_loop fuel limit w
              | None => None
              end
          end
    end.
Proof. destruct fuel; reflexivity. Qed.

Lemma delay_positive (ms : Z) : (1 <= delay ms)%Z.
Proof.
  unfold delay. destruct (Z.ltb_spec ms 1); [simpl; lia|].
  destruct (Z.ltb_spec 2147483647 ms); simpl; lia.
Qed.

(** A part of a run is computed apart from the comparisons of times,
    which are left to be settled by what is known of the times. *)
Ltac compute_part t :=
  let r := eval cbv -[delay Z.add Z.ltb Z.leb] in t in
  let H := fresh in
  assert (H : t = r) by (vm_compute; reflexivity);
  rewrite H; clear H.

Ltac script_part :=
  unfold run_script; cbn [Nat.add];
  match goal with
  | |- context [exec ?f ?c ?w] => compute_part (exec f c w)
  end;
  cbv beta iota delta [conclude];
  match goal with
  | |- context [drain ?f ?w] => compute_part (drain f w)
  end;
  cbv beta iota.

Ltac timer_part :=
  rewrite event_loop_eq;
  match goal with
  | |- context [earliest ?ts] => compute_part (earliest ts)
  end;
  change (delay 5000) with 5000%Z; rewrite ?Z.add_0_l; cbv beta iota.

Ltac fire_part :=
  cbv beta iota;
  match goal with
  | |- context [fire ?f ?t ?w] => compute_part (fire f t w)
  end;
  cbv beta iota.


(** A run in which a value whose text is not known is made into a text:
    the text is left standing. *)
Ltac run_script_with_text :=
  match goal with
  | |- exists p w, ?run = Some (p, w) /\ _ =>
      let r := eval cbv -[to_string] in run in
      match r with
      | Some (?v, ?w0) =>
          exists v, w0; split;
          [cbv -[to_string]; reflexivity
          | cbv -[to_string]; repeat split; reflexivity]
      end
  end.

(** X9: for an id that is a primitive value, the three ways of part_001
    to get a user hand over the same object, [{ id, name: 'User ' + id }],
    1000 ms after the call and not before; the callback is given [null] as
    its error, the promises are fulfilled, and nothing is printed as an
    error. *)
Theorem part001_user_three_ways :
  forall (id : value) (net : String.string -> reply) (extra : nat),
    primitive id = true ->
    let user := VObject [("id", id);
                         ("name", VStr (String.append "User " (to_string id)))] in
    (exists p w,
        run_script (30 + extra) None (Part001.getUserCallback_usage id) net
        = Some (p, w)
        /\ console w = [(1000%Z, Out, [VStr "User via callback:"; user])]
        /\ uncaught w = [])
    /\ (exists p w,
          run_script (30 + extra) (Some 999%Z) (Part001.getUserPromise id) net
          = Some (p, w)
          /\ pending p w = true)
    /\ (exists p w,
          run_script (30 + extra) None (Part001.getUserPromise id) net
          = Some (p, w)
          /\ state_of p w = Some (Settled (Fulfilled user))
          /\ now w = 1000%Z)
    /\ (exists p w,
          run_script (30 + extra) None (Part001.getUserPromise_usage id) net
          = Some (p, w)
          /\ console w = [(1000%Z, Out, [VStr "User via promise:"; user])])
    /\ (exists p w,
          run_script (30 + extra) (Some 999%Z) (Part001.getUserAsync id) net
          = Some (p, w)
          /\ pending p w = true /\ console w = [])
    /\ (exists p w,
          run_script (30 + extra) None (Part001.getUserAsync id) net
          = Some (p, w)
          /\ state_of p w = Some (Settled (Fulfilled user))
          /\ console w = [(1000%Z, Out, [VStr "User via async/await:"; user])])
    /\ (exists p w,
          run_script (30 + extra) None (Part001.getUserAsync_usage id) net
          = Some (p, w)
          /\ console w = [(1000%Z, Out, [VStr "User via async/await:"; user])]
          /\ uncaught w = []).
Proof.
  intros id net extra _ user. unfold user.
  repeat match goal with |- _ /\ _ => split end; run_script_with_text.
Qed.

Lemma part001_user_three_ways_witness :
  primitive (VNum 1) = true
  /\ let user := VObject [("id", (VNum 1));
                         ("name", VStr (String.append "User " (to_string (VNum 1))))] in
    (exists p w,
        run_script (30 + 0) None (Part001.getUserCallback_usage (VNum 1)) Setting.no_network
        = Some (p, w)
        /\ console w = [(1000%Z, Out, [VStr "User via callback:"; user])]
        /\ uncaught w = [])
    /\ (exists p w,
          run_script (30 + 0) (Some 999%Z) (Part001.getUserPromise (VNum 1)) Setting.no_network
          = Some (p, w)
          /\ pending p w = true)
    /\ (exists p w,
          run_script (30 + 0) None (Part001.getUserPromise (VNum 1)) Setting.no_network
          = Some (p, w)
          /\ state_of p w = Some (Settled (Fulfilled user))
          /\ now w = 1000%Z)
    /\ (exists p w,
          run_script (30 + 0) None (Part001.getUserPromise_usage (VNum 1)) Setting.no_network
          = Some (p, w)
          /\ console w = [(1000%Z, Out, [VStr "User via promise:"; user])])
    /\ (exists p w,
          run_script (30 + 0) (Some 999%Z) (Part001.getUserAsync (VNum 1)) Setting.no_network
          = Some (p, w)
          /\ pending p w = true /\ console w = [])
    /\ (exists p w,
          run_script (30 + 0) None (Part001.getUserAsync (VNum 1)) Setting.no_network
          = Some (p, w)
          /\ state_of p w = Some (Settled (Fulfilled user))
          /\ console w = [(1000%Z, Out, [VStr "User via async/await:"; user])])
    /\ (exists p w,
          run_script (30 + 0) None (Part001.getUserAsync_usage (VNum 1)) Setting.no_network
          = Some (p, w)
          /\ console w = [(1000%Z, Out, [VStr "User via async/await:"; user])]
          /\ uncaught w = []).
Proof.
  split; [reflexivity|].
  apply (part001_user_three_ways (VNum 1) Setting.no_network 0). reflexivity.
Defined.

(** X10: for an id that is a primitive value, the three ways of part_002
    to get a user hand over the same object 100 ms after the call and not
    before. *)
Theorem part002_user_three_ways :
  forall (id : value) (net : String.string -> reply) (extra : nat),
    primitive id = true ->
    let user := VObject [("id", id);
                         ("name", VStr (String.append "User " (to_string id)))] in
    (exists p w,
        run_script (30 + extra) None (Part002.fetchUserCallback_usage id) net
        = Some (p, w)
        /\ console w = [(100%Z, Out, [VStr "User via callback:"; user])]
        /\ uncaught w = [])
    /\ (exists p w,
          run_script (30 + extra) (Some 99%Z) (Part002.fetchUserPromise id) net
          = Some (p, w)
          /\ pending p w = true)
    /\ (exists p w,
          run_script (30 + extra) None (Part002.fetchUserPromise id) net
          = Some (p, w)
          /\ state_of p w = Some (Settled (Fulfilled user))
          /\ now w = 100%Z)
    /\ (exists p w,
          run_script (30 + extra) None (Part002.fetchUserPromise_usage id) net
          = Some (p, w)
          /\ console w = [(100%Z, Out, [VStr "User via promise:"; user])])
    /\ (exists p w,
          run_script (30 + extra) (Some 99%Z) (Part002.fetchUser id) net
          = Some (p, w)
          /\ pending p w = true)
    /\ (exists p w,
          run_script (30 + extra) None (Part002.fetchUser id) net
          = Some (p, w)
          /\ state_of p w = Some (Settled (Fulfilled user))
          /\ console w = [])
    /\ (exists p w,
          run_script (30 + extra) None (Part002.fetchUser_usage id) net
          = Some (p, w)
          /\ console w = [(100%Z, Out, [VStr "User via async/await:"; user])]
          /\ uncaught w = []).
Proof.
  intros id net extra _ user. unfold user.
  repeat match goal with |- _ /\ _ => split end; run_script_with_text.
Qed.

Lemma part002_user_three_ways_witness :
  primitive (VNum 1) = true
  /\ let user := VObject [("id", (VNum 1));
                         ("name", VStr (String.append "User " (to_string (VNum 1))))] in
    (exists p w,
        run_script (30 + 0) None (Part002.fetchUserCallback_usage (VNum 1)) Setting.no_network
        = Some (p, w)
        /\ console w = [(100%Z, Out, [VStr "User via callback:"; user])]
        /\ uncaught w = [])
    /\ (exists p w,
          run_script (30 + 0) (Some 99%Z) (Part002.fetchUserPromise (VNum 1)) Setting.no_network
          = Some (p, w)
          /\ pending p w = true)
    /\ (exists p w,
          run_script (30 + 0) None (Part002.fetchUserPromise (VNum 1)) Setting.no_network
          = Some (p, w)
          /\ state_of p w = Some (Settled (Fulfilled user))
          /\ now w = 100%Z)
    /\ (exists p w,
          run_script (30 + 0) None (Part002.fetchUserPromise_usage (VNum 1)) Setting.no_network
          = Some (p, w)
          /\ console w = [(100%Z, Out, [VStr "User via promise:"; user])])
    /\ (exists p w,
          run_script (30 + 0) (Some 99%Z) (Part002.fetchUser (VNum 1)) Setting.no_network
          = Some (p, w)
          /\ pending p w = true)
    /\ (exists p w,
          run_script (30 + 0) None (Part002.fetchUser (VNum 1)) Setting.no_network
          = Some (p, w)
          /\ state_of p w = Some (Settled (Fulfilled user))
          /\ console w = [])
    /\ (exists p w,
          run_script (30 + 0) None (Part002.fetchUser_usage (VNum 1)) Setting.no_network
          = Some (p, w)
          /\ console w = [(100%Z, Out, [VStr "User via async/await:"; user])]
          /\ uncaught w = []).
Proof.
  split; [reflexivity|].
  apply (part002_user_three_ways (VNum 1) Setting.no_network 0). reflexivity.
Defined.

(** X11: an abort that comes before the 5000 ms are over cancels the
    operation: its promise is rejected with the error 'Operation cancelled'
    at the time of the abort, the timer is cleared, so that nothing is left
    to run, and 'completed' is never delivered. *)
Theorem abort_in_time_cancels :
  forall (ms : Z) (net : String.string -> reply) (extra : nat),
    (delay ms < 5000)%Z ->
    (exists p w,
        run_script (30 + extra) None (Part001.cancellableOperation_usage ms) net
        = Some (p, w)
        /\ console w
           = [(delay ms, Out, [VStr "Error:"; VStr "Operation cancelled"])]
        /\ nth_error (promises w) 0
           = Some (Settled (Rejected (VError "Error" "Operation cancelled")))
        /\ timers w = []
        /\ now w = delay ms)
    /\ (exists p w,
          run_script (30 + extra) None (Part002.cancellableOperation_usage ms) net
          = Some (p, w)
          /\ console w
             = [(delay ms, Out, [VStr "Error:"; VStr "Operation cancelled"])]
          /\ nth_error (promises w) 0
             = Some (Settled (Rejected (VError "Error" "Operation cancelled")))
          /\ timers w = []
          /\ now w = delay ms).
Proof.
  intros ms net extra H. pose proof (delay_positive ms) as Hp.
  split; do 2 eexists; (split;
    [ script_part; timer_part;
      replace (delay ms <? 5000)%Z with true by (symmetry; apply Z.ltb_lt; lia);
      fire_part; timer_part;
      reflexivity
    | vm_compute; repeat split; reflexivity ]).
Qed.

Lemma abort_in_time_cancels_witness :
  (delay 2000 < 5000)%Z
  /\ (exists p w,
        run_script (30 + 0) None (Part001.cancellableOperation_usage 2000)
                   Setting.no_network
        = Some (p, w)
        /\ console w
           = [(delay 2000, Out, [VStr "Error:"; VStr "Operation cancelled"])]
        /\ nth_error (promises w) 0
           = Some (Settled (Rejected (VError "Error" "Operation cancelled")))
        /\ timers w = []
        /\ now w = delay 2000)
  /\ (exists p w,
        run_script (30 + 0) None (Part002.cancellableOperation_usage 2000)
                   Setting.no_network
        = Some (p, w)
        /\ console w
           = [(delay 2000, Out, [VStr "Error:"; VStr "Operation cancelled"])]
        /\ nth_error (promises w) 0
           = Some (Settled (Rejected (VError "Error" "Operation cancelled")))
        /\ timers w = []
        /\ now w = delay 2000).
Proof.
  split; [cbn; lia|].
  apply (abort_in_time_cancels 2000 Setting.no_network 0). cbn. lia.
Defined.

(** X12: an abort that comes when the 5000 ms are over changes nothing: the
    promise was fulfilled with 'completed' at 5000 ms and stays so, and
    nothing is printed but that result. *)
Theorem late_abort_is_ignored :
  forall (ms : Z) (net : String.string -> reply) (extra : nat),
    (5000 <= delay ms)%Z ->
    (exists p w,
        run_script (30 + extra) None (Part001.cancellableOperation_usage ms) net
        = Some (p, w)
        /\ console w = [(5000%Z, Out, [VStr "Result:"; VStr "completed"])]
        /\ nth_error (promises w) 0
           = Some (Settled (Fulfilled (VStr "completed")))
        /\ timers w = []
        /\ now w = delay ms)
    /\ (exists p w,
          run_script (30 + extra) None (Part002.cancellableOperation_usage ms) net
          = Some (p, w)
          /\ console w = [(5000%Z, Out, [VStr "Result:"; VStr "completed"])]
          /\ nth_error (promises w) 0
             = Some (Settled (Fulfilled (VStr "completed")))
          /\ timers w = []
          /\ now w = delay ms).
Proof.
  intros ms net extra H.
  split; do 2 eexists; (split;
    [ script_part; timer_part;
      replace (delay ms <? 5000)%Z with false by (symmetry; apply Z.ltb_ge; lia);
      fire_part; timer_part; fire_part; timer_part;
      reflexivity
    | vm_compute; repeat split; reflexivity ]).
Qed.

Lemma late_abort_is_ignored_witness :
  (5000 <= delay 6000)%Z
  /\ (exists p w,
        run_script (30 + 0) None (Part001.cancellableOperation_usage 6000)
                   Setting.no_network
        = Some (p, w)
        /\ console w = [(5000%Z, Out, [VStr "Result:"; VStr "completed"])]
        /\ nth_error (promises w) 0
           = Some (Settled (Fulfilled (VStr "completed")))
        /\ timers w = []
        /\ now w = delay 6000)
  /\ (exists p w,
        run_script (30 + 0) None (Part002.cancellableOperation_usage 6000)
                   Setting.no_network
        = Some (p, w)
        /\ console w = [(5000%Z, Out, [VStr "Result:"; VStr "completed"])]
        /\ nth_error (promises w) 0
           = Some (Settled (Fulfilled (VStr "completed")))
        /\ timers w = []
        /\ now w = delay 6000).
Proof.
  split; [cbn; lia|].
  apply (late_abort_is_ignored 6000 Setting.no_network 0). cbn. lia.
Defined.

(** X13: a signal that was aborted before the call is not noticed: the
    listener is never run, and the operation completes after 5000 ms as if
    nobody had cancelled it. *)
Theorem aborted_signal_is_not_noticed :
  forall (net : String.string -> reply) (extra : nat),
    (exists p w,
        run_script (30 + extra) None
                   (Setting.abort_first Part001.cancellableOperation) net
        = Some (p, w)
        /\ state_of p w = Some (Settled (Fulfilled (VStr "completed")))
        /\ map aborted (signals w) = [true]
        /\ now w = 5000%Z)
    /\ (exists p w,
          run_script (30 + extra) None
                     (Setting.abort_first Part002.cancellableOperation) net
          = Some (p, w)
          /\ state_of p w = Some (Settled (Fulfilled (VStr "completed")))
          /\ map aborted (signals w) = [true]
          /\ now w = 5000%Z).
Proof.
  intros net extra. split; run_script_to_end.
Qed.

(** X14: without a signal the operation of part_001 simply completes after
    5000 ms, while the one of part_002 fails at once: its promise is
    rejected with a TypeError before the call returns, yet its timer stays
    set and holds the program for the 5000 ms. *)
Theorem operation_without_signal :
  forall (signal : value) (net : String.string -> reply) (extra : nat),
    nullish signal = true ->
    (exists p w,
        run_script (30 + extra) None (Part001.cancellableOperation signal) net
        = Some (p, w)
        /\ state_of p w = Some (Settled (Fulfilled (VStr "completed")))
        /\ now w = 5000%Z)
    /\ (exists p w message,
          run_script (30 + extra) (Some 4999%Z)
                     (Part002.cancellableOperation signal) net
          = Some (p, w)
          /\ state_of p w = Some (Settled (Rejected (VError "TypeError" message)))
          /\ now w = 0%Z
          /\ length (timers w) = 1)
    /\ (exists p w message,
          run_script (30 + extra) None (Part002.cancellableOperation signal) net
          = Some (p, w)
          /\ state_of p w = Some (Settled (Rejected (VError "TypeError" message)))
          /\ now w = 5000%Z).
Proof.
  intros signal net extra H.
  destruct signal; try discriminate H;
    (split; [run_script_to_end|]);
    (split;
     match goal with
     | |- exists p w m, ?run = Some (p, w) /\ _ =>
         let r := eval vm_compute in run in
         match r with
         | Some (?v, ?w0) =>
             exists v, w0; eexists; split;
             [vm_compute; reflexivity | vm_compute; repeat split; reflexivity]
         end
     end).
Qed.

Lemma operation_without_signal_witness :
  nullish VUndefined = true
  /\ (exists p w,
        run_script (30 + 0) None (Part001.cancellableOperation VUndefined)
                   Setting.no_network
        = Some (p, w)
        /\ state_of p w = Some (Settled (Fulfilled (VStr "completed")))
        /\ now w = 5000%Z)
  /\ (exists p w message,
        run_script (30 + 0) (Some 4999%Z)
                   (Part002.cancellableOperation VUndefined) Setting.no_network
        = Some (p, w)
        /\ state_of p w = Some (Settled (Rejected (VError "TypeError" message)))
        /\ now w = 0%Z
        /\ length (timers w) = 1)
  /\ (exists p w message,
        run_script (30 + 0) None (Part002.cancellableOperation VUndefined)
                   Setting.no_network
        = Some (p, w)
        /\ state_of p w = Some (Settled (Rejected (VError "TypeError" message)))
        /\ now w = 5000%Z).
Proof.
  split; [reflexivity|].
  apply (operation_without_signal VUndefined Setting.no_network 0). reflexivity.
Defined.

(** X15: the promise of [willReject] is settled 50 ms after the call and not
    before: rejected with the error 'boom' when the argument is truthy,
    fulfilled with 'ok' when it is not.  A [catch] on the chain and a
    [try]/[catch] around [await] both get that error. *)
Theorem willReject_outcomes :
  forall (shouldReject : value) (net : String.string -> reply) (extra : nat),
    (exists p w,
        run_script (30 + extra) (Some 49%Z) (AsyncDemo.willReject shouldReject) net
        = Some (p, w)
        /\ pending p w = true)
    /\ (exists p w,
          run_script (30 + extra) None (AsyncDemo.willReject shouldReject) net
          = Some (p, w)
          /\ state_of p w
             = Some (Settled (if truthy shouldReject
                              then Rejected (VError "Error" "boom")
                              else Fulfilled (VStr "ok")))
          /\ now w = 50%Z)
    /\ (exists p w,
          run_script (30 + extra) None
                     (AsyncDemo.willReject_then_catch shouldReject) net
          = Some (p, w)
          /\ console w
             = [(50%Z, Out, if truthy shouldReject
                            then [VStr "caught (promise):"; VStr "boom"]
                            else [VStr "ok"])])
    /\ (exists p w,
          run_script (30 + extra) None
                     (AsyncDemo.willReject_try_await shouldReject) net
          = Some (p, w)
          /\ console w
             = (if truthy shouldReject
                then [(50%Z, Out, [VStr "caught (await):"; VStr "boom"])]
                else [])
          /\ uncaught w = []).
Proof.
  intros shouldReject net extra.
  unfold AsyncDemo.willReject_then_catch, AsyncDemo.willReject_try_await,
    AsyncDemo.willReject.
  destruct (truthy shouldReject);
    repeat match goal with |- _ /\ _ => split end; run_script_to_end.
Qed.

(** X16: for a user id that is a primitive value and a response whose
    status is a status code, [fetchUserData] asks for the user's address
    once.  Its promise is fulfilled with the parsed body when the response
    is ok and the body parses, with nothing printed; in every other case
    it is rejected, with the error of the network, with
    'HTTP error! status: ' and the status, or with the error of the
    parser, and that same error is printed once. *)
Theorem fetchUserData_outcomes :
  forall (userId : value) (r : reply) (extra : nat),
    primitive userId = true ->
    status_code (content r) = true ->
    exists p w,
      run_script (30 + extra) None (Part001.fetchUserData userId) (fun _ => r)
      = Some (p, w)
      /\ requests w
         = [String.append "https://api.example.com/users/" (to_string userId)]
      /\ timers w = []
      /\ match content r with
         | NetworkError e =>
             state_of p w = Some (Settled (Rejected e))
             /\ messages w = [(Err, [VStr "Failed to fetch user:"; e])]
         | Response true status (Some data) =>
             state_of p w = Some (Settled (Fulfilled (of_json data)))
             /\ messages w = []
         | Response true status None =>
             exists e,
               state_of p w = Some (Settled (Rejected e))
               /\ messages w = [(Err, [VStr "Failed to fetch user:"; e])]
         | Response false status body =>
             let e := VError "Error"
                             (String.append "HTTP error! status: "
                                            (to_string (VNum status))) in
             state_of p w = Some (Settled (Rejected e))
             /\ messages w = [(Err, [VStr "Failed to fetch user:"; e])]
         end.
Proof.
  intros userId [lat [e | [|] status [[| b | n | s | l | l]|]]] extra _ _;
    match goal with
    | |- exists p w, ?run = Some (p, w) /\ _ =>
        let r := eval cbv -[to_string] in run in
        match r with
        | Some (?v, ?w0) =>
            exists v, w0; split; [cbv -[to_string]; reflexivity|];
            split; [cbv -[to_string]; reflexivity|];
            split; [reflexivity|];
            first [ cbv -[to_string]; split; reflexivity
                  | eexists; cbv -[to_string]; split; reflexivity ]
        end
    end.
Qed.

Lemma fetchUserData_outcomes_witness :
  primitive (VNum 7) = true
  /\ status_code (Response false 404 None) = true
  /\ exists p w,
       run_script (30 + 0) None (Part001.fetchUserData (VNum 7))
                  (fun _ => mkReply 20 (Response false 404 None))
       = Some (p, w)
       /\ requests w = ["https://api.example.com/users/7"]
       /\ timers w = []
       /\ state_of p w
          = Some (Settled (Rejected (VError "Error" "HTTP error! status: 404")))
       /\ messages w
          = [(Err, [VStr "Failed to fetch user:";
                    VError "Error" "HTTP error! status: 404"])].
Proof.
  split; [reflexivity|]. split; [reflexivity|].
  apply (fetchUserData_outcomes (VNum 7) (mkReply 20 (Response false 404 None)) 0);
    reflexivity.
Defined.

(** X17: for a user id that is a primitive value and a response whose
    status is a status code, [fetchUserWithPosts] is fulfilled with the
    user of [fetchUserData] and no posts when that call succeeds; when it
    fails, the promise is rejected with the same error, which is printed
    twice, first by [fetchUserData], then by [fetchUserWithPosts]. *)
Theorem fetchUserWithPosts_outcomes :
  forall (userId : value) (r : reply) (extra : nat),
    primitive userId = true ->
    status_code (content r) = true ->
    exists p w,
      run_script (30 + extra) None (Part001.fetchUserWithPosts userId) (fun _ => r)
      = Some (p, w)
      /\ requests w
         = [String.append "https://api.example.com/users/" (to_string userId)]
      /\ timers w = []
      /\ match content r with
         | Response true status (Some data) =>
             state_of p w
             = Some (Settled (Fulfilled
                  (VObject [("user", of_json data); ("posts", VArray [])])))
             /\ messages w = []
         | _ =>
             exists e,
               state_of p w = Some (Settled (Rejected e))
               /\ messages w
                  = [(Err, [VStr "Failed to fetch user:"; e]);
                     (Err, [VStr "Failed to fetch user data:"; e])]
         end.
Proof.
  intros userId [lat [e | [|] status [[| b | n | s | l | l]|]]] extra _ _;
    match goal with
    | |- exists p w, ?run = Some (p, w) /\ _ =>
        let r := eval cbv -[to_string] in run in
        match r with
        | Some (?v, ?w0) =>
            exists v, w0; split; [cbv -[to_string]; reflexivity|];
            split; [cbv -[to_string]; reflexivity|];
            split; [reflexivity|];
            first [ cbv -[to_string]; split; reflexivity
                  | eexists; cbv -[to_string]; split; reflexivity ]
        end
    end.
Qed.

Lemma fetchUserWithPosts_outcomes_witness :
  primitive (VNum 7) = true
  /\ status_code (Response true 200 (Some (JObj [("id", JNum 7)]))) = true
  /\ exists p w,
       run_script (30 + 0) None (Part001.fetchUserWithPosts (VNum 7))
                  (fun _ => mkReply 20 (Response true 200
                                          (Some (JObj [("id", JNum 7)]))))
       = Some (p, w)
       /\ requests w = ["https://api.example.com/users/7"]
       /\ timers w = []
       /\ state_of p w
          = Some (Settled (Fulfilled
               (VObject [("user", VObject [("id", VNum 7)]);
                         ("posts", VArray [])])))
       /\ messages w = [].
Proof.
  split; [reflexivity|]. split; [reflexivity|].
  apply (fetchUserWithPosts_outcomes (VNum 7)
           (mkReply 20 (Response true 200 (Some (JObj [("id", JNum 7)])))) 0);
    reflexivity.
Defined.

(** X18: the two examples of good practice are fulfilled with 3 before any
    timer runs, and 'Cleanup complete' is printed once by the first; but
    the timer that is to abort them is never cleared: it stays set until
    5000 ms, when the abort finds nobody listening. *)
Theorem practice_examples_leave_their_timer :
  forall (net : String.string -> reply) (extra : nat),
    (exists p w,
        run_script (30 + extra) (Some 4999%Z) Part001.bestPracticeExample net
        = Some (p, w)
        /\ state_of p w = Some (Settled (Fulfilled (VNum 3)))
        /\ console w = [(0%Z, Out, [VStr "Cleanup complete"])]
        /\ now w = 0%Z
        /\ map due (timers w) = [5000%Z])
    /\ (exists p w,
          run_script (30 + extra) None Part001.bestPracticeExample net
          = Some (p, w)
          /\ state_of p w = Some (Settled (Fulfilled (VNum 3)))
          /\ console w = [(0%Z, Out, [VStr "Cleanup complete"])]
          /\ now w = 5000%Z)
    /\ (exists p w,
          run_script (30 + extra) (Some 4999%Z) Part002.goodPracticeExample net
          = Some (p, w)
          /\ state_of p w = Some (Settled (Fulfilled (VNum 3)))
          /\ console w = []
          /\ now w = 0%Z
          /\ map due (timers w) = [5000%Z])
    /\ (exists p w,
          run_script (30 + extra) None Part002.goodPracticeExample net
          = Some (p, w)
          /\ state_of p w = Some (Settled (Fulfilled (VNum 3)))
          /\ console w = []
          /\ now w = 5000%Z).
Proof.
  intros net extra.
  repeat match goal with |- _ /\ _ => split end; run_script_to_end.
Qed.

End Programs.
